(** * The client-side request Batcher (src/yb/client/batcher.cc)

    A shallow embedding of [yb::client::internal::Batcher] and the
    properties of its flush life cycle: submission, tablet lookup
    rendezvous, error contagion by partition key, sorting and grouping,
    dispatch, response merging and the final callback.

    Conventions of the embedding.
    - The Batcher's fields keep their source names ([state_], [ops_],
      [ops_queue_], ...).  Everything outside the Batcher that a method
      touches (session notifications, the user callback, RPCs being sent,
      log lines) is recorded, in order, in the [effects] of the [World].
    - A method is a computation in the monad [M]: it threads the [World]
      and may stop with a [Fault] (a failed CHECK, a call through an empty
      functor, a dereference of a null tablet pointer).
    - [LOG(DFATAL)] is modelled as in release builds: the line is logged and
      execution continues.  [VLOG] lines are not modelled. *)

From stdpp Require Import base option list gmap strings sorting.
From Stdlib Require Import ZArith Lia QArith.
From Stdlib Require Import Floats.SpecFloat.

Local Open Scope string_scope.
Local Open Scope Z_scope.

(** ** Statuses *)

Module Code.
(** The codes of [yb::Status] that the Batcher produces or inspects;
    [Other n] stands for the remaining ones. *)
Inductive t :=
| OK | NotFound | IOError | IllegalState | Aborted | TimedOut
| Combined | InternalError | Other (n : Z).
End Code.

Inductive ClientErrorCode :=
| kNone
| kTablePartitionListIsStale
| kTablePartitionListVersionDoesNotMatch
| kOtherClientError (n : Z).

(** [PartitionKey] is [std::string]. *)
Definition PartitionKey := string.

(** Status messages.  The formatted messages of batcher.cc are kept as
    structured values (the format arguments instead of the rendered text). *)
Inductive StatusMsg :=
| Text (s : string)
| HashPartitionKeyIsEmpty (op : Z)
| RowNotInPartition (op : Z) (tablet_addr : Z) (key : PartitionKey)
| PartitionListVersionMismatch (op : Z) (requested ours : Z)
| Prepend (op : Z) (seq : nat) (m : StatusMsg).

Record Status := STATUS {
  code : Code.t;
  client_error : ClientErrorCode;
  message : StatusMsg
}.

Definition Status_OK : Status := STATUS Code.OK kNone (Text EmptyString).

Definition ok (s : Status) : bool :=
  match code s with Code.OK => true | _ => false end.

(** [ClientError(status)]: the client error code attached to a status. *)
Definition ClientError (s : Status) : ClientErrorCode := client_error s.

Definition IsCombined (s : Status) : bool :=
  match code s with Code.Combined => true | _ => false end.

(** [Status::CloneAndPrepend]. *)
Definition CloneAndPrepend (s : Status) (op : Z) (seq : nat) : Status :=
  STATUS (code s) (client_error s) (Prepend op seq (message s)).

Definition kErrorReachingOutToTServersMsg : string :=
  "Errors occurred while reaching out to the tablet servers".

Definition kGeneralErrorStatus : Status :=
  STATUS Code.IOError kNone (Text kErrorReachingOutToTServersMsg).

#[global] Instance Code_eq_dec : EqDecision Code.t.
Proof. solve_decision. Defined.
#[global] Instance ClientErrorCode_eq_dec : EqDecision ClientErrorCode.
Proof. solve_decision. Defined.
#[global] Instance StatusMsg_eq_dec : EqDecision StatusMsg.
Proof. solve_decision. Defined.
#[global] Instance Status_eq_dec : EqDecision Status.
Proof. solve_decision. Defined.

(** ** Operations, tablets and in-flight records *)

Inductive OpType :=
| QL_READ | QL_WRITE | PGSQL_READ | PGSQL_WRITE | REDIS_READ | REDIS_WRITE.

(** [OpGroup], in the order of its enumerators. *)
Inductive OpGroup := kWrite | kLeaderRead | kConsistentPrefixRead.

Definition OpGroup_to_Z (g : OpGroup) : Z :=
  match g with kWrite => 0 | kLeaderRead => 1 | kConsistentPrefixRead => 2 end.

#[global] Instance OpGroup_eq_dec : EqDecision OpGroup.
Proof. solve_decision. Defined.

(** [RemoteTablet], reached through a [RemoteTabletPtr].  [tablet_addr] is
    the address of the object, which is what the sort compares; the
    partition is represented by its [ContainsKey] test. *)
Record RemoteTablet := {
  tablet_addr : Z;
  ContainsKey : PartitionKey -> bool;
  tablet_partition_list_version : Z
}.

Record YBTable := {
  namespace_name : string;
  IsHashPartitioning : bool
}.

(** What the Batcher reads from a [YBOperation].  [op_addr] is the address
    held by the [shared_ptr]; [GetPartitionKey] is the returned status
    together with the key written through the out-parameter. *)
Record YBOperation := {
  op_addr : Z;
  type : OpType;
  group : OpGroup;
  read_only : bool;
  table : YBTable;
  GetPartitionKey : Status * PartitionKey;
  op_tablet : option RemoteTablet;
  partition_list_version : option Z
}.

Record InFlightOp := {
  yb_op : YBOperation;
  partition_key : PartitionKey;
  tablet : option RemoteTablet;
  error : Status;
  sequence_number : nat
}.

(** The constructor [InFlightOp(yb_op, seq)]. *)
Definition InFlightOp_new (o : YBOperation) (seq : nat) : InFlightOp :=
  {| yb_op := o; partition_key := EmptyString; tablet := None;
     error := Status_OK; sequence_number := seq |}.

Definition set_partition_key (k : PartitionKey) (o : InFlightOp) : InFlightOp :=
  {| yb_op := yb_op o; partition_key := k; tablet := tablet o;
     error := error o; sequence_number := sequence_number o |}.

Definition set_tablet (t : option RemoteTablet) (o : InFlightOp) : InFlightOp :=
  {| yb_op := yb_op o; partition_key := partition_key o; tablet := t;
     error := error o; sequence_number := sequence_number o |}.

Definition set_error (s : Status) (o : InFlightOp) : InFlightOp :=
  {| yb_op := yb_op o; partition_key := partition_key o; tablet := tablet o;
     error := s; sequence_number := sequence_number o |}.

(** [tablet.get()] as an address; the null pointer is 0. *)
Definition tablet_get (o : InFlightOp) : Z :=
  match tablet o with Some t => tablet_addr t | None => 0 end.

(** [InFlightOpsGroup]: a half-open range of positions of [ops_queue_].
    The RPC built for a group works on that range of the queue itself (an
    iterator range, not a copy). *)
Record InFlightOpsGroup := {
  need_metadata : bool;
  group_begin : nat;
  group_end : nat
}.

Inductive YBConsistencyLevel := STRONG | CONSISTENT_PREFIX.

Inductive RpcKind := WriteRpc | ReadRpc (level : YBConsistencyLevel).

(** [AsyncRpcData] together with the concrete class built from it. *)
Record AsyncRpc := {
  rpc_kind : RpcKind;
  rpc_tablet : Z;
  allow_local_calls_in_curr_thread : bool;
  need_consistent_read : bool;
  rpc_ops : nat * nat;
  rpc_need_metadata : bool
}.

(** [AppStatusPB]: a status as it travels in a response. *)
Record AppStatusPB := {
  pb_code : Z;
  pb_message : string
}.

(** [WriteResponsePB] with its per-row errors; [row_index] is an [int32]. *)
Record PerRowErrorPB := {
  row_index : Z;
  row_error : AppStatusPB
}.

Record WriteResponsePB := {
  propagated_hybrid_time : option Z;
  per_row_errors : list PerRowErrorPB
}.

(** ** The Batcher *)

Inductive BatcherState :=
| kGatheringOps | kResolvingTablets | kTransactionPrepare
| kTransactionReady | kComplete | kAborted.

#[global] Instance BatcherState_eq_dec : EqDecision BatcherState.
Proof. solve_decision. Defined.

(** Modelled from the spec: [YBTransaction] (transaction.cc is not among the
    sources).  [Prepare] answers whether the transaction is ready now
    ([true]) or will call [TransactionReady] later ([false]); when ready it
    decides, per tablet, whether the RPC must carry the metadata. *)
Record YBTransaction := {
  Prepare_ready : bool -> bool;
  Prepare_need_metadata : Z -> bool
}.

Record Batcher := {
  state_ : BatcherState;
  ops_ : list YBOperation;
  ops_queue_ : list InFlightOp;
  ops_info_groups : list InFlightOpsGroup;
  outstanding_lookups_ : Z;
  outstanding_rpcs_ : Z;
  error_collector_ : list (Z * Status);
  combined_error_ : Status;
  flush_callback_ : option Z;
  transaction_ : option YBTransaction;
  read_point_ : bool;
  force_consistent_read_ : bool;
  allow_local_calls_in_curr_thread_ : bool;
  deadline_ : Z
}.

Definition set_state (s : BatcherState) (b : Batcher) : Batcher :=
  {| state_ := s; ops_ := ops_ b; ops_queue_ := ops_queue_ b;
     ops_info_groups := ops_info_groups b;
     outstanding_lookups_ := outstanding_lookups_ b;
     outstanding_rpcs_ := outstanding_rpcs_ b;
     error_collector_ := error_collector_ b;
     combined_error_ := combined_error_ b;
     flush_callback_ := flush_callback_ b; transaction_ := transaction_ b;
     read_point_ := read_point_ b;
     force_consistent_read_ := force_consistent_read_ b;
     allow_local_calls_in_curr_thread_ := allow_local_calls_in_curr_thread_ b;
     deadline_ := deadline_ b |}.

Definition set_ops (l : list YBOperation) (b : Batcher) : Batcher :=
  {| state_ := state_ b; ops_ := l; ops_queue_ := ops_queue_ b;
     ops_info_groups := ops_info_groups b;
     outstanding_lookups_ := outstanding_lookups_ b;
     outstanding_rpcs_ := outstanding_rpcs_ b;
     error_collector_ := error_collector_ b;
     combined_error_ := combined_error_ b;
     flush_callback_ := flush_callback_ b; transaction_ := transaction_ b;
     read_point_ := read_point_ b;
     force_consistent_read_ := force_consistent_read_ b;
     allow_local_calls_in_curr_thread_ := allow_local_calls_in_curr_thread_ b;
     deadline_ := deadline_ b |}.

Definition set_ops_queue (q : list InFlightOp) (b : Batcher) : Batcher :=
  {| state_ := state_ b; ops_ := ops_ b; ops_queue_ := q;
     ops_info_groups := ops_info_groups b;
     outstanding_lookups_ := outstanding_lookups_ b;
     outstanding_rpcs_ := outstanding_rpcs_ b;
     error_collector_ := error_collector_ b;
     combined_error_ := combined_error_ b;
     flush_callback_ := flush_callback_ b; transaction_ := transaction_ b;
     read_point_ := read_point_ b;
     force_consistent_read_ := force_consistent_read_ b;
     allow_local_calls_in_curr_thread_ := allow_local_calls_in_curr_thread_ b;
     deadline_ := deadline_ b |}.

Definition set_groups (g : list InFlightOpsGroup) (b : Batcher) : Batcher :=
  {| state_ := state_ b; ops_ := ops_ b; ops_queue_ := ops_queue_ b;
     ops_info_groups := g;
     outstanding_lookups_ := outstanding_lookups_ b;
     outstanding_rpcs_ := outstanding_rpcs_ b;
     error_collector_ := error_collector_ b;
     combined_error_ := combined_error_ b;
     flush_callback_ := flush_callback_ b; transaction_ := transaction_ b;
     read_point_ := read_point_ b;
     force_consistent_read_ := force_consistent_read_ b;
     allow_local_calls_in_curr_thread_ := allow_local_calls_in_curr_thread_ b;
     deadline_ := deadline_ b |}.

Definition set_outstanding_lookups (n : Z) (b : Batcher) : Batcher :=
  {| state_ := state_ b; ops_ := ops_ b; ops_queue_ := ops_queue_ b;
     ops_info_groups := ops_info_groups b;
     outstanding_lookups_ := n;
     outstanding_rpcs_ := outstanding_rpcs_ b;
     error_collector_ := error_collector_ b;
     combined_error_ := combined_error_ b;
     flush_callback_ := flush_callback_ b; transaction_ := transaction_ b;
     read_point_ := read_point_ b;
     force_consistent_read_ := force_consistent_read_ b;
     allow_local_calls_in_curr_thread_ := allow_local_calls_in_curr_thread_ b;
     deadline_ := deadline_ b |}.

Definition set_outstanding_rpcs (n : Z) (b : Batcher) : Batcher :=
  {| state_ := state_ b; ops_ := ops_ b; ops_queue_ := ops_queue_ b;
     ops_info_groups := ops_info_groups b;
     outstanding_lookups_ := outstanding_lookups_ b;
     outstanding_rpcs_ := n;
     error_collector_ := error_collector_ b;
     combined_error_ := combined_error_ b;
     flush_callback_ := flush_callback_ b; transaction_ := transaction_ b;
     read_point_ := read_point_ b;
     force_consistent_read_ := force_consistent_read_ b;
     allow_local_calls_in_curr_thread_ := allow_local_calls_in_curr_thread_ b;
     deadline_ := deadline_ b |}.

Definition set_error_collector (c : list (Z * Status)) (b : Batcher) : Batcher :=
  {| state_ := state_ b; ops_ := ops_ b; ops_queue_ := ops_queue_ b;
     ops_info_groups := ops_info_groups b;
     outstanding_lookups_ := outstanding_lookups_ b;
     outstanding_rpcs_ := outstanding_rpcs_ b;
     error_collector_ := c;
     combined_error_ := combined_error_ b;
     flush_callback_ := flush_callback_ b; transaction_ := transaction_ b;
     read_point_ := read_point_ b;
     force_consistent_read_ := force_consistent_read_ b;
     allow_local_calls_in_curr_thread_ := allow_local_calls_in_curr_thread_ b;
     deadline_ := deadline_ b |}.

Definition set_combined_error (s : Status) (b : Batcher) : Batcher :=
  {| state_ := state_ b; ops_ := ops_ b; ops_queue_ := ops_queue_ b;
     ops_info_groups := ops_info_groups b;
     outstanding_lookups_ := outstanding_lookups_ b;
     outstanding_rpcs_ := outstanding_rpcs_ b;
     error_collector_ := error_collector_ b;
     combined_error_ := s;
     flush_callback_ := flush_callback_ b; transaction_ := transaction_ b;
     read_point_ := read_point_ b;
     force_consistent_read_ := force_consistent_read_ b;
     allow_local_calls_in_curr_thread_ := allow_local_calls_in_curr_thread_ b;
     deadline_ := deadline_ b |}.

Definition set_flush_callback (c : option Z) (b : Batcher) : Batcher :=
  {| state_ := state_ b; ops_ := ops_ b; ops_queue_ := ops_queue_ b;
     ops_info_groups := ops_info_groups b;
     outstanding_lookups_ := outstanding_lookups_ b;
     outstanding_rpcs_ := outstanding_rpcs_ b;
     error_collector_ := error_collector_ b;
     combined_error_ := combined_error_ b;
     flush_callback_ := c; transaction_ := transaction_ b;
     read_point_ := read_point_ b;
     force_consistent_read_ := force_consistent_read_ b;
     allow_local_calls_in_curr_thread_ := allow_local_calls_in_curr_thread_ b;
     deadline_ := deadline_ b |}.

Definition set_deadline (d : Z) (b : Batcher) : Batcher :=
  {| state_ := state_ b; ops_ := ops_ b; ops_queue_ := ops_queue_ b;
     ops_info_groups := ops_info_groups b;
     outstanding_lookups_ := outstanding_lookups_ b;
     outstanding_rpcs_ := outstanding_rpcs_ b;
     error_collector_ := error_collector_ b;
     combined_error_ := combined_error_ b;
     flush_callback_ := flush_callback_ b; transaction_ := transaction_ b;
     read_point_ := read_point_ b;
     force_consistent_read_ := force_consistent_read_ b;
     allow_local_calls_in_curr_thread_ := allow_local_calls_in_curr_thread_ b;
     deadline_ := d |}.

(** The constructor: [state_] starts as [kGatheringOps], the counters at 0,
    the aggregated status ok and the callback empty. *)
Definition Batcher_new (transaction : option YBTransaction) (read_point : bool)
    (force_consistent_read : bool) : Batcher :=
  {| state_ := kGatheringOps; ops_ := []; ops_queue_ := [];
     ops_info_groups := [];
     outstanding_lookups_ := 0; outstanding_rpcs_ := 0;
     error_collector_ := []; combined_error_ := Status_OK;
     flush_callback_ := None; transaction_ := transaction;
     read_point_ := read_point;
     force_consistent_read_ := force_consistent_read;
     allow_local_calls_in_curr_thread_ := false;
     deadline_ := 0 |}.

(** ** The world around the Batcher *)

Inductive Effect :=
| SessionFlushStarted
| SessionFlushFinished
| ExpectOperations (n : nat)
| SetHashCode (op : Z) (key : PartitionKey)
| MarkTablePartitionListAsStale (op : Z)
| LookupTabletByKey (position : nat) (key : PartitionKey)
| InvokeCallback (cb : Z) (s : Status)
| ThreadPoolSubmit
| AddChildTrace (rpc : AsyncRpc)
| SendRpc (rpc : AsyncRpc)
| TransactionFlushed (ops : nat * nat) (used_read_time : Z) (s : Status)
| UpdateClock (ht : Z)
| UpdateLatestObservedHybridTime (ht : Z)
| LogDFatal (what : string)
| LogError (what : string).

(** [pool] counts the [Run] tasks the callback thread pool has accepted and
    not yet executed. *)
Record World := {
  bat : Batcher;
  effects : list Effect;
  pool : nat
}.

Definition upd (f : Batcher -> Batcher) (w : World) : World :=
  {| bat := f (bat w); effects := effects w; pool := pool w |}.

Definition add_effect (e : Effect) (w : World) : World :=
  {| bat := bat w; effects := effects w ++ [e]; pool := pool w |}.

Definition set_pool (n : nat) (w : World) : World :=
  {| bat := bat w; effects := effects w; pool := n |}.

Inductive Fault :=
| bad_function_call
| CheckFailed (what : string)
| NullTabletDereference
| OutOfRange.

Inductive Res (A : Type) :=
| Done (a : A) (w : World)
| Raise (f : Fault) (w : World).
Arguments Done {A} a w.
Arguments Raise {A} f w.

Definition M (A : Type) : Type := World -> Res A.

Definition ret {A} (a : A) : M A := fun w => Done a w.

Definition bind {A B} (c : M A) (k : A -> M B) : M B :=
  fun w => match c w with
           | Done a w' => k a w'
           | Raise f w' => Raise f w'
           end.

Definition get : M Batcher := fun w => Done (bat w) w.
Definition modify (f : Batcher -> Batcher) : M unit := fun w => Done tt (upd f w).
Definition emit (e : Effect) : M unit := fun w => Done tt (add_effect e w).
Definition raise {A} (f : Fault) : M A := fun w => Raise f w.
Definition when (c : bool) (k : M unit) : M unit := if c then k else ret tt.

Declare Scope batcher_scope.
Delimit Scope batcher_scope with batcher.
Notation "'let!' x ':=' c 'in' k" := (bind c (fun x => k))
  (at level 10, x name, c at level 100, k at level 200) : batcher_scope.
Notation "c '>>' k" := (bind c (fun _ => k))
  (at level 80, right associativity) : batcher_scope.
Local Open Scope batcher_scope.

(** A [for] loop over a list whose body does not leave the loop. *)
Fixpoint for_each {A} (l : list A) (body : A -> M unit) : M unit :=
  match l with
  | [] => ret tt
  | x :: l' => body x >> for_each l' body
  end.

(** The callbacks the user passed that have run so far, in order. *)
Definition callbacks (w : World) : list (Z * Status) :=
  omap (fun e => match e with InvokeCallback cb s => Some (cb, s) | _ => None end)
       (effects w).

(** The RPCs sent so far, in order. *)
Definition sent_rpcs (w : World) : list AsyncRpc :=
  omap (fun e => match e with SendRpc r => Some r | _ => None end) (effects w).

(** ** Collaborators *)

(** What the Batcher needs from outside batcher.cc.
    - [session_alive]: whether [weak_session_.lock()] yields a session.
    - [callback_threadpool]: [None] when the client has no callback pool,
      [Some accepts] otherwise, where [accepts] is whether [Submit] succeeds.
    - [meta_cache]: what [LookupTabletByKey] does with the continuation:
      [Some r] invokes it at once with [r], [None] keeps it for later.
    - [RandomActWithProbability]: the draw of the test-only simulation of a
      partition mismatch, per position in the queue.
    - [ShouldSessionRetryError]: the retry policy of the session.
    - [StatusFromPB]: the decoder of wire_protocol.cc. *)
Record Env := {
  session_alive : bool;
  callback_threadpool : option bool;
  FLAGS_TEST_combine_batcher_errors : bool;
  RandomActWithProbability : InFlightOp -> bool;
  meta_cache : InFlightOp -> option (Status + RemoteTablet);
  ShouldSessionRetryError : Status -> bool;
  StatusFromPB : AppStatusPB -> Status
}.

(** ** The methods of the Batcher *)

Section Methods.

Variable env : Env.

(** Modelled from the spec: [ErrorCollector] (error_collector.cc is not
    among the sources).  The collector accumulates one entry, the operation
    and its status, per call of [AddError]; [CountErrors] is the number of
    entries and [GetAndClearErrors] hands them over and empties it. *)
Definition AddError (op : YBOperation) (s : Status) : M unit :=
  modify (fun b => set_error_collector (error_collector_ b ++ [(op_addr op, s)]) b).

Definition CountErrors (b : Batcher) : nat := length (error_collector_ b).

Definition GetAndClearPendingErrors : M (list (Z * Status)) :=
  let! b := get in
  modify (set_error_collector []) >> ret (error_collector_ b).

(** [Batcher::Run]: calling through an empty [StatusFunctor] throws. *)
Definition Run : M unit :=
  let! b := get in
  match flush_callback_ b with
  | Some cb =>
      emit (InvokeCallback cb (combined_error_ b)) >>
      modify (set_flush_callback None)
  | None => raise bad_function_call
  end.

(** [Batcher::RunCallback] *)
Definition RunCallback : M unit :=
  match callback_threadpool env with
  | Some true =>
      emit ThreadPoolSubmit >> (fun w => Done tt (set_pool (S (pool w)) w))
  | _ => Run
  end.

(** The callback pool executing one accepted task. *)
Definition PoolRun : M unit :=
  fun w => match pool w with
           | O => Done tt w
           | S n => Run (set_pool n w)
           end.

(** [Batcher::FlushFinished] *)
Definition FlushFinished : M unit :=
  let! b := get in
  when (negb (bool_decide (state_ b = kAborted))) (modify (set_state kComplete)) >>
  when (session_alive env) (emit SessionFlushFinished) >>
  let! b := get in
  when (ok (combined_error_ b) && negb (CountErrors b =? 0)%nat)
       (modify (set_combined_error kGeneralErrorStatus)) >>
  RunCallback.

(** [Batcher::Abort] *)
Definition Abort (status : Status) : M unit :=
  let! b := get in
  for_each (ops_queue_ b) (fun op => AddError (yb_op op) status) >>
  modify (set_combined_error status) >>
  modify (set_state kAborted) >>
  FlushFinished.

(** [Batcher::SetDeadline] *)
Definition SetDeadline (deadline : Z) : M unit := modify (set_deadline deadline).

(** [Batcher::HasPendingOperations] *)
Definition HasPendingOperations (b : Batcher) : bool :=
  match ops_ b with [] => false | _ :: _ => true end.

(** Conversion of a [size_t] to [int]. *)
Definition to_int (z : Z) : Z := (z + 2 ^ 31) mod 2 ^ 32 - 2 ^ 31.

(** [Batcher::CountBufferedOperations] *)
Definition CountBufferedOperations (b : Batcher) : Z :=
  if bool_decide (state_ b = kGatheringOps)
  then to_int (Z.of_nat (length (ops_ b)))
  else 0.

(** [Batcher::Has]: equality of the shared pointers. *)
Definition Has (b : Batcher) (o : YBOperation) : bool :=
  existsb (fun op => op_addr op =? op_addr o) (ops_ b).

(** [Batcher::Add] *)
Definition Add (op : YBOperation) : M unit :=
  let! b := get in
  if negb (bool_decide (state_ b = kGatheringOps))
  then emit (LogDFatal "Adding op to batcher in a wrong state")
  else modify (fun b => set_ops (ops_ b ++ [op]) b).

(** [Batcher::CombineError] *)
Definition CombineError (in_flight_op : InFlightOp) : M unit :=
  when (bool_decide (ClientError (error in_flight_op) = kTablePartitionListIsStale))
       (emit (MarkTablePartitionListAsStale (op_addr (yb_op in_flight_op)))) >>
  AddError (yb_op in_flight_op) (error in_flight_op) >>
  when (FLAGS_TEST_combine_batcher_errors env)
       (let! b := get in
        if ok (combined_error_ b) then
          modify (set_combined_error
                    (CloneAndPrepend (error in_flight_op)
                       (op_addr (yb_op in_flight_op)) (sequence_number in_flight_op)))
        else if negb (IsCombined (combined_error_ b)) &&
                negb (bool_decide (code (combined_error_ b) = code (error in_flight_op)))
        then modify (set_combined_error
                       (STATUS Code.Combined kNone (Text "Multiple failures")))
        else ret tt).

(** The body of the loop of [Batcher::CollectOpsErrors] up to the insertion
    in the result: the in-flight op after the check that its resolved
    tablet's partition contains its key, and whether the mismatch was
    logged. *)
Definition check_partition (op : InFlightOp) : InFlightOp * bool :=
  match tablet op with
  | Some t =>
      let partition_contains_row :=
        match type (yb_op op) with
        | QL_READ | QL_WRITE | PGSQL_READ | PGSQL_WRITE
        | REDIS_READ | REDIS_WRITE => ContainsKey t (partition_key op)
        end in
      if negb partition_contains_row ||
         (RandomActWithProbability env op &&
          String.eqb (namespace_name (table (yb_op op))) "yb_test")
      then (set_error (STATUS Code.InternalError kNone
                         (RowNotInPartition (op_addr (yb_op op)) (tablet_addr t)
                            (partition_key op))) op, true)
      else (op, false)
  | None => (op, false)
  end.

(** [std::map::emplace]: no effect when the key is present. *)
Definition emplace (k : PartitionKey) (v : Status) (m : gmap PartitionKey Status)
  : gmap PartitionKey Status :=
  match m !! k with
  | Some _ => m
  | None => <[k := v]> m
  end.

(** The loop of [Batcher::CollectOpsErrors] over the queue: the queue with
    the errors it sets, the map built, and how many mismatches it logged. *)
Fixpoint CollectOpsErrors_loop (queue : list InFlightOp)
    (result : gmap PartitionKey Status)
  : list InFlightOp * gmap PartitionKey Status * nat :=
  match queue with
  | [] => ([], result, O)
  | op :: rest =>
      let '(op, logged) := check_partition op in
      let result :=
        if negb (ok (error op)) then emplace (partition_key op) (error op) result
        else result in
      let '(rest, result, logs) := CollectOpsErrors_loop rest result in
      (op :: rest, result, if logged then S logs else logs)
  end.

(** [Batcher::CollectOpsErrors] *)
Definition CollectOpsErrors : M (gmap PartitionKey Status) :=
  let! b := get in
  let '(queue, result, logs) := CollectOpsErrors_loop (ops_queue_ b) ∅ in
  modify (set_ops_queue queue) >>
  for_each (replicate logs tt) (fun _ => emit (LogDFatal "Row not in partition")) >>
  ret result.

(** [EraseIf(pred, &vector)]: the predicate may change the element it is
    given, and is called once per element, in order. *)
Fixpoint EraseIf (pred : InFlightOp -> M (InFlightOp * bool))
    (queue : list InFlightOp) : M (list InFlightOp) :=
  match queue with
  | [] => ret []
  | op :: rest =>
      let! r := pred op in
      let! rest := EraseIf pred rest in
      ret (if snd r then rest else fst r :: rest)
  end.

(** The predicate [AllLookupsDone] passes to [EraseIf]. *)
Definition erase_errored (errors : gmap PartitionKey Status) (op : InFlightOp)
  : M (InFlightOp * bool) :=
  let op :=
    if ok (error op) then
      match errors !! partition_key op with
      | Some lookup_error => set_error lookup_error op
      | None => op
      end
    else op in
  if negb (ok (error op)) then CombineError op >> ret (op, true)
  else ret (op, false).

(** The comparator [AllLookupsDone] passes to [std::sort]. *)
Definition op_less (lhs rhs : InFlightOp) : bool :=
  if tablet_get lhs =? tablet_get rhs then
    let lgroup := group (yb_op lhs) in
    let rgroup := group (yb_op rhs) in
    if negb (bool_decide (lgroup = rgroup)) then
      OpGroup_to_Z lgroup <? OpGroup_to_Z rgroup
    else (sequence_number lhs <? sequence_number rhs)%nat
  else tablet_get lhs <? tablet_get rhs.

(** [std::sort] leaves a permutation in which no element is less than an
    earlier one.  [op_le a b] says that [b] is not less than [a]. *)
Definition op_le (a b : InFlightOp) : Prop := op_less b a = false.

#[global] Instance op_le_dec : RelDecision op_le.
Proof. intros a b. unfold op_le. apply _. Defined.

Definition sort_ops (queue : list InFlightOp) : list InFlightOp :=
  merge_sort op_le queue.

Definition push_group (g : InFlightOpsGroup) (b : Batcher) : Batcher :=
  set_groups (ops_info_groups b ++ [g]) b.

Definition InFlightOpsGroup_new (b e : nat) : InFlightOpsGroup :=
  {| need_metadata := false; group_begin := b; group_end := e |}.

Definition PartitionListVersionDoesNotMatch (op : InFlightOp) (requested ours : Z)
  : Status :=
  STATUS Code.Aborted kTablePartitionListVersionDoesNotMatch
         (PartitionListVersionMismatch (op_addr (yb_op op)) requested ours).

(** The grouping loop of [AllLookupsDone], from position [it] on; [rest] is
    the queue from there.  The result is the start of the last group, or
    [None] when the loop left through [Abort]. *)
Fixpoint group_loop (rest : list InFlightOp) (it group_start : nat)
    (current_group : OpGroup) (current_tablet : Z) : M (option nat) :=
  match rest with
  | [] => ret (Some group_start)
  | op :: rest =>
      let it_group := group (yb_op op) in
      let it_tablet := tablet_get op in
      let continue : M (option nat) :=
        if negb (current_tablet =? it_tablet) ||
           negb (bool_decide (current_group = it_group))
        then modify (push_group (InFlightOpsGroup_new group_start it)) >>
             group_loop rest (S it) it it_group it_tablet
        else group_loop rest (S it) group_start current_group current_tablet in
      match partition_list_version (yb_op op) with
      | Some requested =>
          match tablet op with
          | None => raise NullTabletDereference
          | Some t =>
              if negb (requested =? tablet_partition_list_version t) then
                Abort (PartitionListVersionDoesNotMatch op requested
                         (tablet_partition_list_version t)) >>
                ret None
              else continue
          end
      | None => continue
      end
  end.

(** [Batcher::CreateRpc]; [first] is [*group.begin]. *)
Definition CreateRpc (first : InFlightOp) (tablet : Z) (g : InFlightOpsGroup)
    (allow_local_calls need_consistent_read : bool) : M AsyncRpc :=
  if (group_begin g =? group_end g)%nat
  then raise (CheckFailed "group.begin != group.end")
  else
    let data kind :=
      {| rpc_kind := kind; rpc_tablet := tablet;
         allow_local_calls_in_curr_thread := allow_local_calls;
         need_consistent_read := need_consistent_read;
         rpc_ops := (group_begin g, group_end g);
         rpc_need_metadata := need_metadata g |} in
    ret (match group (yb_op first) with
         | kWrite => data WriteRpc
         | kLeaderRead => data (ReadRpc STRONG)
         | kConsistentPrefixRead => data (ReadRpc CONSISTENT_PREFIX)
         end).

(** The loop of [ExecuteOperations] that builds the RPCs. *)
Fixpoint create_rpcs (need_consistent_read : bool) (groups : list InFlightOpsGroup)
  : M (list AsyncRpc) :=
  match groups with
  | [] => ret []
  | g :: rest =>
      let! b := get in
      let allow_local_calls :=
        allow_local_calls_in_curr_thread_ b &&
        match rest with [] => true | _ => false end in
      match ops_queue_ b !! group_begin g with
      | None => raise OutOfRange
      | Some first =>
          let! rpc := CreateRpc first (tablet_get first) g allow_local_calls
                        need_consistent_read in
          let! rpcs := create_rpcs need_consistent_read rest in
          ret (rpc :: rpcs)
      end
  end.

Definition set_need_metadata (v : bool) (g : InFlightOpsGroup) : InFlightOpsGroup :=
  {| need_metadata := v; group_begin := group_begin g; group_end := group_end g |}.

(** What a ready [YBTransaction::Prepare] leaves in [ops_info_]. *)
Definition prepare_groups (transaction : YBTransaction) (b : Batcher) : Batcher :=
  set_groups
    (map (fun g =>
            set_need_metadata
              (Prepare_need_metadata transaction
                 (from_option tablet_get 0 (ops_queue_ b !! group_begin g))) g)
         (ops_info_groups b)) b.

(** [Batcher::ExecuteOperations] *)
Definition ExecuteOperations (initial : bool) : M unit :=
  let! b := get in
  let! ready :=
    match transaction_ b with
    | Some transaction =>
        if Prepare_ready transaction initial then
          modify (prepare_groups transaction) >> ret true
        else ret false
    | None => ret true
    end in
  if negb ready then ret tt else
  let! b := get in
  if negb (bool_decide (state_ b = kTransactionPrepare)) then
    when (negb (bool_decide (state_ b = kAborted)))
         (emit (LogDFatal "Batcher in a wrong state at the moment the transaction became ready"))
  else
    modify (set_state kTransactionReady) >>
    let force_consistent_read :=
      force_consistent_read_ b || bool_decide (is_Some (transaction_ b)) in
    let need_consistent_read :=
      force_consistent_read || (1 <? length (ops_info_groups b))%nat in
    let! rpcs := create_rpcs need_consistent_read (ops_info_groups b) in
    modify (set_outstanding_rpcs (Z.of_nat (length rpcs))) >>
    for_each rpcs (fun rpc =>
      when (bool_decide (is_Some (transaction_ b))) (emit (AddChildTrace rpc)) >>
      emit (SendRpc rpc)).

(** [Batcher::TransactionReady] *)
Definition TransactionReady (status : Status) : M unit :=
  if ok status then ExecuteOperations false else Abort status.

(** The second half of [Batcher::AllLookupsDone], entered with a non-empty
    queue: sort, check the partition list versions while grouping, and
    execute. *)
Definition AllLookupsDone_sort_and_group : M unit :=
  let! b := get in
  modify (set_ops_queue (sort_ops (ops_queue_ b))) >>
  let! b := get in
  match ops_queue_ b with
  | [] => raise OutOfRange
  | first :: _ =>
      let! last_start :=
        group_loop (ops_queue_ b) 0 0 (group (yb_op first)) (tablet_get first) in
      match last_start with
      | None => ret tt
      | Some group_start =>
          modify (push_group
                    (InFlightOpsGroup_new group_start (length (ops_queue_ b)))) >>
          ExecuteOperations true
      end
  end.

(** The block of [Batcher::AllLookupsDone] that spreads the errors over the
    ops of the same partition key and erases the failed ops. *)
Definition AllLookupsDone_erase_errors (errors : gmap PartitionKey Status) : M unit :=
  when (negb (bool_decide (errors = ∅)))
       (let! b := get in
        let! queue := EraseIf (erase_errored errors) (ops_queue_ b) in
        modify (set_ops_queue queue)).

(** The end of [Batcher::AllLookupsDone]: finish when no op is left, go on
    with sorting and grouping otherwise. *)
Definition AllLookupsDone_dispatch : M unit :=
  let! b := get in
  match ops_queue_ b with
  | [] => FlushFinished
  | _ :: _ => AllLookupsDone_sort_and_group
  end.

(** [Batcher::AllLookupsDone] *)
Definition AllLookupsDone : M unit :=
  let! b := get in
  if negb (bool_decide (state_ b = kResolvingTablets)) then
    emit (LogDFatal "AllLookupsDone is invoked in wrong state")
  else
    let! errors := CollectOpsErrors in
    modify (set_state kTransactionPrepare) >>
    AllLookupsDone_erase_errors errors >>
    AllLookupsDone_dispatch.

(** Decrement of a [size_t] counter. *)
Definition decrement (n : Z) : Z := (n - 1) mod 2 ^ 64.

(** [Batcher::TabletLookupFinished]; [position] is where [op] points to in
    [ops_queue_]. *)
Definition TabletLookupFinished (position : nat)
    (lookup_result : Status + RemoteTablet) : M unit :=
  let! b := get in
  match ops_queue_ b !! position with
  | None => raise OutOfRange
  | Some _ =>
      modify (fun b =>
        set_ops_queue
          (alter (match lookup_result with
                  | inr t => set_tablet (Some t)
                  | inl status => set_error status
                  end) position (ops_queue_ b)) b) >>
      let! b := get in
      let remaining := decrement (outstanding_lookups_ b) in
      modify (set_outstanding_lookups remaining) >>
      if remaining =? 0 then AllLookupsDone else ret tt
  end.

(** The first loop of [FlushAsync]: one in-flight record per pending op.
    The result is [false] when the loop left through [FlushFinished]. *)
Fixpoint FlushAsync_fill_queue (ops : list YBOperation) : M bool :=
  match ops with
  | [] => ret true
  | yb_op :: rest =>
      let! b := get in
      let '(status, key) := GetPartitionKey yb_op in
      let in_flight_op :=
        set_partition_key key (InFlightOp_new yb_op (length (ops_queue_ b))) in
      modify (fun b => set_ops_queue (ops_queue_ b ++ [in_flight_op]) b) >>
      let! status :=
        if ok status && IsHashPartitioning (table yb_op) then
          if String.eqb key EmptyString then
            ret (if negb (read_only yb_op)
                 then STATUS Code.IllegalState kNone
                        (HashPartitionKeyIsEmpty (op_addr yb_op))
                 else status)
          else emit (SetHashCode (op_addr yb_op) key) >> ret status
        else ret status in
      if negb (ok status) then
        modify (set_combined_error status) >> FlushFinished >> ret false
      else FlushAsync_fill_queue rest
  end.

(** The body of the second loop of [FlushAsync], for the op at [position]. *)
Definition FlushAsync_lookup (position : nat) : M unit :=
  let! b := get in
  match ops_queue_ b !! position with
  | None => raise OutOfRange
  | Some op =>
      match op_tablet (yb_op op) with
      | Some t => TabletLookupFinished position (inr t)
      | None =>
          emit (LookupTabletByKey position (partition_key op)) >>
          match meta_cache env op with
          | Some lookup_result => TabletLookupFinished position lookup_result
          | None => ret tt
          end
      end
  end.

(** [Batcher::FlushAsync] *)
Definition FlushAsync (callback : Z) (is_within_transaction_retry : bool) : M unit :=
  let! b := get in
  if negb (bool_decide (state_ b = kGatheringOps)) then
    raise (CheckFailed "state_ == BatcherState::kGatheringOps")
  else
    modify (set_state kResolvingTablets) >>
    let operations_count := length (ops_ b) in
    modify (set_outstanding_lookups (Z.of_nat operations_count mod 2 ^ 64)) >>
    modify (set_flush_callback (Some callback)) >>
    when (session_alive env) (emit SessionFlushStarted) >>
    when (bool_decide (is_Some (transaction_ b)) && negb is_within_transaction_retry)
         (emit (ExpectOperations operations_count)) >>
    let! filled := FlushAsync_fill_queue (ops_ b) in
    if negb filled then ret tt else
    let! b := get in
    for_each (seq 0 (length (ops_queue_ b))) FlushAsync_lookup.

(** [Batcher::Flushed]; [ops] is the range of the RPC that completed. *)
Definition Flushed (ops : nat * nat) (status : Status)
    (used_read_time propagated_hybrid_time : Z) : M unit :=
  let! b := get in
  when (bool_decide (is_Some (transaction_ b)))
       (let ops_will_be_retried :=
          negb (ok status) && ShouldSessionRetryError env status in
        when (negb ops_will_be_retried)
             (emit (TransactionFlushed ops used_read_time status))) >>
  when (ok status && read_point_ b) (emit (UpdateClock propagated_hybrid_time)) >>
  let remaining := decrement (outstanding_rpcs_ b) in
  modify (set_outstanding_rpcs remaining) >>
  if remaining =? 0 then
    (let! b := get in
     for_each (ops_queue_ b) (fun op =>
       when (negb (ok (error op))) (CombineError op))) >>
    FlushFinished
  else ret tt.

(** [rpc.ops().size()] *)
Definition rpc_ops_size (rpc : AsyncRpc) : nat :=
  (snd (rpc_ops rpc) - fst (rpc_ops rpc))%nat.

(** Assignment to [rpc.ops()[i].error]: the in-flight op lives in the
    Batcher's queue. *)
Definition set_rpc_op_error (rpc : AsyncRpc) (i : nat) (s : Status) : M unit :=
  let! b := get in
  let position := (fst (rpc_ops rpc) + i)%nat in
  match ops_queue_ b !! position with
  | None => raise OutOfRange
  | Some _ =>
      modify (fun b => set_ops_queue (alter (set_error s) position (ops_queue_ b)) b)
  end.

(** [Batcher::ProcessRpcStatus] *)
Definition ProcessRpcStatus (rpc : AsyncRpc) (s : Status) : M unit :=
  let! b := get in
  if negb (bool_decide (state_ b = kTransactionReady)) then
    emit (LogDFatal "ProcessRpcStatus in wrong state")
  else
    when (negb (ok s))
         (for_each (seq 0 (rpc_ops_size rpc)) (fun i => set_rpc_op_error rpc i s)).

(** [Batcher::ProcessReadResponse] *)
Definition ProcessReadResponse (rpc : AsyncRpc) (s : Status) : M unit :=
  ProcessRpcStatus rpc s.

(** Conversion of an [int32] to [size_t], as the comparison of
    [row_index()] with [ops().size()] and the subscript perform it. *)
Definition to_size_t (z : Z) : Z := z mod 2 ^ 64.

(** The body of the loop of [ProcessWriteResponse] over the per-row errors. *)
Definition process_row_error (rpc : AsyncRpc) (err_pb : PerRowErrorPB) : M unit :=
  if Z.of_nat (rpc_ops_size rpc) <=? to_size_t (row_index err_pb) then
    emit (LogError "Received a per_row_error for an out-of-bound op index") >>
    emit (LogError "Response from tablet")
  else
    set_rpc_op_error rpc (Z.to_nat (to_size_t (row_index err_pb)))
      (StatusFromPB env (row_error err_pb)).

(** [Batcher::ProcessWriteResponse]; [resp] is [rpc.resp()]. *)
Definition ProcessWriteResponse (rpc : AsyncRpc) (resp : WriteResponsePB)
    (s : Status) : M unit :=
  ProcessRpcStatus rpc s >>
  when (ok s && bool_decide (is_Some (propagated_hybrid_time resp)))
       (emit (UpdateLatestObservedHybridTime
                (default 0 (propagated_hybrid_time resp)))) >>
  for_each (per_row_errors resp) (process_row_error rpc).

(** A call followed by the callback pool running a task it holds. *)
Definition then_pool (c : M unit) : M unit := c >> PoolRun.

(** ** Executions

    What can happen to a Batcher: the calls of its users (the session, the
    meta cache, the transaction, the RPCs) and the callback pool running a
    task it accepted. *)
Inductive Call :=
| CallAdd (op : YBOperation)
| CallSetDeadline (deadline : Z)
| CallFlushAsync (callback : Z) (is_within_transaction_retry : bool)
| CallAbort (status : Status)
| CallTabletLookupFinished (position : nat) (lookup_result : Status + RemoteTablet)
| CallTransactionReady (status : Status)
| CallProcessReadResponse (rpc : AsyncRpc) (s : Status)
| CallProcessWriteResponse (rpc : AsyncRpc) (resp : WriteResponsePB) (s : Status)
| CallFlushed (ops : nat * nat) (status : Status)
    (used_read_time propagated_hybrid_time : Z)
| CallGetAndClearPendingErrors
| CallPoolRun.

Definition call (c : Call) : M unit :=
  match c with
  | CallAdd op => Add op
  | CallSetDeadline d => SetDeadline d
  | CallFlushAsync cb retry => FlushAsync cb retry
  | CallAbort s => Abort s
  | CallTabletLookupFinished i r => TabletLookupFinished i r
  | CallTransactionReady s => TransactionReady s
  | CallProcessReadResponse rpc s => ProcessReadResponse rpc s
  | CallProcessWriteResponse rpc resp s => ProcessWriteResponse rpc resp s
  | CallFlushed ops s urt pht => Flushed ops s urt pht
  | CallGetAndClearPendingErrors => GetAndClearPendingErrors >> ret tt
  | CallPoolRun => PoolRun
  end.

Definition calls (l : list Call) : M unit := for_each l call.

End Methods.

(** A freshly constructed Batcher in a world where nothing happened yet. *)
Definition World_new (transaction : option YBTransaction) (read_point : bool)
    (force_consistent_read : bool) : World :=
  {| bat := Batcher_new transaction read_point force_consistent_read;
     effects := []; pool := O |}.

(** The world a computation leaves, whether it returned or stopped. *)
Definition res_world {A} (r : Res A) : World :=
  match r with Done _ w => w | Raise _ w => w end.

(** The status [FlushFinished] hands to the callback. *)
Definition aggregated (b : Batcher) : Status :=
  if ok (combined_error_ b) && negb (length (error_collector_ b) =? 0)%nat
  then kGeneralErrorStatus else combined_error_ b.

Definition terminal (s : BatcherState) : bool :=
  match s with kComplete | kAborted => true | _ => false end.

(** An entry of the error collector for an in-flight op. *)
Definition collected (op : InFlightOp) : Z * Status := (op_addr (yb_op op), error op).

Local Close Scope string_scope.

(** ** Reasoning about computations *)

Create HintDb mon discriminated.
Create Rewrite HintDb world.
#[global] Hint Unfold bind ret get modify emit raise when : mon.

Ltac msimpl := repeat (progress (autounfold with mon; simpl)).

(** [wp c Q E w]: run from [w], the computation [c] either returns [a] in a
    world satisfying [Q a] or stops in a world satisfying [E]. *)
Definition wp {A} (c : M A) (Q : A -> World -> Prop) (E : World -> Prop)
    (w : World) : Prop :=
  match c w with
  | Done a w' => Q a w'
  | Raise _ w' => E w'
  end.

(** [stable f c]: however [c] ends, the observation [f] of the world is the
    same afterwards. *)
Definition stable {X A} (f : World -> X) (c : M A) : Prop :=
  forall w, f (res_world (c w)) = f w.


(** ** Definitions used in the statements *)

(** The operations a call adds to the pending list. *)
Definition accepted (c : Call) (w : World) : list YBOperation :=
  match c with
  | CallAdd op => if bool_decide (state_ (bat w) = kGatheringOps) then [op] else []
  | _ => []
  end.

(** The Batcher as [Abort] leaves it for [FlushFinished]. *)
Definition aborted (status : Status) (b : Batcher) : Batcher :=
  set_state kAborted
    (set_combined_error status
       (set_error_collector
          (error_collector_ b ++
           map (fun op => (op_addr (yb_op op), status)) (ops_queue_ b)) b)).

(** The Batcher as [FlushFinished] leaves it for [RunCallback]. *)
Definition finished (b : Batcher) : Batcher :=
  set_combined_error (aggregated b)
    (if bool_decide (state_ b = kAborted) then b else set_state kComplete b).

Definition notify_session (env : Env) (w : World) : World :=
  if session_alive env then add_effect SessionFlushFinished w else w.

(** The RPC [CreateRpc] builds for a group whose first op is [first]. *)
Definition rpc_of (first : InFlightOp) (g : InFlightOpsGroup)
    (allow_local_calls need_consistent_read : bool) : AsyncRpc :=
  {| rpc_kind := match group (yb_op first) with
                 | kWrite => WriteRpc
                 | kLeaderRead => ReadRpc STRONG
                 | kConsistentPrefixRead => ReadRpc CONSISTENT_PREFIX
                 end;
     rpc_tablet := tablet_get first;
     allow_local_calls_in_curr_thread := allow_local_calls;
     need_consistent_read := need_consistent_read;
     rpc_ops := (group_begin g, group_end g);
     rpc_need_metadata := need_metadata g |}.

(** The RPCs of a list of groups over the queue [q]: only the last one may
    run locally. *)
Fixpoint rpcs_of (q : list InFlightOp) (allow_local need_consistent_read : bool)
    (groups : list InFlightOpsGroup) : list AsyncRpc :=
  match groups with
  | [] => []
  | g :: rest =>
      match q !! group_begin g with
      | Some first =>
          [rpc_of first g (allow_local && match rest with [] => true | _ => false end)
             need_consistent_read]
      | None => []
      end ++ rpcs_of q allow_local need_consistent_read rest
  end.

(** A group [CreateRpc] accepts: not empty, and starting inside the queue. *)
Definition group_ok (q : list InFlightOp) (g : InFlightOpsGroup) : Prop :=
  group_begin g <> group_end g /\ is_Some (q !! group_begin g).


(** Whether the row index of a per-row error, as a [size_t], is below
    [rpc.ops().size()]. *)
Definition row_in_range (rpc : AsyncRpc) (err_pb : PerRowErrorPB) : bool :=
  to_size_t (row_index err_pb) <? Z.of_nat (rpc_ops_size rpc).

(** The position in the queue of the op a per-row error names. *)
Definition row_position (rpc : AsyncRpc) (err_pb : PerRowErrorPB) : nat :=
  (fst (rpc_ops rpc) + Z.to_nat (to_size_t (row_index err_pb)))%nat.

(** The world after [ProcessWriteResponse] handled one per-row error. *)
Definition row_error_step (env : Env) (rpc : AsyncRpc) (w : World)
    (err_pb : PerRowErrorPB) : World :=
  if row_in_range rpc err_pb then
    upd (fun b => set_ops_queue
                    (alter (set_error (StatusFromPB env (row_error err_pb)))
                           (row_position rpc err_pb) (ops_queue_ b)) b) w
  else
    add_effect (LogError "Response from tablet"%string)
      (add_effect (LogError "Received a per_row_error for an out-of-bound op index"%string) w).

(** The last per-row error of a response that names the op at [position]. *)
Definition last_row_error (rpc : AsyncRpc) (position : nat)
    (errors : list PerRowErrorPB) : option PerRowErrorPB :=
  last (filter (fun err_pb => row_in_range rpc err_pb = true /\
                              row_position rpc err_pb = position) errors).


(** The queue as [CollectOpsErrors] leaves it: every op after the check of
    its partition. *)
Definition checked_queue (env : Env) (queue : list InFlightOp) : list InFlightOp :=
  map (fun op => fst (check_partition env op)) queue.

(** The map [CollectOpsErrors] returns. *)
Definition lookup_errors (env : Env) (queue : list InFlightOp)
  : gmap PartitionKey Status :=
  snd (fst (CollectOpsErrors_loop env queue ∅)).

(** The op as the predicate of [EraseIf] leaves it: an op without error
    takes the error recorded for its partition key, if there is one. *)
Definition spread (errors : gmap PartitionKey Status) (op : InFlightOp) : InFlightOp :=
  if ok (error op) then
    match errors !! partition_key op with
    | Some lookup_error => set_error lookup_error op
    | None => op
    end
  else op.

(** The ops [AllLookupsDone] erases from the queue, and the ones it keeps. *)
Definition removed_ops (env : Env) (queue : list InFlightOp) : list InFlightOp :=
  filter (fun op => ok (error op) = false)
         (map (spread (lookup_errors env queue)) (checked_queue env queue)).

Definition surviving_ops (env : Env) (queue : list InFlightOp) : list InFlightOp :=
  filter (fun op => ok (error op) = true)
         (map (spread (lookup_errors env queue)) (checked_queue env queue)).

(** The map after the loop of [CollectOpsErrors] went over checked ops. *)
Definition first_errors (queue : list InFlightOp) (m : gmap PartitionKey Status)
  : gmap PartitionKey Status :=
  foldl (fun m op => if negb (ok (error op))
                     then emplace (partition_key op) (error op) m else m) m queue.

(** The world after [n] lines about rows out of their partition. *)
Definition logged (n : nat) (w : World) : World :=
  {| bat := bat w;
     effects := effects w ++ replicate n (LogDFatal "Row not in partition"%string);
     pool := pool w |}.

(** What [CombineError] makes of the aggregated status [c]. *)
Definition combine_status (env : Env) (c : Status) (op : InFlightOp) : Status :=
  if FLAGS_TEST_combine_batcher_errors env then
    if ok c then CloneAndPrepend (error op) (op_addr (yb_op op)) (sequence_number op)
    else if negb (IsCombined c) && negb (bool_decide (code c = code (error op)))
         then STATUS Code.Combined kNone (Text "Multiple failures"%string)
         else c
  else c.

Definition stale_mark (op : InFlightOp) : list Effect :=
  if bool_decide (ClientError (error op) = kTablePartitionListIsStale)
  then [MarkTablePartitionListAsStale (op_addr (yb_op op))] else [].

(** The world after [CombineError] was called for each op of [l], in order. *)
Definition errors_combined (env : Env) (l : list InFlightOp) (w : World) : World :=
  {| bat := set_combined_error
              (foldl (combine_status env) (combined_error_ (bat w)) l)
              (set_error_collector (error_collector_ (bat w) ++ map collected l) (bat w));
     effects := effects w ++ concat (map stale_mark l);
     pool := pool w |}.


(** The key the comparator orders by. *)
Definition sort_key (op : InFlightOp) : Z * Z * nat :=
  (tablet_get op, OpGroup_to_Z (group (yb_op op)), sequence_number op).


(** How the grouping loop of [AllLookupsDone] ends. *)
Inductive GroupingEnd :=
| Grouped (group_start : nat)
| VersionMismatch (op : InFlightOp) (requested ours : Z)
| NullTablet.

(** The grouping loop as a function of the queue alone: the groups it
    appends to [ops_info_.groups], and how it ends. *)
Fixpoint grouping (rest : list InFlightOp) (it group_start : nat)
    (current_group : OpGroup) (current_tablet : Z)
  : list InFlightOpsGroup * GroupingEnd :=
  match rest with
  | [] => ([], Grouped group_start)
  | op :: rest =>
      let continue :=
        if negb (current_tablet =? tablet_get op) ||
           negb (bool_decide (current_group = group (yb_op op)))
        then
          let '(groups, e) :=
            grouping rest (S it) it (group (yb_op op)) (tablet_get op) in
          (InFlightOpsGroup_new group_start it :: groups, e)
        else grouping rest (S it) group_start current_group current_tablet in
      match partition_list_version (yb_op op) with
      | Some requested =>
          match tablet op with
          | None => ([], NullTablet)
          | Some t =>
              if negb (requested =? tablet_partition_list_version t)
              then ([], VersionMismatch op requested (tablet_partition_list_version t))
              else continue
          end
      | None => continue
      end
  end.

Definition push_groups (groups : list InFlightOpsGroup) (b : Batcher) : Batcher :=
  set_groups (ops_info_groups b ++ groups) b.

(** Whether the declared partition list version of an op differs from the
    version of its resolved tablet. *)
Definition version_mismatch (op : InFlightOp) : bool :=
  match partition_list_version (yb_op op), tablet op with
  | Some requested, Some t => negb (requested =? tablet_partition_list_version t)
  | _, _ => false
  end.


(** An op the version check lets pass: it declares no partition list
    version, or the version of its resolved tablet. *)
Definition version_matches (op : InFlightOp) : Prop :=
  match partition_list_version (yb_op op) with
  | Some requested =>
      exists t, tablet op = Some t /\ requested = tablet_partition_list_version t
  | None => True
  end.

(** An op the version check can be made on: a declared version comes with a
    resolved tablet. *)
Definition version_checkable (op : InFlightOp) : Prop :=
  is_Some (partition_list_version (yb_op op)) -> is_Some (tablet op).

(** All ops of the queue at the positions from [b] up to [e] are for the
    tablet [t] and of the kind [g]. *)
Definition uniform (q : list InFlightOp) (b e : nat) (t : Z) (g : OpGroup) : Prop :=
  forall i op, (b <= i < e)%nat -> q !! i = Some op ->
    tablet_get op = t /\ group (yb_op op) = g.

(** The groups are consecutive non-empty ranges from [start] to [stop]. *)
Fixpoint chained (start : nat) (groups : list InFlightOpsGroup) (stop : nat) : Prop :=
  match groups with
  | [] => start = stop
  | g :: groups =>
      group_begin g = start /\ (start < group_end g)%nat /\
      chained (group_end g) groups stop
  end.


(** The world after the first half of [AllLookupsDone]: the partitions
    checked, the state advanced, the failed ops combined into the error
    collector and erased from the queue. *)
Definition erased (env : Env) (w : World) : World :=
  let q := ops_queue_ (bat w) in
  upd (set_ops_queue (surviving_ops env q))
    (errors_combined env (removed_ops env q)
       (upd (set_state kTransactionPrepare)
          (logged (snd (CollectOpsErrors_loop env q ∅))
             (upd (set_ops_queue (checked_queue env q)) w)))).

(** The world with its queue sorted. *)
Definition sorted (w : World) : World :=
  upd (set_ops_queue (sort_ops (ops_queue_ (bat w)))) w.


(** The lookup of an op has finished: it left a tablet or an error. *)
Definition resolved (op : InFlightOp) : Prop :=
  is_Some (tablet op) \/ ok (error op) = false.


(** The Batcher after a transaction that is ready prepared it. *)
Definition prepared (b : Batcher) : Batcher :=
  match transaction_ b with
  | Some transaction => prepare_groups transaction b
  | None => b
  end.

(** The RPC class [CreateRpc] instantiates for a kind of operation. *)
Definition rpc_kind_of (g : OpGroup) : RpcKind :=
  match g with
  | kWrite => WriteRpc
  | kLeaderRead => ReadRpc STRONG
  | kConsistentPrefixRead => ReadRpc CONSISTENT_PREFIX
  end.


(** The status [FlushAsync] ends up with for an op after it asked for the
    partition key. *)
Definition key_status (o : YBOperation) : Status :=
  let '(status, key) := GetPartitionKey o in
  if ok status && IsHashPartitioning (table o) && String.eqb key EmptyString &&
     negb (read_only o)
  then STATUS Code.IllegalState kNone (HashPartitionKeyIsEmpty (op_addr o))
  else status.

(** The Batcher as [FlushAsync] leaves it before it goes over the ops. *)
Definition FlushAsync_started (callback : Z) (b : Batcher) : Batcher :=
  set_flush_callback (Some callback)
    (set_outstanding_lookups (Z.of_nat (length (ops_ b)) mod 2 ^ 64)
       (set_state kResolvingTablets b)).

(** What [FlushAsync] does from there on; [b] is the Batcher it found. *)
Definition FlushAsync_resolve (env : Env) (is_within_transaction_retry : bool)
    (b : Batcher) : M unit :=
  when (session_alive env) (emit SessionFlushStarted) >>
  when (bool_decide (is_Some (transaction_ b)) && negb is_within_transaction_retry)
       (emit (ExpectOperations (length (ops_ b)))) >>
  let! filled := FlushAsync_fill_queue env (ops_ b) in
  if negb filled then ret tt else
  let! b := get in
  for_each (seq 0 (length (ops_queue_ b))) (FlushAsync_lookup env).

(** The in-flight record [FlushAsync] appends for the op [o]. *)
Definition queued (o : YBOperation) (seq : nat) : InFlightOp :=
  set_partition_key (snd (GetPartitionKey o)) (InFlightOp_new o seq).

(** The world after [FlushAsync] queued [o] and, for a non-empty key of a
    hash-partitioned table, set the hash code of the op. *)
Definition enqueue (o : YBOperation) (w : World) : World :=
  let w1 := upd (fun b => set_ops_queue
                            (ops_queue_ b ++ [queued o (length (ops_queue_ b))]) b) w in
  if ok (fst (GetPartitionKey o)) && IsHashPartitioning (table o) &&
     negb (String.eqb (snd (GetPartitionKey o)) EmptyString)
  then add_effect (SetHashCode (op_addr o) (snd (GetPartitionKey o))) w1
  else w1.

(** The world after [Flushed] told the transaction and the clock about an
    RPC that completed. *)
Definition flushed_noted (env : Env) (ops : nat * nat) (status : Status)
    (used_read_time propagated_hybrid_time : Z) (w : World) : World :=
  let w1 :=
    if bool_decide (is_Some (transaction_ (bat w))) &&
       negb (negb (ok status) && ShouldSessionRetryError env status)
    then add_effect (TransactionFlushed ops used_read_time status) w else w in
  if ok status && read_point_ (bat w)
  then add_effect (UpdateClock propagated_hybrid_time) w1 else w1.

(** The ops of the queue that carry an error. *)
Definition failed_ops (queue : list InFlightOp) : list InFlightOp :=
  filter (fun op => ok (error op) = false) queue.

(** What holds of the callback at every moment: it was invoked at most
    once, an invocation leaves the slot empty, and a Batcher that gathers
    ops has not been given one. *)
Definition callback_inv (w : World) : Prop :=
  match callbacks w with
  | [] => state_ (bat w) = kGatheringOps -> flush_callback_ (bat w) = None
  | [_] => flush_callback_ (bat w) = None /\ state_ (bat w) <> kGatheringOps
  | _ => False
  end.

(** [follows R c]: however [c] ends, the world it leaves is related by [R]
    to the one it started from. *)
Definition follows (R : World -> World -> Prop) {A} (c : M A) : Prop :=
  forall w, R w (res_world (c w)).


(** The effects of a step are added to the ones before it. *)
Definition grows (w w' : World) : Prop := effects w `prefix_of` effects w'.

(** The callback invariant is kept by a step. *)
Definition keeps_callback_inv (w w' : World) : Prop := callback_inv w -> callback_inv w'.

(** A Batcher that left [kGatheringOps] stays out of it. *)
Definition stays_flushing (w w' : World) : Prop :=
  state_ (bat w) <> kGatheringOps -> state_ (bat w') <> kGatheringOps.

(** The callback that is stored and the callbacks that were invoked are
    among [supplied]. *)
Definition callbacks_from (supplied : list Z) (w : World) : Prop :=
  (forall cb, flush_callback_ (bat w) = Some cb -> cb ∈ supplied) /\
  Forall (fun x => fst x ∈ supplied) (callbacks w).

Definition keeps_callbacks_from (supplied : list Z) (w w' : World) : Prop :=
  callbacks_from supplied w -> callbacks_from supplied w'.

(** The callbacks the calls of a sequence hand to [FlushAsync]. *)
Definition supplied_callbacks (l : list Call) : list Z :=
  omap (fun c => match c with CallFlushAsync cb _ => Some cb | _ => None end) l.

(** The in-flight records of the ops [ops], numbered from [start]. *)
Definition queued_from (start : nat) (ops : list YBOperation) : list InFlightOp :=
  imap (fun i o => queued o (start + i)) ops.

(** The lookups asked of the meta cache so far, in order. *)
Definition lookups_started (w : World) : list (nat * PartitionKey) :=
  omap (fun e => match e with LookupTabletByKey p k => Some (p, k) | _ => None end)
       (effects w).

(** The observation [f] of the world is the same after as before. *)
Definition same {X} (f : World -> X) (w w' : World) : Prop := f w' = f w.

(** What [TabletLookupFinished] writes into the in-flight op: the tablet
    that was found, or the status of the failed lookup. *)
Definition record_lookup (lookup_result : Status + RemoteTablet) (op : InFlightOp)
  : InFlightOp :=
  match lookup_result with
  | inr t => set_tablet (Some t) op
  | inl status => set_error status op
  end.

(** The queue after the lookups [results], given as positions with their
    results, were recorded in this order. *)
Definition lookups_recorded (results : list (nat * (Status + RemoteTablet)))
    (queue : list InFlightOp) : list InFlightOp :=
  foldl (fun q r => alter (record_lookup (snd r)) (fst r) q) queue results.

(** A failed lookup comes with a status that is not ok. *)
Definition lookup_failed_properly (r : nat * (Status + RemoteTablet)) : Prop :=
  match snd r with inl status => ok status = false | inr _ => True end.

(** What an RPC that completed reports to [Flushed]. *)
Record FlushReport := {
  report_ops : nat * nat;
  report_status : Status;
  report_used_read_time : Z;
  report_propagated_hybrid_time : Z
}.

Definition Flushed_report (env : Env) (r : FlushReport) : M unit :=
  Flushed env (report_ops r) (report_status r) (report_used_read_time r)
    (report_propagated_hybrid_time r).

(** The first op of the queue that has an error and the partition key [k]. *)
Definition first_failed (k : PartitionKey) (queue : list InFlightOp) : option InFlightOp :=
  head (filter (fun op => ok (error op) = false /\ partition_key op = k) queue).

(** Whether all the ops have an error of the code [c]. *)
Definition same_code (c : Code.t) (l : list InFlightOp) : bool :=
  forallb (fun op => bool_decide (code (error op) = c)) l.

(** The queue after the RPC over the positions from [b] up to [e] failed
    with [s]: every op of the RPC carries [s]. *)
Definition rpc_failed (b e : nat) (s : Status) (queue : list InFlightOp)
  : list InFlightOp :=
  imap (fun i op => if bool_decide (b <= i < e)%nat then set_error s op else op) queue.

(** Between the positions [e - 1] and [e] of the queue the tablet or the
    kind of operation changes. *)
Definition boundary (q : list InFlightOp) (e : nat) : Prop :=
  exists a b, (0 < e)%nat /\ q !! (e - 1)%nat = Some a /\ q !! e = Some b /\
    (tablet_get a <> tablet_get b \/ group (yb_op a) <> group (yb_op b)).

(** The range of the queue an RPC works on contains the position [i]. *)
Definition rpc_covers (rpc : AsyncRpc) (i : nat) : Prop :=
  (fst (rpc_ops rpc) <= i < snd (rpc_ops rpc))%nat.

(** From a Batcher whose flush is over, a step leaves the flush over, sends
    nothing, starts no lookup, and keeps an aborted Batcher aborted. *)
Definition stays_over (w w' : World) : Prop :=
  terminal (state_ (bat w)) = true ->
  terminal (state_ (bat w')) = true /\
  sent_rpcs w' = sent_rpcs w /\
  lookups_started w' = lookups_started w /\
  (state_ (bat w) = kAborted -> state_ (bat w') = kAborted).

(** The transaction of the Batcher is not ready: [Prepare] will call
    [TransactionReady] later. *)
Definition waits_for_transaction (initial : bool) (b : Batcher) : bool :=
  match transaction_ b with
  | Some transaction => negb (Prepare_ready transaction initial)
  | None => false
  end.

(** The world as [FlushAsync] leaves it for its loops: the state advanced,
    the callback stored, the session and the transaction told. *)
Definition flush_started (env : Env) (cb : Z) (retry : bool) (w : World) : World :=
  (if bool_decide (is_Some (transaction_ (bat w))) && negb retry
   then add_effect (ExpectOperations (length (ops_ (bat w)))) else id)
    ((if session_alive env then add_effect SessionFlushStarted else id)
       (upd (FlushAsync_started cb) w)).

(** The lookup [FlushAsync] asks for the op at [position]. *)
Definition lookup_of (queue : list InFlightOp) (position : nat)
  : option (nat * PartitionKey) :=
  (fun op => (position, partition_key op)) <$> queue !! position.

(** The result [FlushAsync] passes to [TabletLookupFinished] for an op
    whose tablet is known. *)
Definition known_result (queue : list InFlightOp) (position : nat)
  : option (nat * (Status + RemoteTablet)) :=
  match queue !! position with
  | Some op => (fun t => (position, inr t)) <$> op_tablet (yb_op op)
  | None => None
  end.

(** ** A whole flush

    A flush from [FlushAsync] to its end, with what the surroundings of the
    Batcher do in between.  The meta cache, the transaction and the RPCs
    (meta_cache.cc, transaction.cc and async_rpc.cc) are not among the
    sources: what they do is modelled from the spec. *)

(** Modelled from the spec: what an RPC that completed brings back: its
    status, the response of a write, and the times it passes to
    [Flushed]. *)
Record RpcReply := {
  reply_status : Status;
  reply_response : WriteResponsePB;
  reply_used_read_time : Z;
  reply_propagated_hybrid_time : Z
}.

(** Modelled from the spec: the surroundings of a flush.  [lookup_reply]
    is the result the meta cache finds for the op at a position of the
    queue and [lookup_order] the order in which it answers the lookups that
    are under way; [transaction_reply] is the status a transaction that was
    not ready passes to [TransactionReady]; [rpc_reply] is what an RPC
    brings back and [rpc_order] the order in which the RPCs complete. *)
Record Surroundings := {
  lookup_reply : nat -> Status + RemoteTablet;
  lookup_order : list nat -> list nat;
  transaction_reply : Status;
  rpc_reply : AsyncRpc -> RpcReply;
  rpc_order : list AsyncRpc -> list AsyncRpc
}.

(** The lookup of the op is under way: it has left neither a tablet nor an
    error in the op. *)
Definition unresolved (op : InFlightOp) : bool :=
  match tablet op with
  | Some _ => false
  | None => ok (error op)
  end.

(** The positions of the queue whose lookups are under way: the meta
    cache was asked, and the op has no result yet. *)
Definition lookups_under_way (w : World) : list nat :=
  filter (fun p => from_option unresolved false (ops_queue_ (bat w) !! p) = true)
         (fst <$> lookups_started w).

(** Modelled from the spec: the meta cache passes the result of every
    lookup that is under way to [TabletLookupFinished], once. *)
Definition answer_lookups (env : Env) (sur : Surroundings) : M unit :=
  fun w =>
    for_each (lookup_order sur (lookups_under_way w))
      (fun p => TabletLookupFinished env p (lookup_reply sur p)) w.

(** Modelled from the spec: a transaction whose [Prepare] answered that it
    is not ready, which leaves the Batcher in [kTransactionPrepare], calls
    [TransactionReady] with a status. *)
Definition answer_transaction (env : Env) (sur : Surroundings) : M unit :=
  fun w =>
    if bool_decide (state_ (bat w) = kTransactionPrepare)
    then TransactionReady env (transaction_reply sur) w
    else Done tt w.

(** Modelled from the spec: an RPC that completes calls
    [ProcessWriteResponse] or [ProcessReadResponse] with its status, and
    then [Flushed] with its ops. *)
Definition rpc_completes (env : Env) (sur : Surroundings) (rpc : AsyncRpc) : M unit :=
  let r := rpc_reply sur rpc in
  match rpc_kind rpc with
  | WriteRpc => ProcessWriteResponse env rpc (reply_response r) (reply_status r)
  | ReadRpc _ => ProcessReadResponse rpc (reply_status r)
  end >>
  Flushed env (rpc_ops rpc) (reply_status r) (reply_used_read_time r)
    (reply_propagated_hybrid_time r).

(** Modelled from the spec: every RPC that was sent completes, once. *)
Definition answer_rpcs (env : Env) (sur : Surroundings) : M unit :=
  fun w => for_each (rpc_order sur (sent_rpcs w)) (rpc_completes env sur) w.

(** A flush up to the dispatch of its RPCs: [FlushAsync], the answers of the
    meta cache and the answer of the transaction, the callback pool running
    what it was given after each. *)
Definition flush_to_dispatch (env : Env) (sur : Surroundings) (callback : Z)
    (is_within_transaction_retry : bool) : M unit :=
  then_pool (FlushAsync env callback is_within_transaction_retry) >>
  then_pool (answer_lookups env sur) >>
  then_pool (answer_transaction env sur).

(** A whole flush: up to the dispatch, and then the completion of the RPCs. *)
Definition whole_flush (env : Env) (sur : Surroundings) (callback : Z)
    (is_within_transaction_retry : bool) : M unit :=
  flush_to_dispatch env sur callback is_within_transaction_retry >>
  then_pool (answer_rpcs env sur).

(** A Batcher that has only gathered ops so far. *)
Definition gathering (w : World) : Prop :=
  state_ (bat w) = kGatheringOps /\ ops_queue_ (bat w) = [] /\
  ops_info_groups (bat w) = [] /\ effects w = [] /\ pool w = O.

(** Surroundings that keep to the protocol: each lookup and each RPC is
    answered once (the order is a permutation), a lookup that failed comes
    with a status that is not ok, and the transaction is ready when it says
    so. *)
Definition proper (env : Env) (sur : Surroundings) (w : World) : Prop :=
  (forall l, lookup_order sur l ≡ₚ l) /\
  (forall l, rpc_order sur l ≡ₚ l) /\
  (forall p s, lookup_reply sur p = inl s -> ok s = false) /\
  (forall op s, meta_cache env op = Some (inl s) -> ok s = false) /\
  (forall transaction, transaction_ (bat w) = Some transaction ->
     ok (transaction_reply sur) = true -> Prepare_ready transaction false = true).

(** What the lookup of an op gives within [FlushAsync]: the tablet the op
    knows, or what the meta cache answers at once. *)
Definition immediate (env : Env) (op : InFlightOp) : option (Status + RemoteTablet) :=
  match op_tablet (yb_op op) with
  | Some t => Some (inr t)
  | None => meta_cache env op
  end.

(** The lookup [FlushAsync] asks of the meta cache for the op at
    [position]: none when the tablet of the op is known. *)
Definition asked_lookup (queue : list InFlightOp) (position : nat)
  : option (nat * PartitionKey) :=
  op ← queue !! position;
  match op_tablet (yb_op op) with
  | Some _ => None
  | None => Some (position, partition_key op)
  end.

(** The results [FlushAsync] passes to [TabletLookupFinished] itself, for
    the positions [ps] of the queue. *)
Definition immediate_results (env : Env) (queue : list InFlightOp) (ps : list nat)
  : list (nat * (Status + RemoteTablet)) :=
  omap (fun p => pair p <$> (queue !! p ≫= immediate env)) ps.

(** The result the lookup of the op at [position] ends with: the one that
    is there at once, or the one the meta cache brings later. *)
Definition lookup_result_of (env : Env) (sur : Surroundings) (position : nat)
    (op : InFlightOp) : Status + RemoteTablet :=
  default (lookup_reply sur position) (immediate env op).

(** The queue of the ops [ops] when all their lookups are done. *)
Definition lookups_answered (env : Env) (sur : Surroundings) (ops : list YBOperation)
  : list InFlightOp :=
  imap (fun p o => record_lookup (lookup_result_of env sur p (queued o p)) (queued o p)) ops.

(** The flush is over, and its callback was invoked once. *)
Definition flush_over (cb : Z) (w : World) : Prop :=
  exists s, callbacks w = [(cb, s)] /\ flush_callback_ (bat w) = None /\
    terminal (state_ (bat w)) = true /\ pool w = O.

(** The RPCs of the flush are sent, and none has reported. *)
Definition dispatched (cb : Z) (w : World) : Prop :=
  state_ (bat w) = kTransactionReady /\ flush_callback_ (bat w) = Some cb /\
  callbacks w = [] /\ pool w = O /\ sent_rpcs w <> [] /\
  outstanding_rpcs_ (bat w) = Z.of_nat (length (sent_rpcs w)) /\
  (length (sent_rpcs w) <= length (ops_queue_ (bat w)))%nat /\
  forall rpc, rpc ∈ sent_rpcs w ->
    (fst (rpc_ops rpc) < snd (rpc_ops rpc) <= length (ops_queue_ (bat w)))%nat /\
    forall i op, rpc_covers rpc i -> ops_queue_ (bat w) !! i = Some op ->
      tablet_get op = rpc_tablet rpc /\ rpc_kind_of (group (yb_op op)) = rpc_kind rpc.

(** What the processing of a response leaves as it is. *)
Definition beside_the_ops (w : World)
  : BatcherState * Z * option Z * list (Z * Status) * list AsyncRpc * nat * nat :=
  (state_ (bat w), outstanding_rpcs_ (bat w), flush_callback_ (bat w),
   callbacks w, sent_rpcs w, pool w, length (ops_queue_ (bat w))).

(** * PgSession (src/yb/yql/pggate/pg_session.cc)

    The part of [yb::pggate::PgSession] that applies, buffers and flushes
    operations.  The YBSession underneath is the one whose flushes the
    Batcher runs: the callback PgSession passes to [FlushAsync] receives
    the status of [Batcher::RunCallback] and combines it with the errors
    the Batcher collected. *)

(** A status as PgSession returns it: one it received, or
    [status.CloneAndAppend(text)]. *)
Inductive PgStatus :=
| AsIs (s : Status)
| CloneAndAppend (s : Status) (text : string).

(** The text functions of [yb::Status] and of the string utilities:
    [message()] of a formatted message, [ToString()], and [RangeToString]
    over the elements of a [std::set<string>]. *)
Record StatusText := {
  formatted : StatusMsg -> string;
  ToString : Status -> string;
  RangeToString : gset string -> string
}.

(** [status.message()] *)
Definition message_text (T : StatusText) (s : Status) : string :=
  match message s with
  | Text t => t
  | m => formatted T m
  end.

Definition IsIOError (s : Status) : bool :=
  match code s with Code.IOError => true | _ => false end.

(** [GetStatusStringSet]; an error is an op with its status, as the
    Batcher's error collector holds it. *)
Definition GetStatusStringSet (T : StatusText) (errors : list (Z * Status)) : string :=
  RangeToString T (list_to_set (map (fun e => ToString T (snd e)) errors)).

(** [PgSession::CombineErrorsToStatus] *)
Definition CombineErrorsToStatus (T : StatusText) (errors : list (Z * Status))
    (status : Status) : PgStatus :=
  match errors with
  | [] => AsIs status
  | front :: _ =>
      if IsIOError status &&
         String.eqb (message_text T status) kErrorReachingOutToTServersMsg &&
         (length errors =? 1)%nat
      then AsIs (snd front)
      else CloneAndAppend status
             (". Errors from tablet servers: " ++ GetStatusStringSet T errors)
  end.

(** [client::YBPgsqlOp], as far as PgSession looks at it. *)
Record YBPgsqlOp := {
  pgsql_op : Z;
  pgsql_type : OpType;
  IsTransactional : bool;
  pgsql_read_only : bool
}.

(** The fields of PgSession that steer applying and flushing. *)
Record PgSession := {
  buffer_write_ops_ : bool;
  buffered_write_ops_ : list YBPgsqlOp;
  has_txn_ops_ : bool;
  has_non_txn_ops_ : bool
}.

Definition set_buffer_write_ops (v : bool) (s : PgSession) : PgSession :=
  {| buffer_write_ops_ := v; buffered_write_ops_ := buffered_write_ops_ s;
     has_txn_ops_ := has_txn_ops_ s; has_non_txn_ops_ := has_non_txn_ops_ s |}.

Definition set_buffered_write_ops (l : list YBPgsqlOp) (s : PgSession) : PgSession :=
  {| buffer_write_ops_ := buffer_write_ops_ s; buffered_write_ops_ := l;
     has_txn_ops_ := has_txn_ops_ s; has_non_txn_ops_ := has_non_txn_ops_ s |}.

Definition set_has_txn_ops (v : bool) (s : PgSession) : PgSession :=
  {| buffer_write_ops_ := buffer_write_ops_ s;
     buffered_write_ops_ := buffered_write_ops_ s;
     has_txn_ops_ := v; has_non_txn_ops_ := has_non_txn_ops_ s |}.

Definition set_has_non_txn_ops (v : bool) (s : PgSession) : PgSession :=
  {| buffer_write_ops_ := buffer_write_ops_ s;
     buffered_write_ops_ := buffered_write_ops_ s;
     has_txn_ops_ := has_txn_ops_ s; has_non_txn_ops_ := v |}.

(** What PgSession does to the two YBSessions and to the transaction
    manager.  A session is named by whether it is the transactional one. *)
Inductive PgEffect :=
| BeginWriteTransactionIfNecessary (read_only_op : bool)
| SessionSetInTxnLimit (transactional : bool) (read_time : Z)
| SessionApply (transactional : bool) (op : YBPgsqlOp)
| SessionFlushAsync (transactional : bool).

(** What the surroundings answer, given what PgSession did so far: whether
    the transaction manager has a session, the status of
    [session->Apply(op)], the pending errors and the status the callback
    of a flush receives, and the clock. *)
Record PgEnv := {
  GetTransactionalSession : list PgEffect -> Status;
  session_Apply : list PgEffect -> bool -> YBPgsqlOp -> Status;
  flush_outcome : list PgEffect -> list (Z * Status) * Status;
  clock_Now : list PgEffect -> Z
}.

Record PgWorld := {
  pg : PgSession;
  pg_effects : list PgEffect
}.

Definition upd_pg (f : PgSession -> PgSession) (w : PgWorld) : PgWorld :=
  {| pg := f (pg w); pg_effects := pg_effects w |}.

Definition pg_effect (e : PgEffect) (w : PgWorld) : PgWorld :=
  {| pg := pg w; pg_effects := pg_effects w ++ [e] |}.

(** [PgSession::GetSession]: the session, or the status that
    [VERIFY_RESULT] returns. *)
Definition GetSession (E : PgEnv) (transactional read_only_op : bool) (w : PgWorld)
  : (Status + bool) * PgWorld :=
  if transactional then
    let s := GetTransactionalSession E (pg_effects w) in
    if ok s
    then (inr true, pg_effect (BeginWriteTransactionIfNecessary read_only_op) w)
    else (inl s, w)
  else (inr false, w).

(** [PgSession::GetSessionForOp] *)
Definition GetSessionForOp (E : PgEnv) (op : YBPgsqlOp) (w : PgWorld)
  : (Status + bool) * PgWorld :=
  GetSession E (IsTransactional op) (pgsql_read_only op) w.

(** [PgSession::StartBufferingWriteOperations] *)
Definition StartBufferingWriteOperations (w : PgWorld) : Status * PgWorld :=
  if buffer_write_ops_ (pg w) then
    (STATUS Code.IllegalState kNone (Text "Buffering write operations already"), w)
  else (Status_OK, upd_pg (set_buffer_write_ops true) w).

(** The loop of [FlushBufferedWriteOperations] over the buffered ops; the
    status is the one [RETURN_NOT_OK] leaves the function with.  The
    [DCHECK] is compiled out. *)
Fixpoint apply_buffered (E : PgEnv) (session : bool) (ops : list YBPgsqlOp)
    (w : PgWorld) : option Status * PgWorld :=
  match ops with
  | [] => (None, w)
  | op :: rest =>
      let s := session_Apply E (pg_effects w) session op in
      let w1 := pg_effect (SessionApply session op) w in
      if ok s then apply_buffered E session rest w1 else (Some s, w1)
  end.

(** [PgSession::FlushBufferedWriteOperations]; [sync.Wait()] returns what
    the callback of the flush passed on. *)
Definition FlushBufferedWriteOperations (E : PgEnv) (T : StatusText) (w : PgWorld)
  : PgStatus * PgWorld :=
  if negb (buffer_write_ops_ (pg w)) then
    (AsIs (STATUS Code.IllegalState kNone
             (Text "Not buffering write operations currently")), w)
  else
    match buffered_write_ops_ (pg w) with
    | [] => (AsIs Status_OK, upd_pg (set_buffer_write_ops false) w)
    | ops =>
        match GetSession E false false w with
        | (inl s, w1) => (AsIs s, w1)
        | (inr session, w1) =>
            match apply_buffered E session ops w1 with
            | (Some s, w2) => (AsIs s, w2)
            | (None, w2) =>
                let w3 := pg_effect (SessionFlushAsync session) w2 in
                let outcome := flush_outcome E (pg_effects w3) in
                (CombineErrorsToStatus T (fst outcome) (snd outcome),
                 upd_pg (set_buffer_write_ops false)
                   (upd_pg (set_buffered_write_ops []) w3))
            end
        end
    end.

(** [PgSession::PgApplyAsync]; [read_time] is [None] for a null pointer, and
    the second component of the result is what it points to afterwards.
    [OpBuffered] is a strongly typed bool. *)
Definition PgApplyAsync (E : PgEnv) (op : YBPgsqlOp) (read_time : option Z)
    (w : PgWorld) : (Status + bool) * option Z * PgWorld :=
  if buffer_write_ops_ (pg w) &&
     match pgsql_type op with PGSQL_WRITE => true | _ => false end then
    if IsTransactional op then
      (inl (STATUS Code.IllegalState kNone
              (Text "Only non-transactional ops should be buffered")), read_time, w)
    else
      (inr true, read_time,
       upd_pg (fun s => set_buffered_write_ops (buffered_write_ops_ s ++ [op]) s) w)
  else
    let w1 := upd_pg (if IsTransactional op then set_has_txn_ops true
                      else set_has_non_txn_ops true) w in
    match GetSessionForOp E op w1 with
    | (inl s, w2) => (inl s, read_time, w2)
    | (inr session, w2) =>
        let '(read_time', w3) :=
          match read_time with
          | Some t =>
              if has_txn_ops_ (pg w2) then
                let t' := if t =? 0 then clock_Now E (pg_effects w2) else t in
                (Some t', pg_effect (SessionSetInTxnLimit session t') w2)
              else (read_time, w2)
          | None => (None, w2)
          end in
        let s := session_Apply E (pg_effects w3) session op in
        let w4 := pg_effect (SessionApply session op) w3 in
        if ok s then (inr false, read_time', w4) else (inl s, read_time', w4)
    end.

(** [PgSession::PgFlushAsync] *)
Definition PgFlushAsync (E : PgEnv) (w : PgWorld) : Status * PgWorld :=
  if has_txn_ops_ (pg w) && has_non_txn_ops_ (pg w) then
    (STATUS Code.IllegalState kNone
       (Text "Cannot flush transactional and non-transactional operations together"), w)
  else
    let transactional := has_txn_ops_ (pg w) in
    let w1 := upd_pg (fun s => set_has_non_txn_ops false (set_has_txn_ops false s)) w in
    match GetSession E transactional true w1 with
    | (inl s, w2) => (s, w2)
    | (inr session, w2) => (Status_OK, pg_effect (SessionFlushAsync session) w2)
    end.

(** A call of one of the four methods, and the world it leaves. *)
Inductive PgCall :=
| CallStartBuffering
| CallFlushBuffered
| CallPgApplyAsync (op : YBPgsqlOp) (read_time : option Z)
| CallPgFlushAsync.

Definition pg_call (E : PgEnv) (T : StatusText) (w : PgWorld) (c : PgCall) : PgWorld :=
  match c with
  | CallStartBuffering => snd (StartBufferingWriteOperations w)
  | CallFlushBuffered => snd (FlushBufferedWriteOperations E T w)
  | CallPgApplyAsync op read_time => snd (PgApplyAsync E op read_time w)
  | CallPgFlushAsync => snd (PgFlushAsync E w)
  end.

Definition pg_calls (E : PgEnv) (T : StatusText) (l : list PgCall) (w : PgWorld)
  : PgWorld :=
  foldl (pg_call E T) w l.

(** The flushes PgSession started, by session. *)
Definition flushes_started (w : PgWorld) : list bool :=
  omap (fun e => match e with SessionFlushAsync t => Some t | _ => None end)
       (pg_effects w).

(** The ops PgSession applied, with the session of each. *)
Definition ops_applied (w : PgWorld) : list (bool * YBPgsqlOp) :=
  omap (fun e => match e with SessionApply t op => Some (t, op) | _ => None end)
       (pg_effects w).

(** An op that [PgApplyAsync] buffers. *)
Definition bufferable (op : YBPgsqlOp) : Prop :=
  pgsql_type op = PGSQL_WRITE /\ IsTransactional op = false.

(** What holds of the buffer of PgSession: it holds only non-transactional
    writes, and nothing outside buffering. *)
Definition buffer_inv (s : PgSession) : Prop :=
  Forall bufferable (buffered_write_ops_ s) /\
  (buffer_write_ops_ s = false -> buffered_write_ops_ s = []).

(** * The C interface of Status (src/yb/common/ybc_util.cc) *)

(** [size_t] arithmetic. *)
Definition size_t (n : Z) : Z := n mod 2 ^ 64.

(** [strlen]: the bytes before the first NUL of the memory at the pointer. *)
Fixpoint strlen (s : list Byte.byte) : nat :=
  match s with
  | [] => O
  | c :: rest => if Byte.eqb c Byte.x00 then O else S (strlen rest)
  end.

(** [YBCPAlloc(sz)]: memory that was allocated; a byte is [None] until it
    is written. *)
Definition YBCPAlloc (sz : Z) : list (option Byte.byte) :=
  replicate (Z.to_nat sz) None.

(** [memcpy(buf + pos, src, n)], and [buf[pos] = c]; [None] when the
    access leaves the buffer or the source. *)
Definition memcpy (buf : list (option Byte.byte)) (pos : nat)
    (src : list Byte.byte) (n : nat) : option (list (option Byte.byte)) :=
  if bool_decide (pos + n <= length buf /\ n <= length src)%nat
  then Some (take pos buf ++ map Some (take n src) ++ drop (pos + n) buf)
  else None.

Definition poke (buf : list (option Byte.byte)) (pos : nat) (c : Byte.byte)
  : option (list (option Byte.byte)) :=
  if bool_decide (pos < length buf)%nat then Some (<[pos := Some c]> buf) else None.

(** [DupYBStatusMessage]; [code_as_cstring] is the memory at
    [YBCStatusCodeAsCString(status)], [message] the bytes of
    [status.message()]. *)
Definition DupYBStatusMessage (code_as_cstring message : list Byte.byte)
    (message_only : bool) : option (list (option Byte.byte)) :=
  let code_strlen := strlen code_as_cstring in
  let status_len := length message in
  let sz := size_t (size_t (Z.of_nat code_strlen + Z.of_nat status_len) + 3) in
  let sz := if message_only then size_t (sz - size_t (2 + Z.of_nat code_strlen))
            else sz in
  let msg_buf := YBCPAlloc sz in
  let pos := O in
  start ← (if negb message_only then
             buf ← memcpy msg_buf O code_as_cstring code_strlen;
             let pos := (pos + code_strlen)%nat in
             buf ← poke buf pos Byte.x3a;
             buf ← poke buf (S pos) Byte.x20;
             Some (buf, S (S pos))
           else Some (msg_buf, pos));
  buf ← memcpy start.1 start.2 message status_len;
  poke buf (start.2 + status_len) Byte.x00.

Definition USHRT_MAX : Z := 65535.

(** [YBCGetNumHashBuckets] *)
Definition YBCGetNumHashBuckets : positive := 64.

(** [YBCGetHashBucketFromValue]; the [double] it returns is a whole
    number. *)
Definition YBCGetHashBucketFromValue (hash_val : Z) : Z := Z.shiftr hash_val 10.

(** [YBCEvalHashValueSelectivity].  The buckets are [uint32_t]; the
    [double] that is returned is a number of buckets between 1 and
    2^32, or zero, divided by 64, which a [double] holds exactly: it is
    given as a rational number. *)
Definition YBCEvalHashValueSelectivity (hash_low hash_high : Z) : Q :=
  let hash_high := if hash_high <=? USHRT_MAX then hash_high else USHRT_MAX in
  let hash_high := if hash_high >=? 0 then hash_high else 0 in
  let hash_low := if hash_low >=? 0 then hash_low else 0 in
  let hash_low := if hash_low <=? USHRT_MAX then hash_low else USHRT_MAX in
  let greatest_bucket := YBCGetHashBucketFromValue hash_high in
  let lowest_bucket := YBCGetHashBucketFromValue hash_low in
  if hash_high >=? hash_low
  then ((greatest_bucket - lowest_bucket) mod 2 ^ 32 + 1) # YBCGetNumHashBuckets
  else 0 # 1.

(** The value [YBCEvalHashValueSelectivity] works with for a bound. *)
Definition clamped (hash : Z) : Z := Z.max 0 (Z.min hash USHRT_MAX).

(** * VertexWithDistance (src/yb/vector/distance.h)

    A [float] is a [spec_float] of the Standard Library, and its
    comparisons are the IEEE 754 ones ([SFcompare]): a NaN compares with
    nothing, and the two zeros are equal.  [VertexId] is an unsigned
    integer. *)
Record VertexWithDistance := {
  vertex_id : Z;
  distance : spec_float
}.

(** [a > b] on floats. *)
Definition SFgtb (x y : spec_float) : bool := SFltb y x.

(** [operator ==] *)
Definition VertexWithDistance_eq (a b : VertexWithDistance) : bool :=
  (vertex_id a =? vertex_id b) && SFeqb (distance a) (distance b).

(** [operator !=] *)
Definition VertexWithDistance_ne (a b : VertexWithDistance) : bool :=
  negb (VertexWithDistance_eq a b).

(** [operator <] *)
Definition VertexWithDistance_lt (a b : VertexWithDistance) : bool :=
  SFltb (distance a) (distance b) ||
  (SFeqb (distance a) (distance b) && (vertex_id a <? vertex_id b)).

(** [operator >] *)
Definition VertexWithDistance_gt (a b : VertexWithDistance) : bool :=
  SFgtb (distance a) (distance b) ||
  (SFeqb (distance a) (distance b) && (vertex_id a >? vertex_id b)).

Definition isnan (x : spec_float) : bool :=
  match x with S754_nan => true | _ => false end.

(** Where a float that is not a NaN stands among the floats: its class
    from minus infinity to plus infinity, then exponent and mantissa. *)
Definition float_rank (x : spec_float) : Z * Z * Z :=
  match x with
  | S754_infinity true => (-2, 0, 0)
  | S754_finite true m e => (-1, - e, - Z.pos m)
  | S754_zero _ | S754_nan => (0, 0, 0)
  | S754_finite false m e => (1, e, Z.pos m)
  | S754_infinity false => (2, 0, 0)
  end.

(** The lexicographic order of the ranks. *)
Definition rank_lt (x y : Z * Z * Z) : Prop :=
  x.1.1 < y.1.1 \/
  (x.1.1 = y.1.1 /\ (x.1.2 < y.1.2 \/ (x.1.2 = y.1.2 /\ x.2 < y.2))).


(** ** Example data

    A client without a callback pool and one with a pool, two tablets, and
    operations on a hash-partitioned table. *)

Definition env0 : Env :=
  {| session_alive := true; callback_threadpool := None;
     FLAGS_TEST_combine_batcher_errors := false;
     RandomActWithProbability := fun _ => false;
     meta_cache := fun _ => None;
     ShouldSessionRetryError := fun _ => false;
     StatusFromPB := fun pb =>
       STATUS (Code.Other (pb_code pb)) kNone (Text (pb_message pb)) |}.

Definition env_pool : Env :=
  {| session_alive := true; callback_threadpool := Some true;
     FLAGS_TEST_combine_batcher_errors := false;
     RandomActWithProbability := fun _ => false;
     meta_cache := fun _ => None;
     ShouldSessionRetryError := fun _ => false;
     StatusFromPB := fun pb =>
       STATUS (Code.Other (pb_code pb)) kNone (Text (pb_message pb)) |}.

Definition tabA : RemoteTablet :=
  {| tablet_addr := 100; ContainsKey := fun _ => true;
     tablet_partition_list_version := 8 |}.

Definition tabB : RemoteTablet :=
  {| tablet_addr := 200; ContainsKey := fun _ => true;
     tablet_partition_list_version := 8 |}.

Definition tbl : YBTable :=
  {| namespace_name := "db"%string; IsHashPartitioning := true |}.

(** The operation at address [a], of kind [g], with partition key [k], a
    tablet known in advance or not, and a declared partition list version
    or none. *)
Definition mkop (a : Z) (g : OpGroup) (k : PartitionKey)
    (t : option RemoteTablet) (v : option Z) : YBOperation :=
  {| op_addr := a; type := QL_WRITE; group := g;
     read_only := negb (bool_decide (g = kWrite)); table := tbl;
     GetPartitionKey := (Status_OK, k); op_tablet := t;
     partition_list_version := v |}.

(** The in-flight record of [o] with sequence number [seq], after its
    lookup gave the tablet [t]. *)
Definition in_flight (o : YBOperation) (t : option RemoteTablet) (seq : nat)
  : InFlightOp :=
  set_tablet t (set_partition_key (snd (GetPartitionKey o)) (InFlightOp_new o seq)).

(** A Batcher in the state [st] that was given the callback 7 and has the
    queue [q]. *)
Definition flushing (q : list InFlightOp) (st : BatcherState) : World :=
  upd (fun b => set_flush_callback (Some 7) (set_state st (set_ops_queue q b)))
      (World_new None false false).

Definition not_found : Status := STATUS Code.NotFound kNone (Text "no tablet"%string).

(** A read and a write of the same key, submitted in this order, and a
    write of another key. *)
Definition read_k : YBOperation := mkop 1 kLeaderRead "k"%string None None.
Definition write_k : YBOperation := mkop 2 kWrite "k"%string None None.
Definition write_j : YBOperation := mkop 3 kWrite "j"%string None None.
Definition write_k_v7 : YBOperation := mkop 4 kWrite "k"%string None (Some 7).

Definition failed_world : World :=
  upd (set_error_collector [(1, not_found)]) (flushing [] kTransactionReady).

Definition aborting : Status := STATUS Code.Aborted kNone (Text "first"%string).
Definition timed_out : Status := STATUS Code.TimedOut kNone (Text "second"%string).

(** Two groups over a queue of two ops, ready to be executed. *)
Definition grouped_world : World :=
  upd (set_groups [InFlightOpsGroup_new 0 1; InFlightOpsGroup_new 1 2])
    (flushing [in_flight write_k (Some tabA) 0; in_flight write_j (Some tabB) 1]
       kTransactionPrepare).

(** A response with an error for the row 1 and one for a row out of range. *)
Definition two_row_errors : WriteResponsePB :=
  {| propagated_hybrid_time := None;
     per_row_errors :=
       [ {| row_index := 1; row_error := {| pb_code := 5; pb_message := "dup"%string |} |};
         {| row_index := 9; row_error := {| pb_code := 6; pb_message := "far"%string |} |} ] |}.

Definition sent_world : World :=
  flushing [in_flight write_k (Some tabA) 0; in_flight write_j (Some tabA) 1]
    kTransactionReady.

Definition whole_rpc : AsyncRpc :=
  {| rpc_kind := WriteRpc; rpc_tablet := 100;
     allow_local_calls_in_curr_thread := false; need_consistent_read := false;
     rpc_ops := (0, 2)%nat; rpc_need_metadata := false |}.

(** The lookups are done; one op declares the partition list version 7 and
    its tablet has the version 8. *)
Definition stale_version_world : World :=
  flushing [in_flight write_j (Some tabB) 0; in_flight write_k_v7 (Some tabA) 1]
    kResolvingTablets.

(** The lookups are done; the first op of the key k found no tablet. *)
Definition one_lookup_failed : World :=
  flushing [set_error not_found (in_flight read_k None 0);
            in_flight write_k (Some tabA) 1;
            in_flight write_j (Some tabA) 2]
    kResolvingTablets.

(** The lookups are done for two writes and a read of one tablet, and a
    write of another tablet. *)
Definition resolved_world : World :=
  flushing [in_flight write_j (Some tabB) 0; in_flight read_k (Some tabA) 1;
            in_flight write_k (Some tabA) 2;
            in_flight (mkop 5 kWrite "k"%string None None) (Some tabA) 3]
    kResolvingTablets.

(** A Batcher that gathered a write whose partition key is empty. *)
Definition empty_key_world : World :=
  upd (set_ops [mkop 6 kWrite EmptyString None None]) (World_new None false false).

(** A Batcher that gathered two writes with usable keys and then one whose
    partition key is empty. *)
Definition third_key_empty : World :=
  upd (set_ops [write_k; write_j; mkop 6 kWrite EmptyString None None; read_k])
      (World_new None false false).

(** Two ops whose lookups are outstanding. *)
Definition two_lookups_pending : World :=
  upd (set_outstanding_lookups 2)
    (flushing [in_flight write_k None 0; in_flight write_j None 1] kResolvingTablets).

(** Two RPCs that are outstanding, and the report of an RPC that went well. *)
Definition two_rpcs_pending : World :=
  upd (set_outstanding_rpcs 2)
    (flushing [in_flight write_k (Some tabA) 0; in_flight write_j (Some tabB) 1]
       kTransactionReady).

Definition good_report (ops : nat * nat) : FlushReport :=
  {| report_ops := ops; report_status := Status_OK;
     report_used_read_time := 0; report_propagated_hybrid_time := 0 |}.

(** The client with the test flag that combines the errors. *)
Definition env_combine : Env :=
  {| session_alive := true; callback_threadpool := None;
     FLAGS_TEST_combine_batcher_errors := true;
     RandomActWithProbability := fun _ => false;
     meta_cache := fun _ => None;
     ShouldSessionRetryError := fun _ => false;
     StatusFromPB := fun pb =>
       STATUS (Code.Other (pb_code pb)) kNone (Text (pb_message pb)) |}.

(** One RPC over the whole queue is outstanding. *)
Definition one_rpc_pending : World :=
  upd (set_outstanding_rpcs 1) sent_world.

(** A Batcher that was aborted while its lookups were outstanding, and what
    arrives afterwards. *)
Definition aborted_world : World :=
  upd (set_state kAborted) two_lookups_pending.

Definition late_calls : list Call :=
  [CallTabletLookupFinished 0 (inr tabA); CallTabletLookupFinished 1 (inr tabB);
   CallTransactionReady Status_OK; CallFlushAsync 8 false].

(** A Batcher that gathered two writes whose tablets are not known. *)
Definition two_writes_added : World :=
  upd (set_ops [write_k; write_j]) (World_new None false false).

(** A Batcher that gathered two writes whose tablets are known. *)
Definition two_known_writes : World :=
  upd (set_ops [mkop 2 kWrite "k"%string (Some tabA) None;
                mkop 3 kWrite "j"%string (Some tabB) None])
      (World_new None false false).

(** A transaction that is not ready when [ExecuteOperations] asks first,
    and is ready when it calls [TransactionReady]. *)
Definition waiting_transaction : YBTransaction :=
  {| Prepare_ready := fun initial => negb initial;
     Prepare_need_metadata := fun _ => true |}.

Definition good_reply : RpcReply :=
  {| reply_status := Status_OK;
     reply_response := {| propagated_hybrid_time := None; per_row_errors := [] |};
     reply_used_read_time := 0; reply_propagated_hybrid_time := 0 |}.

(** Surroundings in which everything goes well: the lookups find the
    tablet B for the position 1 and the tablet A for the others, and the
    lookups and the RPCs are answered in the reverse order. *)
Definition surroundings0 : Surroundings :=
  {| lookup_reply := fun p => if (p =? 1)%nat then inr tabB else inr tabA;
     lookup_order := reverse;
     transaction_reply := Status_OK;
     rpc_reply := fun _ => good_reply;
     rpc_order := reverse |}.

(** A Batcher within a transaction that gathered a read and two writes. *)
Definition three_ops_in_transaction : World :=
  upd (set_ops [read_k; write_j; write_k])
      (World_new (Some waiting_transaction) false false).

(** A Batcher that gathered two writes whose tablets are not known and,
    last, a write of the key of the first whose tablet is known. *)
Definition known_tablet_last : World :=
  upd (set_ops [write_k; write_j; mkop 5 kWrite "k"%string (Some tabA) None])
      (World_new None false false).

(** Text functions that show only the code of a status. *)
Definition code_only : StatusText :=
  {| formatted := fun _ => "formatted"%string;
     ToString := fun s => match code s with
                          | Code.NotFound => "Not found"%string
                          | Code.TimedOut => "Timed out"%string
                          | _ => "Other"%string
                          end;
     RangeToString := fun strings =>
       if bool_decide ("Not found"%string ∈ strings)
       then "[Not found, ...]"%string else "[...]"%string |}.

(** Surroundings in which everything goes well. *)
Definition pg_env0 : PgEnv :=
  {| GetTransactionalSession := fun _ => Status_OK;
     session_Apply := fun _ _ _ => Status_OK;
     flush_outcome := fun _ => ([], Status_OK);
     clock_Now := fun _ => 42 |}.

(** Surroundings in which applying the op 2 times out. *)
Definition pg_env_op2_fails : PgEnv :=
  {| GetTransactionalSession := fun _ => Status_OK;
     session_Apply := fun _ _ op => if pgsql_op op =? 2 then timed_out else Status_OK;
     flush_outcome := fun _ => ([], Status_OK);
     clock_Now := fun _ => 42 |}.

Definition plain_write (n : Z) : YBPgsqlOp :=
  {| pgsql_op := n; pgsql_type := PGSQL_WRITE; IsTransactional := false;
     pgsql_read_only := false |}.

Definition txn_read (n : Z) : YBPgsqlOp :=
  {| pgsql_op := n; pgsql_type := PGSQL_READ; IsTransactional := true;
     pgsql_read_only := true |}.

(** A PgSession that did nothing yet, one that applied ops of both kinds,
    and one that buffers three writes. *)
Definition pg_idle : PgWorld :=
  {| pg := {| buffer_write_ops_ := false; buffered_write_ops_ := [];
              has_txn_ops_ := false; has_non_txn_ops_ := false |};
     pg_effects := [] |}.

Definition pg_mixed : PgWorld :=
  upd_pg (fun s => set_has_non_txn_ops true (set_has_txn_ops true s)) pg_idle.

Definition pg_buffering : PgWorld :=
  upd_pg (fun s => set_buffered_write_ops [plain_write 1; plain_write 2; plain_write 3]
                     (set_buffer_write_ops true s)) pg_idle.

(** ** Rules for the computations *)

Lemma wp_ret {A} (a : A) Q E w : Q a w -> wp (ret a) Q E w.
Proof. intros H. exact H. Qed.

Lemma wp_raise {A} (e : Fault) (Q : A -> World -> Prop) E w :
  E w -> wp (raise e) Q E w.
Proof. intros H. exact H. Qed.

Lemma wp_get Q E w : Q (bat w) w -> wp get Q E w.
Proof. intros H. exact H. Qed.

Lemma wp_modify g Q E w : Q tt (upd g w) -> wp (modify g) Q E w.
Proof. intros H. exact H. Qed.

Lemma wp_emit e Q E w : Q tt (add_effect e w) -> wp (emit e) Q E w.
Proof. intros H. exact H. Qed.

Lemma wp_bind {A B} (c : M A) (k : A -> M B) Q E w :
  wp c (fun a w' => wp (k a) Q E w') E w -> wp (bind c k) Q E w.
Proof. unfold wp, bind. destruct (c w); auto. Qed.

Lemma wp_mono {A} (c : M A) (Q Q' : A -> World -> Prop) (E E' : World -> Prop) w :
  wp c Q E w -> (forall a w', Q a w' -> Q' a w') -> (forall w', E w' -> E' w') ->
  wp c Q' E' w.
Proof. unfold wp. destruct (c w); auto. Qed.

Lemma wp_when (c : bool) k Q E w :
  (c = true -> wp k Q E w) -> (c = false -> Q tt w) -> wp (when c k) Q E w.
Proof. destruct c; simpl; intros H1 H2; [apply H1|apply H2]; reflexivity. Qed.

Lemma wp_for_each {A} (I : World -> Prop) (l : list A) (body : A -> M unit) E w :
  I w -> (forall x w', x ∈ l -> I w' -> wp (body x) (fun _ => I) E w') ->
  wp (for_each l body) (fun _ => I) E w.
Proof.
  revert w. induction l as [|x l IH]; intros w Hw Hbody; simpl.
  - exact Hw.
  - apply wp_bind. eapply wp_mono.
    + apply Hbody; [left|exact Hw].
    + simpl. intros _ w' Hw'. apply IH; [exact Hw'|].
      intros y w'' Hy. apply Hbody. by right.
    + auto.
Qed.

Lemma wp_returns {A} (c : M A) Q w :
  wp c Q (fun _ => False) w -> exists a w', c w = Done a w' /\ Q a w'.
Proof. unfold wp. destruct (c w); [eauto|done]. Qed.

Lemma wp_stable {X A} (f : World -> X) (c : M A) (Q : A -> World -> Prop) E w :
  stable f c ->
  (forall a w', f w' = f w -> Q a w') -> (forall w', f w' = f w -> E w') ->
  wp c Q E w.
Proof.
  intros Hs HQ HE. unfold wp. specialize (Hs w).
  destruct (c w); simpl in Hs; auto.
Qed.

Section Stable.

Context {X : Type} (f : World -> X).

Lemma stable_ret {A} (a : A) : stable f (ret a).
Proof. intros w. reflexivity. Qed.

Lemma stable_raise {A} (e : Fault) : stable f (@raise A e).
Proof. intros w. reflexivity. Qed.

Lemma stable_get : stable f get.
Proof. intros w. reflexivity. Qed.

Lemma stable_bind {A B} (c : M A) (k : A -> M B) :
  stable f c -> (forall a, stable f (k a)) -> stable f (bind c k).
Proof.
  intros Hc Hk w. unfold bind. specialize (Hc w).
  destruct (c w) as [a w1|e w1]; simpl in *; [|exact Hc].
  rewrite Hk. exact Hc.
Qed.

Lemma stable_modify (g : Batcher -> Batcher) :
  (forall w, f (upd g w) = f w) -> stable f (modify g).
Proof. intros H w. apply H. Qed.

Lemma stable_emit (e : Effect) :
  (forall w, f (add_effect e w) = f w) -> stable f (emit e).
Proof. intros H w. apply H. Qed.

Lemma stable_when (c : bool) (k : M unit) : stable f k -> stable f (when c k).
Proof. destruct c; simpl; auto using stable_ret. Qed.

Lemma stable_for_each {A} (l : list A) (body : A -> M unit) :
  (forall x, stable f (body x)) -> stable f (for_each l body).
Proof.
  intros H. induction l as [|x l IH]; simpl.
  - apply stable_ret.
  - apply stable_bind; auto.
Qed.

Lemma stable_EraseIf pred (q : list InFlightOp) :
  (forall op, stable f (pred op)) -> stable f (EraseIf pred q).
Proof.
  intros H. induction q as [|op q IH]; simpl.
  - apply stable_ret.
  - apply stable_bind; [apply H|intros r].
    apply stable_bind; [apply IH|intros r']. apply stable_ret.
Qed.

Lemma stable_PoolRun : (forall n w, f (set_pool n w) = f w) -> stable f Run ->
  stable f PoolRun.
Proof.
  intros Hp Hr w. unfold PoolRun. destruct (pool w) as [|n]; [reflexivity|].
  rewrite (Hr (set_pool n w)). apply Hp.
Qed.

End Stable.

Ltac head_of t := lazymatch t with ?g _ => head_of g | _ => t end.

(** The loops that are written as fixpoints of their own. *)
Section Loops.

Variable env : Env.
Context {X : Type} (f : World -> X).

Lemma stable_group_loop :
  (forall s, stable f (Abort env s)) ->
  (forall g, stable f (modify (push_group g))) ->
  forall rest it gs cg ct, stable f (group_loop env rest it gs cg ct).
Proof.
  intros HA Hp. induction rest as [|op rest IH]; intros; simpl.
  - apply stable_ret.
  - assert (Hc : stable f
      (if negb (ct =? tablet_get op) || negb (bool_decide (cg = group (yb_op op)))
       then modify (push_group (InFlightOpsGroup_new gs it)) >>
            group_loop env rest (S it) it (group (yb_op op)) (tablet_get op)
       else group_loop env rest (S it) gs cg ct)).
    { destruct (_ || _); [apply stable_bind; auto|apply IH]. }
    destruct (partition_list_version (yb_op op)); [|exact Hc].
    destruct (tablet op); [|apply stable_raise].
    destruct (negb (_ =? tablet_partition_list_version _)); [|exact Hc].
    apply stable_bind; [apply HA|intros; apply stable_ret].
Qed.

Lemma stable_create_rpcs n gs : stable f (create_rpcs n gs).
Proof.
  induction gs as [|g gs IH]; simpl; [apply stable_ret|].
  apply stable_bind; [apply stable_get|intros b].
  destruct (ops_queue_ b !! group_begin g); [|apply stable_raise].
  apply stable_bind.
  - unfold CreateRpc. destruct (_ =? _)%nat; [apply stable_raise|apply stable_ret].
  - intros r. apply stable_bind; [apply IH|intros; apply stable_ret].
Qed.

Lemma stable_fill_queue :
  stable f (FlushFinished env) ->
  (forall g, stable f (modify (fun b => set_ops_queue (g b) b))) ->
  (forall s, stable f (modify (set_combined_error s))) ->
  (forall a k, stable f (emit (SetHashCode a k))) ->
  forall l, stable f (FlushAsync_fill_queue env l).
Proof.
  intros HF Hq Hc He. induction l as [|o l IH]; simpl; [apply stable_ret|].
  apply stable_bind; [apply stable_get|intros b].
  destruct (GetPartitionKey o) as [st key].
  apply stable_bind; [apply (Hq (fun b => ops_queue_ b ++ [_]))|intros _].
  apply stable_bind.
  - destruct (_ && _); [|apply stable_ret].
    destruct (String.eqb _ _); [apply stable_ret|].
    apply stable_bind; [apply He|intros; apply stable_ret].
  - intros st'. destruct (negb _); [|apply IH].
    apply stable_bind; [apply Hc|intros _].
    apply stable_bind; [apply HF|intros; apply stable_ret].
Qed.
End Loops.

Ltac stable_step :=
  lazymatch goal with
  | |- stable _ (bind _ _) => apply stable_bind; [|intros ?]
  | |- stable _ (ret _) => apply stable_ret
  | |- stable _ (raise _) => apply stable_raise
  | |- stable _ get => apply stable_get
  | |- stable _ (modify _) => apply stable_modify; intros ?; reflexivity
  | |- stable _ (emit _) => apply stable_emit; intros ?; reflexivity
  | |- stable _ (when _ _) => apply stable_when
  | |- stable _ (for_each _ _) => apply stable_for_each; intros ?
  | |- stable _ (EraseIf _ _) => apply stable_EraseIf; intros ?
  | |- stable _ PoolRun => apply stable_PoolRun; [intros ? ?; reflexivity|]
  | |- stable _ (group_loop _ _ _ _ _ _) => apply stable_group_loop; intros ?
  | |- stable _ (create_rpcs _ _) => apply stable_create_rpcs
  | |- stable _ (FlushAsync_fill_queue _ _) => apply stable_fill_queue; intros
  | |- stable _ (if ?c then _ else _) => destruct c
  | |- stable _ (match ?x with _ => _ end) => destruct x
  | |- stable _ (fun w => Done _ _) => intros ?; reflexivity
  | |- stable _ ?c => let h := head_of c in unfold h
  end.
Ltac stable_tac := repeat stable_step.

(** ** Relations between the world before and after a computation *)

Section Follows.

Context (R : World -> World -> Prop) `{!PreOrder R}.

Lemma follows_ret {A} (a : A) : follows R (ret a).
Proof. intros w. reflexivity. Qed.

Lemma follows_raise {A} (e : Fault) : follows R (@raise A e).
Proof. intros w. reflexivity. Qed.

Lemma follows_get : follows R get.
Proof. intros w. reflexivity. Qed.

Lemma follows_bind {A B} (c : M A) (k : A -> M B) :
  follows R c -> (forall a, follows R (k a)) -> follows R (bind c k).
Proof.
  intros Hc Hk w. unfold bind. specialize (Hc w).
  destruct (c w) as [a w1|e w1]; simpl in *; [|exact Hc].
  etransitivity; [exact Hc|apply Hk].
Qed.

Lemma follows_modify (g : Batcher -> Batcher) :
  (forall w, R w (upd g w)) -> follows R (modify g).
Proof. intros H w. apply H. Qed.

Lemma follows_emit (e : Effect) :
  (forall w, R w (add_effect e w)) -> follows R (emit e).
Proof. intros H w. apply H. Qed.

Lemma follows_when (c : bool) (k : M unit) : follows R k -> follows R (when c k).
Proof. destruct c; simpl; auto using follows_ret. Qed.

Lemma follows_for_each {A} (l : list A) (body : A -> M unit) :
  (forall x, follows R (body x)) -> follows R (for_each l body).
Proof.
  intros H. induction l as [|x l IH]; simpl.
  - apply follows_ret.
  - apply follows_bind; auto.
Qed.

Lemma follows_EraseIf pred (q : list InFlightOp) :
  (forall op, follows R (pred op)) -> follows R (EraseIf pred q).
Proof.
  intros H. induction q as [|op q IH]; simpl.
  - apply follows_ret.
  - apply follows_bind; [apply H|intros r].
    apply follows_bind; [apply IH|intros r']. apply follows_ret.
Qed.

Lemma follows_PoolRun :
  (forall n w, R w (set_pool n w)) -> follows R Run -> follows R PoolRun.
Proof.
  intros Hp Hr w. unfold PoolRun. destruct (pool w) as [|n]; [reflexivity|].
  etransitivity; [apply (Hp n)|apply Hr].
Qed.

Variable env : Env.

Lemma follows_group_loop :
  (forall s, follows R (Abort env s)) ->
  (forall g, follows R (modify (push_group g))) ->
  forall rest it gs cg ct, follows R (group_loop env rest it gs cg ct).
Proof.
  intros HA Hp. induction rest as [|op rest IH]; intros; simpl.
  - apply follows_ret.
  - assert (Hc : follows R
      (if negb (ct =? tablet_get op) || negb (bool_decide (cg = group (yb_op op)))
       then modify (push_group (InFlightOpsGroup_new gs it)) >>
            group_loop env rest (S it) it (group (yb_op op)) (tablet_get op)
       else group_loop env rest (S it) gs cg ct)).
    { destruct (_ || _); [apply follows_bind; auto|apply IH]. }
    destruct (partition_list_version (yb_op op)); [|exact Hc].
    destruct (tablet op); [|apply follows_raise].
    destruct (negb (_ =? tablet_partition_list_version _)); [|exact Hc].
    apply follows_bind; [apply HA|intros; apply follows_ret].
Qed.

Lemma follows_create_rpcs n gs : follows R (create_rpcs n gs).
Proof.
  induction gs as [|g gs IH]; simpl; [apply follows_ret|].
  apply follows_bind; [apply follows_get|intros b].
  destruct (ops_queue_ b !! group_begin g); [|apply follows_raise].
  apply follows_bind.
  - unfold CreateRpc. destruct (_ =? _)%nat; [apply follows_raise|apply follows_ret].
  - intros r. apply follows_bind; [apply IH|intros; apply follows_ret].
Qed.

Lemma follows_fill_queue :
  follows R (FlushFinished env) ->
  (forall g, follows R (modify (fun b => set_ops_queue (g b) b))) ->
  (forall s, follows R (modify (set_combined_error s))) ->
  (forall a k, follows R (emit (SetHashCode a k))) ->
  forall l, follows R (FlushAsync_fill_queue env l).
Proof.
  intros HF Hq Hc He. induction l as [|o l IH]; simpl; [apply follows_ret|].
  apply follows_bind; [apply follows_get|intros b].
  destruct (GetPartitionKey o) as [st key].
  apply follows_bind; [apply (Hq (fun b => ops_queue_ b ++ [_]))|intros _].
  apply follows_bind.
  - destruct (_ && _); [|apply follows_ret].
    destruct (String.eqb _ _); [apply follows_ret|].
    apply follows_bind; [apply He|intros; apply follows_ret].
  - intros st'. destruct (negb _); [|apply IH].
    apply follows_bind; [apply Hc|intros _].
    apply follows_bind; [apply HF|intros; apply follows_ret].
Qed.

End Follows.

(** One step of the decomposition of a goal [follows R c] along the
    structure of [c]; [leaf] closes the goals about a single change of the
    world. *)
Ltac follows_step leaf :=
  lazymatch goal with
  | |- follows ?R (bind _ _) => apply (@follows_bind R _); [|intros ?]
  | |- follows ?R (ret _) => apply (@follows_ret R _)
  | |- follows ?R (raise _) => apply (@follows_raise R _)
  | |- follows ?R get => apply (@follows_get R _)
  | |- follows _ (modify _) => apply follows_modify; intros ?; leaf
  | |- follows _ (emit _) => apply follows_emit; intros ?; leaf
  | |- follows ?R (when _ _) => apply (@follows_when R _)
  | |- follows ?R (for_each _ _) => apply (@follows_for_each R _); intros ?
  | |- follows ?R (EraseIf _ _) => apply (@follows_EraseIf R _); intros ?
  | |- follows ?R PoolRun => apply (@follows_PoolRun R _); [intros ? ?; leaf|]
  | |- follows _ Run => leaf
  | |- follows ?R (group_loop _ _ _ _ _ _) => apply (@follows_group_loop R _); intros ?
  | |- follows ?R (create_rpcs _ _) => apply (@follows_create_rpcs R _)
  | |- follows ?R (FlushAsync_fill_queue _ _) => apply (@follows_fill_queue R _); intros
  | |- follows _ (if ?c then _ else _) => destruct c
  | |- follows _ (match ?x with _ => _ end) => destruct x
  | |- follows _ (fun w => Done _ _) => intros ?; leaf
  | |- follows _ ?c => let h := head_of c in unfold h
  end.
Ltac follows_tac leaf := repeat (follows_step leaf).


(** ** Projections of a world after a step *)

Lemma callbacks_add_effect e w :
  callbacks (add_effect e w) =
  callbacks w ++ match e with InvokeCallback cb s => [(cb, s)] | _ => [] end.
Proof.
  unfold callbacks, add_effect; simpl. rewrite omap_app. simpl.
  destruct e; simpl; reflexivity.
Qed.

Lemma sent_rpcs_add_effect e w :
  sent_rpcs (add_effect e w) =
  sent_rpcs w ++ match e with SendRpc r => [r] | _ => [] end.
Proof.
  unfold sent_rpcs, add_effect; simpl. rewrite omap_app. simpl.
  destruct e; simpl; reflexivity.
Qed.

Lemma callbacks_upd g w : callbacks (upd g w) = callbacks w.
Proof. reflexivity. Qed.

Lemma callbacks_set_pool n w : callbacks (set_pool n w) = callbacks w.
Proof. reflexivity. Qed.

Lemma sent_rpcs_upd g w : sent_rpcs (upd g w) = sent_rpcs w.
Proof. reflexivity. Qed.

Lemma sent_rpcs_set_pool n w : sent_rpcs (set_pool n w) = sent_rpcs w.
Proof. reflexivity. Qed.

Lemma bat_upd g w : bat (upd g w) = g (bat w).
Proof. reflexivity. Qed.
Lemma bat_add_effect e w : bat (add_effect e w) = bat w.
Proof. reflexivity. Qed.
Lemma bat_set_pool n w : bat (set_pool n w) = bat w.
Proof. reflexivity. Qed.
Lemma pool_upd g w : pool (upd g w) = pool w.
Proof. reflexivity. Qed.
Lemma pool_add_effect e w : pool (add_effect e w) = pool w.
Proof. reflexivity. Qed.
Lemma pool_set_pool n w : pool (set_pool n w) = n.
Proof. reflexivity. Qed.
Lemma bat_notify_session env w : bat (notify_session env w) = bat w.
Proof. unfold notify_session. by case_match. Qed.
Lemma pool_notify_session env w : pool (notify_session env w) = pool w.
Proof. unfold notify_session. by case_match. Qed.
Lemma callbacks_notify_session env w : callbacks (notify_session env w) = callbacks w.
Proof.
  unfold notify_session. case_match; [|done].
  rewrite callbacks_add_effect. by rewrite app_nil_r.
Qed.
Lemma sent_rpcs_notify_session env w : sent_rpcs (notify_session env w) = sent_rpcs w.
Proof.
  unfold notify_session. case_match; [|done].
  rewrite sent_rpcs_add_effect. by rewrite app_nil_r.
Qed.
Lemma flush_callback_finished b : flush_callback_ (finished b) = flush_callback_ b.
Proof. unfold finished. by case_bool_decide. Qed.
Lemma flush_callback_aborted s b : flush_callback_ (aborted s b) = flush_callback_ b.
Proof. reflexivity. Qed.
Lemma combined_error_finished b : combined_error_ (finished b) = aggregated b.
Proof. reflexivity. Qed.

#[global] Hint Rewrite bat_upd bat_add_effect bat_set_pool pool_upd pool_add_effect
  pool_set_pool bat_notify_session pool_notify_session callbacks_notify_session
  sent_rpcs_notify_session callbacks_upd callbacks_set_pool callbacks_add_effect
  sent_rpcs_upd sent_rpcs_set_pool sent_rpcs_add_effect
  flush_callback_finished flush_callback_aborted combined_error_finished
  @app_nil_r : world.

(** ** Properties *)

Section Pending.

Variable env : Env.

(** *** The pending list *)

Lemma pending_call c :
  (forall op, c <> CallAdd op) -> stable (fun w => ops_ (bat w)) (call env c).
Proof. intros H. destruct c; try (by destruct (H op)); simpl; stable_tac. Qed.

Lemma ops_after_call c w :
  ops_ (bat (res_world (call env c w))) = ops_ (bat w) ++ accepted c w.
Proof.
  destruct c;
    try (match goal with
         | |- context [call env ?c w] =>
             let H := fresh in
             assert (H : forall op, c <> CallAdd op) by congruence;
             apply pending_call in H; specialize (H w);
             unfold accepted; rewrite app_nil_r; exact H
         end).
  simpl. unfold Add. msimpl. case_bool_decide; simpl; [reflexivity|by rewrite app_nil_r].
Qed.

Lemma Add_returns op w : exists w', Add op w = Done tt w'.
Proof. unfold Add. msimpl. case_bool_decide; simpl; eauto. Qed.

Lemma ops_after_calls l w :
  exists added, ops_ (bat (res_world (calls env l w))) = ops_ (bat w) ++ added /\
    (added <> [] <->
     exists l1 op l2 w1, l = l1 ++ CallAdd op :: l2 /\
       calls env l1 w = Done tt w1 /\ state_ (bat w1) = kGatheringOps).
Proof.
  revert w. induction l as [|c l IH]; intros w.
  - exists []. simpl. rewrite app_nil_r. split; [done|]. split; [done|].
    intros (l1 & op & l2 & w1 & Hl & _). by destruct l1.
  - unfold calls. simpl. unfold bind. fold (calls env l).
    pose proof (ops_after_call c w) as Hc.
    destruct (call env c w) as [[] w1|e w1] eqn:Ec; simpl in Hc.
    + destruct (IH w1) as (added & Ha & Hiff).
      exists (accepted c w ++ added). simpl. rewrite Ha, Hc, app_assoc. split; [done|].
      split.
      * intros Hne. destruct (accepted c w) as [|o ?] eqn:Eacc.
        -- simpl in Hne. apply Hiff in Hne as (l1 & op & l2 & w2 & -> & Hrun & Hst).
           exists (c :: l1), op, l2, w2. split; [done|]. split; [|done].
           unfold calls. simpl. unfold bind. by rewrite Ec.
        -- destruct c; simpl in Eacc; try discriminate.
           case_bool_decide; [|discriminate].
           exists [], op, l, w. done.
      * intros (l1 & op & l2 & w2 & Hl & Hrun & Hst).
        destruct l1 as [|c1 l1]; simpl in Hl; simplify_eq.
        -- simpl in Hrun. unfold ret in Hrun. simplify_eq. simpl.
           rewrite bool_decide_true by done. done.
        -- unfold calls in Hrun. simpl in Hrun. unfold bind in Hrun.
           rewrite Ec in Hrun. fold (calls env l1) in Hrun.
           assert (added <> []) as Hne.
           { apply Hiff. exists l1, op, l2, w2. done. }
           intros Happ. apply app_eq_nil in Happ as [_ ?]. done.
    + exists []. rewrite app_nil_r. simpl. split.
      * rewrite Hc. destruct c; simpl; rewrite ?app_nil_r; try done.
        destruct (Add_returns op w) as [w' Hw']. simpl in Ec. congruence.
      * split; [done|]. intros (l1 & op & l2 & w2 & Hl & Hrun & Hst).
        destruct l1 as [|c1 l1]; simpl in Hl; simplify_eq.
        -- destruct (Add_returns op w) as [w' Hw']. simpl in Ec. congruence.
        -- unfold calls in Hrun. simpl in Hrun. unfold bind in Hrun.
           rewrite Ec in Hrun. discriminate.
Qed.

(** C10.  [HasPendingOperations] answers whether the pending list [ops_] is
    non-empty.  No method but [Add] changes [ops_], and [Add] only appends:
    the list is never cleared, so once an operation was added the answer
    stays [true] whatever happens next, also after the flush completed.
    Starting from an empty list, the answer is [true] exactly when some
    [Add] was made while the state was [kGatheringOps].
    [CountBufferedOperations] is 0 in every other state. *)
Theorem HasPendingOperations_iff_added (l : list Call) (w : World) :
  let w' := res_world (calls env l w) in
  HasPendingOperations (bat w') = negb (bool_decide (length (ops_ (bat w')) = O)) /\
  (forall c, (forall op, c <> CallAdd op) ->
     ops_ (bat (res_world (call env c w))) = ops_ (bat w)) /\
  (exists added, ops_ (bat w') = ops_ (bat w) ++ added) /\
  (HasPendingOperations (bat w) = true -> HasPendingOperations (bat w') = true) /\
  (ops_ (bat w) = [] ->
   (HasPendingOperations (bat w') = true <->
    exists l1 op l2 w1, l = l1 ++ CallAdd op :: l2 /\
      calls env l1 w = Done tt w1 /\ state_ (bat w1) = kGatheringOps)) /\
  (state_ (bat w') <> kGatheringOps -> CountBufferedOperations (bat w') = 0).
Proof.
  intros w'. subst w'.
  destruct (ops_after_calls l w) as (added & Ha & Hiff).
  split_and!.
  - unfold HasPendingOperations. by destruct (ops_ _).
  - intros c Hc. apply (pending_call c Hc w).
  - eauto.
  - unfold HasPendingOperations. rewrite Ha. by destruct (ops_ (bat w)).
  - intros Hnil. rewrite <- Hiff. unfold HasPendingOperations. rewrite Ha, Hnil. simpl.
    destruct added; split; done.
  - intros Hst. unfold CountBufferedOperations. by rewrite bool_decide_false.
Qed.

End Pending.

Section Callback.

Variable env : Env.

(** *** The final callback *)

Lemma for_each_AddError (l : list InFlightOp) (s : Status) (w : World) :
  for_each l (fun op => AddError (yb_op op) s) w =
  Done tt (upd (fun b => set_error_collector
                 (error_collector_ b ++ map (fun op => (op_addr (yb_op op), s)) l) b) w).
Proof.
  revert w. induction l as [|op l IH]; intros w; simpl.
  - unfold ret, upd. destruct w as [b e p]; simpl. rewrite app_nil_r. by destruct b.
  - unfold bind, AddError, modify. rewrite IH. f_equal.
    unfold upd; simpl. rewrite <- app_assoc. reflexivity.
Qed.

Lemma Abort_eq status w :
  Abort env status w = FlushFinished env (upd (aborted status) w).
Proof.
  unfold Abort. unfold bind at 1. unfold get. unfold bind at 1.
  rewrite for_each_AddError. reflexivity.
Qed.

Lemma FlushFinished_eq w :
  FlushFinished env w = RunCallback env (upd finished (notify_session env w)).
Proof.
  destruct w as [b e p]. destruct b as [st ? ? ? ? ? col comb ? ? ? ? ? ?].
  unfold FlushFinished, finished, notify_session, aggregated, CountErrors, upd.
  simpl.
  destruct (bool_decide (st = kAborted)) eqn:E1;
    destruct (session_alive env) eqn:E2; msimpl; rewrite ?E1, ?E2; msimpl;
    destruct (ok comb && negb (length col =? 0)%nat) eqn:E3;
    msimpl; rewrite ?E1, ?E3; reflexivity.
Qed.

Lemma Run_Some w cb :
  flush_callback_ (bat w) = Some cb ->
  Run w = Done tt (upd (set_flush_callback None)
                     (add_effect (InvokeCallback cb (combined_error_ (bat w))) w)).
Proof. intros H. unfold Run. msimpl. rewrite H. reflexivity. Qed.

Lemma Run_None w :
  flush_callback_ (bat w) = None -> Run w = Raise bad_function_call w.
Proof. intros H. unfold Run. msimpl. rewrite H. reflexivity. Qed.

Lemma RunCallback_inline w :
  callback_threadpool env <> Some true -> RunCallback env w = Run w.
Proof. intros H. unfold RunCallback. by destruct (callback_threadpool env) as [[]|]. Qed.

Lemma RunCallback_pool w :
  callback_threadpool env = Some true ->
  RunCallback env w = Done tt (set_pool (S (pool w)) (add_effect ThreadPoolSubmit w)).
Proof. intros H. unfold RunCallback. rewrite H. reflexivity. Qed.

Lemma PoolRun_S w n : pool w = S n -> PoolRun w = Run (set_pool n w).
Proof. intros H. unfold PoolRun. by rewrite H. Qed.

Lemma PoolRun_O w : pool w = O -> PoolRun w = Done tt w.
Proof. intros H. unfold PoolRun. by rewrite H. Qed.

(** A flush that finishes hands the aggregated status to the callback that
    is stored, once, and clears the slot: at once when the callback runs
    inline, and when the pool runs the task otherwise. *)
Lemma FlushFinished_then_pool w cb :
  flush_callback_ (bat w) = Some cb -> pool w = O ->
  exists w', then_pool (FlushFinished env) w = Done tt w' /\
    callbacks w' = callbacks w ++ [(cb, aggregated (bat w))] /\
    sent_rpcs w' = sent_rpcs w /\
    bat w' = set_flush_callback None (finished (bat w)) /\
    pool w' = O.
Proof.
  intros Hcb Hpool. unfold then_pool, bind. rewrite FlushFinished_eq.
  set (w0 := upd finished (notify_session env w)).
  assert (Hb0 : bat w0 = finished (bat w)).
  { unfold w0, notify_session. by case_match. }
  assert (Hp0 : pool w0 = O).
  { unfold w0, notify_session. by case_match. }
  assert (Hc0 : callbacks w0 = callbacks w).
  { unfold w0, notify_session. case_match; [|done].
    unfold upd, callbacks; simpl. rewrite omap_app. simpl. by rewrite app_nil_r. }
  assert (Hr0 : sent_rpcs w0 = sent_rpcs w).
  { unfold w0, notify_session. case_match; [|done].
    unfold upd, sent_rpcs; simpl. rewrite omap_app. simpl. by rewrite app_nil_r. }
  assert (Hslot : flush_callback_ (bat w0) = Some cb).
  { rewrite Hb0. unfold finished. by case_bool_decide. }
  assert (Hagg : combined_error_ (bat w0) = aggregated (bat w)) by (by rewrite Hb0).
  clearbody w0.
  destruct (decide (callback_threadpool env = Some true)) as [Hp|Hp].
  - rewrite RunCallback_pool by done.
    rewrite (PoolRun_S _ (pool w0)) by reflexivity.
    rewrite Run_Some with (cb := cb) by exact Hslot.
    eexists; split; [reflexivity|].
    rewrite !callbacks_upd, !sent_rpcs_upd, !callbacks_add_effect, !sent_rpcs_add_effect.
    rewrite !callbacks_set_pool, !sent_rpcs_set_pool.
    rewrite !callbacks_add_effect, !sent_rpcs_add_effect. simpl.
    rewrite !app_nil_r, Hc0, Hr0, Hagg, Hb0. done.
  - rewrite RunCallback_inline by done.
    rewrite Run_Some with (cb := cb) by exact Hslot.
    rewrite PoolRun_O by exact Hp0.
    eexists; split; [reflexivity|].
    rewrite !callbacks_upd, !sent_rpcs_upd, !callbacks_add_effect, !sent_rpcs_add_effect.
    simpl. rewrite ?app_nil_r, Hc0, Hr0, Hagg, Hb0. done.
Qed.

(** C8.  [FlushFinished] passes to the user callback the generic IO error
    "Errors occurred while reaching out to the tablet servers" when the
    aggregated status was ok at entry and the error collector held at least
    one error, and the aggregated status it found otherwise; a status that
    was not ok is passed unchanged. *)
Theorem FlushFinished_callback_status (w : World) (cb : Z) :
  flush_callback_ (bat w) = Some cb -> pool w = O ->
  exists w' st,
    then_pool (FlushFinished env) w = Done tt w' /\
    callbacks w' = callbacks w ++ [(cb, st)] /\
    combined_error_ (bat w') = st /\
    st = (if ok (combined_error_ (bat w)) && negb (CountErrors (bat w) =? 0)%nat
          then kGeneralErrorStatus else combined_error_ (bat w)) /\
    message kGeneralErrorStatus = Text kErrorReachingOutToTServersMsg /\
    code kGeneralErrorStatus = Code.IOError /\
    (ok (combined_error_ (bat w)) = false -> st = combined_error_ (bat w)) /\
    (combined_error_ (bat w) <> kGeneralErrorStatus ->
     (st = kGeneralErrorStatus <->
      ok (combined_error_ (bat w)) = true /\ CountErrors (bat w) <> O)).
Proof.
  intros Hcb Hpool.
  destruct (FlushFinished_then_pool w cb Hcb Hpool) as (w' & Hrun & Hcbs & _ & Hbat & _).
  exists w', (aggregated (bat w)). split_and!; try done.
  - by rewrite Hbat.
  - unfold aggregated. intros ->. reflexivity.
  - intros Hne. unfold aggregated, CountErrors.
    destruct (ok (combined_error_ (bat w))) eqn:Hok; simpl.
    + destruct (length (error_collector_ (bat w))) eqn:Hlen; simpl.
      * split; [done|]. intros [_ ?]. done.
      * split; [done|]. done.
    + split; [done|]. intros [? _]. done.
Qed.

(** *** Flushing nothing *)

(** C1 (amended).  [FlushAsync] on a Batcher without submitted operations
    stores the callback, enters [kResolvingTablets] with no outstanding
    lookup and returns: it launches no lookup, so no continuation reaches
    [AllLookupsDone], and the callback is not invoked.  The error collector
    is left as it was (empty for a new Batcher). *)
Theorem FlushAsync_without_ops (w : World) (cb : Z) (retry : bool) :
  state_ (bat w) = kGatheringOps -> ops_ (bat w) = [] -> ops_queue_ (bat w) = [] ->
  exists w',
    FlushAsync env cb retry w = Done tt w' /\
    callbacks w' = callbacks w /\
    pool w' = pool w /\
    flush_callback_ (bat w') = Some cb /\
    state_ (bat w') = kResolvingTablets /\
    outstanding_lookups_ (bat w') = 0 /\
    error_collector_ (bat w') = error_collector_ (bat w) /\
    sent_rpcs w' = sent_rpcs w /\
    (forall position lookup_result,
       TabletLookupFinished env position lookup_result w' = Raise OutOfRange w').
Proof.
  intros Hst Hops Hq. destruct w as [b e p].
  destruct b as [st ops q gr ol orp col comb fcb txn rp fcr al dl]. simpl in *. subst.
  unfold FlushAsync. msimpl.
  destruct (session_alive env) eqn:Hs; msimpl;
    destruct (bool_decide (is_Some txn) && negb retry) eqn:Ht; msimpl;
    (eexists; split; [reflexivity|]);
    unfold callbacks, sent_rpcs; simpl; rewrite ?omap_app; simpl; rewrite ?app_nil_r;
    split_and!; try done.
Qed.

(** *** Abort *)

Lemma aggregated_aborted s b :
  ok s = false -> aggregated (aborted s b) = s.
Proof. intros H. unfold aggregated, aborted. simpl. by rewrite H. Qed.

(** C2 (amended).  [Abort] does not look at whether the flush has finished:
    every call records the status for each in-flight op in the error
    collector, overwrites the aggregated status, sets [kAborted] and goes
    through [FlushFinished] to [RunCallback].  For two calls on a Batcher
    holding a callback, the user callback is invoked once in all:
    - run inline, by the first call, with the first status when that is not
      ok; the second call then changes the Batcher again and stops at the
      call through the empty callback slot;
    - run by the callback pool, by the first task, with what the second call
      left as aggregated status; the second task stops at the empty slot. *)
Theorem Abort_twice (w : World) (cb : Z) (s1 s2 : Status) :
  flush_callback_ (bat w) = Some cb -> pool w = O ->
  let b1 := finished (aborted s1 (bat w)) in
  let b2 := finished (aborted s2 (set_flush_callback None b1)) in
  if decide (callback_threadpool env = Some true) then
    exists w1 w2 w3,
      Abort env s1 w = Done tt w1 /\ callbacks w1 = callbacks w /\
      Abort env s2 w1 = Done tt w2 /\ callbacks w2 = callbacks w /\
      bat w2 = finished (aborted s2 b1) /\
      PoolRun w2 = Done tt w3 /\
      callbacks w3 = callbacks w ++ [(cb, aggregated (aborted s2 b1))] /\
      flush_callback_ (bat w3) = None /\
      PoolRun w3 = Raise bad_function_call (set_pool O w3)
  else
    exists w1 w2,
      Abort env s1 w = Done tt w1 /\
      callbacks w1 = callbacks w ++ [(cb, aggregated (aborted s1 (bat w)))] /\
      (ok s1 = false -> callbacks w1 = callbacks w ++ [(cb, s1)]) /\
      bat w1 = set_flush_callback None b1 /\
      Abort env s2 w1 = Raise bad_function_call w2 /\
      callbacks w2 = callbacks w1 /\
      bat w2 = b2 /\
      state_ b2 = kAborted /\
      (ok s2 = false -> combined_error_ b2 = s2) /\
      error_collector_ b2 =
        error_collector_ b1 ++ map (fun op => (op_addr (yb_op op), s2)) (ops_queue_ (bat w)).
Proof.
  intros Hcb Hpool b1 b2.
  case_decide as Hp.
  - rewrite Abort_eq, FlushFinished_eq, RunCallback_pool by done.
    eexists _, _, _. split; [reflexivity|].
    rewrite Abort_eq, FlushFinished_eq, RunCallback_pool by done.
    split; [by autorewrite with world|]. split; [reflexivity|].
    split; [by autorewrite with world|].
    split; [by autorewrite with world|].
    rewrite (PoolRun_S _ 1) by (autorewrite with world; by rewrite Hpool).
    rewrite Run_Some with (cb := cb) by (by autorewrite with world).
    split; [reflexivity|].
    split; [by autorewrite with world|].
    split; [reflexivity|].
    rewrite (PoolRun_S _ O) by (by autorewrite with world).
    rewrite Run_None by reflexivity. reflexivity.
  - rewrite Abort_eq, FlushFinished_eq, RunCallback_inline by done.
    rewrite Run_Some with (cb := cb) by (by autorewrite with world).
    eexists _, _. split; [reflexivity|].
    split; [by autorewrite with world|].
    split. { intros Hok. autorewrite with world. by rewrite aggregated_aborted. }
    split; [by autorewrite with world|].
    rewrite Abort_eq, FlushFinished_eq, RunCallback_inline by done.
    rewrite Run_None by (by autorewrite with world).
    split; [reflexivity|].
    split; [by autorewrite with world|].
    split; [by autorewrite with world|].
    split. { unfold b2, finished. simpl. reflexivity. }
    split. { intros Hok. unfold b2. rewrite combined_error_finished.
             by apply aggregated_aborted. }
    unfold b2, b1, finished, aborted. simpl. repeat case_bool_decide; simpl; reflexivity.
Qed.

End Callback.

(** The theorem at a flush with one collected error and an ok status. *)
Lemma FlushFinished_callback_status_example :
  flush_callback_ (bat failed_world) = Some 7 /\ pool failed_world = O /\
  exists w', then_pool (FlushFinished env0) failed_world = Done tt w' /\
    callbacks w' = [(7, kGeneralErrorStatus)].
Proof.
  split; [reflexivity|]. split; [reflexivity|].
  destruct (FlushFinished_callback_status env0 failed_world 7 eq_refl eq_refl)
    as (w' & st & Hrun & Hcb & _ & Hst & _).
  exists w'. split; [exact Hrun|]. rewrite Hcb, Hst. reflexivity.
Defined.

(** The theorem at a fresh Batcher. *)
Lemma FlushAsync_without_ops_example :
  exists w', FlushAsync env0 7 false (World_new None false false) = Done tt w' /\
    callbacks w' = [] /\ flush_callback_ (bat w') = Some 7 /\
    state_ (bat w') = kResolvingTablets.
Proof.
  destruct (FlushAsync_without_ops env0 (World_new None false false) 7 false
              eq_refl eq_refl eq_refl)
    as (w' & Hrun & Hcb & _ & Hslot & Hst & _).
  exists w'. split; [exact Hrun|]. split; [exact Hcb|]. split; [exact Hslot|exact Hst].
Defined.

(** [FlushAsync] on a fresh Batcher, and the pool given its turn: the
    callback has not been invoked and is still stored. *)
Lemma FlushAsync_without_ops_no_callback :
  let w' := res_world (calls env0 [CallFlushAsync 7 false; CallPoolRun]
                         (World_new None false false)) in
  ops_ (bat (World_new None false false)) = [] /\
  callbacks w' = [] /\
  state_ (bat w') = kResolvingTablets /\
  flush_callback_ (bat w') = Some 7.
Proof. vm_compute. repeat split. Qed.

(** The theorem at a flush that is aborted twice, without a callback pool. *)
Lemma Abort_twice_example :
  flush_callback_ (bat (flushing [] kResolvingTablets)) = Some 7 /\
  pool (flushing [] kResolvingTablets) = O /\
  exists w1 w2,
    Abort env0 aborting (flushing [] kResolvingTablets) = Done tt w1 /\
    callbacks w1 = [(7, aborting)] /\
    Abort env0 timed_out w1 = Raise bad_function_call w2 /\
    callbacks w2 = [(7, aborting)] /\
    combined_error_ (bat w2) = timed_out.
Proof.
  split; [reflexivity|]. split; [reflexivity|].
  pose proof (Abort_twice env0 (flushing [] kResolvingTablets) 7 aborting timed_out
                eq_refl eq_refl) as H.
  cbv zeta in H. destruct (decide (callback_threadpool env0 = Some true)) as [Hp|_];
    [discriminate Hp|].
  destruct H as (w1 & w2 & H1 & _ & Hc1 & _ & H2 & Hc2 & Hb2 & _ & Hs2 & _).
  exists w1, w2. split; [exact H1|]. split; [exact (Hc1 eq_refl)|].
  split; [exact H2|]. split; [rewrite Hc2; exact (Hc1 eq_refl)|].
  rewrite Hb2. exact (Hs2 eq_refl).
Defined.

(** A second [Abort] is not a no-op: without a pool it throws and changes
    the Batcher; with a pool the callback receives the second status. *)
Lemma Abort_twice_not_idempotent :
  let w := flushing [in_flight write_k (Some tabA) 0] kTransactionReady in
  let w1 := res_world (Abort env0 aborting w) in
  (exists w2, Abort env0 timed_out w1 = Raise bad_function_call w2 /\
     bat w2 <> bat w1 /\
     combined_error_ (bat w2) = timed_out /\
     length (error_collector_ (bat w2)) = 2%nat) /\
  callbacks (res_world (calls env_pool [CallAbort aborting; CallAbort timed_out; CallPoolRun] w))
    = [(7, timed_out)].
Proof.
  split.
  - eexists. split; [vm_compute; reflexivity|]. split; [|split; reflexivity].
    vm_compute. intros H. discriminate H.
  - vm_compute. reflexivity.
Qed.

Section Dispatch.

Variable env : Env.

(** *** Dispatch *)

Lemma create_rpcs_Done need groups w :
  Forall (group_ok (ops_queue_ (bat w))) groups ->
  create_rpcs need groups w =
  Done (rpcs_of (ops_queue_ (bat w)) (allow_local_calls_in_curr_thread_ (bat w)) need groups) w.
Proof.
  induction 1 as [|g groups [Hne [first Hfirst]] _ IH]; [reflexivity|].
  simpl. msimpl. rewrite Hfirst. unfold CreateRpc.
  rewrite (proj2 (Nat.eqb_neq _ _) Hne). msimpl.
  unfold bind in IH. rewrite IH. unfold rpc_of.
  by destruct (group (yb_op first)).
Qed.

Lemma length_rpcs_of q a n groups :
  Forall (group_ok q) groups -> length (rpcs_of q a n groups) = length groups.
Proof.
  induction 1 as [|g groups [_ [first Hfirst]] _ IH]; [reflexivity|].
  simpl. rewrite Hfirst. simpl. by rewrite IH.
Qed.

Lemma need_consistent_read_rpcs_of q a n groups :
  Forall (fun rpc => need_consistent_read rpc = n) (rpcs_of q a n groups).
Proof.
  induction groups as [|g groups IH]; simpl; [constructor|].
  destruct (q !! group_begin g); simpl; [constructor; [reflexivity|]|]; exact IH.
Qed.

Lemma send_rpcs (c : bool) rpcs w :
  exists w',
    for_each rpcs (fun rpc => when c (emit (AddChildTrace rpc)) >> emit (SendRpc rpc)) w =
    Done tt w' /\
    bat w' = bat w /\ pool w' = pool w /\ callbacks w' = callbacks w /\
    sent_rpcs w' = sent_rpcs w ++ rpcs.
Proof.
  revert w. induction rpcs as [|rpc rpcs IH]; intros w; simpl.
  - exists w. by rewrite app_nil_r.
  - destruct (IH (add_effect (SendRpc rpc)
                    (if c then add_effect (AddChildTrace rpc) w else w)))
      as (w' & Hrun & Hb & Hp & Hc & Hs).
    exists w'. split.
    + destruct c; msimpl; exact Hrun.
    + rewrite Hb, Hp, Hc, Hs. destruct c; autorewrite with world; simpl;
        autorewrite with world; rewrite <- ?app_assoc; done.
Qed.

Lemma elem_of_rpcs_of q a n groups rpc :
  rpc ∈ rpcs_of q a n groups ->
  exists g first,
    g ∈ groups /\ q !! group_begin g = Some first /\
    rpc_ops rpc = (group_begin g, group_end g) /\
    rpc_tablet rpc = tablet_get first /\
    rpc_kind rpc = rpc_kind_of (group (yb_op first)) /\
    need_consistent_read rpc = n.
Proof.
  induction groups as [|g groups IH]; simpl; [by intros ?%elem_of_nil|].
  intros [Hin|Hin]%elem_of_app.
  - destruct (q !! group_begin g) as [first|] eqn:Hf; [|by apply elem_of_nil in Hin].
    apply list_elem_of_singleton in Hin as ->.
    exists g, first. split; [left|]. done.
  - destruct (IH Hin) as (g' & first & Hg' & H'). exists g', first. split; [by right|done].
Qed.

(** What [ExecuteOperations] does when it dispatches. *)
Lemma ExecuteOperations_Done (w : World) (initial : bool) :
  state_ (bat w) = kTransactionPrepare ->
  (forall transaction, transaction_ (bat w) = Some transaction ->
     Prepare_ready transaction initial = true) ->
  Forall (group_ok (ops_queue_ (bat w))) (ops_info_groups (bat w)) ->
  exists w',
    ExecuteOperations initial w = Done tt w' /\
    sent_rpcs w' =
      sent_rpcs w ++
      rpcs_of (ops_queue_ (bat w)) (allow_local_calls_in_curr_thread_ (bat w))
        (force_consistent_read_ (bat w) ||
         bool_decide (is_Some (transaction_ (bat w))) ||
         (1 <? length (ops_info_groups (bat w)))%nat)
        (ops_info_groups (prepared (bat w))) /\
    callbacks w' = callbacks w /\
    pool w' = pool w /\
    bat w' = set_outstanding_rpcs (Z.of_nat (length (ops_info_groups (bat w))))
               (set_state kTransactionReady (prepared (bat w))).
Proof.
  intros Hst Hready Hgroups. destruct w as [b e p]. simpl in *.
  unfold ExecuteOperations, prepared. msimpl.
  destruct (transaction_ b) as [txn|] eqn:Htxn.
  - rewrite (Hready txn eq_refl). msimpl. rewrite Hst, Htxn. msimpl.
    set (b' := prepare_groups txn b).
    assert (Hg' : Forall (group_ok (ops_queue_ b)) (ops_info_groups b')).
    { unfold b', prepare_groups. simpl. apply Forall_map.
      eapply Forall_impl; [exact Hgroups|]. intros g [? ?]. split; done. }
    assert (Hlen : length (ops_info_groups b') = length (ops_info_groups b)).
    { unfold b', prepare_groups. simpl. by rewrite length_map. }
    rewrite (create_rpcs_Done _ _ {| bat := set_state kTransactionReady b'; effects := e; pool := p |}) by exact Hg'.
    match goal with |- context [for_each ?l _ _] => set (rpcs := l) end.
    assert (Hlr : length rpcs = length (ops_info_groups b)).
    { unfold rpcs. rewrite length_rpcs_of by exact Hg'. exact Hlen. }
    assert (Hrpcs : rpcs =
      rpcs_of (ops_queue_ b) (allow_local_calls_in_curr_thread_ b)
        (force_consistent_read_ b || true || (1 <? length (ops_info_groups b))%nat)
        (ops_info_groups b')).
    { unfold rpcs. simpl. by rewrite length_map. }
    clearbody rpcs.
    edestruct (send_rpcs true rpcs) as (w' & Hrun & Hb & Hp & Hc & Hs).
    exists w'. split; [exact Hrun|].
    rewrite Hs, Hb, Hc, Hp. autorewrite with world. simpl. rewrite Hlr, Hrpcs. done.
  - msimpl. rewrite Hst, Htxn. msimpl.
    rewrite (create_rpcs_Done _ _ {| bat := set_state kTransactionReady b; effects := e; pool := p |}) by exact Hgroups.
    match goal with |- context [for_each ?l _ _] => set (rpcs := l) end.
    assert (Hlr : length rpcs = length (ops_info_groups b)).
    { unfold rpcs. by rewrite length_rpcs_of by exact Hgroups. }
    assert (Hrpcs : rpcs =
      rpcs_of (ops_queue_ b) (allow_local_calls_in_curr_thread_ b)
        (force_consistent_read_ b || false || (1 <? length (ops_info_groups b))%nat)
        (ops_info_groups b)) by reflexivity.
    clearbody rpcs.
    edestruct (send_rpcs false rpcs) as (w' & Hrun & Hb & Hp & Hc & Hs).
    exists w'. split; [exact Hrun|].
    rewrite Hs, Hb, Hc, Hp. autorewrite with world. simpl. rewrite Hlr, Hrpcs. done.
Qed.

Lemma group_ok_prepared b :
  Forall (group_ok (ops_queue_ b)) (ops_info_groups b) ->
  Forall (group_ok (ops_queue_ b)) (ops_info_groups (prepared b)) /\
  length (ops_info_groups (prepared b)) = length (ops_info_groups b).
Proof.
  intros H. unfold prepared. destruct (transaction_ b); [|done].
  unfold prepare_groups. simpl. rewrite length_map. split; [|done].
  apply Forall_map. eapply Forall_impl; [exact H|]. by intros g [? ?].
Qed.

(** C6.  When [ExecuteOperations] dispatches, it builds one RPC per group,
    and every one of them is given the same [need_consistent_read]: the
    flag [force_consistent_read_], or a transaction being attached, or the
    number of groups being greater than one. *)
Theorem ExecuteOperations_need_consistent_read (w : World) (initial : bool) :
  state_ (bat w) = kTransactionPrepare ->
  (forall transaction, transaction_ (bat w) = Some transaction ->
     Prepare_ready transaction initial = true) ->
  Forall (group_ok (ops_queue_ (bat w))) (ops_info_groups (bat w)) ->
  exists w' rpcs,
    ExecuteOperations initial w = Done tt w' /\
    sent_rpcs w' = sent_rpcs w ++ rpcs /\
    length rpcs = length (ops_info_groups (bat w)) /\
    outstanding_rpcs_ (bat w') = Z.of_nat (length rpcs) /\
    state_ (bat w') = kTransactionReady /\
    Forall (fun rpc =>
              need_consistent_read rpc =
              force_consistent_read_ (bat w) ||
              bool_decide (is_Some (transaction_ (bat w))) ||
              (1 <? length (ops_info_groups (bat w)))%nat) rpcs.
Proof.
  intros Hst Hready Hgroups.
  destruct (ExecuteOperations_Done w initial Hst Hready Hgroups)
    as (w' & Hrun & Hs & _ & _ & Hb).
  destruct (group_ok_prepared _ Hgroups) as [Hg' Hlen].
  eexists w', _. split; [exact Hrun|]. split; [exact Hs|].
  rewrite length_rpcs_of by exact Hg'. rewrite Hb. simpl.
  split; [exact Hlen|]. split; [by rewrite Hlen|]. split; [done|].
  apply need_consistent_read_rpcs_of.
Qed.

End Dispatch.

(** The theorem at two groups without a transaction: both RPCs need a
    consistent read. *)
Lemma ExecuteOperations_need_consistent_read_example :
  state_ (bat grouped_world) = kTransactionPrepare /\
  exists w' rpcs,
    ExecuteOperations true grouped_world = Done tt w' /\
    sent_rpcs w' = rpcs /\ length rpcs = 2%nat /\
    Forall (fun rpc => need_consistent_read rpc = true) rpcs.
Proof.
  split; [reflexivity|].
  destruct (ExecuteOperations_need_consistent_read grouped_world true eq_refl)
    as (w' & rpcs & Hrun & Hsent & Hlen & _ & _ & Hall).
  - intros transaction H. discriminate H.
  - repeat constructor; simpl; try lia; eexists; reflexivity.
  - exists w', rpcs. split; [exact Hrun|]. split; [exact Hsent|].
    split; [exact Hlen|exact Hall].
Defined.

Section Responses.

Variable env : Env.

(** *** Responses *)

Lemma set_rpc_op_error_Done rpc i s w :
  (fst (rpc_ops rpc) + i < length (ops_queue_ (bat w)))%nat ->
  set_rpc_op_error rpc i s w =
  Done tt (upd (fun b => set_ops_queue
                  (alter (set_error s) (fst (rpc_ops rpc) + i)%nat (ops_queue_ b)) b) w).
Proof.
  intros Hlt. unfold set_rpc_op_error. msimpl.
  destruct (lookup_lt_is_Some_2 _ _ Hlt) as [op ->]. reflexivity.
Qed.

Lemma process_row_error_Done rpc err_pb w :
  (snd (rpc_ops rpc) <= length (ops_queue_ (bat w)))%nat ->
  process_row_error env rpc err_pb w = Done tt (row_error_step env rpc w err_pb).
Proof.
  intros Hle. unfold process_row_error, row_error_step, row_in_range.
  destruct (Z.ltb_spec (to_size_t (row_index err_pb)) (Z.of_nat (rpc_ops_size rpc)))
    as [Hlt|Hge].
  - rewrite (proj2 (Z.leb_gt _ _)) by lia.
    apply set_rpc_op_error_Done.
    assert (0 <= to_size_t (row_index err_pb)) by (unfold to_size_t; apply Z.mod_pos_bound; lia).
    unfold rpc_ops_size in Hlt. lia.
  - rewrite (proj2 (Z.leb_le _ _)) by lia. reflexivity.
Qed.

Lemma length_queue_row_error_step rpc w err_pb :
  length (ops_queue_ (bat (row_error_step env rpc w err_pb))) =
  length (ops_queue_ (bat w)).
Proof.
  unfold row_error_step. destruct (row_in_range rpc err_pb); simpl; [|done].
  apply length_alter.
Qed.

Lemma process_row_errors_Done rpc errors w :
  (snd (rpc_ops rpc) <= length (ops_queue_ (bat w)))%nat ->
  for_each errors (process_row_error env rpc) w =
  Done tt (foldl (row_error_step env rpc) w errors).
Proof.
  revert w. induction errors as [|e errors IH]; intros w Hle; simpl; [reflexivity|].
  unfold bind. rewrite process_row_error_Done by exact Hle.
  apply IH. by rewrite length_queue_row_error_step.
Qed.

Lemma queue_after_row_errors rpc errors w position :
  ops_queue_ (bat (foldl (row_error_step env rpc) w errors)) !! position =
  match last_row_error rpc position errors with
  | Some err_pb =>
      set_error (StatusFromPB env (row_error err_pb)) <$> ops_queue_ (bat w) !! position
  | None => ops_queue_ (bat w) !! position
  end.
Proof.
  induction errors as [|e errors IH] using rev_ind; [reflexivity|].
  rewrite foldl_app. simpl. unfold last_row_error in *.
  rewrite filter_app. unfold row_error_step at 1.
  rewrite filter_cons, filter_nil.
  destruct (row_in_range rpc e) eqn:Hin; simpl.
  - case_decide as Hd.
    + destruct Hd as [_ <-]. rewrite last_snoc.
      rewrite list_lookup_alter_eq, IH.
      destruct (last _); simpl; [|done].
      destruct (ops_queue_ (bat w) !! row_position rpc e); simpl; reflexivity.
    + rewrite app_nil_r.
      rewrite list_lookup_alter_ne by (intros ?; apply Hd; done). exact IH.
  - try (case_decide as Hd; [by destruct Hd|]). rewrite app_nil_r. exact IH.
Qed.


Lemma ProcessRpcStatus_Done rpc s w :
  (snd (rpc_ops rpc) <= length (ops_queue_ (bat w)))%nat ->
  exists w1,
    ProcessRpcStatus rpc s w = Done tt w1 /\
    length (ops_queue_ (bat w1)) = length (ops_queue_ (bat w)) /\
    (ok s = true -> bat w1 = bat w).
Proof.
  intros Hle. unfold ProcessRpcStatus. msimpl.
  destruct (negb (bool_decide (state_ (bat w) = kTransactionReady))); [eauto|].
  destruct (ok s); simpl; [eauto|].
  destruct (wp_returns
    (for_each (seq 0 (rpc_ops_size rpc)) (fun i => set_rpc_op_error rpc i s))
    (fun _ w' => length (ops_queue_ (bat w')) = length (ops_queue_ (bat w))) w)
    as ([] & w1 & Hrun & Hlen).
  - apply wp_for_each; [reflexivity|].
    intros i w' Hi Hw'. apply elem_of_seq in Hi. unfold wp.
    rewrite set_rpc_op_error_Done by (unfold rpc_ops_size in Hi; lia).
    simpl. by rewrite length_alter.
  - exists w1. split; [exact Hrun|]. split; [exact Hlen|done].
Qed.

Lemma row_position_in_range rpc err_pb :
  row_in_range rpc err_pb = true ->
  (fst (rpc_ops rpc) <= row_position rpc err_pb < snd (rpc_ops rpc))%nat.
Proof.
  unfold row_in_range, row_position, rpc_ops_size. intros H%Z.ltb_lt.
  assert (0 <= to_size_t (row_index err_pb)) by (unfold to_size_t; apply Z.mod_pos_bound; lia).
  lia.
Qed.

Lemma last_row_error_Some rpc position errors err_pb :
  last_row_error rpc position errors = Some err_pb ->
  err_pb ∈ errors /\ row_in_range rpc err_pb = true /\ row_position rpc err_pb = position.
Proof.
  unfold last_row_error. intros H%last_Some_elem_of.
  apply list_elem_of_filter in H. tauto.
Qed.

(** C9.  [ProcessWriteResponse] first hands the RPC status to
    [ProcessRpcStatus]; then every per-row error whose row index, read as a
    [size_t], is below the number of ops of the RPC sets the decoded status
    as the error of the op at that index of the RPC, and of no other op
    (a later error for the same row replaces an earlier one); a per-row
    error with an index out of range is logged and changes no op. *)
Theorem ProcessWriteResponse_per_row_errors (w : World) (rpc : AsyncRpc)
    (resp : WriteResponsePB) (s : Status) :
  (snd (rpc_ops rpc) <= length (ops_queue_ (bat w)))%nat ->
  exists w1 w',
    ProcessRpcStatus rpc s w = Done tt w1 /\
    (ok s = true -> bat w1 = bat w) /\
    ProcessWriteResponse env rpc resp s w = Done tt w' /\
    length (ops_queue_ (bat w')) = length (ops_queue_ (bat w)) /\
    (forall position,
       ops_queue_ (bat w') !! position =
       match last_row_error rpc position (per_row_errors resp) with
       | Some err_pb =>
           set_error (StatusFromPB env (row_error err_pb)) <$>
           ops_queue_ (bat w1) !! position
       | None => ops_queue_ (bat w1) !! position
       end) /\
    (forall position err_pb,
       last_row_error rpc position (per_row_errors resp) = Some err_pb ->
       err_pb ∈ per_row_errors resp /\
       to_size_t (row_index err_pb) < Z.of_nat (rpc_ops_size rpc) /\
       position = (fst (rpc_ops rpc) + Z.to_nat (to_size_t (row_index err_pb)))%nat /\
       (position < snd (rpc_ops rpc))%nat) /\
    (forall w0 err_pb,
       Z.of_nat (rpc_ops_size rpc) <= to_size_t (row_index err_pb) ->
       exists w0',
         process_row_error env rpc err_pb w0 = Done tt w0' /\
         bat w0' = bat w0 /\
         exists l1 l2, effects w0' = effects w0 ++ [LogError l1; LogError l2]).
Proof.
  intros Hle.
  destruct (ProcessRpcStatus_Done rpc s w Hle) as (w1 & Hrun1 & Hlen1 & Hok1).
  exists w1. unfold ProcessWriteResponse.
  unfold bind at 1. unfold bind at 1. rewrite Hrun1.
  set (w2 := if ok s && bool_decide (is_Some (propagated_hybrid_time resp))
             then add_effect (UpdateLatestObservedHybridTime
                                (default 0 (propagated_hybrid_time resp))) w1
             else w1).
  assert (Hw2 : when (ok s && bool_decide (is_Some (propagated_hybrid_time resp)))
                  (emit (UpdateLatestObservedHybridTime
                           (default 0 (propagated_hybrid_time resp)))) w1 = Done tt w2).
  { unfold w2. by destruct (_ && _). }
  assert (Hb2 : bat w2 = bat w1) by (unfold w2; by destruct (_ && _)).
  rewrite Hw2. rewrite process_row_errors_Done by (rewrite Hb2; lia).
  eexists. split; [reflexivity|]. split; [exact Hok1|]. split; [reflexivity|].
  split.
  { rewrite <- Hlen1, <- Hb2. generalize w2. clear.
    induction (per_row_errors resp) as [|e l IH] using rev_ind; intros w2; [done|].
    rewrite foldl_app. simpl. by rewrite length_queue_row_error_step. }
  split. { intros position. rewrite queue_after_row_errors, Hb2. reflexivity. }
  split.
  { intros position err_pb (Hin & Hr & Hp)%last_row_error_Some.
    pose proof (row_position_in_range _ _ Hr) as Hpos.
    split; [done|]. split; [by apply Z.ltb_lt|]. split; [done|]. lia. }
  intros w0 err_pb Hge. unfold process_row_error.
  rewrite (proj2 (Z.leb_le _ _)) by lia. msimpl.
  eexists. split; [reflexivity|]. split; [reflexivity|].
  simpl. rewrite <- app_assoc. eauto.
Qed.

End Responses.

(** The theorem at a response with an error for the row 1 and one for an
    index out of range. *)
Lemma ProcessWriteResponse_per_row_errors_example :
  (snd (rpc_ops whole_rpc) <= length (ops_queue_ (bat sent_world)))%nat /\
  exists w',
    ProcessWriteResponse env0 whole_rpc two_row_errors Status_OK sent_world = Done tt w' /\
    error <$> ops_queue_ (bat w') !! 0%nat = Some Status_OK /\
    error <$> ops_queue_ (bat w') !! 1%nat =
      Some (STATUS (Code.Other 5) kNone (Text "dup"%string)).
Proof.
  assert (Hle : (snd (rpc_ops whole_rpc) <= length (ops_queue_ (bat sent_world)))%nat)
    by (simpl; lia).
  split; [exact Hle|].
  destruct (ProcessWriteResponse_per_row_errors env0 sent_world whole_rpc two_row_errors
              Status_OK Hle) as (w1 & w' & H1 & Hb1 & Hrun & _ & Hpos & _).
  exists w'. split; [exact Hrun|].
  rewrite !Hpos, (Hb1 eq_refl). split; reflexivity.
Defined.

Section LookupErrors.

Variable env : Env.

(** *** Errors of the lookups *)

Lemma CollectOpsErrors_loop_eq queue m :
  fst (CollectOpsErrors_loop env queue m) =
  (checked_queue env queue, first_errors (checked_queue env queue) m).
Proof.
  revert m. induction queue as [|op queue IH]; intros m; [reflexivity|].
  simpl. destruct (check_partition env op) as [op' logged] eqn:Hc. simpl.
  specialize (IH (if negb (ok (error op'))
                  then emplace (partition_key op') (error op') m else m)).
  destruct (CollectOpsErrors_loop env queue _) as [[q' m'] logs]. simpl in *.
  by simplify_eq.
Qed.

Lemma lookup_errors_eq queue :
  lookup_errors env queue = first_errors (checked_queue env queue) ∅.
Proof. unfold lookup_errors. by rewrite CollectOpsErrors_loop_eq. Qed.

Lemma emplace_lookup k v (m : gmap PartitionKey Status) k' :
  emplace k v m !! k' =
  match m !! k' with
  | Some e => Some e
  | None => if decide (k = k') then Some v else None
  end.
Proof.
  unfold emplace. destruct (m !! k) as [e|] eqn:Hk.
  - destruct (m !! k') eqn:Hk'; [done|]. case_decide; [congruence|done].
  - rewrite lookup_insert. case_decide; subst.
    + by rewrite Hk.
    + by destruct (m !! k').
Qed.

(** The map holds, for a partition key, the error of the first op of that
    key that has one. *)
Lemma first_errors_lookup queue m k :
  first_errors queue m !! k =
  match m !! k with
  | Some e => Some e
  | None => error <$> head (filter (fun op => ok (error op) = false /\ partition_key op = k) queue)
  end.
Proof.
  revert m. induction queue as [|op queue IH]; intros m; simpl.
  - by destruct (m !! k).
  - rewrite IH. rewrite filter_cons.
    destruct (ok (error op)) eqn:Hok; simpl.
    + try (case_decide as Hd; [by destruct Hd|]). done.
    + rewrite emplace_lookup. destruct (m !! k); [done|].
      repeat case_decide; try done; destruct_and?; try done.
      exfalso; auto.
Qed.

Lemma lookup_errors_Some queue k e :
  lookup_errors env queue !! k = Some e ->
  ok e = false /\ exists op, op ∈ checked_queue env queue /\ partition_key op = k /\ error op = e.
Proof.
  rewrite lookup_errors_eq, first_errors_lookup, lookup_empty.
  destruct (head _) as [op|] eqn:Hh; [|done]. simpl. intros [= <-].
  apply head_Some_elem_of, list_elem_of_filter in Hh as [[Hok Hk] Hin]. eauto.
Qed.

Lemma lookup_errors_is_Some queue k :
  is_Some (lookup_errors env queue !! k) <->
  exists op, op ∈ checked_queue env queue /\ partition_key op = k /\ ok (error op) = false.
Proof.
  split.
  - intros [e (Hok & op & Hin & Hk & <-)%lookup_errors_Some]. eauto.
  - intros (op & Hin & Hk & Hok).
    rewrite lookup_errors_eq, first_errors_lookup, lookup_empty.
    destruct (filter _ _) as [|op' l] eqn:Hf; [|by eexists].
    assert (op ∈ filter (fun op => ok (error op) = false /\ partition_key op = k)
                  (checked_queue env queue)) as Hin'
      by (apply list_elem_of_filter; done).
    rewrite Hf in Hin'. by apply elem_of_nil in Hin'.
Qed.


Lemma log_mismatches n w :
  for_each (replicate n tt) (fun _ => emit (LogDFatal "Row not in partition"%string)) w =
  Done tt (logged n w).
Proof.
  revert w. induction n as [|n IH]; intros w; simpl.
  - unfold ret, logged. simpl. rewrite app_nil_r. by destruct w.
  - unfold bind, emit. rewrite IH. unfold logged, add_effect. simpl.
    by rewrite <- app_assoc.
Qed.

Lemma CollectOpsErrors_eq w :
  CollectOpsErrors env w =
  Done (lookup_errors env (ops_queue_ (bat w)))
       (logged (snd (CollectOpsErrors_loop env (ops_queue_ (bat w)) ∅))
          (upd (set_ops_queue (checked_queue env (ops_queue_ (bat w)))) w)).
Proof.
  unfold CollectOpsErrors, lookup_errors. unfold bind at 1. unfold get.
  pose proof (CollectOpsErrors_loop_eq (ops_queue_ (bat w)) ∅) as Hloop.
  destruct (CollectOpsErrors_loop env (ops_queue_ (bat w)) ∅) as [[q m] n].
  simpl in Hloop. simplify_eq. simpl.
  unfold bind, modify. rewrite log_mismatches. reflexivity.
Qed.

Lemma CombineError_eq op w :
  CombineError env op w = Done tt (errors_combined env [op] w).
Proof.
  destruct w as [b e p].
  destruct b as [st ops q gr ol orp col comb fcb txn rp fcr al dl].
  unfold CombineError, errors_combined, combine_status, stale_mark, AddError, collected.
  msimpl.
  destruct (bool_decide (ClientError (error op) = kTablePartitionListIsStale));
    destruct (FLAGS_TEST_combine_batcher_errors env); msimpl; rewrite ?app_nil_r;
    try reflexivity;
    destruct (ok comb); msimpl; try reflexivity;
    destruct (negb (IsCombined comb) && negb (bool_decide (code comb = code (error op))));
    reflexivity.
Qed.

Lemma errors_combined_app l1 l2 w :
  errors_combined env (l1 ++ l2) w = errors_combined env l2 (errors_combined env l1 w).
Proof.
  unfold errors_combined. simpl.
  rewrite foldl_app, !map_app, concat_app, !app_assoc. reflexivity.
Qed.

Lemma CombineErrors_eq l w :
  for_each l (CombineError env) w = Done tt (errors_combined env l w).
Proof.
  revert w. induction l as [|op l IH]; intros w; simpl.
  - unfold ret, errors_combined. simpl. rewrite !app_nil_r.
    destruct w as [b e p]. by destruct b.
  - unfold bind. rewrite CombineError_eq, IH.
    by rewrite (errors_combined_app [op] l).
Qed.

Lemma EraseIf_eq errors queue w :
  EraseIf (erase_errored env errors) queue w =
  Done (filter (fun op => ok (error op) = true) (map (spread errors) queue))
       (errors_combined env
          (filter (fun op => ok (error op) = false) (map (spread errors) queue)) w).
Proof.
  revert w. induction queue as [|op queue IH]; intros w; simpl.
  - unfold ret, errors_combined. simpl. rewrite !app_nil_r.
    destruct w as [b e p]. by destruct b.
  - unfold bind. unfold erase_errored at 1. fold (spread errors op).
    rewrite !filter_cons.
    destruct (ok (error (spread errors op))) eqn:Hok; simpl.
    + unfold ret at 1. rewrite IH. unfold ret. simpl. reflexivity.
    + unfold bind. rewrite CombineError_eq. unfold ret at 1. rewrite IH.
      unfold ret. simpl. by rewrite <- errors_combined_app.
Qed.

End LookupErrors.

Section Sort.

Variable env : Env.

(** *** The sort *)

Lemma OpGroup_to_Z_inj g1 g2 : OpGroup_to_Z g1 = OpGroup_to_Z g2 -> g1 = g2.
Proof. by destruct g1, g2. Qed.

(** The comparator is the strict lexicographic order on
    (tablet address, group, sequence number). *)
Lemma op_less_spec a b :
  op_less a b = true <->
  tablet_get a < tablet_get b \/
  (tablet_get a = tablet_get b /\
   (OpGroup_to_Z (group (yb_op a)) < OpGroup_to_Z (group (yb_op b)) \/
    (group (yb_op a) = group (yb_op b) /\
     (sequence_number a < sequence_number b)%nat))).
Proof.
  unfold op_less.
  destruct (Z.eqb_spec (tablet_get a) (tablet_get b)) as [Ht|Ht].
  - case_bool_decide as Hg; simpl.
    + rewrite Nat.ltb_lt. rewrite Hg. split.
      * intros ?. right. split; [done|]. right. done.
      * intros [?|[_ [?|[_ ?]]]]; [lia|lia|done].
    + rewrite Z.ltb_lt. split; [auto|].
      intros [?|[_ [?|[? _]]]]; [lia|done|done].
  - rewrite Z.ltb_lt. split; [auto|]. intros [?|[? _]]; [done|lia].
Qed.

Lemma op_le_spec a b :
  op_le a b <->
  tablet_get a < tablet_get b \/
  (tablet_get a = tablet_get b /\
   (OpGroup_to_Z (group (yb_op a)) < OpGroup_to_Z (group (yb_op b)) \/
    (group (yb_op a) = group (yb_op b) /\
     (sequence_number a <= sequence_number b)%nat))).
Proof.
  unfold op_le. rewrite <- not_true_iff_false, op_less_spec.
  destruct (decide (group (yb_op a) = group (yb_op b))) as [Hg|Hg].
  - rewrite Hg. split.
    + intros Hn. destruct (Z.lt_total (tablet_get a) (tablet_get b)) as [?|[?|?]].
      * by left.
      * right. split; [done|]. right. split; [done|].
        destruct (Nat.le_gt_cases (sequence_number a) (sequence_number b)); [done|].
        exfalso. apply Hn. right. split; [done|]. right. done.
      * exfalso. apply Hn. by left.
    + intros [?|[? [?|[_ ?]]]] [?|[? [?|[_ ?]]]]; lia.
  - assert (OpGroup_to_Z (group (yb_op a)) <> OpGroup_to_Z (group (yb_op b)))
      by (intros ?%OpGroup_to_Z_inj; done).
    split.
    + intros Hn. destruct (Z.lt_total (tablet_get a) (tablet_get b)) as [?|[?|?]].
      * by left.
      * right. split; [done|]. left.
        destruct (Z.lt_total (OpGroup_to_Z (group (yb_op a))) (OpGroup_to_Z (group (yb_op b))))
          as [?|[?|?]]; [done|done|].
        exfalso. apply Hn. right. split; [done|]. by left.
      * exfalso. apply Hn. by left.
    + intros [?|[? [?|[? _]]]] [?|[? [?|[? _]]]]; try lia; try done.
      all: by symmetry in H3.
Qed.

Lemma op_le_key a b :
  op_le a b <->
  tablet_get a < tablet_get b \/
  (tablet_get a = tablet_get b /\
   (OpGroup_to_Z (group (yb_op a)) < OpGroup_to_Z (group (yb_op b)) \/
    (OpGroup_to_Z (group (yb_op a)) = OpGroup_to_Z (group (yb_op b)) /\
     (sequence_number a <= sequence_number b)%nat))).
Proof.
  rewrite op_le_spec.
  assert (group (yb_op a) = group (yb_op b) <->
          OpGroup_to_Z (group (yb_op a)) = OpGroup_to_Z (group (yb_op b))) as ->
    by (split; [by intros ->|apply OpGroup_to_Z_inj]).
  reflexivity.
Qed.

#[local] Instance op_le_trans : Transitive op_le.
Proof. intros a b c. rewrite !op_le_key. lia. Qed.

#[local] Instance op_le_total : Total op_le.
Proof. intros a b. rewrite !op_le_key. lia. Qed.

Lemma sort_ops_Permutation queue : sort_ops queue ≡ₚ queue.
Proof. apply merge_sort_Permutation. Qed.

Lemma sort_ops_sorted queue : StronglySorted op_le (sort_ops queue).
Proof. apply StronglySorted_merge_sort; apply _. Qed.

(** Whatever [std::sort] does, its result is this one when the sequence
    numbers are distinct: a sorted permutation is then unique. *)
Lemma sorted_unique queue l :
  NoDup (sequence_number <$> queue) ->
  l ≡ₚ queue -> StronglySorted op_le l -> l = sort_ops queue.
Proof.
  intros Hnd Hperm Hsorted.
  apply (StronglySorted_unique_strong op_le); [|done|apply sort_ops_sorted|].
  - intros a b Ha Hb Hab Hba.
    assert (sequence_number a = sequence_number b) as Hseq.
    { apply op_le_key in Hab, Hba. lia. }
    rewrite Hperm in Ha. rewrite sort_ops_Permutation in Hb.
    apply list_elem_of_lookup in Ha as [i Hi], Hb as [j Hj].
    assert (i = j).
    { apply (NoDup_lookup _ i j (sequence_number a) Hnd).
      - by rewrite list_lookup_fmap, Hi.
      - by rewrite list_lookup_fmap, Hj, Hseq. }
    congruence.
  - by rewrite sort_ops_Permutation.
Qed.

End Sort.

Section Grouping.

Variable env : Env.

(** *** Grouping *)

Lemma upd_push_groups_nil w : upd (push_groups []) w = w.
Proof.
  destruct w as [b e p]. unfold upd, push_groups. simpl.
  rewrite app_nil_r. by destruct b.
Qed.

Lemma upd_push_groups_cons g groups w :
  upd (push_groups groups) (upd (push_group g) w) = upd (push_groups (g :: groups)) w.
Proof.
  unfold upd, push_groups, push_group. simpl. by rewrite <- app_assoc.
Qed.

Lemma group_loop_eq rest : forall it gs cg ct w,
  group_loop env rest it gs cg ct w =
  let '(groups, e) := grouping rest it gs cg ct in
  match e with
  | Grouped group_start => Done (Some group_start) (upd (push_groups groups) w)
  | VersionMismatch op requested ours =>
      (Abort env (PartitionListVersionDoesNotMatch op requested ours) >> ret None)
        (upd (push_groups groups) w)
  | NullTablet => Raise NullTabletDereference (upd (push_groups groups) w)
  end.
Proof.
  induction rest as [|op rest IH]; intros it gs cg ct w; simpl.
  - by rewrite upd_push_groups_nil.
  - assert (Hc :
      (if negb (ct =? tablet_get op) || negb (bool_decide (cg = group (yb_op op)))
       then modify (push_group (InFlightOpsGroup_new gs it)) >>
            group_loop env rest (S it) it (group (yb_op op)) (tablet_get op)
       else group_loop env rest (S it) gs cg ct) w =
      (let '(groups, e) :=
         if negb (ct =? tablet_get op) || negb (bool_decide (cg = group (yb_op op)))
         then
           let '(groups, e) :=
             grouping rest (S it) it (group (yb_op op)) (tablet_get op) in
           (InFlightOpsGroup_new gs it :: groups, e)
         else grouping rest (S it) gs cg ct in
       match e with
       | Grouped group_start => Done (Some group_start) (upd (push_groups groups) w)
       | VersionMismatch op requested ours =>
           (Abort env (PartitionListVersionDoesNotMatch op requested ours) >> ret None)
             (upd (push_groups groups) w)
       | NullTablet => Raise NullTabletDereference (upd (push_groups groups) w)
       end)).
    { destruct (_ || _).
      - unfold bind at 1. unfold modify. rewrite IH.
        destruct (grouping rest (S it) it _ _) as [groups e].
        destruct e; by rewrite upd_push_groups_cons.
      - apply IH. }
    destruct (partition_list_version (yb_op op)) as [requested|]; [|exact Hc].
    destruct (tablet op) as [t|]; [|by rewrite upd_push_groups_nil].
    destruct (negb (requested =? tablet_partition_list_version t)); [|exact Hc].
    by rewrite upd_push_groups_nil.
Qed.

Lemma grouping_mismatch rest : forall it gs cg ct,
  Forall version_checkable rest ->
  Exists (fun op => version_mismatch op = true) rest ->
  exists groups op requested ours,
    grouping rest it gs cg ct = (groups, VersionMismatch op requested ours) /\
    op ∈ rest /\ version_mismatch op = true.
Proof.
  induction rest as [|op rest IH]; intros it gs cg ct Hall Hex; [by inv Hex|].
  apply Forall_cons in Hall as [Hop Hall]. simpl.
  destruct (version_mismatch op) eqn:Hm.
  - pose proof Hm as Hm'. unfold version_mismatch in Hm'.
    destruct (partition_list_version (yb_op op)) as [requested|]; [|done].
    destruct (tablet op) as [t|]; [|done]. rewrite Hm'.
    eexists _, _, _, _. split; [reflexivity|]. split; [left|done].
  - assert (Hrest : Exists (fun op => version_mismatch op = true) rest)
      by (inv Hex; [congruence|done]).
    assert (Hc : exists groups op0 requested ours,
      (if negb (ct =? tablet_get op) || negb (bool_decide (cg = group (yb_op op)))
       then
         let '(groups, e) := grouping rest (S it) it (group (yb_op op)) (tablet_get op) in
         (InFlightOpsGroup_new gs it :: groups, e)
       else grouping rest (S it) gs cg ct) =
      (groups, VersionMismatch op0 requested ours) /\
      op0 ∈ op :: rest /\ version_mismatch op0 = true).
    { destruct (_ || _).
      - destruct (IH (S it) it (group (yb_op op)) (tablet_get op) Hall Hrest)
          as (groups & o & r & u & -> & Ho & Hm').
        eexists _, o, r, u. split; [reflexivity|]. split; [by right|done].
      - destruct (IH (S it) gs cg ct Hall Hrest)
          as (groups & o & r & u & -> & Ho & Hm').
        eexists _, o, r, u. split; [reflexivity|]. split; [by right|done]. }
    unfold version_mismatch in Hm.
    destruct (partition_list_version (yb_op op)) as [requested|] eqn:Hv; [|exact Hc].
    destruct (Hop (ltac:(by eexists))) as [t Ht]. rewrite Ht in *.
    rewrite Hm. exact Hc.
Qed.

Lemma uniform_snoc q b e t g op :
  uniform q b e t g -> q !! e = Some op -> tablet_get op = t -> group (yb_op op) = g ->
  uniform q b (S e) t g.
Proof.
  intros Hu He Ht Hg i op' Hi Hop'.
  destruct (decide (i = e)) as [->|Hne]; [by simplify_eq|].
  apply (Hu i); [lia|done].
Qed.

Lemma grouping_grouped rest : forall prefix it gs cg ct,
  it = length prefix -> (gs <= it)%nat ->
  uniform (prefix ++ rest) gs it ct cg ->
  ((gs < it)%nat \/
   exists op rest', rest = op :: rest' /\ tablet_get op = ct /\ group (yb_op op) = cg) ->
  Forall version_matches rest ->
  exists groups s,
    grouping rest it gs cg ct = (groups, Grouped s) /\
    chained gs (groups ++ [InFlightOpsGroup_new s (length (prefix ++ rest))])
            (length (prefix ++ rest)) /\
    Forall (fun g => exists t k, uniform (prefix ++ rest) (group_begin g) (group_end g) t k)
           (groups ++ [InFlightOpsGroup_new s (length (prefix ++ rest))]).
Proof.
  induction rest as [|op rest IH]; intros prefix it gs cg ct Hit Hgs Hu Hne Hv.
  - simpl. exists [], gs. rewrite app_nil_r in *. split; [done|]. simpl.
    destruct Hne as [Hlt|(? & ? & ? & _)]; [|done].
    split; [split_and!; [done|lia|done]|].
    constructor; [|constructor]. simpl. subst it. eauto.
  - apply Forall_cons in Hv as [Hop Hv]. simpl.
    assert (Hq : (prefix ++ [op]) ++ rest = prefix ++ op :: rest)
      by (by rewrite <- app_assoc).
    assert (Hit' : S it = length (prefix ++ [op]))
      by (rewrite length_app; simpl; lia).
    assert (Hlk : (prefix ++ op :: rest) !! it = Some op).
    { subst it. by rewrite list_lookup_middle. }
    assert (Hc : exists groups s,
      (if negb (ct =? tablet_get op) || negb (bool_decide (cg = group (yb_op op)))
       then
         let '(groups, e) := grouping rest (S it) it (group (yb_op op)) (tablet_get op) in
         (InFlightOpsGroup_new gs it :: groups, e)
       else grouping rest (S it) gs cg ct) = (groups, Grouped s) /\
      chained gs (groups ++ [InFlightOpsGroup_new s (length (prefix ++ op :: rest))])
              (length (prefix ++ op :: rest)) /\
      Forall (fun g => exists t k,
                uniform (prefix ++ op :: rest) (group_begin g) (group_end g) t k)
             (groups ++ [InFlightOpsGroup_new s (length (prefix ++ op :: rest))])).
    { destruct (negb (ct =? tablet_get op) || negb (bool_decide (cg = group (yb_op op))))
        eqn:Hb.
      - assert (Hlt : (gs < it)%nat).
        { destruct Hne as [?|(op' & rest' & Heq & Ht & Hg)]; [done|].
          simplify_eq. rewrite Z.eqb_refl, bool_decide_true in Hb by done. done. }
        assert (Hu' : uniform ((prefix ++ [op]) ++ rest) it (S it)
                        (tablet_get op) (group (yb_op op))).
        { rewrite Hq. intros i op' Hi Hop'. assert (i = it) as -> by lia. by simplify_eq. }
        destruct (IH (prefix ++ [op]) (S it) it (group (yb_op op)) (tablet_get op)
                    Hit' ltac:(lia) Hu' ltac:(left; lia) Hv)
          as (groups & s & Hgr & Hch & Hun).
        rewrite Hgr. rewrite Hq in *. eexists _, s. split; [reflexivity|]. simpl.
        split; [split_and!; [done|lia|done]|].
        constructor; [|exact Hun]. simpl. eauto.
      - apply orb_false_iff in Hb as [Hb1 Hb2].
        apply negb_false_iff, Z.eqb_eq in Hb1.
        apply negb_false_iff, bool_decide_eq_true in Hb2.
        assert (Hu' : uniform ((prefix ++ [op]) ++ rest) gs (S it) ct cg).
        { rewrite Hq. apply uniform_snoc with op; done. }
        destruct (IH (prefix ++ [op]) (S it) gs cg ct
                    Hit' ltac:(lia) Hu' ltac:(left; lia) Hv)
          as (groups & s & Hgr & Hch & Hun).
        rewrite Hgr. rewrite Hq in *. eauto. }
    unfold version_matches in Hop.
    destruct (partition_list_version (yb_op op)) as [requested|]; [|exact Hc].
    destruct Hop as (t & -> & ->). rewrite Z.eqb_refl. exact Hc.
Qed.

End Grouping.

Section AllLookups.

Variable env : Env.

(** *** AllLookupsDone, step by step *)

Lemma errors_combined_nil w : errors_combined env [] w = w.
Proof.
  unfold errors_combined. simpl. rewrite !app_nil_r.
  destruct w as [b e p]. by destruct b.
Qed.

Lemma filter_all {A} (P : A -> Prop) `{forall x, Decision (P x)} (l : list A) :
  Forall P l -> filter P l = l.
Proof.
  induction 1 as [|x l Hx _ IH]; [done|]. by rewrite filter_cons_True, IH.
Qed.

Lemma filter_none {A} (P : A -> Prop) `{forall x, Decision (P x)} (l : list A) :
  Forall (fun x => ~ P x) l -> filter P l = [].
Proof.
  induction 1 as [|x l Hx _ IH]; [done|]. by rewrite filter_cons_False, IH.
Qed.

Lemma spread_empty op : spread ∅ op = op.
Proof. unfold spread. rewrite lookup_empty. by destruct (ok (error op)). Qed.

Lemma no_errors queue :
  lookup_errors env queue = ∅ ->
  removed_ops env queue = [] /\ surviving_ops env queue = checked_queue env queue.
Proof.
  intros He. unfold removed_ops, surviving_ops. rewrite He.
  assert (Hall : Forall (fun op => ok (error op) = true) (checked_queue env queue)).
  { apply Forall_forall. intros op Hin.
    destruct (ok (error op)) eqn:Hok; [done|].
    assert (is_Some (lookup_errors env queue !! partition_key op)) as [e Hs]
      by (apply lookup_errors_is_Some; eauto).
    rewrite He, lookup_empty in Hs. done. }
  rewrite (list_fmap_ext (spread ∅) id (checked_queue env queue))
    by (intros; apply spread_empty).
  rewrite list_fmap_id. split.
  - apply filter_none. eapply Forall_impl; [exact Hall|].
    simpl. intros op ->. done.
  - by apply filter_all.
Qed.

Lemma AllLookupsDone_erased w :
  state_ (bat w) = kResolvingTablets ->
  AllLookupsDone env w = AllLookupsDone_dispatch env (erased env w).
Proof.
  intros Hst. unfold AllLookupsDone. unfold bind at 1. unfold get.
  rewrite Hst. simpl.
  unfold bind at 1. rewrite CollectOpsErrors_eq.
  unfold bind at 1. unfold modify at 1.
  unfold AllLookupsDone_erase_errors, erased.
  set (n := snd (CollectOpsErrors_loop env (ops_queue_ (bat w)) ∅)).
  set (w2 := upd (set_state kTransactionPrepare)
               (logged n (upd (set_ops_queue (checked_queue env (ops_queue_ (bat w)))) w))).
  unfold bind at 1.
  case_bool_decide as He; simpl.
  - destruct (no_errors _ He) as [-> ->].
    rewrite errors_combined_nil.
    reflexivity.
  - unfold bind at 1. unfold get. unfold bind at 1.
    replace (ops_queue_ (bat w2)) with (checked_queue env (ops_queue_ (bat w)))
      by reflexivity.
    rewrite EraseIf_eq. reflexivity.
Qed.

Lemma bat_errors_combined l w :
  bat (errors_combined env l w) =
  set_combined_error (foldl (combine_status env) (combined_error_ (bat w)) l)
    (set_error_collector (error_collector_ (bat w) ++ map collected l) (bat w)).
Proof. reflexivity. Qed.

Lemma callbacks_errors_combined l w : callbacks (errors_combined env l w) = callbacks w.
Proof.
  unfold callbacks, errors_combined. simpl. rewrite omap_app.
  replace (omap _ (concat (map stale_mark l))) with (@nil (Z * Status));
    [by rewrite app_nil_r|].
  induction l as [|op l IH]; [done|]. simpl. rewrite omap_app, <- IH.
  unfold stale_mark. by case_bool_decide.
Qed.

Lemma sent_rpcs_errors_combined l w : sent_rpcs (errors_combined env l w) = sent_rpcs w.
Proof.
  unfold sent_rpcs, errors_combined. simpl. rewrite omap_app.
  replace (omap _ (concat (map stale_mark l))) with (@nil AsyncRpc);
    [by rewrite app_nil_r|].
  induction l as [|op l IH]; [done|]. simpl. rewrite omap_app, <- IH.
  unfold stale_mark. by case_bool_decide.
Qed.

Lemma callbacks_logged n w : callbacks (logged n w) = callbacks w.
Proof.
  unfold callbacks, logged. simpl. rewrite omap_app.
  replace (omap _ (replicate n _)) with (@nil (Z * Status)); [by rewrite app_nil_r|].
  induction n as [|n IH]; [done|]. simpl. exact IH.
Qed.

Lemma sent_rpcs_logged n w : sent_rpcs (logged n w) = sent_rpcs w.
Proof.
  unfold sent_rpcs, logged. simpl. rewrite omap_app.
  replace (omap _ (replicate n _)) with (@nil AsyncRpc); [by rewrite app_nil_r|].
  induction n as [|n IH]; [done|]. simpl. exact IH.
Qed.

(** What the first half of [AllLookupsDone] changes, and what it keeps. *)
Lemma bat_erased w :
  bat (erased env w) =
  set_ops_queue (surviving_ops env (ops_queue_ (bat w)))
    (set_combined_error
       (foldl (combine_status env) (combined_error_ (bat w))
              (removed_ops env (ops_queue_ (bat w))))
       (set_error_collector
          (error_collector_ (bat w) ++ map collected (removed_ops env (ops_queue_ (bat w))))
          (set_state kTransactionPrepare (bat w)))).
Proof. reflexivity. Qed.

Lemma callbacks_erased w : callbacks (erased env w) = callbacks w.
Proof.
  unfold erased. by rewrite callbacks_upd, callbacks_errors_combined, callbacks_upd,
    callbacks_logged, callbacks_upd.
Qed.

Lemma sent_rpcs_erased w : sent_rpcs (erased env w) = sent_rpcs w.
Proof.
  unfold erased. by rewrite sent_rpcs_upd, sent_rpcs_errors_combined, sent_rpcs_upd,
    sent_rpcs_logged, sent_rpcs_upd.
Qed.

Lemma pool_erased w : pool (erased env w) = pool w.
Proof. reflexivity. Qed.

Lemma AllLookupsDone_dispatch_nil w :
  ops_queue_ (bat w) = [] -> AllLookupsDone_dispatch env w = FlushFinished env w.
Proof. intros H. unfold AllLookupsDone_dispatch. msimpl. by rewrite H. Qed.

Lemma sort_ops_nil queue : sort_ops queue = [] -> queue = [].
Proof.
  intros H. apply Permutation_nil_r. rewrite <- H. by rewrite sort_ops_Permutation.
Qed.

Lemma AllLookupsDone_dispatch_cons w :
  ops_queue_ (bat w) <> [] ->
  exists first rest,
    sort_ops (ops_queue_ (bat w)) = first :: rest /\
    AllLookupsDone_dispatch env w =
    let '(groups, e) :=
      grouping (first :: rest) 0 0 (group (yb_op first)) (tablet_get first) in
    let w' := upd (push_groups groups) (sorted w) in
    match e with
    | Grouped group_start =>
        ExecuteOperations true
          (upd (push_group (InFlightOpsGroup_new group_start (length (first :: rest)))) w')
    | VersionMismatch op requested ours =>
        Abort env (PartitionListVersionDoesNotMatch op requested ours) w'
    | NullTablet => Raise NullTabletDereference w'
    end.
Proof.
  intros Hne. destruct (sort_ops (ops_queue_ (bat w))) as [|first rest] eqn:Hs.
  { by apply sort_ops_nil in Hs. }
  exists first, rest. split; [done|].
  unfold AllLookupsDone_dispatch. unfold bind at 1. unfold get.
  destruct (ops_queue_ (bat w)) as [|o q] eqn:Hq; [done|].
  unfold AllLookupsDone_sort_and_group. unfold bind at 1. unfold get.
  unfold bind at 1. unfold modify at 1. unfold bind at 1. unfold get.
  replace (ops_queue_ (bat (upd (set_ops_queue (sort_ops (ops_queue_ (bat w)))) w)))
    with (sort_ops (ops_queue_ (bat w))) by reflexivity.
  rewrite Hq, Hs. unfold bind at 1. rewrite group_loop_eq.
  unfold sorted. rewrite Hq, Hs.
  destruct (grouping (first :: rest) 0 0 _ _) as [groups e].
  destruct e as [s|op r u|]; try reflexivity.
  unfold bind. by destruct (Abort env _ _) as [[] ?|].
Qed.

End AllLookups.

Section Version.

Variable env : Env.

(** *** The partition list version check *)

Lemma tablet_check_partition op : tablet (fst (check_partition env op)) = tablet op.
Proof. unfold check_partition. destruct (tablet op) eqn:Ht; [|done]. by case_match. Qed.

Lemma yb_op_check_partition op : yb_op (fst (check_partition env op)) = yb_op op.
Proof. unfold check_partition. destruct (tablet op) eqn:Ht; [|done]. by case_match. Qed.

Lemma partition_key_check_partition op :
  partition_key (fst (check_partition env op)) = partition_key op.
Proof. unfold check_partition. destruct (tablet op) eqn:Ht; [|done]. by case_match. Qed.

Lemma sequence_number_check_partition op :
  sequence_number (fst (check_partition env op)) = sequence_number op.
Proof. unfold check_partition. destruct (tablet op) eqn:Ht; [|done]. by case_match. Qed.

Lemma error_check_partition op :
  ok (error op) = false -> ok (error (fst (check_partition env op))) = false.
Proof.
  unfold check_partition. destruct (tablet op) eqn:Ht; [|done]. intros. by case_match.
Qed.

Lemma tablet_spread errors op : tablet (spread errors op) = tablet op.
Proof. unfold spread. by repeat case_match. Qed.

Lemma yb_op_spread errors op : yb_op (spread errors op) = yb_op op.
Proof. unfold spread. by repeat case_match. Qed.

Lemma partition_key_spread errors op : partition_key (spread errors op) = partition_key op.
Proof. unfold spread. by repeat case_match. Qed.

Lemma sequence_number_spread errors op :
  sequence_number (spread errors op) = sequence_number op.
Proof. unfold spread. by repeat case_match. Qed.

Lemma error_spread_ok errors op :
  ok (error (spread errors op)) = true -> ok (error op) = true.
Proof. unfold spread. destruct (ok (error op)) eqn:Hok; [done|]. by rewrite Hok. Qed.

(** An op of the queue after the first half of [AllLookupsDone] comes from
    an op of the queue before it. *)
Lemma elem_of_spread_checked queue op' :
  op' ∈ map (spread (lookup_errors env queue)) (checked_queue env queue) ->
  exists op, op ∈ queue /\
    op' = spread (lookup_errors env queue) (fst (check_partition env op)).
Proof.
  unfold checked_queue. rewrite map_map. intros (op & -> & Hin)%list_elem_of_fmap.
  eauto.
Qed.

Lemma surviving_resolved queue :
  Forall resolved queue -> Forall (fun op => is_Some (tablet op)) (surviving_ops env queue).
Proof.
  intros Hres. apply Forall_forall. intros op' [Hok Hin]%list_elem_of_filter.
  apply elem_of_spread_checked in Hin as (op & Hin & ->).
  rewrite tablet_spread, tablet_check_partition.
  rewrite Forall_forall in Hres. destruct (Hres op Hin) as [?|Herr]; [done|].
  apply error_spread_ok in Hok. apply error_check_partition in Herr. congruence.
Qed.

Lemma then_pool_eq (c c' : M unit) w w' :
  c w = c' w' -> then_pool c w = then_pool c' w'.
Proof. unfold then_pool, bind. by intros ->. Qed.

(** C7.  When all lookups are done and an op that survives the removal of
    the failed ops declares a partition list version different from the one
    of its resolved tablet, [AllLookupsDone] aborts the whole batch: the
    state is [kAborted], the aggregated status is the [Aborted] status with
    the client error [kTablePartitionListVersionDoesNotMatch] built for
    such an op, the user callback receives that status, and no RPC is
    sent. *)
Theorem AllLookupsDone_partition_list_version_mismatch (w : World) (cb : Z) :
  state_ (bat w) = kResolvingTablets ->
  flush_callback_ (bat w) = Some cb -> pool w = O ->
  Forall resolved (ops_queue_ (bat w)) ->
  Exists (fun op => version_mismatch op = true)
         (surviving_ops env (ops_queue_ (bat w))) ->
  exists w' op requested ours,
    then_pool (AllLookupsDone env) w = Done tt w' /\
    op ∈ surviving_ops env (ops_queue_ (bat w)) /\
    version_mismatch op = true /\
    state_ (bat w') = kAborted /\
    combined_error_ (bat w') = PartitionListVersionDoesNotMatch op requested ours /\
    code (combined_error_ (bat w')) = Code.Aborted /\
    ClientError (combined_error_ (bat w')) = kTablePartitionListVersionDoesNotMatch /\
    callbacks w' = callbacks w ++ [(cb, combined_error_ (bat w'))] /\
    flush_callback_ (bat w') = None /\
    sent_rpcs w' = sent_rpcs w.
Proof.
  intros Hst Hcb Hpool Hres Hex.
  set (q := ops_queue_ (bat w)) in *.
  assert (Hne : ops_queue_ (bat (erased env w)) <> []).
  { rewrite bat_erased. simpl. fold q. intros Hnil. rewrite Hnil in Hex. by inv Hex. }
  destruct (AllLookupsDone_dispatch_cons env _ Hne) as (first & rest & Hsort & Hrun).
  rewrite bat_erased in Hsort. simpl in Hsort. fold q in Hsort.
  assert (Hperm : first :: rest ≡ₚ surviving_ops env q)
    by (rewrite <- Hsort; apply sort_ops_Permutation).
  assert (Hchk : Forall version_checkable (first :: rest)).
  { rewrite Hperm. eapply Forall_impl; [by apply surviving_resolved|].
    intros op Ht _. exact Ht. }
  assert (Hex' : Exists (fun op => version_mismatch op = true) (first :: rest))
    by (by rewrite Hperm).
  destruct (grouping_mismatch (first :: rest) 0%nat 0%nat (group (yb_op first))
              (tablet_get first) Hchk Hex')
    as (groups & op & requested & ours & Hgr & Hin & Hm).
  rewrite Hgr in Hrun.
  set (w5 := upd (push_groups groups) (sorted (erased env w))) in *.
  set (status := PartitionListVersionDoesNotMatch op requested ours) in *.
  assert (Hrun' : then_pool (AllLookupsDone env) w =
                  then_pool (FlushFinished env) (upd (aborted status) w5)).
  { apply then_pool_eq. by rewrite AllLookupsDone_erased, Hrun, Abort_eq. }
  assert (Hcb5 : flush_callback_ (bat w5) = Some cb) by exact Hcb.
  assert (Hp5 : pool w5 = O) by exact Hpool.
  assert (Hc5 : callbacks w5 = callbacks w).
  { unfold w5, sorted. by rewrite !callbacks_upd, callbacks_erased. }
  assert (Hr5 : sent_rpcs w5 = sent_rpcs w).
  { unfold w5, sorted. by rewrite !sent_rpcs_upd, sent_rpcs_erased. }
  clearbody w5.
  destruct (FlushFinished_then_pool env (upd (aborted status) w5) cb)
    as (w' & Hfin & Hcbs & Hrpcs & Hbat & _); [done|done|].
  exists w', op, requested, ours.
  assert (Hagg : aggregated (aborted status (bat w5)) = status)
    by (by apply aggregated_aborted).
  split; [by rewrite Hrun'|]. split; [by rewrite <- Hperm|]. split; [done|].
  rewrite Hbat, Hcbs, Hrpcs. autorewrite with world. rewrite Hagg, Hc5, Hr5.
  done.
Qed.

End Version.

(** The theorem at an op that declares the version 7 for a tablet of
    version 8. *)
Lemma AllLookupsDone_partition_list_version_mismatch_example :
  state_ (bat stale_version_world) = kResolvingTablets /\
  exists w',
    then_pool (AllLookupsDone env0) stale_version_world = Done tt w' /\
    state_ (bat w') = kAborted /\
    ClientError (combined_error_ (bat w')) = kTablePartitionListVersionDoesNotMatch /\
    callbacks w' = [(7, combined_error_ (bat w'))] /\
    sent_rpcs w' = [].
Proof.
  split; [reflexivity|].
  destruct (AllLookupsDone_partition_list_version_mismatch env0 stale_version_world 7
              eq_refl eq_refl eq_refl)
    as (w' & op & requested & ours & Hrun & _ & _ & Hst & _ & _ & Hce & Hcb & _ & Hs).
  - repeat (constructor; [left; eexists; reflexivity|]). constructor.
  - vm_compute. apply Exists_cons_tl, Exists_cons_hd. reflexivity.
  - exists w'. split; [exact Hrun|]. split; [exact Hst|]. split; [exact Hce|].
    split; [exact Hcb|exact Hs].
Defined.

Section Contagion.

Variable env : Env.

(** *** Error contagion *)

Lemma queue_FlushFinished : stable (fun w => ops_queue_ (bat w)) (FlushFinished env).
Proof. stable_tac. Qed.

Lemma queue_Abort status : stable (fun w => ops_queue_ (bat w)) (Abort env status).
Proof. stable_tac. Qed.

Lemma queue_ExecuteOperations initial :
  stable (fun w => ops_queue_ (bat w)) (ExecuteOperations initial).
Proof. stable_tac. Qed.

Lemma collector_FlushFinished : stable (fun w => error_collector_ (bat w)) (FlushFinished env).
Proof. stable_tac. Qed.

Lemma collector_ExecuteOperations initial :
  stable (fun w => error_collector_ (bat w)) (ExecuteOperations initial).
Proof. stable_tac. Qed.

(** The second half of [AllLookupsDone] leaves the queue sorted, with the
    ops it found in it. *)
Lemma queue_after_dispatch w :
  ops_queue_ (bat (res_world (AllLookupsDone_dispatch env w))) =
  sort_ops (ops_queue_ (bat w)).
Proof.
  destruct (decide (ops_queue_ (bat w) = [])) as [Hnil|Hne].
  - rewrite AllLookupsDone_dispatch_nil by done.
    rewrite (queue_FlushFinished w). by rewrite Hnil.
  - destruct (AllLookupsDone_dispatch_cons env w Hne) as (first & rest & Hsort & ->).
    rewrite <- Hsort.
    destruct (grouping _ _ _ _ _) as [groups [s|op r u|]].
    + by rewrite (queue_ExecuteOperations _ _).
    + by rewrite (queue_Abort _ _).
    + reflexivity.
Qed.

(** It only adds to the error collector. *)
Lemma collector_after_dispatch w :
  exists extra,
    error_collector_ (bat (res_world (AllLookupsDone_dispatch env w))) =
    error_collector_ (bat w) ++ extra.
Proof.
  destruct (decide (ops_queue_ (bat w) = [])) as [Hnil|Hne].
  - rewrite AllLookupsDone_dispatch_nil by done.
    rewrite (collector_FlushFinished w). exists []. by rewrite app_nil_r.
  - destruct (AllLookupsDone_dispatch_cons env w Hne) as (first & rest & Hsort & ->).
    destruct (grouping _ _ _ _ _) as [groups [s|op r u|]].
    + rewrite (collector_ExecuteOperations _ _). exists []. by rewrite app_nil_r.
    + rewrite Abort_eq, (collector_FlushFinished _). simpl. eauto.
    + exists []. by rewrite app_nil_r.
Qed.

Lemma lookup_errors_not_ok queue k e :
  lookup_errors env queue !! k = Some e -> ok e = false.
Proof. by intros [? _]%lookup_errors_Some. Qed.

(** An op of a partition key that has an error leaves the spreading with
    an error. *)
Lemma spread_error queue op :
  is_Some (lookup_errors env queue !! partition_key op) ->
  ok (error (spread (lookup_errors env queue) op)) = false.
Proof.
  intros [e He]. unfold spread. destruct (ok (error op)) eqn:Hok; [|done].
  rewrite He. simpl. by eapply lookup_errors_not_ok.
Qed.

(** C4.  Error contagion by partition key.  When all lookups are done and
    some in-flight op of partition key [k] has an error (from its lookup, or
    from the check of its tablet's partition), then after [AllLookupsDone]:
    every op of key [k] has been given an error and removed, the queue that
    is sorted, grouped and dispatched holds no op of key [k], so no RPC
    carries one, and the error collector has received one entry per removed
    op, in the order of the queue. *)
Theorem AllLookupsDone_error_contagion (w : World) (k : PartitionKey) :
  state_ (bat w) = kResolvingTablets ->
  (exists op, op ∈ ops_queue_ (bat w) /\ partition_key op = k /\
              ok (error (fst (check_partition env op))) = false) ->
  let q := ops_queue_ (bat w) in
  let w' := res_world (AllLookupsDone env w) in
  (forall op, op ∈ q -> partition_key op = k ->
     exists op', op' ∈ removed_ops env q /\
       yb_op op' = yb_op op /\ sequence_number op' = sequence_number op /\
       partition_key op' = k /\ ok (error op') = false) /\
  (forall op, op ∈ surviving_ops env q -> partition_key op <> k) /\
  ops_queue_ (bat w') ≡ₚ surviving_ops env q /\
  (forall op, op ∈ ops_queue_ (bat w') -> partition_key op <> k) /\
  (forall rpc i op, rpc ∈ sent_rpcs w' ->
     (fst (rpc_ops rpc) <= i < snd (rpc_ops rpc))%nat ->
     ops_queue_ (bat w') !! i = Some op -> partition_key op <> k) /\
  (exists extra,
     error_collector_ (bat w') =
     error_collector_ (bat w) ++ map collected (removed_ops env q) ++ extra) /\
  Forall (fun op => ok (error op) = false) (removed_ops env q) /\
  (length (removed_ops env q) + length (surviving_ops env q) = length q)%nat.
Proof.
  intros Hst (op0 & Hin0 & Hk0 & Herr0) q w'.
  assert (Hkey : is_Some (lookup_errors env q !! k)).
  { apply lookup_errors_is_Some. exists (fst (check_partition env op0)).
    split; [|by rewrite partition_key_check_partition].
    unfold checked_queue. apply list_elem_of_fmap. eauto. }
  assert (Hsurv : forall op, op ∈ surviving_ops env q -> partition_key op <> k).
  { intros op [Hok Hin]%list_elem_of_filter Hk.
    apply elem_of_spread_checked in Hin as (o & Ho & ->).
    rewrite spread_error in Hok; [done|].
    rewrite partition_key_spread in Hk. by rewrite Hk. }
  assert (Hq' : ops_queue_ (bat w') = sort_ops (surviving_ops env q)).
  { unfold w'. rewrite AllLookupsDone_erased by done. by rewrite queue_after_dispatch. }
  assert (Hperm : ops_queue_ (bat w') ≡ₚ surviving_ops env q)
    by (rewrite Hq'; apply sort_ops_Permutation).
  assert (Hnone : forall op, op ∈ ops_queue_ (bat w') -> partition_key op <> k).
  { intros op Hin. apply Hsurv. by rewrite <- Hperm. }
  split_and!; try done.
  - intros op Hin Hk.
    exists (spread (lookup_errors env q) (fst (check_partition env op))).
    rewrite yb_op_spread, yb_op_check_partition, sequence_number_spread,
      sequence_number_check_partition, partition_key_spread,
      partition_key_check_partition.
    assert (Herr : ok (error (spread (lookup_errors env q) (fst (check_partition env op))))
                   = false).
    { apply spread_error. by rewrite partition_key_check_partition, Hk. }
    split_and!; try done.
    apply list_elem_of_filter. split; [done|].
    unfold checked_queue. rewrite map_map. apply list_elem_of_fmap. eauto.
  - intros rpc i op _ _ Hi. apply Hnone. by eapply list_elem_of_lookup_2.
  - unfold w'. rewrite AllLookupsDone_erased by done.
    destruct (collector_after_dispatch (erased env w)) as [extra ->].
    exists extra. rewrite bat_erased. simpl. by rewrite <- app_assoc.
  - apply Forall_forall. by intros op [? _]%list_elem_of_filter.
  - unfold removed_ops, surviving_ops.
    set (l := map _ _). assert (length l = length q) as <-.
    { unfold l, checked_queue. by rewrite !length_map. }
    clearbody l. induction l as [|o l IH]; [done|].
    rewrite !filter_cons. destruct (ok (error o)); simpl; repeat case_decide; simpl; try done; lia.
Qed.

End Contagion.

(** The theorem at a queue where the lookup of the first op of the key k
    failed. *)
Lemma AllLookupsDone_error_contagion_example :
  state_ (bat one_lookup_failed) = kResolvingTablets /\
  let w' := res_world (AllLookupsDone env0 one_lookup_failed) in
  (forall op, op ∈ ops_queue_ (bat w') -> partition_key op <> "k"%string) /\
  (forall rpc i op, rpc ∈ sent_rpcs w' ->
     (fst (rpc_ops rpc) <= i < snd (rpc_ops rpc))%nat ->
     ops_queue_ (bat w') !! i = Some op -> partition_key op <> "k"%string).
Proof.
  split; [reflexivity|].
  assert (Hex : exists op, op ∈ ops_queue_ (bat one_lookup_failed) /\
                  partition_key op = "k"%string /\
                  ok (error (fst (check_partition env0 op))) = false).
  { eexists. split; [apply list_elem_of_here|]. split; reflexivity. }
  pose proof (AllLookupsDone_error_contagion env0 one_lookup_failed "k"%string
                eq_refl Hex) as H.
  cbv zeta in H. destruct H as (_ & _ & _ & Hq & Hr & _).
  cbv zeta. split; [exact Hq|exact Hr].
Defined.

(** ** The order of the ops in the queue and in the RPCs *)

Section Order.
Variable env : Env.

(** *** Order within the groups *)

Lemma StronglySorted_lookup_lt {A} (R : relation A) (l : list A) i j a b :
  StronglySorted R l -> (i < j)%nat -> l !! i = Some a -> l !! j = Some b -> R a b.
Proof.
  intros Hs. revert i j. induction Hs as [|x l Hs IH Hall]; intros i j Hij Hi Hj.
  - by rewrite lookup_nil in Hi.
  - destruct i as [|i], j as [|j]; try lia; simpl in *.
    + simplify_eq. rewrite Forall_forall in Hall. apply Hall.
      by eapply list_elem_of_lookup_2.
    + apply (IH i j); [lia|done|done].
Qed.

(** In a sorted queue, of two ops for the same tablet and of the same kind
    the one with the smaller sequence number comes first. *)
Lemma sorted_by_sequence_number (q : list InFlightOp) i j a b :
  StronglySorted op_le q ->
  q !! i = Some a -> q !! j = Some b ->
  tablet_get a = tablet_get b -> group (yb_op a) = group (yb_op b) ->
  (sequence_number a < sequence_number b)%nat -> (i < j)%nat.
Proof.
  intros Hs Hi Hj Ht Hg Hseq.
  destruct (Nat.lt_trichotomy i j) as [?|[->|Hji]]; [done| |].
  - simplify_eq. lia.
  - pose proof (StronglySorted_lookup_lt _ _ _ _ _ _ Hs Hji Hj Hi) as Hle.
    apply op_le_key in Hle. rewrite Hg in Hle. lia.
Qed.

Lemma chained_bounds groups : forall start stop,
  chained start groups stop ->
  (start <= stop)%nat /\
  Forall (fun g => (start <= group_begin g < group_end g)%nat /\
                   (group_end g <= stop)%nat) groups.
Proof.
  induction groups as [|g groups IH]; intros start stop; simpl.
  - intros ->. split; [lia|constructor].
  - intros (Hb & Hlt & Hch). destruct (IH _ _ Hch) as [Hle Hall].
    split; [lia|]. constructor; [lia|].
    eapply Forall_impl; [exact Hall|]. simpl. intros g'. lia.
Qed.


Lemma version_matches_surviving queue :
  Forall resolved queue ->
  Forall (fun op => version_mismatch op = false) (surviving_ops env queue) ->
  Forall version_matches (surviving_ops env queue).
Proof.
  intros Hres Hno. pose proof (surviving_resolved env queue Hres) as Ht.
  rewrite Forall_forall in *. intros op Hin.
  specialize (Hno op Hin). destruct (Ht op Hin) as [t Htab].
  unfold version_matches, version_mismatch in *. rewrite Htab in *.
  destruct (partition_list_version (yb_op op)) as [requested|]; [|done].
  exists t. split; [done|]. apply negb_false_iff in Hno. by apply Z.eqb_eq.
Qed.

Lemma ops_queue_prepared b : ops_queue_ (prepared b) = ops_queue_ b.
Proof. unfold prepared. by destruct (transaction_ b). Qed.

Lemma flush_callback_prepared b : flush_callback_ (prepared b) = flush_callback_ b.
Proof. unfold prepared. by destruct (transaction_ b). Qed.

Lemma ops_queue_dispatched n s b :
  ops_queue_ (set_outstanding_rpcs n (set_state s (prepared b))) = ops_queue_ b.
Proof. unfold prepared. by destruct (transaction_ b). Qed.

Lemma flush_callback_dispatched n s b :
  flush_callback_ (set_outstanding_rpcs n (set_state s (prepared b))) = flush_callback_ b.
Proof. unfold prepared. by destruct (transaction_ b). Qed.

Lemma groups_prepared b g :
  g ∈ ops_info_groups (prepared b) ->
  exists g0, g0 ∈ ops_info_groups b /\
    group_begin g = group_begin g0 /\ group_end g = group_end g0.
Proof.
  unfold prepared. destruct (transaction_ b) as [txn|]; [|by eauto].
  unfold prepare_groups. simpl. intros (g0 & -> & Hin)%list_elem_of_fmap. eauto.
Qed.

(** What [AllLookupsDone] dispatches when every surviving op passes the
    version check and the transaction, if any, is ready. *)
Lemma AllLookupsDone_dispatches (w : World) :
  state_ (bat w) = kResolvingTablets ->
  ops_info_groups (bat w) = [] ->
  surviving_ops env (ops_queue_ (bat w)) <> [] ->
  Forall resolved (ops_queue_ (bat w)) ->
  Forall (fun op => version_mismatch op = false) (surviving_ops env (ops_queue_ (bat w))) ->
  (forall transaction, transaction_ (bat w) = Some transaction ->
     Prepare_ready transaction true = true) ->
  exists w' rpcs,
    AllLookupsDone env w = Done tt w' /\
    ops_queue_ (bat w') = sort_ops (surviving_ops env (ops_queue_ (bat w))) /\
    state_ (bat w') = kTransactionReady /\
    callbacks w' = callbacks w /\
    pool w' = pool w /\
    flush_callback_ (bat w') = flush_callback_ (bat w) /\
    outstanding_rpcs_ (bat w') = Z.of_nat (length rpcs) /\
    sent_rpcs w' = sent_rpcs w ++ rpcs /\
    rpcs <> [] /\
    forall rpc, rpc ∈ rpcs ->
      (fst (rpc_ops rpc) < snd (rpc_ops rpc) <= length (ops_queue_ (bat w')))%nat /\
      (forall i op, (fst (rpc_ops rpc) <= i < snd (rpc_ops rpc))%nat ->
         ops_queue_ (bat w') !! i = Some op ->
         tablet_get op = rpc_tablet rpc /\
         rpc_kind_of (group (yb_op op)) = rpc_kind rpc).
Proof.
  intros Hst Hg0 Hne Hres Hver Hready.
  set (q := surviving_ops env (ops_queue_ (bat w))) in *.
  assert (Hne3 : ops_queue_ (bat (erased env w)) <> []) by (by rewrite bat_erased).
  destruct (AllLookupsDone_dispatch_cons env _ Hne3) as (first & rest & Hsort & Hrun).
  rewrite bat_erased in Hsort. simpl in Hsort. fold q in Hsort.
  assert (Hmatch : Forall version_matches (first :: rest)).
  { rewrite <- Hsort, sort_ops_Permutation. by apply version_matches_surviving. }
  destruct (grouping_grouped (first :: rest) [] 0%nat 0%nat (group (yb_op first))
              (tablet_get first) eq_refl (le_n _))
    as (groups & s & Hgr & Hch & Hun); [intros i op; lia|right; by eexists _, _|done|].
  simpl app in Hch, Hun. rewrite Hgr in Hrun. cbv beta iota zeta in Hrun.
  set (last := InFlightOpsGroup_new s (length (first :: rest))) in *.
  remember (upd (push_group last) (upd (push_groups groups) (sorted (erased env w))))
    as w6 eqn:Hw6.
  assert (Hb6q : ops_queue_ (bat w6) = first :: rest).
  { rewrite Hw6. unfold sorted. simpl. fold q. exact Hsort. }
  assert (Hb6g : ops_info_groups (bat w6) = groups ++ [last]).
  { rewrite Hw6. unfold sorted. simpl. by rewrite Hg0. }
  assert (Hb6s : state_ (bat w6) = kTransactionPrepare) by (by rewrite Hw6).
  assert (Hb6t : transaction_ (bat w6) = transaction_ (bat w)) by (by rewrite Hw6).
  assert (Hb6f : flush_callback_ (bat w6) = flush_callback_ (bat w)) by (by rewrite Hw6).
  assert (Hp6 : pool w6 = pool w) by (by rewrite Hw6).
  assert (Hr6 : sent_rpcs w6 = sent_rpcs w).
  { rewrite Hw6. unfold sorted. by rewrite !sent_rpcs_upd, sent_rpcs_erased. }
  assert (Hc6 : callbacks w6 = callbacks w).
  { rewrite Hw6. unfold sorted. by rewrite !callbacks_upd, callbacks_erased. }
  clear Hw6.
  destruct (chained_bounds _ _ _ Hch) as [_ Hbounds].
  assert (Hok : Forall (group_ok (ops_queue_ (bat w6))) (ops_info_groups (bat w6))).
  { rewrite Hb6q, Hb6g. eapply Forall_impl; [exact Hbounds|].
    simpl. intros g [Hlt Hle]. split; [lia|]. apply lookup_lt_is_Some. simpl. lia. }
  destruct (ExecuteOperations_Done w6 true Hb6s) as (w7 & Hexec & Hs7 & Hc7 & Hp7 & Hb7);
    [by rewrite Hb6t|done|].
  destruct (group_ok_prepared _ Hok) as [Hok' Hlen].
  assert (Hq7 : ops_queue_ (bat w7) = first :: rest).
  { rewrite Hb7, ops_queue_dispatched. exact Hb6q. }
  assert (Hf7 : flush_callback_ (bat w7) = flush_callback_ (bat w)).
  { rewrite Hb7, flush_callback_dispatched. exact Hb6f. }
  eexists w7, _. split; [by rewrite AllLookupsDone_erased, Hrun, Hexec by done|].
  split; [by rewrite Hq7|]. split; [by rewrite Hb7|].
  split; [by rewrite Hc7|]. split; [by rewrite Hp7|]. split; [done|].
  split.
  { rewrite Hb7. simpl. rewrite length_rpcs_of by exact Hok'. by rewrite Hlen. }
  split; [by rewrite Hs7, Hr6|].
  split.
  { intros Hnil. apply (f_equal length) in Hnil.
    rewrite length_rpcs_of in Hnil by exact Hok'.
    rewrite Hlen, Hb6g, length_app in Hnil. simpl in Hnil. lia. }
  intros rpc (g & fst_op & Hg & Hfirst & Hops & Htab & Hkind & _)%elem_of_rpcs_of.
  apply groups_prepared in Hg as (g0 & Hg0in & Hbeg & Hend).
  rewrite Hb6g in Hg0in. rewrite Hb6q in Hfirst.
  rewrite Forall_forall in Hbounds, Hun.
  destruct (Hbounds g0 Hg0in) as [Hlt Hle].
  destruct (Hun g0 Hg0in) as (t & k & Hu).
  rewrite Hops, Hbeg, Hend. simpl fst. simpl snd.
  split; [rewrite Hq7; lia|].
  intros i op Hi Hop. rewrite Hq7 in Hop.
  destruct (Hu i op Hi Hop) as [-> ->].
  rewrite Hbeg in Hfirst.
  destruct (Hu (group_begin g0) fst_op ltac:(lia) Hfirst) as [<- <-]. done.
Qed.

End Order.

(** A read and then a write of the same key are submitted, both for the
    tablet A: the write stands first in the queue and its RPC is sent
    first. *)
Lemma per_key_order_across_kinds :
  let a := mkop 1 kLeaderRead "k"%string (Some tabA) None in
  let b := mkop 2 kWrite "k"%string (Some tabA) None in
  let w' := res_world (calls env0 [CallAdd a; CallAdd b; CallFlushAsync 7 false]
                         (World_new None false false)) in
  snd (GetPartitionKey a) = snd (GetPartitionKey b) /\
  map (fun op => (op_addr (yb_op op), sequence_number op)) (ops_queue_ (bat w'))
    = [(2, 1%nat); (1, 0%nat)] /\
  map (fun rpc => (rpc_kind rpc, rpc_ops rpc)) (sent_rpcs w')
    = [(WriteRpc, (0, 1)%nat); (ReadRpc STRONG, (1, 2)%nat)].
Proof. vm_compute. repeat split. Qed.

(** ** The callback is invoked once *)

#[global] Instance keeps_callback_inv_preorder : PreOrder keeps_callback_inv.
Proof. split; [intros w H; exact H|intros w1 w2 w3 H1 H2 H; auto]. Qed.

Lemma callback_inv_upd g w :
  flush_callback_ (g (bat w)) = flush_callback_ (bat w) ->
  (state_ (g (bat w)) = kGatheringOps -> state_ (bat w) = kGatheringOps) ->
  keeps_callback_inv w (upd g w).
Proof.
  intros Hslot Hst. unfold keeps_callback_inv, callback_inv.
  rewrite callbacks_upd, bat_upd, Hslot.
  destruct (callbacks w) as [|x [|y l]]; [|intros [? ?]; split|]; auto.
Qed.

Lemma callback_inv_add_effect e w :
  (forall cb s, e <> InvokeCallback cb s) -> keeps_callback_inv w (add_effect e w).
Proof.
  intros He. unfold keeps_callback_inv, callback_inv.
  rewrite callbacks_add_effect, bat_add_effect.
  destruct e as [| | | | | |cb0 s0| | | | | | | |]; try (by rewrite app_nil_r).
  by destruct (He cb0 s0).
Qed.

Lemma callback_inv_set_pool n w : keeps_callback_inv w (set_pool n w).
Proof. intros H. exact H. Qed.

Lemma callback_inv_Run : follows keeps_callback_inv Run.
Proof.
  intros w Hinv. destruct (flush_callback_ (bat w)) as [cb|] eqn:Hslot.
  - rewrite (Run_Some w cb Hslot). simpl. unfold callback_inv in *.
    rewrite callbacks_upd, callbacks_add_effect.
    destruct (callbacks w) as [|x [|y l]]; simpl.
    + split; [done|]. intros Hg. specialize (Hinv Hg). congruence.
    + destruct Hinv as [? _]. congruence.
    + done.
  - by rewrite (Run_None w Hslot).
Qed.

Ltac callback_leaf :=
  first
    [ apply callback_inv_Run
    | apply callback_inv_set_pool
    | apply callback_inv_upd; [reflexivity|simpl; try done; try (intros; done)]
    | apply callback_inv_add_effect; intros ? ?; discriminate
    | exact (fun H => H) ].

#[global] Instance grows_preorder : PreOrder grows.
Proof.
  split; [intros w; unfold grows; reflexivity|].
  intros w1 w2 w3 H1 H2. unfold grows in *. by etransitivity.
Qed.

Lemma grows_add_effect e w : grows w (add_effect e w).
Proof. unfold grows. simpl. by apply prefix_app_r. Qed.

Lemma grows_same w w' : effects w' = effects w -> grows w w'.
Proof. unfold grows. by intros ->. Qed.

Lemma grows_Run : follows grows Run.
Proof.
  intros w. destruct (flush_callback_ (bat w)) as [cb|] eqn:Hslot.
  - rewrite (Run_Some w cb Hslot). simpl. apply grows_add_effect.
  - by rewrite (Run_None w Hslot).
Qed.

Ltac grows_leaf :=
  first [ apply grows_Run | apply grows_add_effect | apply grows_same; reflexivity ].

Lemma callbacks_grow w w' : grows w w' -> callbacks w `prefix_of` callbacks w'.
Proof. intros [l Hl]. unfold callbacks. rewrite Hl, omap_app. by apply prefix_app_r. Qed.

Section CallbackOnce.

Variable env : Env.

Lemma FlushAsync_eq cb retry w :
  state_ (bat w) = kGatheringOps ->
  FlushAsync env cb retry w =
  FlushAsync_resolve env retry (bat w) (upd (FlushAsync_started cb) w).
Proof.
  intros Hst. unfold FlushAsync. unfold bind at 1. unfold get.
  rewrite bool_decide_true by done. reflexivity.
Qed.

Lemma FlushAsync_wrong_state cb retry w :
  state_ (bat w) <> kGatheringOps ->
  FlushAsync env cb retry w =
  Raise (CheckFailed "state_ == BatcherState::kGatheringOps") w.
Proof.
  intros Hst. unfold FlushAsync. unfold bind at 1. unfold get.
  rewrite bool_decide_false by done. reflexivity.
Qed.

Lemma FlushAsync_fill_queue_cons o ops w :
  FlushAsync_fill_queue env (o :: ops) w =
  if ok (key_status o) then FlushAsync_fill_queue env ops (enqueue o w)
  else (FlushFinished env >> ret false)
         (upd (set_combined_error (key_status o)) (enqueue o w)).
Proof.
  destruct w as [b e p]. unfold key_status, enqueue, queued. simpl.
  unfold bind at 1. unfold get. 
  destruct (GetPartitionKey o) as [st key] eqn:Hk. simpl.
  unfold bind at 1. unfold modify at 1.
  destruct (ok st) eqn:Hok; simpl.
  - destruct (IsHashPartitioning (table o)); simpl.
    + destruct (String.eqb key EmptyString); simpl.
      * destruct (read_only o); simpl; unfold bind at 1; unfold ret at 1;
          simpl; rewrite ?Hok; reflexivity.
      * unfold bind at 1. unfold bind at 1. unfold emit at 1. unfold ret at 1.
        rewrite Hok. reflexivity.
    + unfold bind at 1. unfold ret at 1. rewrite Hok. reflexivity.
  - unfold bind at 1. unfold ret at 1. rewrite Hok. reflexivity.
Qed.

Lemma bat_enqueue o w :
  bat (enqueue o w) =
  set_ops_queue (ops_queue_ (bat w) ++ [queued o (length (ops_queue_ (bat w)))]) (bat w).
Proof. unfold enqueue. by destruct (_ && _). Qed.

Lemma pool_enqueue o w : pool (enqueue o w) = pool w.
Proof. unfold enqueue. by destruct (_ && _). Qed.

Lemma callbacks_enqueue o w : callbacks (enqueue o w) = callbacks w.
Proof.
  unfold enqueue. destruct (_ && _); [|done].
  by rewrite callbacks_add_effect, app_nil_r.
Qed.

Lemma sent_rpcs_enqueue o w : sent_rpcs (enqueue o w) = sent_rpcs w.
Proof.
  unfold enqueue. destruct (_ && _); [|done].
  by rewrite sent_rpcs_add_effect, app_nil_r.
Qed.

(** When the key of some op is not usable, the first loop of [FlushAsync]
    stops at the first such op and finishes the flush with its status. *)
Lemma FlushAsync_fill_queue_failure ops : forall w,
  Exists (fun o => ok (key_status o) = false) ops ->
  exists w1 o,
    FlushAsync_fill_queue env ops w = (FlushFinished env >> ret false) w1 /\
    o ∈ ops /\ ok (key_status o) = false /\
    combined_error_ (bat w1) = key_status o /\
    flush_callback_ (bat w1) = flush_callback_ (bat w) /\
    state_ (bat w1) = state_ (bat w) /\
    error_collector_ (bat w1) = error_collector_ (bat w) /\
    pool w1 = pool w /\ callbacks w1 = callbacks w /\ sent_rpcs w1 = sent_rpcs w.
Proof.
  induction ops as [|o ops IH]; intros w Hex; [by inv Hex|].
  rewrite FlushAsync_fill_queue_cons.
  destruct (ok (key_status o)) eqn:Hok.
  - inv Hex; [congruence|].
    destruct (IH (enqueue o w))
      as (w1 & o' & Hrun & Hin & Hko & Hce & Hs & Hst & Hec & Hp & Hc & Hr); [done|].
    exists w1, o'. rewrite Hrun, Hce, Hs, Hst, Hec, Hp, Hc, Hr.
    rewrite bat_enqueue, pool_enqueue, callbacks_enqueue, sent_rpcs_enqueue.
    split_and!; try done. by apply list_elem_of_further.
  - exists (upd (set_combined_error (key_status o)) (enqueue o w)), o.
    rewrite callbacks_upd, sent_rpcs_upd, pool_upd, bat_upd.
    rewrite bat_enqueue, pool_enqueue, callbacks_enqueue, sent_rpcs_enqueue.
    split_and!; try done. apply list_elem_of_here.
Qed.

Lemma FlushAsync_fill_queue_ok ops : forall w,
  Forall (fun o => ok (key_status o) = true) ops ->
  FlushAsync_fill_queue env ops w = Done true (foldl (fun w o => enqueue o w) w ops).
Proof.
  induction ops as [|o ops IH]; intros w Hall; [done|].
  inv Hall. rewrite FlushAsync_fill_queue_cons.
  match goal with H : ok (key_status o) = true |- _ => rewrite H end.
  by rewrite IH.
Qed.

Lemma callback_inv_FlushAsync cb retry :
  follows keeps_callback_inv (FlushAsync env cb retry).
Proof.
  intros w Hinv.
  destruct (decide (state_ (bat w) = kGatheringOps)) as [Hst|Hst].
  - rewrite FlushAsync_eq by done.
    assert (Hc : follows keeps_callback_inv (FlushAsync_resolve env retry (bat w)))
      by (follows_tac callback_leaf).
    apply Hc. unfold callback_inv in *. rewrite !callbacks_upd. simpl.
    destruct (callbacks w) as [|x [|y l]]; [done| |done].
    by destruct Hinv.
  - by rewrite FlushAsync_wrong_state.
Qed.

(** *** The four ends of a flush *)

Lemma FlushAsync_key_failure cb retry w :
  state_ (bat w) = kGatheringOps -> pool w = O ->
  Exists (fun o => ok (key_status o) = false) (ops_ (bat w)) ->
  exists w' o,
    then_pool (FlushAsync env cb retry) w = Done tt w' /\
    o ∈ ops_ (bat w) /\ ok (key_status o) = false /\
    callbacks w' = callbacks w ++ [(cb, key_status o)] /\
    flush_callback_ (bat w') = None /\
    state_ (bat w') = kComplete /\
    sent_rpcs w' = sent_rpcs w /\ pool w' = O.
Proof.
  intros Hst Hpool Hex.
  set (w0 := upd (FlushAsync_started cb) w).
  set (w0' := (if bool_decide (is_Some (transaction_ (bat w))) && negb retry
               then add_effect (ExpectOperations (length (ops_ (bat w)))) else id)
                ((if session_alive env then add_effect SessionFlushStarted else id) w0)).
  destruct (FlushAsync_fill_queue_failure (ops_ (bat w)) w0' Hex)
    as (w1 & o & Hrun & Hin & Hko & Hce & Hs & Hst1 & Hec & Hp & Hc & Hr).
  assert (Heq : FlushAsync env cb retry w = FlushFinished env w1).
  { rewrite FlushAsync_eq by done. fold w0. unfold FlushAsync_resolve.
    unfold bind at 1.
    assert (H1 : when (session_alive env) (emit SessionFlushStarted) w0 =
                 Done tt ((if session_alive env then add_effect SessionFlushStarted else id) w0))
      by (by destruct (session_alive env)).
    rewrite H1. unfold bind at 1.
    match goal with |- context [when ?c ?k ?x] =>
      assert (H2 : when c k x = Done tt w0') by (unfold w0'; by destruct c) end.
    rewrite H2. unfold bind at 1. rewrite Hrun.
    unfold bind. destruct (FlushFinished env w1) as [[] ?|]; reflexivity. }
  assert (Hb0' : bat w0' = FlushAsync_started cb (bat w)).
  { unfold w0'. destruct (_ && _), (session_alive env); reflexivity. }
  assert (Hp0' : pool w0' = O).
  { unfold w0'. destruct (_ && _), (session_alive env); exact Hpool. }
  assert (Hc0' : callbacks w0' = callbacks w).
  { unfold w0'. destruct (_ && _), (session_alive env); simpl;
      rewrite ?callbacks_add_effect, ?app_nil_r; reflexivity. }
  assert (Hr0' : sent_rpcs w0' = sent_rpcs w).
  { unfold w0'. destruct (_ && _), (session_alive env); simpl;
      rewrite ?sent_rpcs_add_effect, ?app_nil_r; reflexivity. }
  clearbody w0'.
  destruct (FlushFinished_then_pool env w1 cb) as (w' & Hfin & Hcbs & Hrpcs & Hbat & Hp');
    [by rewrite Hs, Hb0'|by rewrite Hp|].
  exists w', o. split.
  { rewrite <- Hfin. by apply then_pool_eq. }
  split; [done|]. split; [done|].
  assert (Hagg : aggregated (bat w1) = key_status o).
  { unfold aggregated. by rewrite Hce, Hko. }
  rewrite Hcbs, Hrpcs, Hbat, Hagg, Hc, Hc0', Hr, Hr0'.
  split_and!; try done.
  simpl. unfold finished. rewrite Hst1, Hb0'. reflexivity.
Qed.

Lemma AllLookupsDone_no_op_left cb w :
  state_ (bat w) = kResolvingTablets -> flush_callback_ (bat w) = Some cb ->
  pool w = O -> surviving_ops env (ops_queue_ (bat w)) = [] ->
  exists w',
    then_pool (AllLookupsDone env) w = Done tt w' /\
    callbacks w' = callbacks w ++ [(cb, aggregated (bat (erased env w)))] /\
    flush_callback_ (bat w') = None /\
    state_ (bat w') = kComplete /\
    sent_rpcs w' = sent_rpcs w /\ pool w' = O.
Proof.
  intros Hst Hslot Hpool Hnil.
  assert (Hq : ops_queue_ (bat (erased env w)) = []) by (by rewrite bat_erased).
  destruct (FlushFinished_then_pool env (erased env w) cb)
    as (w' & Hfin & Hcbs & Hrpcs & Hbat & Hp'); [by rewrite bat_erased|done|].
  exists w'. split.
  { rewrite <- Hfin. apply then_pool_eq.
    by rewrite AllLookupsDone_erased, AllLookupsDone_dispatch_nil. }
  rewrite Hcbs, Hrpcs, Hbat, callbacks_erased, sent_rpcs_erased.
  split_and!; done.
Qed.

Lemma Abort_ends cb status w :
  flush_callback_ (bat w) = Some cb -> pool w = O ->
  exists w',
    then_pool (Abort env status) w = Done tt w' /\
    callbacks w' = callbacks w ++ [(cb, aggregated (aborted status (bat w)))] /\
    flush_callback_ (bat w') = None /\
    state_ (bat w') = kAborted /\
    sent_rpcs w' = sent_rpcs w /\ pool w' = O.
Proof.
  intros Hslot Hpool.
  destruct (FlushFinished_then_pool env (upd (aborted status) w) cb)
    as (w' & Hfin & Hcbs & Hrpcs & Hbat & Hp'); [done|done|].
  exists w'. split.
  { rewrite <- Hfin. apply then_pool_eq. by rewrite Abort_eq. }
  rewrite Hcbs, Hrpcs, Hbat. split_and!; done.
Qed.

Lemma combine_failed_ops queue : forall w,
  for_each queue (fun op => when (negb (ok (error op))) (CombineError env op)) w =
  Done tt (errors_combined env (failed_ops queue) w).
Proof.
  induction queue as [|op queue IH]; intros w.
  - by rewrite errors_combined_nil.
  - simpl. unfold bind. unfold failed_ops.
    destruct (ok (error op)) eqn:Hok; simpl.
    + rewrite filter_cons_False by (by rewrite Hok). apply IH.
    + rewrite filter_cons_True by done. rewrite CombineError_eq, IH.
      by rewrite <- (errors_combined_app env [op]).
Qed.

(** [Flushed] counts the RPC down, and the call that brings the count to
    zero feeds the failed ops to the error collector and finishes the
    flush. *)
Lemma Flushed_eq ops status urt pht w :
  Flushed env ops status urt pht w =
  let w1 := upd (set_outstanding_rpcs (decrement (outstanding_rpcs_ (bat w))))
              (flushed_noted env ops status urt pht w) in
  if decrement (outstanding_rpcs_ (bat w)) =? 0
  then FlushFinished env (errors_combined env (failed_ops (ops_queue_ (bat w))) w1)
  else Done tt w1.
Proof.
  unfold Flushed, flushed_noted. unfold bind at 1. unfold get. cbv zeta.
  unfold bind at 1.
  destruct (bool_decide (is_Some (transaction_ (bat w)))); simpl;
    [destruct (negb (negb (ok status) && ShouldSessionRetryError env status)); simpl|];
    unfold bind at 1; destruct (ok status && read_point_ (bat w)); simpl;
    unfold bind at 1; unfold modify at 1;
    destruct (decrement (outstanding_rpcs_ (bat w)) =? 0); try reflexivity;
    unfold bind at 1; unfold bind at 1; unfold get; rewrite combine_failed_ops;
    reflexivity.
Qed.

Lemma Flushed_last cb ops status urt pht w :
  flush_callback_ (bat w) = Some cb -> pool w = O -> outstanding_rpcs_ (bat w) = 1 ->
  exists w' s,
    then_pool (Flushed env ops status urt pht) w = Done tt w' /\
    callbacks w' = callbacks w ++ [(cb, s)] /\
    flush_callback_ (bat w') = None /\
    terminal (state_ (bat w')) = true /\
    sent_rpcs w' = sent_rpcs w /\ pool w' = O /\
    error_collector_ (bat w') =
      error_collector_ (bat w) ++ map collected (failed_ops (ops_queue_ (bat w))).
Proof.
  intros Hslot Hpool Hone.
  set (w1 := upd (set_outstanding_rpcs 0) (flushed_noted env ops status urt pht w)).
  assert (Hb1 : bat w1 = set_outstanding_rpcs 0 (bat w)).
  { unfold w1, flushed_noted. by destruct (_ && _), (_ && _). }
  assert (Hp1 : pool w1 = O).
  { unfold w1, flushed_noted. by destruct (_ && _), (_ && _). }
  assert (Hc1 : callbacks w1 = callbacks w).
  { unfold w1, flushed_noted. destruct (_ && _), (_ && _);
      rewrite callbacks_upd, ?callbacks_add_effect, ?app_nil_r; reflexivity. }
  assert (Hr1 : sent_rpcs w1 = sent_rpcs w).
  { unfold w1, flushed_noted. destruct (_ && _), (_ && _);
      rewrite sent_rpcs_upd, ?sent_rpcs_add_effect, ?app_nil_r; reflexivity. }
  assert (Heq : Flushed env ops status urt pht w =
                FlushFinished env (errors_combined env (failed_ops (ops_queue_ (bat w))) w1)).
  { rewrite Flushed_eq. cbv zeta. rewrite Hone. reflexivity. }
  clearbody w1.
  set (w2 := errors_combined env (failed_ops (ops_queue_ (bat w))) w1) in *.
  assert (Hb2 : bat w2 =
    set_combined_error
      (foldl (combine_status env) (combined_error_ (bat w))
             (failed_ops (ops_queue_ (bat w))))
      (set_error_collector
         (error_collector_ (bat w) ++ map collected (failed_ops (ops_queue_ (bat w))))
         (set_outstanding_rpcs 0 (bat w)))).
  { unfold w2. by rewrite bat_errors_combined, Hb1. }
  assert (Hc2 : callbacks w2 = callbacks w)
    by (unfold w2; by rewrite callbacks_errors_combined).
  assert (Hr2 : sent_rpcs w2 = sent_rpcs w)
    by (unfold w2; by rewrite sent_rpcs_errors_combined).
  assert (Hp2 : pool w2 = O) by exact Hp1.
  clearbody w2.
  destruct (FlushFinished_then_pool env w2 cb) as (w' & Hfin & Hcbs & Hrpcs & Hbat & Hp');
    [by rewrite Hb2|done|].
  exists w', (aggregated (bat w2)). split.
  { rewrite <- Hfin. by apply then_pool_eq. }
  rewrite Hcbs, Hrpcs, Hbat, Hc2, Hr2.
  split_and!; try done.
  - rewrite Hb2. simpl. unfold finished. simpl.
    case_bool_decide as Hab; simpl; [by rewrite Hab|done].
  - rewrite Hb2. simpl. unfold finished. simpl. by case_bool_decide.
Qed.

Lemma callback_inv_call c : follows keeps_callback_inv (call env c).
Proof.
  destruct c; simpl; try apply callback_inv_FlushAsync;
    follows_tac callback_leaf.
Qed.

Lemma callback_inv_calls l w :
  callback_inv w -> callback_inv (res_world (calls env l w)).
Proof.
  revert w. change (follows keeps_callback_inv (calls env l)).
  apply follows_for_each; [apply _|]. apply callback_inv_call.
Qed.

Lemma callback_inv_new transaction read_point force :
  callback_inv (World_new transaction read_point force).
Proof. intros _. reflexivity. Qed.

Lemma grows_call c : follows grows (call env c).
Proof. destruct c; simpl; follows_tac grows_leaf. Qed.

Lemma grows_calls l : follows grows (calls env l).
Proof. apply follows_for_each; [apply _|]. apply grows_call. Qed.

(** Once the callback was invoked, no call invokes anything again. *)
Lemma callback_stays l w x :
  callback_inv w -> callbacks w = [x] ->
  callbacks (res_world (calls env l w)) = [x] /\
  flush_callback_ (bat (res_world (calls env l w))) = None.
Proof.
  intros Hinv Hx.
  pose proof (callback_inv_calls l w Hinv) as Hinv'.
  pose proof (callbacks_grow _ _ (grows_calls l w)) as [k Hk].
  rewrite Hx in Hk. unfold callback_inv in Hinv'. rewrite Hk in *.
  destruct k as [|y k]; [|done]. destruct Hinv' as [? _]. done.
Qed.

End CallbackOnce.

(** ** A Batcher flushes once *)

#[global] Instance stays_flushing_preorder : PreOrder stays_flushing.
Proof. split; [intros w H; exact H|intros w1 w2 w3 H1 H2 H; auto]. Qed.

Lemma stays_flushing_upd g w :
  (state_ (g (bat w)) = kGatheringOps -> state_ (bat w) = kGatheringOps) ->
  stays_flushing w (upd g w).
Proof. intros H Hne Hg. apply Hne, H, Hg. Qed.

Lemma stays_flushing_same w w' : bat w' = bat w -> stays_flushing w w'.
Proof. intros Hb Hne. by rewrite Hb. Qed.

Lemma stays_flushing_Run : follows stays_flushing Run.
Proof.
  intros w. destruct (flush_callback_ (bat w)) as [cb|] eqn:Hslot.
  - rewrite (Run_Some w cb Hslot). simpl. intros H. exact H.
  - rewrite (Run_None w Hslot). intros H. exact H.
Qed.

Ltac stays_flushing_leaf :=
  first
    [ apply stays_flushing_Run
    | apply stays_flushing_same; reflexivity
    | apply stays_flushing_upd; simpl; try done; try (intros; done) ].

#[global] Instance keeps_callbacks_from_preorder S : PreOrder (keeps_callbacks_from S).
Proof. split; [intros w H; exact H|intros w1 w2 w3 H1 H2 H; auto]. Qed.

Lemma callbacks_from_upd S g w :
  flush_callback_ (g (bat w)) = flush_callback_ (bat w) ->
  keeps_callbacks_from S w (upd g w).
Proof.
  intros Hslot [H1 H2]. split; [|by rewrite callbacks_upd].
  intros cb. rewrite bat_upd, Hslot. apply H1.
Qed.

Lemma callbacks_from_add_effect S e w :
  (forall cb s, e <> InvokeCallback cb s) -> keeps_callbacks_from S w (add_effect e w).
Proof.
  intros He [H1 H2]. split; [exact H1|].
  rewrite callbacks_add_effect.
  destruct e as [| | | | | |cb0 s0| | | | | | | |]; try (by rewrite app_nil_r).
  by destruct (He cb0 s0).
Qed.

Lemma callbacks_from_Run S : follows (keeps_callbacks_from S) Run.
Proof.
  intros w Hinv. destruct (flush_callback_ (bat w)) as [cb|] eqn:Hslot.
  - destruct Hinv as [H1 H2]. rewrite (Run_Some w cb Hslot). simpl. split; [done|].
    rewrite callbacks_upd, callbacks_add_effect. apply Forall_app. split; [done|].
    constructor; [|constructor]. simpl. by apply H1.
  - by rewrite (Run_None w Hslot).
Qed.

Ltac callbacks_from_leaf :=
  first
    [ apply callbacks_from_Run
    | apply callbacks_from_upd; reflexivity
    | apply callbacks_from_add_effect; intros ? ?; discriminate
    | exact (fun H => H) ].

Lemma callbacks_from_mono S S' w : S ⊆ S' -> callbacks_from S w -> callbacks_from S' w.
Proof.
  intros Hsub [H1 H2]. split; [intros cb Hcb; by apply Hsub, H1|].
  eapply Forall_impl; [exact H2|]. intros x Hx. by apply Hsub.
Qed.

Section Once.

Variable env : Env.

Lemma stays_flushing_call c : follows stays_flushing (call env c).
Proof. destruct c; simpl; follows_tac stays_flushing_leaf. Qed.

Lemma stays_flushing_calls l : follows stays_flushing (calls env l).
Proof. apply follows_for_each; [apply _|]. apply stays_flushing_call. Qed.

Lemma FlushAsync_leaves_gathering cb retry w :
  state_ (bat (res_world (FlushAsync env cb retry w))) <> kGatheringOps.
Proof.
  destruct (decide (state_ (bat w) = kGatheringOps)) as [Hst|Hst].
  - rewrite FlushAsync_eq by done.
    assert (Hc : follows stays_flushing (FlushAsync_resolve env retry (bat w)))
      by (follows_tac stays_flushing_leaf).
    apply Hc. simpl. done.
  - by rewrite FlushAsync_wrong_state.
Qed.

Lemma callbacks_from_FlushAsync S cb retry w :
  callbacks_from S w ->
  callbacks_from (S ++ [cb]) (res_world (FlushAsync env cb retry w)).
Proof.
  intros Hinv. apply (callbacks_from_mono S (S ++ [cb])) in Hinv;
    [|intros x Hx; apply elem_of_app; by left].
  destruct (decide (state_ (bat w) = kGatheringOps)) as [Hst|Hst].
  - rewrite FlushAsync_eq by done.
    assert (Hc : follows (keeps_callbacks_from (S ++ [cb]))
                   (FlushAsync_resolve env retry (bat w)))
      by (follows_tac callbacks_from_leaf).
    apply Hc. destruct Hinv as [H1 H2]. split; [|by rewrite callbacks_upd].
    simpl. intros cb' [= <-]. apply elem_of_app. right. apply list_elem_of_here.
  - by rewrite FlushAsync_wrong_state.
Qed.

Lemma callbacks_from_other S c :
  (forall cb retry, c <> CallFlushAsync cb retry) ->
  follows (keeps_callbacks_from S) (call env c).
Proof.
  intros Hc. destruct c; simpl; try (by destruct (Hc callback is_within_transaction_retry));
    follows_tac callbacks_from_leaf.
Qed.

Lemma callbacks_from_call S c w :
  callbacks_from S w ->
  callbacks_from (S ++ supplied_callbacks [c]) (res_world (call env c w)).
Proof.
  intros Hinv.
  destruct c;
    try (simpl (supplied_callbacks _); rewrite app_nil_r;
         apply (callbacks_from_other S); [intros ? ?; discriminate|exact Hinv]).
  by apply callbacks_from_FlushAsync.
Qed.

Lemma callbacks_from_calls l : forall S w,
  callbacks_from S w ->
  callbacks_from (S ++ supplied_callbacks l) (res_world (calls env l w)).
Proof.
  induction l as [|c l IH]; intros S w Hinv.
  - simpl. by rewrite app_nil_r.
  - replace (supplied_callbacks (c :: l)) with
      (supplied_callbacks [c] ++ supplied_callbacks l) by (by destruct c).
    rewrite app_assoc.
    pose proof (callbacks_from_call S c w Hinv) as Hc.
    unfold calls. simpl. unfold bind.
    destruct (call env c w) as [[] w1|f w1] eqn:Hcall; simpl in *.
    + by apply IH.
    + eapply callbacks_from_mono; [|exact Hc]. intros x Hx. apply elem_of_app. by left.
Qed.

Lemma supplied_callbacks_spec l cb :
  cb ∈ supplied_callbacks l <-> exists retry, CallFlushAsync cb retry ∈ l.
Proof.
  unfold supplied_callbacks. rewrite list_elem_of_omap. split.
  - intros (c & Hin & Hc). destruct c; try discriminate. injection Hc as ->. eauto.
  - intros [retry Hin]. by exists (CallFlushAsync cb retry).
Qed.

(** Whatever is called on a new Batcher, in whatever order: a callback is
    invoked at most once, the callback that is invoked or still stored is
    one that was given to [FlushAsync], an invocation leaves the slot
    empty, and while a callback is stored none has been invoked. *)
Theorem callback_at_most_once (l : list Call)
    (transaction : option YBTransaction) (read_point force : bool) :
  let w' := res_world (calls env l (World_new transaction read_point force)) in
  (length (callbacks w') <= 1)%nat /\
  (forall cb s, (cb, s) ∈ callbacks w' -> exists retry, CallFlushAsync cb retry ∈ l) /\
  (callbacks w' <> [] -> flush_callback_ (bat w') = None) /\
  (forall cb, flush_callback_ (bat w') = Some cb ->
     callbacks w' = [] /\ exists retry, CallFlushAsync cb retry ∈ l).
Proof.
  intros w'.
  pose proof (callback_inv_calls env l _ (callback_inv_new transaction read_point force))
    as Hinv. fold w' in Hinv.
  assert (Hfrom : callbacks_from (supplied_callbacks l) w').
  { apply (callbacks_from_calls l []). split; [intros cb Hcb; discriminate Hcb|].
    constructor. }
  destruct Hfrom as [Hslot Hall]. unfold callback_inv in Hinv.
  split_and!.
  - destruct (callbacks w') as [|x [|y k]]; simpl; [lia|lia|done].
  - intros cb s Hin. rewrite Forall_forall in Hall.
    apply supplied_callbacks_spec. exact (Hall _ Hin).
  - destruct (callbacks w') as [|x [|y k]]; [done| |done]. intros _. by destruct Hinv.
  - intros cb Hcb. split; [|by apply supplied_callbacks_spec, Hslot].
    destruct (callbacks w') as [|x [|y k]]; [done| |done].
    destruct Hinv as [Hnone _]. congruence.
Qed.

(** A Batcher flushes once.  After a call of [FlushAsync], whether it
    returned or not, and whatever was called since, the Batcher is not in
    [kGatheringOps] any more: a further [FlushAsync] stops at its check of
    the state and changes nothing, and [Add] refuses the operation. *)
Theorem FlushAsync_only_once (cb cb' : Z) (retry retry' : bool) (l : list Call)
    (w : World) :
  let w1 := res_world (calls env l (res_world (FlushAsync env cb retry w))) in
  state_ (bat w1) <> kGatheringOps /\
  FlushAsync env cb' retry' w1 =
    Raise (CheckFailed "state_ == BatcherState::kGatheringOps") w1 /\
  (forall op, exists w2, Add op w1 = Done tt w2 /\ ops_ (bat w2) = ops_ (bat w1) /\
     callbacks w2 = callbacks w1 /\ sent_rpcs w2 = sent_rpcs w1).
Proof.
  intros w1.
  assert (Hst : state_ (bat w1) <> kGatheringOps).
  { apply (stays_flushing_calls l). apply FlushAsync_leaves_gathering. }
  split; [exact Hst|]. split; [by apply FlushAsync_wrong_state|].
  intros op. unfold Add. unfold bind, get. rewrite bool_decide_false by done. simpl.
  eexists. split; [reflexivity|]. rewrite callbacks_add_effect, sent_rpcs_add_effect.
  by rewrite !app_nil_r.
Qed.

End Once.

(** [Has] after [Add]: an operation that was accepted is found, the ones
    found before still are, and an operation that was refused changes
    nothing. *)
Theorem Has_after_Add (op o : YBOperation) (w : World) :
  Has (bat (res_world (Add op w))) o =
  if bool_decide (state_ (bat w) = kGatheringOps)
  then Has (bat w) o || (op_addr op =? op_addr o)
  else Has (bat w) o.
Proof.
  unfold Add, Has. unfold bind, get. case_bool_decide; simpl; [|done].
  rewrite existsb_app. simpl. by rewrite orb_false_r.
Qed.

(** ** The queue FlushAsync fills *)

#[global] Instance same_preorder {X} (f : World -> X) : PreOrder (same f).
Proof. split; [by intros w|]. intros w1 w2 w3 H1 H2. unfold same in *. congruence. Qed.

Lemma lookups_started_add_effect e w :
  lookups_started (add_effect e w) =
  lookups_started w ++ match e with LookupTabletByKey p k => [(p, k)] | _ => [] end.
Proof.
  unfold lookups_started, add_effect; simpl. rewrite omap_app. simpl.
  destruct e; simpl; reflexivity.
Qed.

Lemma lookups_started_Run : follows (same lookups_started) Run.
Proof.
  intros w. destruct (flush_callback_ (bat w)) as [cb|] eqn:Hslot.
  - rewrite (Run_Some w cb Hslot). unfold same. simpl.
    change (lookups_started (add_effect (InvokeCallback cb (combined_error_ (bat w))) w)
            = lookups_started w).
    by rewrite lookups_started_add_effect, app_nil_r.
  - by rewrite (Run_None w Hslot).
Qed.

Ltac lookups_leaf :=
  first
    [ apply lookups_started_Run
    | unfold same; rewrite lookups_started_add_effect; apply app_nil_r
    | reflexivity ].

Section Filling.

Variable env : Env.

Lemma queued_from_cons start o ops :
  queued_from start (o :: ops) = queued o start :: queued_from (S start) ops.
Proof.
  unfold queued_from. simpl. rewrite Nat.add_0_r. f_equal.
  apply imap_ext. intros i x _. simpl. f_equal. lia.
Qed.

Lemma queued_from_app start l1 l2 :
  queued_from start (l1 ++ l2) =
  queued_from start l1 ++ queued_from (start + length l1) l2.
Proof.
  unfold queued_from. rewrite imap_app. f_equal.
  apply imap_ext. intros i x _. simpl. f_equal. lia.
Qed.

Lemma enqueue_all ops : forall w,
  let w' := foldl (fun w o => enqueue o w) w ops in
  bat w' = set_ops_queue (ops_queue_ (bat w) ++
                          queued_from (length (ops_queue_ (bat w))) ops) (bat w) /\
  pool w' = pool w /\ callbacks w' = callbacks w /\ sent_rpcs w' = sent_rpcs w.
Proof.
  induction ops as [|o ops IH]; intros w; simpl.
  - split_and!; try done. unfold queued_from. simpl. rewrite app_nil_r.
    by destruct (bat w).
  - destruct (IH (enqueue o w)) as (Hb & Hp & Hc & Hr).
    rewrite Hb, Hp, Hc, Hr, bat_enqueue, pool_enqueue, callbacks_enqueue,
      sent_rpcs_enqueue. split_and!; try done.
    simpl. rewrite queued_from_cons, length_app, <- app_assoc. simpl.
    by rewrite Nat.add_1_r.
Qed.

Lemma FlushAsync_fill_queue_app pre ops : forall w,
  Forall (fun o => ok (key_status o) = true) pre ->
  FlushAsync_fill_queue env (pre ++ ops) w =
  FlushAsync_fill_queue env ops (foldl (fun w o => enqueue o w) w pre).
Proof.
  induction pre as [|o pre IH]; intros w Hall; [done|].
  inv Hall. simpl app. rewrite FlushAsync_fill_queue_cons.
  match goal with H : ok (key_status o) = true |- _ => rewrite H end.
  by rewrite IH.
Qed.

(** The first loop of [FlushAsync], when every partition key can be used,
    appends one in-flight record per pending op, in the order of the
    pending list: the record of an op holds the op and its partition key,
    no tablet and no error, and its sequence number is the position it
    takes in the queue.  Nothing is sent and no callback is invoked. *)
Theorem FlushAsync_fill_queue_numbers (ops : list YBOperation) (w : World) :
  Forall (fun o => ok (key_status o) = true) ops ->
  exists w',
    FlushAsync_fill_queue env ops w = Done true w' /\
    ops_queue_ (bat w') =
      ops_queue_ (bat w) ++ queued_from (length (ops_queue_ (bat w))) ops /\
    (forall i o, ops !! i = Some o ->
       exists op, ops_queue_ (bat w') !! (length (ops_queue_ (bat w)) + i)%nat = Some op /\
         yb_op op = o /\ partition_key op = snd (GetPartitionKey o) /\
         tablet op = None /\ error op = Status_OK /\
         sequence_number op = (length (ops_queue_ (bat w)) + i)%nat) /\
    callbacks w' = callbacks w /\ sent_rpcs w' = sent_rpcs w /\
    state_ (bat w') = state_ (bat w).
Proof.
  intros Hall. rewrite FlushAsync_fill_queue_ok by done.
  destruct (enqueue_all ops w) as (Hb & Hp & Hc & Hr).
  eexists. split; [reflexivity|]. rewrite Hb, Hc, Hr. split_and!; try done.
  intros i o Hi. exists (queued o (length (ops_queue_ (bat w)) + i)).
  split; [|done]. simpl.
  rewrite lookup_app_r by lia.
  replace (length (ops_queue_ (bat w)) + i - length (ops_queue_ (bat w)))%nat with i by lia.
  unfold queued_from. rewrite list_lookup_imap, Hi. reflexivity.
Qed.

Lemma lookups_started_FlushFinished :
  follows (same lookups_started) (then_pool (FlushFinished env)).
Proof. follows_tac lookups_leaf. Qed.

Lemma lookups_started_enqueue o w : lookups_started (enqueue o w) = lookups_started w.
Proof.
  unfold enqueue. destruct (_ && _); [|done].
  by rewrite lookups_started_add_effect, app_nil_r.
Qed.

Lemma lookups_started_enqueue_all ops : forall w,
  lookups_started (foldl (fun w o => enqueue o w) w ops) = lookups_started w.
Proof.
  induction ops as [|o ops IH]; intros w; [done|]. simpl.
  by rewrite IH, lookups_started_enqueue.
Qed.

(** [FlushAsync] stops at the first op whose partition key cannot be used:
    the ops up to that one are queued, the ops after it are not looked at,
    no lookup is started, no RPC is sent, nothing is added to the error
    collector, and the callback receives the status found for that op. *)
Theorem FlushAsync_first_key_failure (w : World) (cb : Z) (retry : bool)
    (pre post : list YBOperation) (o : YBOperation) :
  state_ (bat w) = kGatheringOps -> pool w = O ->
  ops_ (bat w) = pre ++ o :: post ->
  Forall (fun o => ok (key_status o) = true) pre ->
  ok (key_status o) = false ->
  exists w',
    then_pool (FlushAsync env cb retry) w = Done tt w' /\
    callbacks w' = callbacks w ++ [(cb, key_status o)] /\
    ops_queue_ (bat w') =
      ops_queue_ (bat w) ++ queued_from (length (ops_queue_ (bat w))) (pre ++ [o]) /\
    lookups_started w' = lookups_started w /\
    sent_rpcs w' = sent_rpcs w /\
    error_collector_ (bat w') = error_collector_ (bat w) /\
    state_ (bat w') = kComplete /\
    flush_callback_ (bat w') = None.
Proof.
  intros Hst Hpool Hops Hpre Hko.
  set (w0 := upd (FlushAsync_started cb) w).
  set (w0' := (if bool_decide (is_Some (transaction_ (bat w))) && negb retry
               then add_effect (ExpectOperations (length (ops_ (bat w)))) else id)
                ((if session_alive env then add_effect SessionFlushStarted else id) w0)).
  assert (Hb0' : bat w0' = FlushAsync_started cb (bat w)).
  { unfold w0'. destruct (_ && _), (session_alive env); reflexivity. }
  assert (Hp0' : pool w0' = O).
  { unfold w0'. destruct (_ && _), (session_alive env); exact Hpool. }
  assert (Hc0' : callbacks w0' = callbacks w).
  { unfold w0'. destruct (_ && _), (session_alive env); simpl;
      rewrite ?callbacks_add_effect, ?app_nil_r; reflexivity. }
  assert (Hr0' : sent_rpcs w0' = sent_rpcs w).
  { unfold w0'. destruct (_ && _), (session_alive env); simpl;
      rewrite ?sent_rpcs_add_effect, ?app_nil_r; reflexivity. }
  assert (He0' : lookups_started w0' = lookups_started w).
  { unfold w0'. destruct (_ && _), (session_alive env); simpl;
      rewrite ?lookups_started_add_effect, ?app_nil_r; reflexivity. }
  set (w1 := foldl (fun w o => enqueue o w) w0' pre).
  destruct (enqueue_all pre w0') as (Hb1 & Hp1 & Hc1 & Hr1). fold w1 in Hb1, Hp1, Hc1, Hr1.
  assert (He1 : lookups_started w1 = lookups_started w0')
    by apply lookups_started_enqueue_all.
  set (w2 := upd (set_combined_error (key_status o)) (enqueue o w1)).
  assert (Heq : FlushAsync env cb retry w = FlushFinished env w2).
  { rewrite FlushAsync_eq by done. fold w0. unfold FlushAsync_resolve.
    unfold bind at 1.
    assert (H1 : when (session_alive env) (emit SessionFlushStarted) w0 =
                 Done tt ((if session_alive env then add_effect SessionFlushStarted else id) w0))
      by (by destruct (session_alive env)).
    rewrite H1. unfold bind at 1.
    match goal with |- context [when ?c ?k ?x] =>
      assert (H2 : when c k x = Done tt w0') by (unfold w0'; by destruct c) end.
    rewrite H2. unfold bind at 1. rewrite Hops.
    rewrite FlushAsync_fill_queue_app by done. fold w1.
    rewrite FlushAsync_fill_queue_cons, Hko. fold w2.
    unfold bind. destruct (FlushFinished env w2) as [[] ?|]; reflexivity. }
  assert (Hb2 : bat w2 = set_combined_error (key_status o)
            (set_ops_queue (ops_queue_ (bat w) ++
               queued_from (length (ops_queue_ (bat w))) (pre ++ [o]))
               (FlushAsync_started cb (bat w)))).
  { unfold w2. rewrite bat_upd, bat_enqueue, Hb1, Hb0'. simpl.
    rewrite queued_from_app, length_app, app_assoc.
    replace (length (queued_from (length (ops_queue_ (bat w))) pre)) with (length pre)
      by (unfold queued_from; by rewrite length_imap).
    unfold queued_from at 4. simpl. by rewrite Nat.add_0_r. }
  assert (Hp2 : pool w2 = O) by (unfold w2; by rewrite pool_upd, pool_enqueue, Hp1).
  assert (Hc2 : callbacks w2 = callbacks w)
    by (unfold w2; by rewrite callbacks_upd, callbacks_enqueue, Hc1).
  assert (Hr2 : sent_rpcs w2 = sent_rpcs w)
    by (unfold w2; by rewrite sent_rpcs_upd, sent_rpcs_enqueue, Hr1).
  assert (He2 : lookups_started w2 = lookups_started w).
  { unfold w2. change (lookups_started (enqueue o w1) = lookups_started w).
    by rewrite lookups_started_enqueue, He1. }
  clearbody w2. clear w1 Hb1 Hp1 Hc1 Hr1 He1. clearbody w0'.
  destruct (FlushFinished_then_pool env w2 cb) as (w' & Hfin & Hcbs & Hrpcs & Hbat & Hp');
    [by rewrite Hb2|done|].
  pose proof (lookups_started_FlushFinished w2) as Hlook. rewrite Hfin in Hlook.
  unfold same in Hlook. simpl in Hlook.
  exists w'. split.
  { rewrite <- Hfin. by apply then_pool_eq. }
  assert (Hagg : aggregated (bat w2) = key_status o).
  { unfold aggregated. rewrite Hb2. simpl. by rewrite Hko. }
  rewrite Hcbs, Hrpcs, Hbat, Hagg, Hc2, Hr2, Hlook, He2, Hb2.
  split_and!; done.
Qed.

End Filling.

(** The theorem at two writes with usable keys. *)
Lemma FlushAsync_fill_queue_numbers_example :
  exists w',
    FlushAsync_fill_queue env0 [write_k; write_j] (World_new None false false)
      = Done true w' /\
    map sequence_number (ops_queue_ (bat w')) = [0; 1]%nat.
Proof.
  destruct (FlushAsync_fill_queue_numbers env0 [write_k; write_j]
              (World_new None false false))
    as (w' & Hrun & Hq & _).
  - repeat (constructor; [reflexivity|]). constructor.
  - exists w'. split; [exact Hrun|]. rewrite Hq. reflexivity.
Defined.

(** The theorem at a pending list whose third op has an empty key. *)
Lemma FlushAsync_first_key_failure_example :
  state_ (bat third_key_empty) = kGatheringOps /\
  exists w',
    then_pool (FlushAsync env0 7 false) third_key_empty = Done tt w' /\
    callbacks w' =
      [(7, STATUS Code.IllegalState kNone (HashPartitionKeyIsEmpty 6))] /\
    length (ops_queue_ (bat w')) = 3%nat /\
    lookups_started w' = [] /\ sent_rpcs w' = [].
Proof.
  split; [reflexivity|].
  destruct (FlushAsync_first_key_failure env0 third_key_empty 7 false
              [write_k; write_j] [read_k] (mkop 6 kWrite EmptyString None None)
              eq_refl eq_refl eq_refl)
    as (w' & Hrun & Hcbs & Hq & Hl & Hr & _).
  - repeat (constructor; [reflexivity|]). constructor.
  - reflexivity.
  - exists w'. split; [exact Hrun|]. split; [exact Hcbs|].
    split; [rewrite Hq; reflexivity|]. split; [exact Hl|exact Hr].
Defined.

(** ** The rendezvous of the lookups *)

Lemma for_each_one {A} (f : A -> M unit) (x : A) (w w1 : World) :
  for_each [x] f w = Done tt w1 -> f x w = Done tt w1.
Proof.
  simpl. unfold bind. destruct (f x w) as [[] w0|e w0]; [done|discriminate].
Defined.

Section Rendezvous.

Variable env : Env.

Lemma TabletLookupFinished_eq position r w :
  is_Some (ops_queue_ (bat w) !! position) ->
  TabletLookupFinished env position r w =
  let w1 := upd (fun b => set_outstanding_lookups (decrement (outstanding_lookups_ b))
                   (set_ops_queue (alter (record_lookup r) position (ops_queue_ b)) b)) w in
  if decrement (outstanding_lookups_ (bat w)) =? 0
  then AllLookupsDone env w1 else Done tt w1.
Proof.
  intros [op Hop]. unfold TabletLookupFinished. unfold bind at 1. unfold get.
  rewrite Hop. unfold bind at 1. unfold modify at 1.
  unfold bind at 1. unfold get. unfold bind at 1. unfold modify at 1.
  cbv zeta. simpl.
  destruct r; simpl; destruct (decrement (outstanding_lookups_ (bat w)) =? 0);
    reflexivity.
Qed.

Lemma TabletLookupFinished_out_of_range position r w :
  ops_queue_ (bat w) !! position = None ->
  TabletLookupFinished env position r w = Raise OutOfRange w.
Proof.
  intros Hop. unfold TabletLookupFinished. unfold bind at 1. unfold get.
  by rewrite Hop.
Qed.

Lemma length_lookups_recorded results : forall queue,
  length (lookups_recorded results queue) = length queue.
Proof.
  induction results as [|r results IH]; intros queue; [done|].
  change (lookups_recorded (r :: results) queue) with
    (lookups_recorded results (alter (record_lookup (snd r)) (fst r) queue)).
  by rewrite IH, length_alter.
Qed.

Lemma lookups_recorded_snoc results r queue :
  lookups_recorded (results ++ [r]) queue =
  alter (record_lookup (snd r)) (fst r) (lookups_recorded results queue).
Proof. unfold lookups_recorded. by rewrite foldl_app. Qed.

Lemma record_lookup_resolved r op :
  lookup_failed_properly r -> resolved (record_lookup (snd r) op).
Proof.
  unfold lookup_failed_properly, record_lookup, resolved.
  destruct (snd r) as [status|t]; simpl; [by right|]. intros _. left. by eexists.
Qed.

Lemma record_lookup_keeps_resolved r op :
  lookup_failed_properly r -> resolved op -> resolved (record_lookup (snd r) op).
Proof. intros H _. by apply record_lookup_resolved. Qed.

Lemma lookups_recorded_resolved results : forall queue i op,
  Forall lookup_failed_properly results ->
  i ∈ map fst results ->
  lookups_recorded results queue !! i = Some op -> resolved op.
Proof.
  induction results as [|r results IH] using rev_ind; intros queue i op Hall Hin Hop.
  - by apply elem_of_nil in Hin.
  - apply Forall_app in Hall as [Hall Hr]. inv Hr.
    rewrite lookups_recorded_snoc in Hop.
    destruct (decide (i = fst r)) as [->|Hne].
    + rewrite list_lookup_alter_eq in Hop.
      destruct (lookups_recorded results queue !! fst r) as [op0|]; [|done].
      simpl in Hop. injection Hop as <-. by apply record_lookup_resolved.
    + rewrite list_lookup_alter_ne in Hop by done.
      apply (IH queue i op); [done| |done].
      rewrite map_app in Hin. apply elem_of_app in Hin as [Hin|Hin]; [done|].
      apply list_elem_of_singleton in Hin. done.
Qed.

Lemma lookups_recorded_same_op results : forall queue i op',
  lookups_recorded results queue !! i = Some op' ->
  exists op, queue !! i = Some op /\ yb_op op' = yb_op op /\
    partition_key op' = partition_key op /\
    sequence_number op' = sequence_number op.
Proof.
  induction results as [|r results IH] using rev_ind; intros queue i op' Hop.
  - exists op'. done.
  - rewrite lookups_recorded_snoc in Hop.
    destruct (decide (i = fst r)) as [->|Hne].
    + rewrite list_lookup_alter_eq in Hop.
      destruct (lookups_recorded results queue !! fst r) as [op0|] eqn:H0; [|done].
      simpl in Hop. injection Hop as <-.
      destruct (IH queue (fst r) op0 H0) as (op & Hq & H1 & H2 & H3).
      exists op. unfold record_lookup. destruct (snd r); simpl; done.
    + rewrite list_lookup_alter_ne in Hop by done. by apply IH.
Qed.

(** The lookups that do not bring the count of outstanding lookups to zero
    only record their results. *)
Lemma lookups_counted_down results : forall w,
  Forall (fun r => (fst r < length (ops_queue_ (bat w)))%nat) results ->
  Z.of_nat (length results) < outstanding_lookups_ (bat w) < 2 ^ 64 ->
  exists w1,
    for_each results (fun r => TabletLookupFinished env (fst r) (snd r)) w = Done tt w1 /\
    effects w1 = effects w /\ pool w1 = pool w /\
    bat w1 = set_outstanding_lookups
               (outstanding_lookups_ (bat w) - Z.of_nat (length results))
               (set_ops_queue (lookups_recorded results (ops_queue_ (bat w))) (bat w)).
Proof.
  induction results as [|r results IH]; intros w Hpos Hcount.
  - exists w. split_and!; try done. simpl. rewrite Z.sub_0_r. by destruct (bat w).
  - inv Hpos. simpl length in Hcount. simpl for_each. unfold bind.
    rewrite TabletLookupFinished_eq by (by apply lookup_lt_is_Some).
    cbv zeta.
    assert (Hdec : decrement (outstanding_lookups_ (bat w)) =
                   outstanding_lookups_ (bat w) - 1).
    { unfold decrement. apply Z.mod_small. lia. }
    rewrite Hdec. destruct (Z.eqb_spec (outstanding_lookups_ (bat w) - 1) 0) as [?|_]; [lia|].
    match goal with |- context [for_each _ _ ?w0] => set (w1 := w0) end.
    destruct (IH w1) as (w2 & Hrun & He & Hp & Hb).
    { unfold w1. simpl. by rewrite length_alter. }
    { unfold w1. simpl. rewrite Hdec. lia. }
    exists w2. split; [exact Hrun|]. rewrite He, Hp, Hb. split_and!; try done.
    unfold w1. simpl. rewrite Hdec.
    replace (outstanding_lookups_ (bat w) - 1 - Z.of_nat (length results))
      with (outstanding_lookups_ (bat w) - Z.of_nat (S (length results))) by lia.
    by destruct (bat w).
Qed.

(** The rendezvous of the lookups.  When as many lookups are outstanding as
    there are ops in the queue and every op gets its result once, in any
    order, the calls of [TabletLookupFinished] before the last one only
    record their results: no effect, the state as it was, the count going
    down to 1.  The last call enters [AllLookupsDone] with the count at
    zero and every op resolved, each with its operation, key and sequence
    number as queued. *)
Theorem lookups_rendezvous (w : World)
    (results : list (nat * (Status + RemoteTablet)))
    (last : nat * (Status + RemoteTablet)) :
  outstanding_lookups_ (bat w) = Z.of_nat (length (ops_queue_ (bat w))) ->
  Z.of_nat (length (ops_queue_ (bat w))) < 2 ^ 64 ->
  map fst (results ++ [last]) ≡ₚ seq 0 (length (ops_queue_ (bat w))) ->
  Forall lookup_failed_properly (results ++ [last]) ->
  exists w1 w2,
    for_each results (fun r => TabletLookupFinished env (fst r) (snd r)) w = Done tt w1 /\
    effects w1 = effects w /\ pool w1 = pool w /\
    state_ (bat w1) = state_ (bat w) /\
    outstanding_lookups_ (bat w1) = 1 /\
    TabletLookupFinished env (fst last) (snd last) w1 = AllLookupsDone env w2 /\
    effects w2 = effects w /\ pool w2 = pool w /\
    bat w2 = set_outstanding_lookups 0
               (set_ops_queue (lookups_recorded (results ++ [last]) (ops_queue_ (bat w)))
                  (bat w)) /\
    Forall resolved (ops_queue_ (bat w2)) /\
    (forall i op', ops_queue_ (bat w2) !! i = Some op' ->
       exists op, ops_queue_ (bat w) !! i = Some op /\ yb_op op' = yb_op op /\
         partition_key op' = partition_key op /\
         sequence_number op' = sequence_number op).
Proof.
  intros Hcount Hbound Hperm Hall.
  set (n := length (ops_queue_ (bat w))) in *.
  assert (Hlen : length (results ++ [last]) = n).
  { rewrite <- (length_map fst), Hperm. apply length_seq. }
  rewrite length_app in Hlen. simpl in Hlen.
  assert (Hpos : Forall (fun r => (fst r < n)%nat) (results ++ [last])).
  { apply Forall_forall. intros r Hr.
    assert (Hin : fst r ∈ seq 0 n) by (rewrite <- Hperm; by apply list_elem_of_fmap_2).
    apply elem_of_seq in Hin. lia. }
  apply Forall_app in Hpos as [Hpos Hlast]. rewrite Forall_singleton in Hlast.
  destruct (lookups_counted_down results w Hpos) as (w1 & Hrun & He1 & Hp1 & Hb1); [lia|].
  set (q1 := lookups_recorded results (ops_queue_ (bat w))) in *.
  assert (Hc1 : outstanding_lookups_ (bat w1) = 1).
  { rewrite Hb1. change (outstanding_lookups_ (bat w) - Z.of_nat (length results) = 1). lia. }
  assert (Hq1 : ops_queue_ (bat w1) = q1) by (by rewrite Hb1).
  assert (Hlq1 : length q1 = n) by apply length_lookups_recorded.
  exists w1. eexists. split; [exact Hrun|]. split; [exact He1|]. split; [exact Hp1|].
  split; [by rewrite Hb1|]. split; [exact Hc1|].
  split.
  { rewrite TabletLookupFinished_eq by (apply lookup_lt_is_Some; rewrite Hq1; lia).
    cbv zeta. rewrite Hc1. reflexivity. }
  split; [exact He1|]. split; [exact Hp1|].
  assert (Hq2 : alter (record_lookup (snd last)) (fst last) (ops_queue_ (bat w1)) =
                lookups_recorded (results ++ [last]) (ops_queue_ (bat w))).
  { by rewrite lookups_recorded_snoc, Hq1. }
  split.
  { simpl. rewrite Hq2, Hc1, Hb1. simpl. by destruct (bat w). }
  simpl. rewrite Hq2. split.
  - apply Forall_lookup. intros i op Hop.
    apply (lookups_recorded_resolved (results ++ [last]) (ops_queue_ (bat w)) i op);
      [done| |done].
    rewrite Hperm. apply elem_of_seq.
    apply lookup_lt_Some in Hop. rewrite length_lookups_recorded in Hop. fold n in Hop. lia.
  - intros i op' Hop. by apply (lookups_recorded_same_op (results ++ [last])).
Qed.

End Rendezvous.

(** ** The rendezvous of the RPCs *)

Section RpcRendezvous.

Variable env : Env.

Lemma bat_flushed_noted ops status urt pht w :
  bat (flushed_noted env ops status urt pht w) = bat w.
Proof. unfold flushed_noted. by destruct (_ && _), (_ && _). Qed.

Lemma pool_flushed_noted ops status urt pht w :
  pool (flushed_noted env ops status urt pht w) = pool w.
Proof. unfold flushed_noted. by destruct (_ && _), (_ && _). Qed.

Lemma callbacks_flushed_noted ops status urt pht w :
  callbacks (flushed_noted env ops status urt pht w) = callbacks w.
Proof.
  unfold flushed_noted. destruct (_ && _), (_ && _);
    rewrite ?callbacks_add_effect, ?app_nil_r; reflexivity.
Qed.

Lemma sent_rpcs_flushed_noted ops status urt pht w :
  sent_rpcs (flushed_noted env ops status urt pht w) = sent_rpcs w.
Proof.
  unfold flushed_noted. destruct (_ && _), (_ && _);
    rewrite ?sent_rpcs_add_effect, ?app_nil_r; reflexivity.
Qed.

(** The reports that do not bring the count of outstanding RPCs to zero
    only count down. *)
Lemma flushes_counted_down reports : forall w,
  Z.of_nat (length reports) < outstanding_rpcs_ (bat w) < 2 ^ 64 ->
  exists w1,
    for_each reports (Flushed_report env) w = Done tt w1 /\
    pool w1 = pool w /\ callbacks w1 = callbacks w /\ sent_rpcs w1 = sent_rpcs w /\
    bat w1 = set_outstanding_rpcs
               (outstanding_rpcs_ (bat w) - Z.of_nat (length reports)) (bat w).
Proof.
  induction reports as [|r reports IH]; intros w Hcount.
  - exists w. split_and!; try done. simpl. rewrite Z.sub_0_r. by destruct (bat w).
  - simpl length in Hcount. simpl for_each. unfold bind.
    unfold Flushed_report at 1. rewrite Flushed_eq. cbv zeta.
    assert (Hdec : decrement (outstanding_rpcs_ (bat w)) = outstanding_rpcs_ (bat w) - 1).
    { unfold decrement. apply Z.mod_small. lia. }
    rewrite Hdec. destruct (Z.eqb_spec (outstanding_rpcs_ (bat w) - 1) 0) as [?|_]; [lia|].
    match goal with |- context [for_each _ _ ?w0] => set (w1 := w0) end.
    assert (Hb1 : bat w1 = set_outstanding_rpcs (outstanding_rpcs_ (bat w) - 1) (bat w)).
    { unfold w1. by rewrite bat_upd, bat_flushed_noted. }
    destruct (IH w1) as (w2 & Hrun & Hp & Hc & Hr & Hb).
    { rewrite Hb1. simpl. lia. }
    exists w2. split; [exact Hrun|]. rewrite Hp, Hc, Hr, Hb, Hb1.
    unfold w1. rewrite pool_upd, pool_flushed_noted, callbacks_upd,
      callbacks_flushed_noted, sent_rpcs_upd, sent_rpcs_flushed_noted.
    split_and!; try done. simpl.
    replace (outstanding_rpcs_ (bat w) - 1 - Z.of_nat (length reports))
      with (outstanding_rpcs_ (bat w) - Z.of_nat (S (length reports))) by lia.
    by destruct (bat w).
Qed.

(** The rendezvous of the RPCs.  When as many RPCs are outstanding as
    report to [Flushed], the reports before the last one only count down:
    no callback, the state, the error collector and the queue as they
    were.  The last report feeds the ops that carry an error to the error
    collector, one entry each in the order of the queue, and invokes the
    callback, once. *)
Theorem rpcs_rendezvous (w : World) (cb : Z) (reports : list FlushReport)
    (last : FlushReport) :
  flush_callback_ (bat w) = Some cb -> pool w = O ->
  outstanding_rpcs_ (bat w) = Z.of_nat (length (reports ++ [last])) ->
  Z.of_nat (length (reports ++ [last])) < 2 ^ 64 ->
  exists w1 w' s,
    for_each reports (Flushed_report env) w = Done tt w1 /\
    callbacks w1 = callbacks w /\
    bat w1 = set_outstanding_rpcs 1 (bat w) /\
    then_pool (Flushed_report env last) w1 = Done tt w' /\
    callbacks w' = callbacks w ++ [(cb, s)] /\
    flush_callback_ (bat w') = None /\
    terminal (state_ (bat w')) = true /\
    sent_rpcs w' = sent_rpcs w /\
    error_collector_ (bat w') =
      error_collector_ (bat w) ++ map collected (failed_ops (ops_queue_ (bat w))).
Proof.
  intros Hslot Hpool Hcount Hbound. rewrite length_app in Hcount, Hbound.
  simpl in Hcount, Hbound.
  destruct (flushes_counted_down reports w) as (w1 & Hrun & Hp1 & Hc1 & Hr1 & Hb1); [lia|].
  assert (Hb1' : bat w1 = set_outstanding_rpcs 1 (bat w)).
  { rewrite Hb1. f_equal. lia. }
  destruct (Flushed_last env cb (report_ops last) (report_status last)
              (report_used_read_time last) (report_propagated_hybrid_time last) w1)
    as (w' & s & Hlast & Hcbs & Hslot' & Hterm & Hrpcs & _ & Hcol).
  { by rewrite Hb1'. }
  { by rewrite Hp1. }
  { by rewrite Hb1'. }
  exists w1, w', s. split; [exact Hrun|]. split; [exact Hc1|]. split; [exact Hb1'|].
  split; [exact Hlast|]. rewrite Hcbs, Hrpcs, Hcol, Hc1, Hr1, Hb1'. done.
Qed.

End RpcRendezvous.

(** The theorem at two lookups that finish in the reverse order. *)
Lemma lookups_rendezvous_example :
  outstanding_lookups_ (bat two_lookups_pending) = 2 /\
  exists w1 w2,
    TabletLookupFinished env0 1 (inr tabB) two_lookups_pending = Done tt w1 /\
    effects w1 = [] /\
    TabletLookupFinished env0 0 (inr tabA) w1 = AllLookupsDone env0 w2 /\
    Forall resolved (ops_queue_ (bat w2)).
Proof.
  split; [reflexivity|].
  destruct (lookups_rendezvous env0 two_lookups_pending [(1%nat, inr tabB)]
              (0%nat, inr tabA) eq_refl)
    as (w1 & w2 & Hrun & He & _ & _ & _ & Hlast & _ & _ & _ & Hres & _).
  - simpl. lia.
  - simpl. apply Permutation_swap.
  - repeat constructor.
  - exists w1, w2. split.
    + exact (for_each_one _ _ _ _ Hrun).
    + split; [exact He|]. split; [exact Hlast|exact Hres].
Defined.

(** The theorem at two RPCs that report success. *)
Lemma rpcs_rendezvous_example :
  outstanding_rpcs_ (bat two_rpcs_pending) = 2 /\
  exists w1 w' s,
    Flushed env0 (0, 1)%nat Status_OK 0 0 two_rpcs_pending = Done tt w1 /\
    callbacks w1 = [] /\
    then_pool (Flushed env0 (1, 2)%nat Status_OK 0 0) w1 = Done tt w' /\
    callbacks w' = [(7, s)].
Proof.
  split; [reflexivity|].
  destruct (rpcs_rendezvous env0 two_rpcs_pending 7 [good_report (0, 1)%nat]
              (good_report (1, 2)%nat) eq_refl eq_refl eq_refl)
    as (w1 & w' & s & Hrun & Hc1 & _ & Hlast & Hcbs & _).
  - simpl. lia.
  - exists w1, w', s. split.
    + exact (for_each_one _ _ _ _ Hrun).
    + split; [exact Hc1|]. split; [exact Hlast|exact Hcbs].
Defined.

(** ** Errors of the ops *)

Section Errors.

Variable env : Env.

(** [CollectOpsErrors] checks every op against the partition of its tablet
    and returns, per partition key, the error of the first op of the queue
    that has one: a later error for the same key does not replace it
    ([std::map::emplace]).  An op of that key without an error of its own
    is then given exactly this first error. *)
Theorem CollectOpsErrors_first_error (w : World) (k : PartitionKey) :
  exists errors w',
    CollectOpsErrors env w = Done errors w' /\
    ops_queue_ (bat w') = checked_queue env (ops_queue_ (bat w)) /\
    errors !! k = error <$> first_failed k (ops_queue_ (bat w')) /\
    (forall e, errors !! k = Some e -> ok e = false) /\
    (forall op e, partition_key op = k -> ok (error op) = true ->
       errors !! k = Some e -> error (spread errors op) = e) /\
    (forall op, errors !! partition_key op = None -> spread errors op = op) /\
    callbacks w' = callbacks w /\ sent_rpcs w' = sent_rpcs w /\
    state_ (bat w') = state_ (bat w).
Proof.
  rewrite CollectOpsErrors_eq. eexists _, _. split; [reflexivity|].
  rewrite callbacks_logged, sent_rpcs_logged. simpl.
  split; [done|]. split.
  { rewrite lookup_errors_eq, first_errors_lookup, lookup_empty. reflexivity. }
  split.
  { intros e He. by destruct (lookup_errors_Some env _ _ _ He). }
  split.
  { intros op e <- Hok He. unfold spread. by rewrite Hok, He. }
  split; [|done].
  intros op Hnone. unfold spread. rewrite Hnone. by destruct (ok (error op)).
Qed.

Lemma combine_status_off c op :
  FLAGS_TEST_combine_batcher_errors env = false -> combine_status env c op = c.
Proof. intros H. unfold combine_status. by rewrite H. Qed.

Lemma foldl_combine_status_off c l :
  FLAGS_TEST_combine_batcher_errors env = false ->
  foldl (combine_status env) c l = c.
Proof.
  intros H. induction l as [|op l IH]; [done|]. simpl.
  by rewrite combine_status_off.
Qed.

Lemma foldl_combine_status_combined c l :
  IsCombined c = true -> foldl (combine_status env) c l = c.
Proof.
  intros Hc. induction l as [|op l IH]; [done|]. simpl.
  replace (combine_status env c op) with c; [exact IH|].
  unfold combine_status. destruct (FLAGS_TEST_combine_batcher_errors env); [|done].
  assert (ok c = false) as -> by (unfold ok, IsCombined in *; by destruct (code c)).
  by rewrite Hc.
Qed.

Lemma foldl_combine_status_on c l :
  FLAGS_TEST_combine_batcher_errors env = true ->
  ok c = false -> IsCombined c = false ->
  foldl (combine_status env) c l =
  if same_code (code c) l then c
  else STATUS Code.Combined kNone (Text "Multiple failures"%string).
Proof.
  intros Hflag Hok Hnc. induction l as [|op l IH]; [done|]. simpl.
  unfold combine_status at 2. rewrite Hflag, Hok, Hnc. simpl.
  case_bool_decide as Hcode; simpl.
  - rewrite bool_decide_true by done. simpl. exact IH.
  - rewrite bool_decide_false by (intros ?; by apply Hcode). simpl.
    by apply foldl_combine_status_combined.
Qed.

(** The aggregated status after [CombineError] was called for the failed
    ops [first :: rest], starting from an ok status.  Without the test
    flag it stays ok.  With [FLAGS_TEST_combine_batcher_errors] it is the
    error of the first op with the op prepended as long as every later
    error has the same code, and the [Combined] status "Multiple failures"
    as soon as one differs.  In both cases every op gets its entry in the
    error collector, in order. *)
Theorem CombineError_aggregates (w : World) (first : InFlightOp)
    (rest : list InFlightOp) :
  ok (combined_error_ (bat w)) = true ->
  ok (error first) = false -> IsCombined (error first) = false ->
  exists w',
    for_each (first :: rest) (CombineError env) w = Done tt w' /\
    error_collector_ (bat w') =
      error_collector_ (bat w) ++ map collected (first :: rest) /\
    combined_error_ (bat w') =
      (if FLAGS_TEST_combine_batcher_errors env then
         if same_code (code (error first)) rest
         then CloneAndPrepend (error first) (op_addr (yb_op first)) (sequence_number first)
         else STATUS Code.Combined kNone (Text "Multiple failures"%string)
       else combined_error_ (bat w)) /\
    callbacks w' = callbacks w /\ sent_rpcs w' = sent_rpcs w /\
    ops_queue_ (bat w') = ops_queue_ (bat w) /\ state_ (bat w') = state_ (bat w).
Proof.
  intros Hok Hfirst Hnc. rewrite CombineErrors_eq. eexists. split; [reflexivity|].
  rewrite callbacks_errors_combined, sent_rpcs_errors_combined, bat_errors_combined.
  simpl. split_and!; try done.
  destruct (FLAGS_TEST_combine_batcher_errors env) eqn:Hflag.
  - unfold combine_status at 2. rewrite Hflag, Hok.
    by rewrite foldl_combine_status_on.
  - rewrite combine_status_off by done. by apply foldl_combine_status_off.
Qed.

Lemma sequence_number_queued_from start ops :
  sequence_number <$> queued_from start ops = seq start (length ops).
Proof.
  revert start. induction ops as [|o ops IH]; intros start; [done|].
  rewrite queued_from_cons. simpl. by rewrite IH.
Qed.

Lemma sequence_number_lookups_recorded results : forall queue,
  sequence_number <$> lookups_recorded results queue = sequence_number <$> queue.
Proof.
  induction results as [|r results IH]; intros queue; [done|].
  change (lookups_recorded (r :: results) queue) with
    (lookups_recorded results (alter (record_lookup (snd r)) (fst r) queue)).
  rewrite IH. apply list_eq. intros i. rewrite !list_lookup_fmap.
  destruct (decide (i = fst r)) as [->|Hne].
  - rewrite list_lookup_alter_eq. destruct (queue !! fst r) as [op|]; [|done].
    simpl. unfold record_lookup. by destruct (snd r).
  - by rewrite list_lookup_alter_ne.
Qed.

Lemma sequence_number_checked queue :
  sequence_number <$> map (spread (lookup_errors env queue)) (checked_queue env queue) =
  sequence_number <$> queue.
Proof.
  unfold checked_queue. rewrite <- !list_fmap_compose. apply list_fmap_ext.
  intros i op _. simpl.
  by rewrite sequence_number_spread, sequence_number_check_partition.
Qed.

Lemma NoDup_fmap_filter {A B} (f : A -> B) (P : A -> Prop)
    `{forall x, Decision (P x)} (l : list A) :
  NoDup (f <$> l) -> NoDup (f <$> filter P l).
Proof.
  induction l as [|x l IH]; [done|]. rewrite fmap_cons. intros Hnd.
  apply NoDup_cons in Hnd as [Hx Hnd].
  destruct (decide (P x)).
  - rewrite filter_cons_True by done. rewrite fmap_cons. apply NoDup_cons.
    split; [|by apply IH]. intros Hin. apply Hx.
    apply list_elem_of_fmap in Hin as (y & -> & Hy).
    apply list_elem_of_fmap. exists y. split; [done|].
    by apply list_elem_of_filter in Hy as [_ ?].
  - rewrite filter_cons_False by done. by apply IH.
Qed.

(** The order in which the ops are dispatched does not depend on how
    [std::sort] works.  The sequence numbers [FlushAsync] gives are the
    positions in the queue; recording the lookups and removing the failed
    ops keeps them distinct; so the comparator of [AllLookupsDone] never
    finds two surviving ops equivalent, and the sorted queue is the only
    arrangement of the surviving ops that the comparator accepts. *)
Theorem dispatch_order_determined (ops : list YBOperation)
    (results : list (nat * (Status + RemoteTablet))) (l : list InFlightOp) :
  let queue := surviving_ops env (lookups_recorded results (queued_from 0 ops)) in
  NoDup (sequence_number <$> queue) /\
  (l ≡ₚ queue -> StronglySorted op_le l -> l = sort_ops queue).
Proof.
  intros queue.
  assert (Hnd : NoDup (sequence_number <$> queue)).
  { unfold queue, surviving_ops. apply NoDup_fmap_filter.
    rewrite sequence_number_checked, sequence_number_lookups_recorded,
      sequence_number_queued_from. apply NoDup_seq. }
  split; [exact Hnd|]. intros Hperm Hsorted. by apply sorted_unique.
Qed.

End Errors.

(** ** Aborts and failed RPCs *)

Section Failures.

Variable env : Env.

(** [Abort], and [TransactionReady] with a status that is not ok, record
    the status once for every op of the queue in the error collector, make
    it the aggregated status, set [kAborted], send no RPC and invoke the
    callback with that status. *)
Theorem Abort_records_status (w : World) (cb : Z) (status : Status) :
  flush_callback_ (bat w) = Some cb -> pool w = O -> ok status = false ->
  exists w',
    then_pool (Abort env status) w = Done tt w' /\
    then_pool (TransactionReady env status) w = Done tt w' /\
    error_collector_ (bat w') =
      error_collector_ (bat w) ++
      map (fun op => (op_addr (yb_op op), status)) (ops_queue_ (bat w)) /\
    combined_error_ (bat w') = status /\
    callbacks w' = callbacks w ++ [(cb, status)] /\
    state_ (bat w') = kAborted /\
    sent_rpcs w' = sent_rpcs w /\
    ops_queue_ (bat w') = ops_queue_ (bat w).
Proof.
  intros Hslot Hpool Hok.
  destruct (Abort_ends env cb status w Hslot Hpool)
    as (w' & Hrun & Hcbs & Hslot' & Hst & Hrpcs & Hp).
  destruct (FlushFinished_then_pool env (upd (aborted status) w) cb)
    as (w2 & Hfin & _ & _ & Hbat & _); [done|done|].
  assert (w2 = w') as ->.
  { assert (Heq : then_pool (Abort env status) w =
                  then_pool (FlushFinished env) (upd (aborted status) w))
      by (apply then_pool_eq; by rewrite Abort_eq).
    rewrite Heq, Hfin in Hrun. by injection Hrun. }
  exists w'. split; [exact Hrun|].
  split. { unfold TransactionReady. by rewrite Hok. }
  rewrite Hcbs, Hst, Hrpcs, Hbat, aggregated_aborted by done.
  split_and!; try done.
  simpl. unfold finished. simpl. by rewrite aggregated_aborted.
Qed.

Lemma rpc_failed_length b e s queue : length (rpc_failed b e s queue) = length queue.
Proof. unfold rpc_failed. by rewrite length_imap. Qed.

Lemma rpc_failed_lookup b e s queue i :
  rpc_failed b e s queue !! i =
  (fun op => if bool_decide (b <= i < e)%nat then set_error s op else op) <$> queue !! i.
Proof. unfold rpc_failed. by rewrite list_lookup_imap. Qed.

Lemma rpc_failed_empty b s queue : rpc_failed b b s queue = queue.
Proof.
  apply list_eq. intros i. rewrite rpc_failed_lookup.
  rewrite bool_decide_false by lia. by destruct (queue !! i).
Qed.

Lemma rpc_failed_step b e s queue :
  (b <= e < length queue)%nat ->
  alter (set_error s) e (rpc_failed b e s queue) = rpc_failed b (S e) s queue.
Proof.
  intros Hbe. apply list_eq. intros i. rewrite !rpc_failed_lookup.
  destruct (decide (i = e)) as [->|Hne].
  - rewrite list_lookup_alter_eq, rpc_failed_lookup.
    rewrite bool_decide_false by lia. rewrite bool_decide_true by lia.
    by destruct (queue !! e).
  - rewrite list_lookup_alter_ne by done. rewrite rpc_failed_lookup.
    destruct (queue !! i); [|done]. simpl.
    destruct (decide (b <= i < e)%nat).
    + by rewrite !bool_decide_true by lia.
    + by rewrite !bool_decide_false by lia.
Qed.

Lemma set_rpc_op_errors rpc s n : forall w,
  (fst (rpc_ops rpc) + n <= length (ops_queue_ (bat w)))%nat ->
  exists w',
    for_each (seq 0 n) (fun i => set_rpc_op_error rpc i s) w = Done tt w' /\
    effects w' = effects w /\ pool w' = pool w /\
    bat w' = set_ops_queue
               (rpc_failed (fst (rpc_ops rpc)) (fst (rpc_ops rpc) + n) s
                  (ops_queue_ (bat w))) (bat w).
Proof.
  induction n as [|n IH]; intros w Hle.
  - exists w. split_and!; try done. rewrite Nat.add_0_r, rpc_failed_empty.
    by destruct (bat w).
  - rewrite seq_S. simpl.
    destruct (IH w) as (w1 & Hrun & He & Hp & Hb); [lia|].
    assert (Hfe : forall l1 l2 (f : nat -> M unit) w0 w2,
              for_each l1 f w0 = Done tt w2 ->
              for_each (l1 ++ l2) f w0 = for_each l2 f w2).
    { clear. induction l1 as [|x l1 IH]; intros l2 f w0 w2 H.
      - simpl in H. by injection H as ->.
      - simpl in *. unfold bind in *. destruct (f x w0) as [[] w3|]; [|done].
        by apply IH. }
    rewrite (Hfe _ _ _ _ _ Hrun). simpl. unfold bind.
    rewrite set_rpc_op_error_Done by (rewrite Hb; simpl; rewrite rpc_failed_length; lia).
    eexists. split; [reflexivity|]. simpl. rewrite He, Hp, Hb. simpl.
    split_and!; try done.
    rewrite rpc_failed_step by lia.
    replace (fst (rpc_ops rpc) + S n)%nat with (S (fst (rpc_ops rpc) + n)) by lia.
    by destruct (bat w).
Qed.

Lemma ProcessRpcStatus_eq w rpc s :
  (fst (rpc_ops rpc) <= snd (rpc_ops rpc) <= length (ops_queue_ (bat w)))%nat ->
  exists w',
    ProcessRpcStatus rpc s w = Done tt w' /\
    pool w' = pool w /\ callbacks w' = callbacks w /\ sent_rpcs w' = sent_rpcs w /\
    bat w' =
      (if bool_decide (state_ (bat w) = kTransactionReady) && negb (ok s)
       then set_ops_queue
              (rpc_failed (fst (rpc_ops rpc)) (snd (rpc_ops rpc)) s (ops_queue_ (bat w)))
              (bat w)
       else bat w) /\
    (state_ (bat w) = kTransactionReady -> effects w' = effects w) /\
    (state_ (bat w) <> kTransactionReady ->
     effects w' = effects w ++ [LogDFatal "ProcessRpcStatus in wrong state"%string]).
Proof.
  intros Hle. unfold ProcessRpcStatus. unfold bind, get.
  case_bool_decide as Hst; simpl.
  - destruct (ok s) eqn:Hok; simpl.
    + exists w. split_and!; done.
    + unfold rpc_ops_size.
      destruct (set_rpc_op_errors rpc s (snd (rpc_ops rpc) - fst (rpc_ops rpc)) w)
        as (w' & Hrun & He & Hp & Hb); [lia|].
      exists w'. rewrite Hrun. unfold callbacks, sent_rpcs. rewrite He, Hp, Hb.
      replace (fst (rpc_ops rpc) + (snd (rpc_ops rpc) - fst (rpc_ops rpc)))%nat
        with (snd (rpc_ops rpc)) by lia.
      split_and!; done.
  - eexists. split; [reflexivity|].
    rewrite callbacks_add_effect, sent_rpcs_add_effect, !app_nil_r.
    split_and!; done.
Qed.

(** [ProcessRpcStatus].  In the state [kTransactionReady], a status that is
    not ok becomes the error of every op of the RPC and of no other op,
    and an ok status changes nothing; in any other state the call only
    logs.  Nothing is sent and no callback is invoked. *)
Theorem ProcessRpcStatus_marks_the_ops (w : World) (rpc : AsyncRpc) (s : Status) :
  (fst (rpc_ops rpc) <= snd (rpc_ops rpc) <= length (ops_queue_ (bat w)))%nat ->
  exists w',
    ProcessRpcStatus rpc s w = Done tt w' /\
    ProcessReadResponse rpc s w = Done tt w' /\
    pool w' = pool w /\ callbacks w' = callbacks w /\ sent_rpcs w' = sent_rpcs w /\
    length (ops_queue_ (bat w')) = length (ops_queue_ (bat w)) /\
    (forall i, ops_queue_ (bat w') !! i =
       (fun op => if bool_decide (state_ (bat w) = kTransactionReady) && negb (ok s) &&
                     bool_decide (fst (rpc_ops rpc) <= i < snd (rpc_ops rpc))%nat
                  then set_error s op else op) <$> ops_queue_ (bat w) !! i) /\
    (state_ (bat w) = kTransactionReady -> effects w' = effects w) /\
    (state_ (bat w) <> kTransactionReady ->
     bat w' = bat w /\
     effects w' = effects w ++ [LogDFatal "ProcessRpcStatus in wrong state"%string]).
Proof.
  intros Hle.
  destruct (ProcessRpcStatus_eq w rpc s Hle) as (w' & Hrun & Hp & Hc & Hr & Hb & He1 & He2).
  exists w'. split; [exact Hrun|]. split; [exact Hrun|].
  split; [exact Hp|]. split; [exact Hc|]. split; [exact Hr|].
  rewrite Hb. destruct (bool_decide (state_ (bat w) = kTransactionReady)) eqn:Hst;
    [destruct (ok s) eqn:Hok|]; simpl.
  - split; [done|]. split; [intros i; by destruct (ops_queue_ (bat w) !! i)|].
    split; [done|]. intros Hne. apply bool_decide_eq_true in Hst. done.
  - split; [apply rpc_failed_length|]. split; [intros i; apply rpc_failed_lookup|].
    split; [done|]. intros Hne. apply bool_decide_eq_true in Hst. done.
  - split; [done|]. split; [intros i; by destruct (ops_queue_ (bat w) !! i)|].
    split; [done|]. intros Hne. split; [done|by apply He2].
Qed.

Lemma Flushed_finishes cb ops status urt pht w :
  flush_callback_ (bat w) = Some cb -> pool w = O -> outstanding_rpcs_ (bat w) = 1 ->
  let b2 :=
    set_combined_error
      (foldl (combine_status env) (combined_error_ (bat w))
             (failed_ops (ops_queue_ (bat w))))
      (set_error_collector
         (error_collector_ (bat w) ++ map collected (failed_ops (ops_queue_ (bat w))))
         (set_outstanding_rpcs 0 (bat w))) in
  exists w',
    then_pool (Flushed env ops status urt pht) w = Done tt w' /\
    callbacks w' = callbacks w ++ [(cb, aggregated b2)] /\
    sent_rpcs w' = sent_rpcs w /\
    bat w' = set_flush_callback None (finished b2).
Proof.
  intros Hslot Hpool Hone b2.
  set (w1 := upd (set_outstanding_rpcs 0) (flushed_noted env ops status urt pht w)).
  set (w2 := errors_combined env (failed_ops (ops_queue_ (bat w))) w1).
  assert (Hb2 : bat w2 = b2).
  { unfold w2, w1. rewrite bat_errors_combined, bat_upd.
    unfold flushed_noted. by destruct (_ && _), (_ && _). }
  assert (Hp2 : pool w2 = O).
  { unfold w2, w1, flushed_noted. by destruct (_ && _), (_ && _). }
  assert (Hc2 : callbacks w2 = callbacks w).
  { unfold w2, w1, flushed_noted. rewrite callbacks_errors_combined, callbacks_upd.
    destruct (_ && _), (_ && _); rewrite ?callbacks_add_effect, ?app_nil_r; reflexivity. }
  assert (Hr2 : sent_rpcs w2 = sent_rpcs w).
  { unfold w2, w1, flushed_noted. rewrite sent_rpcs_errors_combined, sent_rpcs_upd.
    destruct (_ && _), (_ && _); rewrite ?sent_rpcs_add_effect, ?app_nil_r; reflexivity. }
  assert (Heq : Flushed env ops status urt pht w = FlushFinished env w2).
  { rewrite Flushed_eq. cbv zeta. rewrite Hone. reflexivity. }
  clearbody w2. clear w1.
  destruct (FlushFinished_then_pool env w2 cb) as (w' & Hfin & Hcbs & Hrpcs & Hbat & _);
    [by rewrite Hb2|done|].
  exists w'. split.
  { rewrite <- Hfin. by apply then_pool_eq. }
  by rewrite Hcbs, Hrpcs, Hbat, Hc2, Hr2, Hb2.
Qed.

(** An RPC that failed as a whole and is the last to report.  After its
    response was processed with a status that is not ok and [Flushed] was
    called for it, every op of the RPC is in the error collector with that
    status, together with the ops that had failed before, in the order of
    the queue, and the callback was invoked once. *)
Theorem failed_rpc_reaches_the_collector (w : World) (cb : Z) (rpc : AsyncRpc)
    (s : Status) (used_read_time propagated_hybrid_time : Z) :
  state_ (bat w) = kTransactionReady ->
  flush_callback_ (bat w) = Some cb -> pool w = O ->
  outstanding_rpcs_ (bat w) = 1 ->
  (fst (rpc_ops rpc) <= snd (rpc_ops rpc) <= length (ops_queue_ (bat w)))%nat ->
  ok s = false ->
  exists w' st,
    then_pool (ProcessReadResponse rpc s >>
               Flushed env (rpc_ops rpc) s used_read_time propagated_hybrid_time) w
      = Done tt w' /\
    callbacks w' = callbacks w ++ [(cb, st)] /\
    state_ (bat w') = kComplete /\
    error_collector_ (bat w') =
      error_collector_ (bat w) ++
      map collected
        (failed_ops (rpc_failed (fst (rpc_ops rpc)) (snd (rpc_ops rpc)) s
                       (ops_queue_ (bat w)))) /\
    (forall i op, (fst (rpc_ops rpc) <= i < snd (rpc_ops rpc))%nat ->
       ops_queue_ (bat w) !! i = Some op ->
       (op_addr (yb_op op), s) ∈ error_collector_ (bat w')) /\
    (FLAGS_TEST_combine_batcher_errors env = false ->
     ok (combined_error_ (bat w)) = true ->
     fst (rpc_ops rpc) <> snd (rpc_ops rpc) -> st = kGeneralErrorStatus).
Proof.
  intros Hst Hslot Hpool Hone Hle Hok.
  destruct (ProcessRpcStatus_eq w rpc s Hle)
    as (w1 & Hrun1 & Hp1 & Hc1 & Hr1 & Hb1 & _).
  rewrite bool_decide_true in Hb1 by done. rewrite Hok in Hb1. simpl in Hb1.
  set (q1 := rpc_failed (fst (rpc_ops rpc)) (snd (rpc_ops rpc)) s (ops_queue_ (bat w))) in *.
  destruct (Flushed_finishes cb (rpc_ops rpc) s used_read_time propagated_hybrid_time w1)
    as (w' & Hlast & Hcbs & Hrpcs & Hbat).
  { by rewrite Hb1. } { by rewrite Hp1. } { by rewrite Hb1. }
  rewrite Hb1 in Hcbs, Hbat. simpl in Hcbs, Hbat.
  eexists w', _.
  split.
  { unfold then_pool in *. unfold bind at 1. unfold bind at 1.
    unfold ProcessReadResponse. rewrite Hrun1. exact Hlast. }
  split; [rewrite Hcbs, Hc1; reflexivity|].
  split.
  { rewrite Hbat. simpl. unfold finished. simpl. by rewrite Hst. }
  assert (Hcol' : error_collector_ (bat w') =
                  error_collector_ (bat w) ++ map collected (failed_ops q1)).
  { rewrite Hbat. simpl. unfold finished. simpl. by rewrite Hst. }
  split; [exact Hcol'|].
  split.
  { intros i op Hi Hop. rewrite Hcol'. apply elem_of_app. right.
    apply list_elem_of_fmap. exists (set_error s op). split; [done|].
    unfold failed_ops. apply list_elem_of_filter. split; [exact Hok|].
    apply list_elem_of_lookup. exists i. unfold q1.
    rewrite rpc_failed_lookup, Hop. simpl. by rewrite bool_decide_true. }
  intros Hflag Hokc Hne. unfold aggregated. simpl.
  rewrite foldl_combine_status_off by done. rewrite Hokc. simpl.
  destruct (lookup_lt_is_Some_2 (ops_queue_ (bat w)) (fst (rpc_ops rpc))) as [op Hop]; [lia|].
  assert (Hin : set_error s op ∈ failed_ops q1).
  { unfold failed_ops. apply list_elem_of_filter. split; [exact Hok|].
    apply list_elem_of_lookup. exists (fst (rpc_ops rpc)). unfold q1.
    rewrite rpc_failed_lookup, Hop. simpl. rewrite bool_decide_true by lia. done. }
  destruct (failed_ops q1) as [|x l]; [by apply elem_of_nil in Hin|].
  rewrite length_app. simpl.
  replace (length (error_collector_ (bat w)) + S (length (map collected l)) =? 0)%nat
    with false; [done|].
  symmetry. apply Nat.eqb_neq. lia.
Qed.

End Failures.

(** The theorem at two failed ops whose errors have different codes, with
    the test flag set. *)
Lemma CombineError_aggregates_example :
  exists w',
    for_each [set_error not_found (in_flight read_k None 0);
              set_error timed_out (in_flight write_k None 1)]
      (CombineError env_combine) (World_new None false false) = Done tt w' /\
    combined_error_ (bat w') =
      STATUS Code.Combined kNone (Text "Multiple failures"%string) /\
    length (error_collector_ (bat w')) = 2%nat.
Proof.
  destruct (CombineError_aggregates env_combine (World_new None false false)
              (set_error not_found (in_flight read_k None 0))
              [set_error timed_out (in_flight write_k None 1)]
              eq_refl eq_refl eq_refl)
    as (w' & Hrun & Hcol & Hce & _).
  exists w'. split; [exact Hrun|]. split; [exact Hce|]. rewrite Hcol. reflexivity.
Defined.

(** The theorem at a flush of two ops that is aborted. *)
Lemma Abort_records_status_example :
  flush_callback_ (bat sent_world) = Some 7 /\
  exists w',
    then_pool (Abort env0 aborting) sent_world = Done tt w' /\
    error_collector_ (bat w') = [(2, aborting); (3, aborting)] /\
    callbacks w' = [(7, aborting)].
Proof.
  split; [reflexivity|].
  destruct (Abort_records_status env0 sent_world 7 aborting eq_refl eq_refl eq_refl)
    as (w' & Hrun & _ & Hcol & _ & Hcbs & _).
  exists w'. split; [exact Hrun|]. split; [exact Hcol|exact Hcbs].
Defined.

(** The theorem at an RPC over the two ops of the queue that timed out. *)
Lemma ProcessRpcStatus_marks_the_ops_example :
  exists w',
    ProcessRpcStatus whole_rpc timed_out sent_world = Done tt w' /\
    error <$> ops_queue_ (bat w') = [timed_out; timed_out].
Proof.
  destruct (ProcessRpcStatus_marks_the_ops sent_world whole_rpc timed_out)
    as (w' & Hrun & _ & _ & _ & _ & Hlen & Hq & _).
  - simpl. lia.
  - exists w'. split; [exact Hrun|].
    apply list_eq. intros i. rewrite list_lookup_fmap, Hq.
    destruct i as [|[|i]]; reflexivity.
Defined.

(** The theorem at the only outstanding RPC, which timed out. *)
Lemma failed_rpc_reaches_the_collector_example :
  outstanding_rpcs_ (bat one_rpc_pending) = 1 /\
  exists w',
    then_pool (ProcessReadResponse whole_rpc timed_out >>
               Flushed env0 (0, 2)%nat timed_out 0 0) one_rpc_pending = Done tt w' /\
    callbacks w' = [(7, kGeneralErrorStatus)] /\
    error_collector_ (bat w') = [(2, timed_out); (3, timed_out)].
Proof.
  split; [reflexivity|].
  destruct (failed_rpc_reaches_the_collector env0 one_rpc_pending 7 whole_rpc timed_out
              0 0 eq_refl eq_refl eq_refl eq_refl)
    as (w' & st & Hrun & Hcbs & _ & Hcol & _ & Hst).
  - simpl. lia.
  - reflexivity.
  - exists w'. split; [exact Hrun|]. split.
    + rewrite Hcbs. rewrite (Hst eq_refl eq_refl); [reflexivity|]. simpl. lia.
    + rewrite Hcol. reflexivity.
Defined.

(** ** One RPC per tablet and kind *)

Section OneRpc.

Variable env : Env.

Lemma grouping_boundaries rest : forall prefix it gs cg ct groups s,
  it = length prefix -> (gs <= it)%nat ->
  uniform (prefix ++ rest) gs it ct cg ->
  ((gs < it)%nat \/
   exists op rest', rest = op :: rest' /\ tablet_get op = ct /\ group (yb_op op) = cg) ->
  grouping rest it gs cg ct = (groups, Grouped s) ->
  Forall (fun g => boundary (prefix ++ rest) (group_end g)) groups.
Proof.
  induction rest as [|op rest IH]; intros prefix it gs cg ct groups s Hit Hgs Hu Hne Hgr.
  - simpl in Hgr. injection Hgr as <- <-. constructor.
  - simpl in Hgr.
    assert (Hq : (prefix ++ [op]) ++ rest = prefix ++ op :: rest)
      by (by rewrite <- app_assoc).
    assert (Hit' : S it = length (prefix ++ [op]))
      by (rewrite length_app; simpl; lia).
    assert (Hlk : (prefix ++ op :: rest) !! it = Some op).
    { subst it. by rewrite list_lookup_middle. }
    assert (Hc :
      (if negb (ct =? tablet_get op) || negb (bool_decide (cg = group (yb_op op)))
       then
         let '(groups, e) := grouping rest (S it) it (group (yb_op op)) (tablet_get op) in
         (InFlightOpsGroup_new gs it :: groups, e)
       else grouping rest (S it) gs cg ct) = (groups, Grouped s) ->
      Forall (fun g => boundary (prefix ++ op :: rest) (group_end g)) groups).
    { clear Hgr. intros Hgr.
      destruct (negb (ct =? tablet_get op) || negb (bool_decide (cg = group (yb_op op))))
        eqn:Hb.
      - assert (Hlt : (gs < it)%nat).
        { destruct Hne as [?|(op' & rest' & Heq & Ht & Hg)]; [done|].
          simplify_eq. rewrite Z.eqb_refl, bool_decide_true in Hb by done. done. }
        destruct (grouping rest (S it) it (group (yb_op op)) (tablet_get op))
          as [groups' e] eqn:Hgr'.
        injection Hgr as <- ->.
        assert (Hu' : uniform ((prefix ++ [op]) ++ rest) it (S it)
                        (tablet_get op) (group (yb_op op))).
        { rewrite Hq. intros i op' Hi Hop'. assert (i = it) as -> by lia. by simplify_eq. }
        pose proof (IH (prefix ++ [op]) (S it) it (group (yb_op op)) (tablet_get op)
                      groups' s Hit' ltac:(lia) Hu' ltac:(left; lia) Hgr') as Hall.
        rewrite Hq in Hall. constructor; [|exact Hall]. simpl.
        destruct (lookup_lt_is_Some_2 (prefix ++ op :: rest) (it - 1)) as [a Ha].
        { rewrite length_app. simpl. lia. }
        exists a, op. split; [lia|]. split; [exact Ha|]. split; [exact Hlk|].
        destruct (Hu (it - 1)%nat a ltac:(lia) Ha) as [Hta Hga].
        rewrite Hta, Hga.
        apply orb_true_iff in Hb as [Hb|Hb].
        + left. apply negb_true_iff, Z.eqb_neq in Hb. done.
        + right. apply negb_true_iff, bool_decide_eq_false in Hb. done.
      - apply orb_false_iff in Hb as [Hb1 Hb2].
        apply negb_false_iff, Z.eqb_eq in Hb1.
        apply negb_false_iff, bool_decide_eq_true in Hb2.
        assert (Hu' : uniform ((prefix ++ [op]) ++ rest) gs (S it) ct cg).
        { rewrite Hq. apply uniform_snoc with op; done. }
        pose proof (IH (prefix ++ [op]) (S it) gs cg ct groups s
                      Hit' ltac:(lia) Hu' ltac:(left; lia) Hgr) as Hall.
        by rewrite Hq in Hall. }
    destruct (partition_list_version (yb_op op)) as [requested|]; [|by apply Hc].
    destruct (tablet op) as [t|]; [|discriminate Hgr].
    destruct (negb (requested =? tablet_partition_list_version t)); [discriminate Hgr|].
    by apply Hc.
Qed.

Lemma rpc_ops_rpcs_of q a n groups :
  Forall (group_ok q) groups ->
  rpc_ops <$> rpcs_of q a n groups = (fun g => (group_begin g, group_end g)) <$> groups.
Proof.
  induction 1 as [|g groups [_ [first Hfirst]] _ IH]; [done|].
  cbn [rpcs_of]. rewrite Hfirst, fmap_app, IH. reflexivity.
Qed.

Lemma ranges_prepared b :
  (fun g => (group_begin g, group_end g)) <$> ops_info_groups (prepared b) =
  (fun g => (group_begin g, group_end g)) <$> ops_info_groups b.
Proof.
  unfold prepared. destruct (transaction_ b) as [txn|]; [|done].
  unfold prepare_groups. simpl. rewrite <- list_fmap_compose.
  by apply list_fmap_ext.
Qed.

Lemma chained_lookup groups : forall start stop j g,
  chained start groups stop -> groups !! j = Some g ->
  (start <= group_begin g < group_end g)%nat /\ (group_end g <= stop)%nat /\
  (forall g', groups !! S j = Some g' -> group_begin g' = group_end g) /\
  (forall j' g', (j < j')%nat -> groups !! j' = Some g' ->
     (group_end g <= group_begin g')%nat).
Proof.
  induction groups as [|g0 groups IH]; intros start stop j g Hch Hj; [done|].
  simpl in Hch. destruct Hch as (Hb & Hlt & Hch).
  destruct (chained_bounds _ _ _ Hch) as [Hle Hall].
  destruct j as [|j]; simpl in Hj.
  - injection Hj as <-. split; [lia|]. split; [lia|]. split.
    + intros g' Hg'. simpl in Hg'. destruct groups as [|g1 groups]; [done|].
      simpl in Hg'. injection Hg' as <-. simpl in Hch. by destruct Hch.
    + intros j' g' Hjj' Hg'. destruct j' as [|j']; [lia|]. simpl in Hg'.
      rewrite Forall_forall in Hall.
      destruct (Hall g' (list_elem_of_lookup_2 _ _ _ Hg')) as [? _]. lia.
  - destruct (IH _ _ _ _ Hch Hj) as (H1 & H2 & H3 & H4).
    split; [lia|]. split; [lia|]. split; [exact H3|].
    intros j' g' Hjj' Hg'. destruct j' as [|j']; [lia|]. simpl in Hg'.
    apply (H4 j' g'); [lia|done].
Qed.

Lemma chained_covers groups : forall start stop i,
  chained start groups stop -> (start <= i < stop)%nat ->
  exists j g, groups !! j = Some g /\ (group_begin g <= i < group_end g)%nat.
Proof.
  induction groups as [|g0 groups IH]; intros start stop i Hch Hi.
  - simpl in Hch. lia.
  - simpl in Hch. destruct Hch as (Hb & Hlt & Hch).
    destruct (decide (i < group_end g0)%nat) as [Hin|Hout].
    + exists 0%nat, g0. split; [done|]. lia.
    + destruct (IH _ _ i Hch ltac:(lia)) as (j & g & Hj & Hr).
      exists (S j), g. by split.
Qed.

Lemma rpcs_of_lookup q a n groups : forall j rpc,
  Forall (group_ok q) groups ->
  rpcs_of q a n groups !! j = Some rpc ->
  exists g first,
    groups !! j = Some g /\ q !! group_begin g = Some first /\
    rpc = rpc_of first g (a && bool_decide (S j = length groups)) n.
Proof.
  induction groups as [|g groups IH]; intros j rpc Hok Hj; [done|].
  apply Forall_cons in Hok as [[_ [first Hfirst]] Hok].
  cbn [rpcs_of] in Hj. rewrite Hfirst in Hj. destruct j as [|j]; simpl in Hj.
  - injection Hj as <-. exists g, first. split; [done|]. split; [done|].
    f_equal. f_equal. destruct groups; [done|].
    symmetry. apply bool_decide_eq_false. simpl. lia.
  - destruct (IH j rpc Hok Hj) as (g' & first' & Hg' & Hf' & ->).
    exists g', first'. split; [done|]. split; [done|].
    f_equal. f_equal. simpl. apply bool_decide_ext. lia.
Qed.

Lemma prepared_lookup b j g' :
  ops_info_groups (prepared b) !! j = Some g' ->
  exists g, ops_info_groups b !! j = Some g /\
    group_begin g' = group_begin g /\ group_end g' = group_end g.
Proof.
  unfold prepared. destruct (transaction_ b) as [txn|]; [|by eauto].
  unfold prepare_groups. simpl. rewrite list_lookup_fmap.
  destruct (ops_info_groups b !! j) as [g|]; [|done]. simpl.
  intros [= <-]. by exists g.
Qed.

(** What [AllLookupsDone] dispatches, group by group. *)
Lemma AllLookupsDone_groups (w : World) :
  state_ (bat w) = kResolvingTablets ->
  ops_info_groups (bat w) = [] ->
  surviving_ops env (ops_queue_ (bat w)) <> [] ->
  Forall resolved (ops_queue_ (bat w)) ->
  Forall (fun op => version_mismatch op = false) (surviving_ops env (ops_queue_ (bat w))) ->
  (forall transaction, transaction_ (bat w) = Some transaction ->
     Prepare_ready transaction true = true) ->
  exists w' groups rpcs,
    AllLookupsDone env w = Done tt w' /\
    ops_queue_ (bat w') = sort_ops (surviving_ops env (ops_queue_ (bat w))) /\
    sent_rpcs w' = sent_rpcs w ++ rpcs /\
    outstanding_rpcs_ (bat w') = Z.of_nat (length rpcs) /\
    length rpcs = length groups /\
    chained 0 groups (length (ops_queue_ (bat w'))) /\
    Forall (fun g => exists t k,
              uniform (ops_queue_ (bat w')) (group_begin g) (group_end g) t k) groups /\
    (forall j g, groups !! j = Some g -> is_Some (groups !! S j) ->
       boundary (ops_queue_ (bat w')) (group_end g)) /\
    (forall j rpc, rpcs !! j = Some rpc ->
       exists g first,
         groups !! j = Some g /\
         ops_queue_ (bat w') !! group_begin g = Some first /\
         rpc_ops rpc = (group_begin g, group_end g) /\
         rpc_tablet rpc = tablet_get first /\
         rpc_kind rpc = rpc_kind_of (group (yb_op first)) /\
         allow_local_calls_in_curr_thread rpc =
           allow_local_calls_in_curr_thread_ (bat w) && bool_decide (S j = length rpcs)).
Proof.
  intros Hst Hg0 Hne Hres Hver Hready.
  set (q := surviving_ops env (ops_queue_ (bat w))) in *.
  assert (Hne3 : ops_queue_ (bat (erased env w)) <> []) by (by rewrite bat_erased).
  destruct (AllLookupsDone_dispatch_cons env _ Hne3) as (first & rest & Hsort & Hrun).
  rewrite bat_erased in Hsort. simpl in Hsort. fold q in Hsort.
  assert (Hmatch : Forall version_matches (first :: rest)).
  { rewrite <- Hsort, sort_ops_Permutation. by apply version_matches_surviving. }
  destruct (grouping_grouped (first :: rest) [] 0%nat 0%nat (group (yb_op first))
              (tablet_get first) eq_refl (le_n _))
    as (groups & s & Hgr & Hch & Hun); [intros i op; lia|right; by eexists _, _|done|].
  pose proof (grouping_boundaries (first :: rest) [] 0%nat 0%nat (group (yb_op first))
                (tablet_get first) groups s eq_refl (le_n _)
                ltac:(intros i op; lia) ltac:(right; by eexists _, _) Hgr) as Hbd.
  simpl app in Hch, Hun, Hbd. rewrite Hgr in Hrun. cbv beta iota zeta in Hrun.
  set (last := InFlightOpsGroup_new s (length (first :: rest))) in *.
  remember (upd (push_group last) (upd (push_groups groups) (sorted (erased env w))))
    as w6 eqn:Hw6.
  assert (Hb6q : ops_queue_ (bat w6) = first :: rest).
  { rewrite Hw6. unfold sorted. simpl. fold q. exact Hsort. }
  assert (Hb6g : ops_info_groups (bat w6) = groups ++ [last]).
  { rewrite Hw6. unfold sorted. simpl. by rewrite Hg0. }
  assert (Hb6s : state_ (bat w6) = kTransactionPrepare) by (by rewrite Hw6).
  assert (Hb6t : transaction_ (bat w6) = transaction_ (bat w)) by (by rewrite Hw6).
  assert (Hb6a : allow_local_calls_in_curr_thread_ (bat w6) =
                 allow_local_calls_in_curr_thread_ (bat w)) by (by rewrite Hw6).
  assert (Hr6 : sent_rpcs w6 = sent_rpcs w).
  { rewrite Hw6. unfold sorted. by rewrite !sent_rpcs_upd, sent_rpcs_erased. }
  clear Hw6.
  destruct (chained_bounds _ _ _ Hch) as [_ Hbounds].
  assert (Hok : Forall (group_ok (ops_queue_ (bat w6))) (ops_info_groups (bat w6))).
  { rewrite Hb6q, Hb6g. eapply Forall_impl; [exact Hbounds|].
    simpl. intros g [Hlt Hle]. split; [lia|]. apply lookup_lt_is_Some. simpl. lia. }
  destruct (ExecuteOperations_Done w6 true Hb6s) as (w7 & Hexec & Hs7 & Hc7 & Hp7 & Hb7);
    [by rewrite Hb6t|done|].
  destruct (group_ok_prepared _ Hok) as [Hok' Hlen].
  assert (Hq7 : ops_queue_ (bat w7) = first :: rest).
  { rewrite Hb7, ops_queue_dispatched. exact Hb6q. }
  eexists w7, (groups ++ [last]), _.
  split; [by rewrite AllLookupsDone_erased, Hrun, Hexec by done|].
  split; [by rewrite Hq7|]. split; [by rewrite Hs7, Hr6|].
  split.
  { rewrite Hb7. simpl. rewrite length_rpcs_of by exact Hok'. by rewrite Hlen. }
  split.
  { rewrite length_rpcs_of by exact Hok'. by rewrite Hlen, Hb6g. }
  rewrite Hq7. split; [exact Hch|]. split; [exact Hun|].
  split.
  { intros j g Hj [g' Hj']. rewrite Forall_forall in Hbd. apply Hbd.
    assert (Hlt : (S j < length (groups ++ [last]))%nat) by (by eapply lookup_lt_Some).
    rewrite length_app in Hlt. simpl in Hlt.
    rewrite lookup_app_l in Hj by lia. by eapply list_elem_of_lookup_2. }
  intros j rpc Hj.
  destruct (rpcs_of_lookup _ _ _ _ _ _ Hok' Hj) as (g' & fst_op & Hg' & Hfirst & ->).
  destruct (prepared_lookup _ _ _ Hg') as (g & Hg & Hbeg & Hend).
  rewrite Hb6g in Hg. rewrite Hb6q in Hfirst.
  exists g, fst_op. split; [exact Hg|]. rewrite <- Hbeg. split; [exact Hfirst|].
  simpl. rewrite Hend. split; [done|]. split; [done|]. split; [done|].
  rewrite Hb6a, length_rpcs_of by exact Hok'. done.
Qed.

Lemma rpc_kind_of_inj g1 g2 : rpc_kind_of g1 = rpc_kind_of g2 -> g1 = g2.
Proof. by destruct g1, g2. Qed.

(** One RPC per tablet and kind of operation.  When [AllLookupsDone]
    dispatches, every op that is left in the queue lies in the range of an
    RPC for its tablet and its kind, and no two RPCs of the batch have the
    same tablet and the same kind: every op is sent once, in the only RPC
    for its tablet and kind, and the Batcher waits for as many RPCs as it
    sent. *)
Theorem one_rpc_per_tablet_and_kind (w : World) :
  state_ (bat w) = kResolvingTablets ->
  ops_info_groups (bat w) = [] ->
  surviving_ops env (ops_queue_ (bat w)) <> [] ->
  Forall resolved (ops_queue_ (bat w)) ->
  Forall (fun op => version_mismatch op = false) (surviving_ops env (ops_queue_ (bat w))) ->
  (forall transaction, transaction_ (bat w) = Some transaction ->
     Prepare_ready transaction true = true) ->
  exists w' rpcs,
    AllLookupsDone env w = Done tt w' /\
    sent_rpcs w' = sent_rpcs w ++ rpcs /\
    outstanding_rpcs_ (bat w') = Z.of_nat (length rpcs) /\
    (forall i op, ops_queue_ (bat w') !! i = Some op ->
       exists j rpc, rpcs !! j = Some rpc /\ rpc_covers rpc i /\
         rpc_tablet rpc = tablet_get op /\
         rpc_kind rpc = rpc_kind_of (group (yb_op op))) /\
    (forall j j' rpc rpc', rpcs !! j = Some rpc -> rpcs !! j' = Some rpc' ->
       rpc_tablet rpc = rpc_tablet rpc' -> rpc_kind rpc = rpc_kind rpc' -> j = j') /\
    (forall i j j' rpc rpc', rpcs !! j = Some rpc -> rpcs !! j' = Some rpc' ->
       rpc_covers rpc i -> rpc_covers rpc' i -> j = j').
Proof.
  intros Hst Hg0 Hne Hres Hver Hready.
  destruct (AllLookupsDone_groups w Hst Hg0 Hne Hres Hver Hready)
    as (w' & groups & rpcs & Hrun & Hq & Hsent & Hout & Hlen & Hch & Hun & Hbd & Hrpcs).
  set (q' := ops_queue_ (bat w')) in *.
  assert (Hsorted : StronglySorted op_le q').
  { rewrite Hq. apply sort_ops_sorted. }
  assert (Hcover : forall i op, q' !! i = Some op ->
     exists j rpc, rpcs !! j = Some rpc /\ rpc_covers rpc i /\
       rpc_tablet rpc = tablet_get op /\
       rpc_kind rpc = rpc_kind_of (group (yb_op op))).
  { intros i op Hop.
    destruct (chained_covers groups 0 (length q') i Hch) as (j & g & Hj & Hi).
    { split; [lia|]. by eapply lookup_lt_Some. }
    destruct (lookup_lt_is_Some_2 rpcs j) as [rpc Hrpc].
    { rewrite Hlen. by eapply lookup_lt_Some. }
    destruct (Hrpcs j rpc Hrpc) as (g' & first & Hg' & Hfirst & Hops & Htab & Hkind & _).
    assert (g' = g) as -> by congruence.
    exists j, rpc. split; [done|]. split; [unfold rpc_covers; rewrite Hops; simpl; lia|].
    rewrite Forall_forall in Hun.
    destruct (Hun g (list_elem_of_lookup_2 _ _ _ Hj)) as (t & k & Hu).
    destruct (Hu i op Hi Hop) as [-> ->].
    destruct (Hu (group_begin g) first ltac:(lia) Hfirst) as [<- <-]. done. }
  assert (Hdistinct : forall j j' rpc rpc', (j < j')%nat ->
     rpcs !! j = Some rpc -> rpcs !! j' = Some rpc' ->
     rpc_tablet rpc = rpc_tablet rpc' -> rpc_kind rpc = rpc_kind rpc' -> False).
  { intros j j' rpc rpc' Hjj' Hj Hj' Htab Hkind.
    destruct (Hrpcs j rpc Hj) as (g & first & Hg & Hfirst & _ & Ht & Hk & _).
    destruct (Hrpcs j' rpc' Hj') as (g' & first' & Hg' & Hfirst' & _ & Ht' & Hk' & _).
    rewrite Ht, Ht' in Htab. rewrite Hk, Hk' in Hkind. apply rpc_kind_of_inj in Hkind.
    destruct (chained_lookup groups 0 (length q') j g Hch Hg) as (Hr & Hend & _ & Hlater).
    pose proof (Hlater j' g' Hjj' Hg') as Hle.
    destruct (Hbd j g Hg) as (a & b & Hpos & Ha & Hb & Hdiff).
    { apply lookup_lt_is_Some. apply lookup_lt_Some in Hg'. lia. }
    rewrite Forall_forall in Hun.
    destruct (Hun g (list_elem_of_lookup_2 _ _ _ Hg)) as (t & k & Hu).
    destruct (Hu (group_begin g) first ltac:(lia) Hfirst) as [Ht1 Hk1].
    destruct (Hu (group_end g - 1)%nat a ltac:(lia) Ha) as [Hta Hka].
    assert (Hab : op_le a b).
    { apply (StronglySorted_lookup_lt op_le q' (group_end g - 1) (group_end g));
        [done|lia|done|done]. }
    assert (Hbf : op_le b first' \/ b = first').
    { destruct (decide (group_end g = group_begin g')) as [Heq|Hneq].
      - right. rewrite Heq in Hb. congruence.
      - left. apply (StronglySorted_lookup_lt op_le q' (group_end g) (group_begin g'));
          [done|lia|done|done]. }
    apply op_le_key in Hab.
    assert (Htb : tablet_get b = t /\ OpGroup_to_Z (group (yb_op b)) = OpGroup_to_Z k).
    { destruct Hbf as [Hbf| ->].
      - apply op_le_key in Hbf. rewrite Hta, Hka in Hab.
        rewrite <- Htab, <- Hkind, Ht1, Hk1 in Hbf. lia.
      - rewrite <- Htab, <- Hkind, Ht1, Hk1. done. }
    destruct Htb as [Htb Hkb]. apply OpGroup_to_Z_inj in Hkb.
    rewrite Hta, Hka, Htb, Hkb in Hdiff. by destruct Hdiff. }
  assert (Hinj : forall j j' rpc rpc', rpcs !! j = Some rpc -> rpcs !! j' = Some rpc' ->
     rpc_tablet rpc = rpc_tablet rpc' -> rpc_kind rpc = rpc_kind rpc' -> j = j').
  { intros j j' rpc rpc' Hj Hj' Htab Hkind.
    destruct (Nat.lt_trichotomy j j') as [Hlt|[Heq|Hgt]]; [|done|].
    - destruct (Hdistinct j j' rpc rpc' Hlt Hj Hj' Htab Hkind).
    - destruct (Hdistinct j' j rpc' rpc Hgt Hj' Hj); done. }
  exists w', rpcs. split; [exact Hrun|]. split; [exact Hsent|]. split; [exact Hout|].
  split; [exact Hcover|]. split; [exact Hinj|].
  intros i j j' rpc rpc' Hj Hj' Hi Hi'.
  destruct (Hrpcs j rpc Hj) as (g & first & Hg & _ & Hops & _).
  destruct (Hrpcs j' rpc' Hj') as (g' & first' & Hg' & _ & Hops' & _).
  unfold rpc_covers in *. rewrite Hops in Hi. rewrite Hops' in Hi'. simpl in *.
  destruct (Nat.lt_trichotomy j j') as [Hlt|[Heq|Hgt]]; [|done|].
  - destruct (chained_lookup groups 0 (length q') j g Hch Hg) as (_ & _ & _ & Hlater).
    pose proof (Hlater j' g' Hlt Hg'). lia.
  - destruct (chained_lookup groups 0 (length q') j' g' Hch Hg') as (_ & _ & _ & Hlater).
    pose proof (Hlater j g Hgt Hg). lia.
Qed.

(** Only the last RPC of a batch may be run in the calling thread.  Of the
    RPCs [AllLookupsDone] sends, the last one inherits
    [allow_local_calls_in_curr_thread_] and every other one is created
    with the flag off; each RPC is a [WriteRpc], or a [ReadRpc] of the
    consistency level of its kind of operation, for the tablet of the
    first op of its range. *)
Theorem only_the_last_rpc_runs_locally (w : World) :
  state_ (bat w) = kResolvingTablets ->
  ops_info_groups (bat w) = [] ->
  surviving_ops env (ops_queue_ (bat w)) <> [] ->
  Forall resolved (ops_queue_ (bat w)) ->
  Forall (fun op => version_mismatch op = false) (surviving_ops env (ops_queue_ (bat w))) ->
  (forall transaction, transaction_ (bat w) = Some transaction ->
     Prepare_ready transaction true = true) ->
  exists w' rpcs,
    AllLookupsDone env w = Done tt w' /\
    sent_rpcs w' = sent_rpcs w ++ rpcs /\
    rpcs <> [] /\
    (forall j rpc, rpcs !! j = Some rpc ->
       allow_local_calls_in_curr_thread rpc =
         allow_local_calls_in_curr_thread_ (bat w) && bool_decide (S j = length rpcs)) /\
    (forall j rpc, rpcs !! j = Some rpc ->
       exists first, ops_queue_ (bat w') !! fst (rpc_ops rpc) = Some first /\
         rpc_tablet rpc = tablet_get first /\
         rpc_kind rpc = match group (yb_op first) with
                        | kWrite => WriteRpc
                        | kLeaderRead => ReadRpc STRONG
                        | kConsistentPrefixRead => ReadRpc CONSISTENT_PREFIX
                        end).
Proof.
  intros Hst Hg0 Hne Hres Hver Hready.
  destruct (AllLookupsDone_groups w Hst Hg0 Hne Hres Hver Hready)
    as (w' & groups & rpcs & Hrun & Hq & Hsent & Hout & Hlen & Hch & Hun & Hbd & Hrpcs).
  exists w', rpcs. split; [exact Hrun|]. split; [exact Hsent|].
  split.
  { intros ->. simpl in Hlen. destruct groups; [|done]. simpl in Hch.
    assert (Hl : length (ops_queue_ (bat w')) = length (surviving_ops env (ops_queue_ (bat w)))).
    { by rewrite Hq, sort_ops_Permutation. }
    rewrite <- Hch in Hl. symmetry in Hl. by apply nil_length_inv in Hl. }
  split.
  - intros j rpc Hj. by destruct (Hrpcs j rpc Hj) as (g & first & _ & _ & _ & _ & _ & ?).
  - intros j rpc Hj.
    destruct (Hrpcs j rpc Hj) as (g & first & _ & Hfirst & Hops & Ht & Hk & _).
    exists first. rewrite Hops. simpl. split; [done|]. split; [done|].
    rewrite Hk. by destruct (group (yb_op first)).
Qed.

End OneRpc.

(** The theorem at a queue of a write for one tablet and a read and two
    writes for another. *)
Lemma one_rpc_per_tablet_and_kind_example :
  state_ (bat resolved_world) = kResolvingTablets /\
  exists w' rpcs,
    AllLookupsDone env0 resolved_world = Done tt w' /\
    sent_rpcs w' = rpcs /\
    outstanding_rpcs_ (bat w') = Z.of_nat (length rpcs) /\
    (forall i op, ops_queue_ (bat w') !! i = Some op ->
       exists j rpc, rpcs !! j = Some rpc /\ rpc_covers rpc i) /\
    (forall i j j' rpc rpc', rpcs !! j = Some rpc -> rpcs !! j' = Some rpc' ->
       rpc_covers rpc i -> rpc_covers rpc' i -> j = j').
Proof.
  split; [reflexivity|].
  destruct (one_rpc_per_tablet_and_kind env0 resolved_world eq_refl eq_refl)
    as (w' & rpcs & Hrun & Hsent & Hout & Hcover & _ & Honce).
  - vm_compute. intros H. discriminate H.
  - repeat (constructor; [left; eexists; reflexivity|]). constructor.
  - vm_compute. repeat (constructor; [reflexivity|]). constructor.
  - intros transaction H. discriminate H.
  - exists w', rpcs. split; [exact Hrun|]. split; [exact Hsent|]. split; [exact Hout|].
    split; [|exact Honce].
    intros i op Hop. destruct (Hcover i op Hop) as (j & rpc & Hj & Hi & _).
    exists j, rpc. split; [exact Hj|exact Hi].
Defined.

(** The theorem at the same queue. *)
Lemma only_the_last_rpc_runs_locally_example :
  state_ (bat resolved_world) = kResolvingTablets /\
  exists w' rpcs,
    AllLookupsDone env0 resolved_world = Done tt w' /\
    sent_rpcs w' = rpcs /\ rpcs <> [] /\
    Forall (fun rpc => allow_local_calls_in_curr_thread rpc = false) rpcs.
Proof.
  split; [reflexivity|].
  destruct (only_the_last_rpc_runs_locally env0 resolved_world eq_refl eq_refl)
    as (w' & rpcs & Hrun & Hsent & Hne & Hlocal & _).
  - vm_compute. intros H. discriminate H.
  - repeat (constructor; [left; eexists; reflexivity|]). constructor.
  - vm_compute. repeat (constructor; [reflexivity|]). constructor.
  - intros transaction H. discriminate H.
  - exists w', rpcs. split; [exact Hrun|]. split; [exact Hsent|]. split; [exact Hne|].
    apply Forall_lookup. intros j rpc Hj. exact (Hlocal j rpc Hj).
Defined.

(** ** A flush that is over *)

Ltac not_that_effect := intros; intros Heffect; discriminate Heffect.

#[global] Instance stays_over_preorder : PreOrder stays_over.
Proof.
  split.
  - intros w H. done.
  - intros w1 w2 w3 H12 H23 H1.
    destruct (H12 H1) as (H2 & Hs & Hl & Ha).
    destruct (H23 H2) as (H3 & Hs' & Hl' & Ha').
    split; [done|]. split; [congruence|]. split; [congruence|]. auto.
Qed.

Lemma stays_over_upd g w :
  (forall b, state_ (g b) = state_ b) -> stays_over w (upd g w).
Proof. intros Hg Ht. rewrite bat_upd, Hg. done. Qed.

Lemma stays_over_add_effect e w :
  (forall r, e <> SendRpc r) -> (forall p k, e <> LookupTabletByKey p k) ->
  stays_over w (add_effect e w).
Proof.
  intros H1 H2 Ht. rewrite bat_add_effect, sent_rpcs_add_effect,
    lookups_started_add_effect.
  split; [done|].
  destruct e; try (by rewrite !app_nil_r); exfalso; [by eapply H2|by eapply H1].
Qed.

Lemma stays_over_set_pool n w : stays_over w (set_pool n w).
Proof. intros Ht. done. Qed.

Lemma stays_over_Run : follows stays_over Run.
Proof.
  intros w. destruct (flush_callback_ (bat w)) as [cb|] eqn:Hslot.
  - rewrite (Run_Some w cb Hslot). simpl.
    transitivity (add_effect (InvokeCallback cb (combined_error_ (bat w))) w);
      [apply stays_over_add_effect; not_that_effect|].
    by apply stays_over_upd.
  - by rewrite (Run_None w Hslot).
Qed.

Section Over.

Variable env : Env.

Lemma stays_over_RunCallback : follows stays_over (RunCallback env).
Proof.
  unfold RunCallback. destruct (callback_threadpool env) as [[]|];
    try apply stays_over_Run.
  apply (@follows_bind _ _); [|intros ?].
  - apply follows_emit. intros w. apply stays_over_add_effect; not_that_effect.
  - intros w. apply stays_over_set_pool.
Qed.

Lemma stays_over_FlushFinished : follows stays_over (FlushFinished env).
Proof.
  intros w. rewrite FlushFinished_eq.
  etransitivity; [|apply stays_over_RunCallback].
  intros Ht. rewrite bat_upd, bat_notify_session, sent_rpcs_upd, sent_rpcs_notify_session.
  assert (Hl : lookups_started (upd finished (notify_session env w)) = lookups_started w).
  { unfold notify_session. destruct (session_alive env); [|done].
    change (lookups_started (add_effect SessionFlushFinished w) = lookups_started w).
    by rewrite lookups_started_add_effect, app_nil_r. }
  rewrite Hl. unfold finished. simpl.
  case_bool_decide as Hab; simpl; [by rewrite Hab|]. done.
Qed.

Lemma stays_over_Abort status : follows stays_over (Abort env status).
Proof.
  intros w. rewrite Abort_eq.
  etransitivity; [|apply stays_over_FlushFinished].
  intros Ht. done.
Qed.

Lemma stays_over_AllLookupsDone : follows stays_over (AllLookupsDone env).
Proof.
  intros w Ht. unfold AllLookupsDone. unfold bind, get.
  rewrite bool_decide_false by (intros Hst; by rewrite Hst in Ht). simpl.
  apply stays_over_add_effect; [not_that_effect..|done].
Qed.

Lemma ExecuteOperations_waits initial w :
  waits_for_transaction initial (bat w) = true ->
  ExecuteOperations initial w = Done tt w.
Proof.
  unfold waits_for_transaction, ExecuteOperations. unfold bind at 1. unfold get at 1.
  destruct (transaction_ (bat w)) as [txn|]; [|done].
  intros H%negb_true_iff. unfold bind at 1. rewrite H. reflexivity.
Qed.

Lemma ExecuteOperations_refused initial w :
  state_ (bat w) <> kTransactionPrepare ->
  exists w',
    ExecuteOperations initial w = Done tt w' /\
    sent_rpcs w' = sent_rpcs w /\ callbacks w' = callbacks w /\ pool w' = pool w /\
    lookups_started w' = lookups_started w /\
    state_ (bat w') = state_ (bat w) /\
    outstanding_rpcs_ (bat w') = outstanding_rpcs_ (bat w) /\
    ops_queue_ (bat w') = ops_queue_ (bat w) /\
    flush_callback_ (bat w') = flush_callback_ (bat w) /\
    error_collector_ (bat w') = error_collector_ (bat w) /\
    (state_ (bat w) = kAborted -> effects w' = effects w) /\
    (waits_for_transaction initial (bat w) = false -> state_ (bat w) <> kAborted ->
     effects w' = effects w ++
       [LogDFatal "Batcher in a wrong state at the moment the transaction became ready"%string]).
Proof.
  intros Hst.
  destruct (waits_for_transaction initial (bat w)) eqn:Hw.
  { rewrite ExecuteOperations_waits by done. exists w. split_and!; done. }
  unfold waits_for_transaction in Hw.
  unfold ExecuteOperations. unfold bind at 1. unfold get at 1.
  destruct (transaction_ (bat w)) as [txn|] eqn:Htxn.
  - apply negb_false_iff in Hw. rewrite Hw.
    unfold bind at 1. unfold bind at 1. unfold modify at 1. unfold ret at 1.
    simpl negb. cbv iota. unfold bind at 1. unfold get at 1.
    change (negb true) with false. cbv beta iota.
    change (state_ (bat (upd (prepare_groups txn) w))) with (state_ (bat w)).
    rewrite bool_decide_false by done. simpl negb. cbv iota.
    destruct (decide (state_ (bat w) = kAborted)) as [Hab|Hab].
    + rewrite bool_decide_true by done. simpl. eexists. split; [reflexivity|].
      split_and!; done.
    + rewrite bool_decide_false by done. simpl. eexists. split; [reflexivity|].
      rewrite sent_rpcs_add_effect, callbacks_add_effect, lookups_started_add_effect,
        !app_nil_r.
      split_and!; done.
  - unfold bind at 1. unfold ret at 1. simpl negb. cbv iota.
    unfold bind at 1. unfold get at 1.
    change (negb true) with false. cbv beta iota.
    rewrite bool_decide_false by done. simpl negb. cbv iota.
    destruct (decide (state_ (bat w) = kAborted)) as [Hab|Hab].
    + rewrite bool_decide_true by done. simpl. exists w. split_and!; done.
    + rewrite bool_decide_false by done. simpl. eexists. split; [reflexivity|].
      rewrite sent_rpcs_add_effect, callbacks_add_effect, lookups_started_add_effect,
        !app_nil_r.
      split_and!; done.
Qed.

Lemma stays_over_ExecuteOperations initial :
  follows stays_over (ExecuteOperations initial).
Proof.
  intros w Ht.
  destruct (ExecuteOperations_refused initial w)
    as (w' & Hrun & Hs & _ & _ & Hl & Hst & _); [intros H; by rewrite H in Ht|].
  rewrite Hrun. simpl. rewrite Hst, Hs, Hl. done.
Qed.

Ltac stays_over_leaf :=
  first
    [ apply stays_over_Run
    | apply stays_over_FlushFinished
    | apply stays_over_Abort
    | apply stays_over_AllLookupsDone
    | apply stays_over_ExecuteOperations
    | apply stays_over_set_pool
    | solve [apply stays_over_upd; intros ?; reflexivity]
    | solve [apply stays_over_add_effect; not_that_effect] ].

Lemma stays_over_call c : follows stays_over (call env c).
Proof.
  destruct c; simpl.
  - follows_tac stays_over_leaf.
  - follows_tac stays_over_leaf.
  - intros w Ht. rewrite FlushAsync_wrong_state; [done|].
    intros Hst. by rewrite Hst in Ht.
  - apply stays_over_Abort.
  - unfold TabletLookupFinished.
    repeat (first [stays_over_leaf | follows_step stays_over_leaf]).
  - unfold TransactionReady. destruct (ok status);
      [apply stays_over_ExecuteOperations|apply stays_over_Abort].
  - follows_tac stays_over_leaf.
  - follows_tac stays_over_leaf.
  - unfold Flushed.
    repeat (first [stays_over_leaf | follows_step stays_over_leaf]).
  - follows_tac stays_over_leaf.
  - follows_tac stays_over_leaf.
Qed.

Lemma stays_over_calls l : follows stays_over (calls env l).
Proof. apply follows_for_each; [apply _|]. apply stays_over_call. Qed.

(** A flush that is over stays over.  Once the state is [kComplete] or
    [kAborted], whatever is called on the Batcher (late lookup results, a
    transaction that becomes ready, responses, [Flushed], [Abort], a new
    [FlushAsync]), the state stays terminal, an aborted Batcher stays
    aborted, no RPC is sent and no tablet lookup is started. *)
Theorem flush_over_stays_over (l : list Call) (w : World) :
  terminal (state_ (bat w)) = true ->
  let w' := res_world (calls env l w) in
  terminal (state_ (bat w')) = true /\
  sent_rpcs w' = sent_rpcs w /\
  lookups_started w' = lookups_started w /\
  (state_ (bat w) = kAborted -> state_ (bat w') = kAborted).
Proof. intros Ht. by apply stays_over_calls. Qed.

(** [ExecuteOperations] dispatches only from [kTransactionPrepare].  While
    the transaction is not ready it returns at once and changes nothing (the
    transaction calls [TransactionReady] later).  In any state other than
    [kTransactionPrepare], for instance when the batch was aborted while the
    transaction was being prepared, it sends no RPC, leaves the state, the
    queue, the count of outstanding RPCs, the callback and the error
    collector as they are, and logs a DFATAL line unless the state is
    [kAborted]. *)
Theorem ExecuteOperations_only_when_prepared (initial : bool) (w : World) :
  (waits_for_transaction initial (bat w) = true ->
   ExecuteOperations initial w = Done tt w) /\
  (state_ (bat w) <> kTransactionPrepare ->
   exists w',
     ExecuteOperations initial w = Done tt w' /\
     TransactionReady env Status_OK w = ExecuteOperations false w /\
     sent_rpcs w' = sent_rpcs w /\ callbacks w' = callbacks w /\
     state_ (bat w') = state_ (bat w) /\
     outstanding_rpcs_ (bat w') = outstanding_rpcs_ (bat w) /\
     ops_queue_ (bat w') = ops_queue_ (bat w) /\
     flush_callback_ (bat w') = flush_callback_ (bat w) /\
     error_collector_ (bat w') = error_collector_ (bat w) /\
     (state_ (bat w) = kAborted -> effects w' = effects w) /\
     (waits_for_transaction initial (bat w) = false -> state_ (bat w) <> kAborted ->
      effects w' = effects w ++
        [LogDFatal "Batcher in a wrong state at the moment the transaction became ready"%string])).
Proof.
  split; [apply ExecuteOperations_waits|].
  intros Hst.
  destruct (ExecuteOperations_refused initial w Hst)
    as (w' & Hrun & Hs & Hc & _ & _ & Hst' & Ho & Hq & Hf & He & Ha & Hl).
  exists w'. split_and!; done.
Qed.

End Over.

(** ** A flush that is over, and the count of buffered ops *)

(** The theorem at an aborted Batcher that receives its lookup results
    late. *)
Lemma flush_over_stays_over_example :
  terminal (state_ (bat aborted_world)) = true /\
  state_ (bat (res_world (calls env0 late_calls aborted_world))) = kAborted /\
  sent_rpcs (res_world (calls env0 late_calls aborted_world)) = [].
Proof.
  split; [reflexivity|].
  destruct (flush_over_stays_over env0 late_calls aborted_world eq_refl)
    as (_ & Hs & _ & Ha).
  split; [exact (Ha eq_refl)|exact Hs].
Defined.

(** [CountBufferedOperations] returns [ops_.size()] as an [int]: while the
    Batcher gathers fewer than 2^31 ops it is their number; in any case it
    lies in the range of [int]; from 2^31 to 2^32 - 1 ops the conversion
    gives a negative number. *)
Theorem CountBufferedOperations_int (b : Batcher) :
  state_ b = kGatheringOps ->
  - 2 ^ 31 <= CountBufferedOperations b < 2 ^ 31 /\
  (Z.of_nat (length (ops_ b)) < 2 ^ 31 ->
   CountBufferedOperations b = Z.of_nat (length (ops_ b))) /\
  (2 ^ 31 <= Z.of_nat (length (ops_ b)) < 2 ^ 32 ->
   CountBufferedOperations b = Z.of_nat (length (ops_ b)) - 2 ^ 32) /\
  (CountBufferedOperations b - Z.of_nat (length (ops_ b))) mod 2 ^ 32 = 0.
Proof.
  intros Hst. unfold CountBufferedOperations, to_int. rewrite bool_decide_true by done.
  set (n := Z.of_nat (length (ops_ b))).
  assert (Hn : 0 <= n) by (unfold n; lia).
  pose proof (Z.mod_pos_bound (n + 2 ^ 31) (2 ^ 32) ltac:(lia)) as Hm.
  split; [lia|]. split; [|split].
  - intros Hlt. rewrite Z.mod_small by lia. lia.
  - intros Hr.
    replace (n + 2 ^ 31) with ((n - 2 ^ 31) + 1 * 2 ^ 32) by lia.
    rewrite Z.mod_add by lia. rewrite Z.mod_small by lia. lia.
  - rewrite (Z.mod_eq (n + 2 ^ 31) (2 ^ 32)) by lia.
    replace (n + 2 ^ 31 - 2 ^ 32 * ((n + 2 ^ 31) / 2 ^ 32) - 2 ^ 31 - n)
      with ((- ((n + 2 ^ 31) / 2 ^ 32)) * 2 ^ 32) by lia.
    apply Z.mod_mul. lia.
Qed.

(** The theorem at a Batcher that gathered one op. *)
Lemma CountBufferedOperations_int_example :
  CountBufferedOperations (bat empty_key_world) = 1.
Proof.
  destruct (CountBufferedOperations_int (bat empty_key_world) eq_refl)
    as (_ & Hsmall & _).
  apply Hsmall. simpl. lia.
Defined.

(** ** The lookups FlushAsync starts *)

Section Lookups.

Variable env : Env.

Lemma FlushAsync_resolve_eq cb retry w :
  state_ (bat w) = kGatheringOps ->
  FlushAsync env cb retry w =
  (let! filled := FlushAsync_fill_queue env (ops_ (bat w)) in
   if negb filled then ret tt else
   let! b := get in
   for_each (seq 0 (length (ops_queue_ b))) (FlushAsync_lookup env))
    (flush_started env cb retry w).
Proof.
  intros Hst. rewrite FlushAsync_eq by done. unfold FlushAsync_resolve, flush_started.
  unfold bind at 1.
  assert (H1 : when (session_alive env) (emit SessionFlushStarted)
                 (upd (FlushAsync_started cb) w) =
               Done tt ((if session_alive env then add_effect SessionFlushStarted else id)
                          (upd (FlushAsync_started cb) w)))
    by (by destruct (session_alive env)).
  rewrite H1. unfold bind at 1.
  match goal with |- context [when ?c ?k ?x] =>
    assert (H2 : when c k x = Done tt ((if c then add_effect (ExpectOperations
                   (length (ops_ (bat w)))) else id) x)) by (by destruct c) end.
  rewrite H2. reflexivity.
Qed.

Lemma flush_started_facts cb retry w :
  let w0 := flush_started env cb retry w in
  bat w0 = FlushAsync_started cb (bat w) /\ pool w0 = pool w /\
  callbacks w0 = callbacks w /\ sent_rpcs w0 = sent_rpcs w /\
  lookups_started w0 = lookups_started w.
Proof.
  unfold flush_started. destruct (_ && _), (session_alive env); simpl;
    rewrite ?callbacks_add_effect, ?sent_rpcs_add_effect, ?lookups_started_add_effect,
      ?app_nil_r; done.
Qed.

Lemma FlushAsync_lookup_asks position op w :
  ops_queue_ (bat w) !! position = Some op ->
  op_tablet (yb_op op) = None -> meta_cache env op = None ->
  FlushAsync_lookup env position w =
  Done tt (add_effect (LookupTabletByKey position (partition_key op)) w).
Proof.
  intros Hop Ht Hm. unfold FlushAsync_lookup. unfold bind at 1. unfold get.
  rewrite Hop, Ht. unfold bind. simpl. by rewrite Hm.
Qed.

Lemma FlushAsync_lookup_known position op t w :
  ops_queue_ (bat w) !! position = Some op ->
  op_tablet (yb_op op) = Some t ->
  FlushAsync_lookup env position w = TabletLookupFinished env position (inr t) w.
Proof.
  intros Hop Ht. unfold FlushAsync_lookup. unfold bind at 1. unfold get.
  by rewrite Hop, Ht.
Qed.

Lemma ask_lookups positions : forall w,
  Forall (fun p => exists op, ops_queue_ (bat w) !! p = Some op /\
            op_tablet (yb_op op) = None /\ meta_cache env op = None) positions ->
  exists w',
    for_each positions (FlushAsync_lookup env) w = Done tt w' /\
    bat w' = bat w /\ pool w' = pool w /\ callbacks w' = callbacks w /\
    sent_rpcs w' = sent_rpcs w /\
    lookups_started w' =
      lookups_started w ++ omap (lookup_of (ops_queue_ (bat w))) positions.
Proof.
  induction positions as [|p positions IH]; intros w Hall.
  - exists w. split_and!; try done. simpl. by rewrite app_nil_r.
  - apply Forall_cons in Hall as [(op & Hop & Ht & Hm) Hall].
    simpl for_each. unfold bind. rewrite (FlushAsync_lookup_asks p op) by done.
    destruct (IH (add_effect (LookupTabletByKey p (partition_key op)) w))
      as (w' & Hrun & Hb & Hp & Hc & Hr & Hl); [exact Hall|].
    exists w'. split; [exact Hrun|]. rewrite Hb, Hp, Hc, Hr, Hl.
    rewrite callbacks_add_effect, sent_rpcs_add_effect, lookups_started_add_effect,
      !app_nil_r, bat_add_effect.
    split_and!; try done.
    simpl. unfold lookup_of at 2. rewrite Hop. simpl. by rewrite <- app_assoc.
Qed.

Lemma omap_lookup_seq_from {A B} (f : nat -> A -> B) (l : list A) : forall prefix,
  omap (fun p => f p <$> (prefix ++ l) !! p) (seq (length prefix) (length l)) =
  imap (fun i => f (length prefix + i)%nat) l.
Proof.
  induction l as [|x l IH]; intros prefix; [done|].
  simpl. rewrite list_lookup_middle by done. simpl. rewrite Nat.add_0_r. f_equal.
  specialize (IH (prefix ++ [x])). rewrite length_app in IH. simpl in IH.
  rewrite Nat.add_1_r, <- app_assoc in IH. simpl in IH.
  etransitivity; [exact IH|].
  apply imap_ext. intros i y _. simpl. f_equal. lia.
Qed.

Lemma omap_lookup_seq {A B} (f : nat -> A -> B) (l : list A) :
  omap (fun p => f p <$> l !! p) (seq 0 (length l)) = imap f l.
Proof. exact (omap_lookup_seq_from f l []). Qed.

(** [FlushAsync] for ops whose tablets are not known, when the meta cache
    answers later: the queue is filled, the count of outstanding lookups is
    the number of ops, and the meta cache is asked once per op, in the
    order of the queue, with the position and the partition key of the op.
    The state is [kResolvingTablets], the callback is stored and not
    invoked, and nothing is sent. *)
Theorem FlushAsync_asks_the_meta_cache (w : World) (cb : Z) (retry : bool) :
  state_ (bat w) = kGatheringOps -> ops_queue_ (bat w) = [] ->
  Forall (fun o => ok (key_status o) = true /\ op_tablet o = None) (ops_ (bat w)) ->
  (forall op, meta_cache env op = None) ->
  exists w',
    FlushAsync env cb retry w = Done tt w' /\
    state_ (bat w') = kResolvingTablets /\
    flush_callback_ (bat w') = Some cb /\
    ops_queue_ (bat w') = queued_from 0 (ops_ (bat w)) /\
    outstanding_lookups_ (bat w') = Z.of_nat (length (ops_ (bat w))) mod 2 ^ 64 /\
    lookups_started w' =
      lookups_started w ++
      imap (fun i o => (i, snd (GetPartitionKey o))) (ops_ (bat w)) /\
    callbacks w' = callbacks w /\ sent_rpcs w' = sent_rpcs w.
Proof.
  intros Hst Hq Hops Hcache. rewrite FlushAsync_resolve_eq by done.
  destruct (flush_started_facts cb retry w) as (Hb0 & Hp0 & Hc0 & Hr0 & Hl0).
  set (w0 := flush_started env cb retry w) in *.
  unfold bind at 1. rewrite FlushAsync_fill_queue_ok
    by (eapply Forall_impl; [exact Hops|]; by intros o [? _]).
  destruct (enqueue_all (ops_ (bat w)) w0) as (Hb1 & Hp1 & Hc1 & Hr1).
  pose proof (lookups_started_enqueue_all (ops_ (bat w)) w0) as Hl1.
  set (w1 := foldl (fun w o => enqueue o w) w0 (ops_ (bat w))) in *.
  assert (Hq1 : ops_queue_ (bat w1) = queued_from 0 (ops_ (bat w))).
  { rewrite Hb1, Hb0. simpl. by rewrite Hq. }
  simpl negb. cbv iota. unfold bind at 1. unfold get. cbv beta.
  destruct (ask_lookups (seq 0 (length (ops_queue_ (bat w1)))) w1)
    as (w' & Hrun & Hb & Hp & Hc & Hr & Hl).
  { apply Forall_forall. intros p Hp. apply elem_of_seq in Hp.
    destruct (lookup_lt_is_Some_2 (ops_queue_ (bat w1)) p) as [op Hop]; [lia|].
    exists op. split; [done|]. split; [|apply Hcache].
    rewrite Hq1 in Hop.
    unfold queued_from in Hop. rewrite list_lookup_imap in Hop.
    destruct (ops_ (bat w) !! p) as [o|] eqn:Ho; [|done]. simpl in Hop.
    injection Hop as <-. simpl. rewrite Forall_forall in Hops.
    by destruct (Hops o (list_elem_of_lookup_2 _ _ _ Ho)). }
  exists w'. split; [exact Hrun|].
  unfold lookup_of in Hl. rewrite omap_lookup_seq in Hl.
  rewrite Hb, Hc, Hr, Hl, Hq1, Hb1, Hc1, Hr1, Hl1, Hb0, Hc0, Hr0, Hl0. simpl. rewrite ?Hq.
  simpl.
  split_and!; try done.
  f_equal. unfold queued_from.
  apply list_eq. intros i. rewrite !list_lookup_imap.
  by destruct (ops_ (bat w) !! i).
Qed.

End Lookups.

(** The theorem at two writes, with a meta cache that answers later. *)
Lemma FlushAsync_asks_the_meta_cache_example :
  exists w',
    FlushAsync env0 7 false two_writes_added = Done tt w' /\
    lookups_started w' = [(0%nat, "k"%string); (1%nat, "j"%string)] /\
    outstanding_lookups_ (bat w') = 2 /\
    callbacks w' = [] /\ sent_rpcs w' = [].
Proof.
  destruct (FlushAsync_asks_the_meta_cache env0 two_writes_added 7 false)
    as (w' & Hrun & _ & _ & _ & Hcount & Hasked & Hcb & Hsent).
  - reflexivity.
  - reflexivity.
  - repeat (constructor; [split; reflexivity|]). constructor.
  - reflexivity.
  - exists w'. split; [exact Hrun|]. rewrite Hcount, Hasked, Hcb, Hsent.
    repeat split; reflexivity.
Defined.

Lemma then_ret_tt (c : M unit) (w : World) : (c >> ret tt) w = c w.
Proof. unfold bind, ret. by destruct (c w) as [[] ?|]. Qed.

Lemma for_each_snoc {A} (f : A -> M unit) (x : A) (l : list A) : forall w w1,
  for_each l f w = Done tt w1 -> for_each (l ++ [x]) f w = f x w1.
Proof.
  induction l as [|y l IH]; intros w w1 Hrun; simpl in *.
  - injection Hrun as <-. apply then_ret_tt.
  - unfold bind in *. destruct (f y w) as [[] w0|e w0]; [by apply IH|discriminate].
Qed.

Lemma lookups_recorded_cons r results queue :
  lookups_recorded (r :: results) queue =
  lookups_recorded results (alter (record_lookup (snd r)) (fst r) queue).
Proof. reflexivity. Qed.

Lemma lookups_recorded_elsewhere results : forall queue i,
  i ∉ map fst results -> lookups_recorded results queue !! i = queue !! i.
Proof.
  induction results as [|r results IH]; intros queue i Hi; [done|].
  rewrite lookups_recorded_cons. simpl in Hi. apply not_elem_of_cons in Hi as [Hne Hi].
  rewrite IH by done. by apply list_lookup_alter_ne.
Qed.

Lemma lookups_recorded_there results : forall queue r,
  NoDup (map fst results) -> r ∈ results ->
  lookups_recorded results queue !! fst r = record_lookup (snd r) <$> queue !! fst r.
Proof.
  induction results as [|r0 results IH]; intros queue r Hnd Hin.
  - by apply elem_of_nil in Hin.
  - rewrite lookups_recorded_cons. simpl in Hnd. apply NoDup_cons in Hnd as [Hfresh Hnd].
    apply elem_of_cons in Hin as [->|Hin].
    + rewrite lookups_recorded_elsewhere by done. apply list_lookup_alter_eq.
    + rewrite IH by done. rewrite list_lookup_alter_ne; [done|].
      intros Heq. apply Hfresh. rewrite Heq. by apply list_elem_of_fmap_2.
Qed.

Lemma known_result_inv queue p r :
  known_result queue p = Some r ->
  exists op t, queue !! p = Some op /\ op_tablet (yb_op op) = Some t /\ r = (p, inr t).
Proof.
  unfold known_result. destruct (queue !! p) as [op|]; [|done].
  destruct (op_tablet (yb_op op)) as [t|] eqn:Ht; [|done].
  simpl. intros Hr. injection Hr as <-. by exists op, t.
Qed.

Lemma known_result_alter r p queue p' :
  known_result (alter (record_lookup r) p queue) p' = known_result queue p'.
Proof.
  unfold known_result. destruct (decide (p' = p)) as [->|Hne].
  - rewrite list_lookup_alter_eq. destruct (queue !! p) as [op|]; [|done].
    by destruct r.
  - by rewrite list_lookup_alter_ne.
Qed.

Lemma NoDup_known_results queue positions :
  NoDup positions -> NoDup (map fst (omap (known_result queue) positions)).
Proof.
  induction 1 as [|p positions Hfresh Hnd IH]; [constructor|].
  simpl. destruct (known_result queue p) as [r|] eqn:Hr; [|done].
  apply known_result_inv in Hr as (op & t & _ & _ & ->). simpl.
  constructor; [|done]. intros Hin. apply Hfresh.
  apply list_elem_of_fmap in Hin as (r & Hp & Hin).
  apply list_elem_of_omap in Hin as (p' & Hin & Hr).
  apply known_result_inv in Hr as (? & ? & _ & _ & ->). simpl in Hp. by subst.
Qed.

Section Known.

Variable env : Env.

(** The ops whose tablets are known and that do not bring the count of
    outstanding lookups to zero have their tablets recorded, without the
    meta cache. *)
Lemma known_counted_down positions : forall w,
  Forall (fun p => is_Some (known_result (ops_queue_ (bat w)) p)) positions ->
  Z.of_nat (length positions) < outstanding_lookups_ (bat w) < 2 ^ 64 ->
  exists w1,
    for_each positions (FlushAsync_lookup env) w = Done tt w1 /\
    effects w1 = effects w /\ pool w1 = pool w /\
    bat w1 = set_outstanding_lookups
               (outstanding_lookups_ (bat w) - Z.of_nat (length positions))
               (set_ops_queue
                  (lookups_recorded (omap (known_result (ops_queue_ (bat w))) positions)
                     (ops_queue_ (bat w))) (bat w)).
Proof.
  induction positions as [|p positions IH]; intros w Hpos Hcount.
  - exists w. split_and!; try done. simpl. rewrite Z.sub_0_r. by destruct (bat w).
  - apply Forall_cons in Hpos as [[r Hr] Hpos]. simpl length in Hcount.
    simpl for_each. unfold bind.
    destruct (known_result_inv _ _ _ Hr) as (op & t & Hop & Ht & ->).
    rewrite (FlushAsync_lookup_known env p op t) by done.
    rewrite TabletLookupFinished_eq by (by eexists).
    cbv zeta.
    assert (Hdec : decrement (outstanding_lookups_ (bat w)) =
                   outstanding_lookups_ (bat w) - 1).
    { unfold decrement. apply Z.mod_small. lia. }
    rewrite Hdec. destruct (Z.eqb_spec (outstanding_lookups_ (bat w) - 1) 0) as [?|_]; [lia|].
    match goal with |- context [for_each _ _ ?w0] => set (w1 := w0) end.
    destruct (IH w1) as (w2 & Hrun & He & Hp & Hb).
    { unfold w1. simpl. eapply Forall_impl; [exact Hpos|]. intros p' Hp'. simpl in Hp'.
      by rewrite known_result_alter. }
    { unfold w1. simpl. rewrite Hdec. lia. }
    exists w2. split; [exact Hrun|]. rewrite He, Hp, Hb. split_and!; try done.
    unfold w1. simpl. rewrite Hdec, Hr.
    replace (outstanding_lookups_ (bat w) - 1 - Z.of_nat (length positions))
      with (outstanding_lookups_ (bat w) - Z.of_nat (S (length positions))) by lia.
    rewrite lookups_recorded_cons. simpl.
    rewrite (list_omap_ext _ (known_result (ops_queue_ (bat w))) positions positions)
      by (apply Forall_Forall2_diag, Forall_forall; intros; apply known_result_alter).
    by destruct (bat w).
Qed.

Lemma all_known_recorded (ops : list YBOperation) :
  Forall (fun o => is_Some (op_tablet o)) ops ->
  lookups_recorded (omap (known_result (queued_from 0 ops)) (seq 0 (length ops)))
    (queued_from 0 ops) =
  imap (fun i o => set_tablet (op_tablet o) (queued o i)) ops.
Proof.
  intros Hall. apply list_eq. intros i. rewrite list_lookup_imap.
  destruct (ops !! i) as [o|] eqn:Ho.
  - rewrite Forall_forall in Hall.
    destruct (Hall o (list_elem_of_lookup_2 _ _ _ Ho)) as [t Ht].
    assert (Hq : queued_from 0 ops !! i = Some (queued o i)).
    { unfold queued_from. by rewrite list_lookup_imap, Ho. }
    assert (Hr : known_result (queued_from 0 ops) i = Some (i, inr t)).
    { unfold known_result. rewrite Hq. simpl. by rewrite Ht. }
    rewrite (lookups_recorded_there _ _ (i, inr t)).
    + simpl. rewrite Hq, Ht. reflexivity.
    + apply NoDup_known_results, NoDup_seq.
    + apply list_elem_of_omap. exists i. split; [|done].
      apply elem_of_seq. apply lookup_lt_Some in Ho. lia.
  - simpl. apply lookup_ge_None. rewrite length_lookups_recorded.
    unfold queued_from. rewrite length_imap. by apply lookup_ge_None.
Qed.

(** [FlushAsync] for ops whose tablets are all known: the meta cache is
    not asked, every op gets its tablet in the queue, the count of
    outstanding lookups reaches zero at the last op, and [FlushAsync]
    goes on into [AllLookupsDone] within the same call, in the state
    [kResolvingTablets] and with the callback stored. *)
Theorem FlushAsync_with_known_tablets (w : World) (cb : Z) (retry : bool) :
  state_ (bat w) = kGatheringOps -> ops_queue_ (bat w) = [] ->
  ops_ (bat w) <> [] -> Z.of_nat (length (ops_ (bat w))) < 2 ^ 64 ->
  Forall (fun o => ok (key_status o) = true /\ is_Some (op_tablet o)) (ops_ (bat w)) ->
  exists w2,
    FlushAsync env cb retry w = AllLookupsDone env w2 /\
    state_ (bat w2) = kResolvingTablets /\
    flush_callback_ (bat w2) = Some cb /\
    outstanding_lookups_ (bat w2) = 0 /\
    ops_queue_ (bat w2) =
      imap (fun i o => set_tablet (op_tablet o) (queued o i)) (ops_ (bat w)) /\
    lookups_started w2 = lookups_started w /\
    callbacks w2 = callbacks w /\ sent_rpcs w2 = sent_rpcs w /\ pool w2 = pool w.
Proof.
  intros Hst Hq Hne Hbound Hops. rewrite FlushAsync_resolve_eq by done.
  destruct (flush_started_facts env cb retry w) as (Hb0 & Hp0 & Hc0 & Hr0 & Hl0).
  set (w0 := flush_started env cb retry w) in *.
  unfold bind at 1. rewrite FlushAsync_fill_queue_ok
    by (eapply Forall_impl; [exact Hops|]; by intros o [? _]).
  destruct (enqueue_all (ops_ (bat w)) w0) as (Hb1 & Hp1 & Hc1 & Hr1).
  pose proof (lookups_started_enqueue_all (ops_ (bat w)) w0) as Hl1.
  set (w1 := foldl (fun w o => enqueue o w) w0 (ops_ (bat w))) in *.
  set (ops := ops_ (bat w)) in *.
  assert (Hq1 : ops_queue_ (bat w1) = queued_from 0 ops).
  { rewrite Hb1, Hb0. simpl. by rewrite Hq. }
  assert (Hn1 : outstanding_lookups_ (bat w1) = Z.of_nat (length ops)).
  { rewrite Hb1, Hb0. simpl. apply Z.mod_small. fold ops. lia. }
  assert (Hknown : Forall (fun o => is_Some (op_tablet o)) ops).
  { eapply Forall_impl; [exact Hops|]. by intros o [_ ?]. }
  unfold bind at 1. unfold get. change (negb true) with false. cbv beta iota.
  rewrite Hq1. unfold queued_from at 1. rewrite length_imap.
  destruct (length ops) as [|m] eqn:Hlen; [by destruct ops|].
  assert (Hall : forall p, (p < S m)%nat ->
            exists o t, ops !! p = Some o /\ op_tablet o = Some t /\
              known_result (queued_from 0 ops) p = Some (p, inr t)).
  { intros p Hp. destruct (lookup_lt_is_Some_2 ops p) as [o Ho]; [lia|].
    rewrite Forall_forall in Hknown.
    destruct (Hknown o (list_elem_of_lookup_2 _ _ _ Ho)) as [t Ht].
    exists o, t. split; [done|]. split; [done|].
    unfold known_result, queued_from. rewrite list_lookup_imap, Ho. simpl. by rewrite Ht. }
  destruct (known_counted_down (seq 0 m) w1) as (w1' & Hrun & He & Hp & Hb).
  { rewrite Hq1. apply Forall_forall. intros p Hp. apply elem_of_seq in Hp.
    destruct (Hall p) as (o & t & _ & _ & Hr); [lia|]. by eexists. }
  { rewrite Hn1, length_seq. lia. }
  rewrite seq_S. simpl "+"%nat. rewrite (for_each_snoc _ _ _ _ _ Hrun).
  destruct (Hall m) as (o & t & Ho & Ht & Hr); [lia|].
  assert (Hq1' : ops_queue_ (bat w1') =
                 lookups_recorded (omap (known_result (queued_from 0 ops)) (seq 0 m))
                   (queued_from 0 ops)) by (by rewrite Hb, Hq1).
  assert (Hop : exists op, ops_queue_ (bat w1') !! m = Some op /\
                  op_tablet (yb_op op) = Some t).
  { destruct (lookup_lt_is_Some_2 (ops_queue_ (bat w1')) m) as [op Hop].
    { rewrite Hq1', length_lookups_recorded. unfold queued_from.
      rewrite length_imap. lia. }
    exists op. split; [done|]. rewrite Hq1' in Hop.
    apply lookups_recorded_same_op in Hop as (op0 & Hop0 & -> & _).
    unfold queued_from in Hop0. rewrite list_lookup_imap, Ho in Hop0.
    simpl in Hop0. injection Hop0 as <-. exact Ht. }
  destruct Hop as (op & Hop & Hknown_op).
  rewrite (FlushAsync_lookup_known env m op t) by done.
  rewrite TabletLookupFinished_eq by (by eexists). cbv zeta.
  assert (Hn1' : outstanding_lookups_ (bat w1') = 1).
  { rewrite Hb. simpl. rewrite Hn1, length_seq. lia. }
  rewrite Hn1'. change (decrement 1 =? 0) with true. cbv iota.
  match goal with |- context [AllLookupsDone env ?x = _] => set (w2 := x) end.
  exists w2. split; [reflexivity|].
  assert (Hs : state_ (bat w1') = kResolvingTablets /\
               flush_callback_ (bat w1') = Some cb).
  { rewrite Hb. simpl. rewrite Hb1. simpl. by rewrite Hb0. }
  destruct Hs as [Hs Hf].
  split; [exact Hs|]. split; [exact Hf|].
  split; [change (decrement (outstanding_lookups_ (bat w1')) = 0); by rewrite Hn1'|].
  split.
  { change (alter (record_lookup (inr t)) m (ops_queue_ (bat w1')) =
            imap (fun i o => set_tablet (op_tablet o) (queued o i)) ops).
    rewrite Hq1', <- all_known_recorded by done. rewrite Hlen, seq_S, omap_app.
    simpl. rewrite Hr. simpl. by rewrite lookups_recorded_snoc. }
  change (lookups_started w2) with (lookups_started w1').
  change (callbacks w2) with (callbacks w1').
  change (sent_rpcs w2) with (sent_rpcs w1').
  change (pool w2) with (pool w1').
  rewrite <- Hl0, <- Hc0, <- Hr0, <- Hp0, <- Hl1, <- Hc1, <- Hr1, <- Hp1, Hp.
  unfold lookups_started, callbacks, sent_rpcs. by rewrite He.
Qed.

End Known.

(** The theorem at two writes with known tablets. *)
Lemma FlushAsync_with_known_tablets_example :
  exists w2,
    FlushAsync env0 7 false two_known_writes = AllLookupsDone env0 w2 /\
    map tablet (ops_queue_ (bat w2)) = [Some tabA; Some tabB] /\
    outstanding_lookups_ (bat w2) = 0 /\ lookups_started w2 = [].
Proof.
  destruct (FlushAsync_with_known_tablets env0 two_known_writes 7 false)
    as (w2 & Hrun & _ & _ & Hcount & Hqueue & Hasked & _).
  - reflexivity.
  - reflexivity.
  - discriminate.
  - reflexivity.
  - repeat (constructor; [split; [reflexivity|eexists; reflexivity]|]). constructor.
  - exists w2. split; [exact Hrun|]. rewrite Hqueue, Hcount, Hasked.
    repeat split; reflexivity.
Defined.

(** ** A whole flush *)

(** *** The lookups *)

Lemma bind_Done {A B} (c : M A) (k : A -> M B) (a : A) (w w1 : World) :
  c w = Done a w1 -> bind c k w = k a w1.
Proof. unfold bind. by intros ->. Qed.

Lemma then_pool_bind (c1 c2 : M unit) (w w1 : World) :
  c1 w = Done tt w1 -> then_pool (c1 >> c2) w = then_pool c2 w1.
Proof. unfold then_pool, bind. by intros ->. Qed.

Lemma then_pool_idle (c : M unit) (w w1 : World) :
  c w = Done tt w1 -> pool w1 = O -> then_pool c w = Done tt w1.
Proof. intros Hc Hp. unfold then_pool. rewrite (bind_Done _ _ _ _ _ Hc). by apply PoolRun_O. Qed.

Lemma for_each_fmap {A B} (g : A -> B) (f : B -> M unit) (l : list A) (w : World) :
  for_each (g <$> l) f w = for_each l (fun x => f (g x)) w.
Proof.
  revert w. induction l as [|x l IH]; intros w; [done|].
  simpl. unfold bind. destruct (f (g x) w) as [[] w1|e w1]; [apply IH|done].
Qed.

Lemma immediate_results_alter env f p queue ps :
  p ∉ ps -> immediate_results env (alter f p queue) ps = immediate_results env queue ps.
Proof.
  intros Hp. unfold immediate_results. apply list_omap_ext, Forall_Forall2_diag, Forall_forall.
  intros p' Hin. rewrite list_lookup_alter_ne; [done|]. intros ->. by apply Hp.
Qed.

Lemma immediate_results_cons env queue p ps :
  immediate_results env queue (p :: ps) =
  match queue !! p ≫= immediate env with
  | Some r => (p, r) :: immediate_results env queue ps
  | None => immediate_results env queue ps
  end.
Proof. unfold immediate_results. simpl. by destruct (queue !! p ≫= immediate env). Qed.

Lemma elem_of_immediate_results env queue ps r :
  r ∈ immediate_results env queue ps <->
  fst r ∈ ps /\ queue !! fst r ≫= immediate env = Some (snd r).
Proof.
  unfold immediate_results. rewrite list_elem_of_omap. split.
  - intros (p & Hp & Hr). destruct (queue !! p ≫= immediate env) as [x|] eqn:Hx; [|done].
    simpl in Hr. injection Hr as <-. simpl. by rewrite Hx.
  - intros [Hp Hr]. exists (fst r). split; [done|]. rewrite Hr. by destruct r.
Qed.

Lemma NoDup_immediate_results env queue ps :
  NoDup ps -> NoDup (map fst (immediate_results env queue ps)).
Proof.
  induction 1 as [|p ps Hfresh Hnd IH]; [constructor|].
  rewrite immediate_results_cons. destruct (queue !! p ≫= immediate env) as [r|]; [|done].
  simpl. constructor; [|done]. intros Hin. apply Hfresh.
  apply list_elem_of_fmap in Hin as (r' & Hp & Hin).
  apply elem_of_immediate_results in Hin as [Hin _]. by rewrite Hp.
Qed.

Lemma length_omap_None {A B} (f : A -> option B) (l : list A) :
  (length (omap f l) + length (filter (fun x => ~ is_Some (f x)) l) = length l)%nat.
Proof.
  induction l as [|x l IH]; [done|]. cbn [omap list_omap length].
  destruct (f x) as [y|] eqn:Hy.
  - rewrite filter_cons_False by (rewrite Hy; intros H; apply H; by eexists).
    cbn [length]. lia.
  - rewrite filter_cons_True by (rewrite Hy; by intros [? ?]). cbn [length]. lia.
Qed.

Lemma filter_ext_elem {A} (P Q : A -> Prop) `{forall x, Decision (P x)}
    `{forall x, Decision (Q x)} (l : list A) :
  (forall x, x ∈ l -> P x <-> Q x) -> filter P l = filter Q l.
Proof.
  induction l as [|x l IH]; intros Hext; [done|].
  rewrite !filter_cons.
  pose proof (Hext x (list_elem_of_here _ _)) as Hx.
  rewrite IH by (intros y Hy; apply Hext; by apply list_elem_of_further).
  destruct (decide (P x)), (decide (Q x)); tauto.
Qed.

Lemma lookups_recorded_app r1 r2 queue :
  lookups_recorded (r1 ++ r2) queue = lookups_recorded r2 (lookups_recorded r1 queue).
Proof. unfold lookups_recorded. by rewrite foldl_app. Qed.

Lemma queued_from_lookup ops p :
  queued_from 0 ops !! p = (fun o => queued o p) <$> ops !! p.
Proof. unfold queued_from. by rewrite list_lookup_imap. Qed.

(** When every op has its result once among the results that were
    recorded, the queue is the queue of the answered lookups. *)
Lemma lookups_recorded_answered env sur ops results :
  NoDup (map fst results) ->
  (forall p o, ops !! p = Some o ->
     (p, lookup_result_of env sur p (queued o p)) ∈ results) ->
  lookups_recorded results (queued_from 0 ops) = lookups_answered env sur ops.
Proof.
  intros Hnd Hall. apply list_eq. intros p. unfold lookups_answered.
  rewrite list_lookup_imap. destruct (ops !! p) as [o|] eqn:Ho; simpl.
  - rewrite (lookups_recorded_there results _ (p, lookup_result_of env sur p (queued o p)))
      by auto.
    simpl. by rewrite queued_from_lookup, Ho.
  - apply lookup_ge_None. rewrite length_lookups_recorded. unfold queued_from.
    rewrite length_imap. by apply lookup_ge_None.
Qed.

Lemma unresolved_record_lookup r op :
  lookup_failed_properly r -> unresolved (record_lookup (snd r) op) = false.
Proof.
  unfold lookup_failed_properly, unresolved, record_lookup.
  destruct (snd r) as [s|t]; simpl; [|done]. intros ->. by destruct (tablet op).
Qed.

Lemma asked_lookup_alter r p queue p' :
  asked_lookup (alter (record_lookup r) p queue) p' = asked_lookup queue p'.
Proof.
  unfold asked_lookup. destruct (decide (p' = p)) as [->|Hne].
  - rewrite list_lookup_alter_eq. destruct (queue !! p) as [op|]; [|done].
    by destruct r.
  - by rewrite list_lookup_alter_ne.
Qed.

Lemma gathering_facts w :
  gathering w ->
  state_ (bat w) = kGatheringOps /\ ops_queue_ (bat w) = [] /\
  ops_info_groups (bat w) = [] /\ callbacks w = [] /\ sent_rpcs w = [] /\
  lookups_started w = [] /\ pool w = O.
Proof.
  intros (Hst & Hq & Hg & He & Hp). unfold callbacks, sent_rpcs, lookups_started.
  by rewrite He.
Qed.

Section LookupsAtOnce.

Variable env : Env.

Lemma FlushAsync_lookup_immediate position op r w :
  ops_queue_ (bat w) !! position = Some op -> immediate env op = Some r ->
  exists w0,
    FlushAsync_lookup env position w = TabletLookupFinished env position r w0 /\
    bat w0 = bat w /\ pool w0 = pool w /\ callbacks w0 = callbacks w /\
    sent_rpcs w0 = sent_rpcs w /\
    lookups_started w0 =
      lookups_started w ++ omap (asked_lookup (ops_queue_ (bat w))) [position].
Proof.
  intros Hop Hr. unfold immediate in Hr. unfold FlushAsync_lookup. unfold bind at 1.
  unfold get. unfold asked_lookup. simpl. rewrite Hop. simpl.
  destruct (op_tablet (yb_op op)) as [t|].
  - injection Hr as <-. exists w. by rewrite app_nil_r.
  - exists (add_effect (LookupTabletByKey position (partition_key op)) w).
    unfold bind. unfold emit. rewrite Hr.
    rewrite callbacks_add_effect, sent_rpcs_add_effect, lookups_started_add_effect,
      !app_nil_r. done.
Qed.

Lemma FlushAsync_lookup_later position op w :
  ops_queue_ (bat w) !! position = Some op -> immediate env op = None ->
  FlushAsync_lookup env position w =
  Done tt (add_effect (LookupTabletByKey position (partition_key op)) w) /\
  asked_lookup (ops_queue_ (bat w)) position = Some (position, partition_key op).
Proof.
  intros Hop Hr. unfold immediate in Hr. unfold asked_lookup. rewrite Hop. simpl.
  destruct (op_tablet (yb_op op)) as [t|] eqn:Ht; [done|].
  split; [by apply FlushAsync_lookup_asks|done].
Qed.

(** The second loop of [FlushAsync] over positions whose results do not
    bring the count of outstanding lookups to zero: the results that are
    there at once are recorded and counted, the other lookups are left to
    the meta cache. *)
Lemma immediate_counted_down ps : forall w,
  NoDup ps ->
  Forall (fun p => is_Some (ops_queue_ (bat w) !! p)) ps ->
  Z.of_nat (length (immediate_results env (ops_queue_ (bat w)) ps)) <
    outstanding_lookups_ (bat w) < 2 ^ 64 ->
  exists w1,
    for_each ps (FlushAsync_lookup env) w = Done tt w1 /\
    pool w1 = pool w /\ callbacks w1 = callbacks w /\ sent_rpcs w1 = sent_rpcs w /\
    lookups_started w1 = lookups_started w ++ omap (asked_lookup (ops_queue_ (bat w))) ps /\
    bat w1 = set_outstanding_lookups
               (outstanding_lookups_ (bat w) -
                Z.of_nat (length (immediate_results env (ops_queue_ (bat w)) ps)))
               (set_ops_queue
                  (lookups_recorded (immediate_results env (ops_queue_ (bat w)) ps)
                     (ops_queue_ (bat w))) (bat w)).
Proof.
  induction ps as [|p ps IH]; intros w Hnd Hpos Hcount.
  - exists w. split_and!; try done; [by rewrite app_nil_r|].
    simpl. rewrite Z.sub_0_r. by destruct (bat w).
  - apply NoDup_cons in Hnd as [Hfresh Hnd].
    apply Forall_cons in Hpos as [[op Hop] Hpos].
    rewrite immediate_results_cons in *. rewrite Hop in *. simpl in Hcount |- *.
    destruct (immediate env op) as [r|] eqn:Hr.
    + simpl length in Hcount.
      destruct (FlushAsync_lookup_immediate p op r w Hop Hr)
        as (w0 & Hrun0 & Hb0 & Hp0 & Hc0 & Hs0 & Hl0).
      unfold bind. rewrite Hrun0.
      rewrite TabletLookupFinished_eq by (rewrite Hb0; by eexists).
      cbv zeta. rewrite Hb0.
      assert (Hdec : decrement (outstanding_lookups_ (bat w)) =
                     outstanding_lookups_ (bat w) - 1).
      { unfold decrement. apply Z.mod_small. lia. }
      rewrite Hdec.
      destruct (Z.eqb_spec (outstanding_lookups_ (bat w) - 1) 0) as [?|_]; [lia|].
      match goal with |- context [for_each _ _ ?x] => set (w1 := x) end.
      assert (Hq1 : ops_queue_ (bat w1) = alter (record_lookup r) p (ops_queue_ (bat w))).
      { unfold w1. simpl. by rewrite Hb0. }
      assert (Hn1 : outstanding_lookups_ (bat w1) = outstanding_lookups_ (bat w) - 1).
      { unfold w1. simpl. by rewrite Hb0. }
      destruct (IH w1) as (w2 & Hrun & Hp & Hc & Hs & Hl & Hb); [done| | |].
      { rewrite Hq1. eapply Forall_impl; [exact Hpos|]. intros p' [op' Hp'].
        destruct (decide (p' = p)) as [->|Hne].
        - rewrite list_lookup_alter_eq, Hop. by eexists.
        - rewrite list_lookup_alter_ne by done. by eexists. }
      { rewrite Hq1, Hn1, immediate_results_alter by done. lia. }
      exists w2. split; [exact Hrun|].
      rewrite Hp, Hc, Hs, Hl, Hb, Hq1, Hn1, immediate_results_alter by done.
      split; [exact Hp0|].
      split; [unfold w1; by rewrite callbacks_upd|].
      split; [unfold w1; by rewrite sent_rpcs_upd|].
      split.
      { change (lookups_started w1) with (lookups_started w0). rewrite Hl0.
        rewrite <- app_assoc. f_equal.
        transitivity (omap (asked_lookup (ops_queue_ (bat w))) ([p] ++ ps)); [|reflexivity].
        rewrite omap_app. f_equal.
        apply list_omap_ext, Forall_Forall2_diag, Forall_forall.
        intros p' _. apply asked_lookup_alter. }
      rewrite lookups_recorded_cons. simpl fst. simpl snd.
      replace (outstanding_lookups_ (bat w) - 1 -
               Z.of_nat (length (immediate_results env (ops_queue_ (bat w)) ps)))
        with (outstanding_lookups_ (bat w) -
              Z.of_nat (length ((p, r) :: immediate_results env (ops_queue_ (bat w)) ps)))
        by (simpl length; lia).
      unfold w1. simpl. rewrite Hb0. by destruct (bat w).
    + destruct (FlushAsync_lookup_later p op w Hop Hr) as [Hrun0 Hasked].
      unfold bind. rewrite Hrun0.
      destruct (IH (add_effect (LookupTabletByKey p (partition_key op)) w))
        as (w2 & Hrun & Hp & Hc & Hs & Hl & Hb); [done|done|done|].
      exists w2. split; [exact Hrun|]. rewrite Hp, Hc, Hs, Hl, Hb.
      rewrite callbacks_add_effect, sent_rpcs_add_effect, lookups_started_add_effect,
        !app_nil_r.
      split_and!; try done. rewrite <- app_assoc. f_equal.
      transitivity (omap (asked_lookup (ops_queue_ (bat w))) ([p] ++ ps)); [|reflexivity].
      rewrite omap_app. f_equal. simpl. by rewrite Hasked.
Qed.

Variable sur : Surroundings.

Hypothesis lookup_order_proper : forall l, lookup_order sur l ≡ₚ l.
Hypothesis lookup_reply_proper : forall p s, lookup_reply sur p = inl s -> ok s = false.
Hypothesis meta_cache_proper : forall op s, meta_cache env op = Some (inl s) -> ok s = false.

Lemma immediate_proper op r p : immediate env op = Some r -> lookup_failed_properly (p, r).
Proof.
  unfold immediate, lookup_failed_properly. simpl.
  destruct (op_tablet (yb_op op)) as [t|]; [by intros [= <-]|].
  destruct r as [s|t]; [|done]. apply meta_cache_proper.
Qed.

Lemma lookup_result_of_proper p op : lookup_failed_properly (p, lookup_result_of env sur p op).
Proof.
  unfold lookup_result_of. destruct (immediate env op) as [r|] eqn:Hr; simpl.
  - by apply (immediate_proper op).
  - unfold lookup_failed_properly. simpl.
    destruct (lookup_reply sur p) as [s|t] eqn:Hs; [|done]. by apply (lookup_reply_proper p).
Qed.

Lemma lookups_answered_resolved ops : Forall resolved (lookups_answered env sur ops).
Proof.
  apply Forall_lookup. intros p op. unfold lookups_answered. rewrite list_lookup_imap.
  destruct (ops !! p) as [o|]; [|done]. simpl. intros [= <-].
  apply (record_lookup_resolved (p, lookup_result_of env sur p (queued o p))).
  apply lookup_result_of_proper.
Qed.

Lemma lookups_answered_lookup ops p op :
  lookups_answered env sur ops !! p = Some op ->
  ops !! p = Some (yb_op op) /\ sequence_number op = p.
Proof.
  unfold lookups_answered. rewrite list_lookup_imap.
  destruct (ops !! p) as [o|]; [|done]. simpl. intros [= <-].
  unfold record_lookup. by destruct (lookup_result_of env sur p (queued o p)).
Qed.

(** Which lookups are under way after the second loop of [FlushAsync]. *)
Lemma under_way_after_loop ops p o :
  ops !! p = Some o ->
  from_option unresolved false
    (lookups_recorded (immediate_results env (queued_from 0 ops) (seq 0 (length ops)))
       (queued_from 0 ops) !! p) = true <->
  ~ is_Some (queued_from 0 ops !! p ≫= immediate env).
Proof.
  intros Ho. set (q1 := queued_from 0 ops).
  set (imm := immediate_results env q1 (seq 0 (length ops))).
  assert (Hq1 : q1 !! p = Some (queued o p)) by (unfold q1; by rewrite queued_from_lookup, Ho).
  rewrite Hq1. cbn [mbind option_bind].
  destruct (immediate env (queued o p)) as [r|] eqn:Hr.
  - assert (Hin : (p, r) ∈ imm).
    { apply elem_of_immediate_results. simpl. rewrite Hq1. split; [|done].
      apply elem_of_seq. apply lookup_lt_Some in Ho. lia. }
    pose proof (lookups_recorded_there imm q1 (p, r)
                  (NoDup_immediate_results _ _ _ (NoDup_seq _ _)) Hin) as Hthere.
    simpl in Hthere. rewrite Hthere, Hq1. simpl.
    rewrite (unresolved_record_lookup (p, r)) by (by apply (immediate_proper (queued o p))).
    split; [done|]. intros H. destruct H. by eexists.
  - rewrite lookups_recorded_elsewhere.
    + rewrite Hq1. simpl. split; [by intros _ [? ?]|done].
    + intros Hin. apply list_elem_of_fmap in Hin as (r & Hp & Hin).
      apply elem_of_immediate_results in Hin as [_ Hin]. rewrite <- Hp, Hq1 in Hin.
      simpl in Hin. congruence.
Qed.

End LookupsAtOnce.

Section LookupsAnswered.

Variable env : Env.
Variable sur : Surroundings.

Hypothesis lookup_order_proper : forall l, lookup_order sur l ≡ₚ l.
Hypothesis lookup_reply_proper : forall p s, lookup_reply sur p = inl s -> ok s = false.
Hypothesis meta_cache_proper : forall op s, meta_cache env op = Some (inl s) -> ok s = false.

Lemma answer_lookups_idle w :
  lookups_under_way w = [] -> answer_lookups env sur w = Done tt w.
Proof.
  intros Hnone. unfold answer_lookups. rewrite Hnone.
  by rewrite (proj1 (Permutation_nil_r _) (lookup_order_proper [])).
Qed.

Lemma no_lookup_started w : lookups_started w = [] -> lookups_under_way w = [].
Proof. unfold lookups_under_way. by intros ->. Qed.

Lemma no_lookup_under_way w :
  Forall (fun op => unresolved op = false) (ops_queue_ (bat w)) ->
  lookups_under_way w = [].
Proof.
  intros Hall. unfold lookups_under_way.
  induction (fst <$> lookups_started w) as [|p ps IH]; [done|].
  rewrite filter_cons_False; [done|].
  destruct (ops_queue_ (bat w) !! p) as [op|] eqn:Hop; [|done]. simpl.
  rewrite Forall_forall in Hall.
  by rewrite (Hall op (list_elem_of_lookup_2 _ _ _ Hop)).
Qed.

Lemma fst_asked_lookups queue (ps : list nat) :
  fst <$> omap (asked_lookup queue) ps =
  filter (fun p => is_Some (asked_lookup queue p)) ps.
Proof.
  induction ps as [|p ps IH]; [done|]. cbn [omap list_omap].
  destruct (asked_lookup queue p) as [x|] eqn:Hx.
  - rewrite filter_cons_True by (rewrite Hx; by eexists). cbn [fmap list_fmap].
    f_equal; [|exact IH]. unfold asked_lookup in Hx.
    destruct (queue !! p) as [op|]; [|done]. simpl in Hx.
    destruct (op_tablet (yb_op op)); [done|]. by injection Hx as <-.
  - rewrite filter_cons_False by (rewrite Hx; by intros [? ?]). exact IH.
Qed.

(** [FlushAsync] up to its second loop, for ops whose keys are usable. *)
Lemma FlushAsync_to_lookups cb retry w :
  state_ (bat w) = kGatheringOps -> ops_queue_ (bat w) = [] ->
  Z.of_nat (length (ops_ (bat w))) < 2 ^ 64 ->
  Forall (fun o => ok (key_status o) = true) (ops_ (bat w)) ->
  exists w1,
    FlushAsync env cb retry w =
      for_each (seq 0 (length (ops_ (bat w)))) (FlushAsync_lookup env) w1 /\
    bat w1 = set_ops_queue (queued_from 0 (ops_ (bat w))) (FlushAsync_started cb (bat w)) /\
    outstanding_lookups_ (bat w1) = Z.of_nat (length (ops_ (bat w))) /\
    pool w1 = pool w /\ callbacks w1 = callbacks w /\ sent_rpcs w1 = sent_rpcs w /\
    lookups_started w1 = lookups_started w.
Proof.
  intros Hst Hq Hbound Hkeys. rewrite FlushAsync_resolve_eq by done.
  destruct (flush_started_facts env cb retry w) as (Hb0 & Hp0 & Hc0 & Hr0 & Hl0).
  pose proof (lookups_started_enqueue_all (ops_ (bat w))
                (flush_started env cb retry w)) as Hl1.
  set (w0 := flush_started env cb retry w) in *.
  unfold bind at 1. rewrite FlushAsync_fill_queue_ok by done.
  destruct (enqueue_all (ops_ (bat w)) w0) as (Hb1 & Hp1 & Hc1 & Hr1).
  set (w1 := foldl (fun w o => enqueue o w) w0 (ops_ (bat w))) in *.
  assert (Hb1' : bat w1 =
            set_ops_queue (queued_from 0 (ops_ (bat w))) (FlushAsync_started cb (bat w))).
  { rewrite Hb1, Hb0. simpl. by rewrite Hq. }
  exists w1. split.
  { change (negb true) with false. cbv beta iota. unfold bind at 1. unfold get.
    rewrite Hb1'. simpl ops_queue_. unfold queued_from. by rewrite length_imap. }
  split; [exact Hb1'|]. split.
  { rewrite Hb1'. simpl. apply Z.mod_small. lia. }
  rewrite <- Hp0, <- Hc0, <- Hr0, <- Hl0. done.
Qed.

Lemma length_immediate_results queue ps :
  (length (immediate_results env queue ps) +
   length (filter (fun p => ~ is_Some (queue !! p ≫= immediate env)) ps) = length ps)%nat.
Proof.
  induction ps as [|p ps IH]; [done|]. rewrite immediate_results_cons.
  destruct (queue !! p ≫= immediate env) as [r|] eqn:Hr.
  - rewrite filter_cons_False by (rewrite Hr; intros H; apply H; by eexists).
    cbn [length]. lia.
  - rewrite filter_cons_True by (rewrite Hr; by intros [? ?]). cbn [length]. lia.
Qed.

Lemma immediate_results_app queue ps1 ps2 :
  immediate_results env queue (ps1 ++ ps2) =
  immediate_results env queue ps1 ++ immediate_results env queue ps2.
Proof. unfold immediate_results. apply omap_app. Qed.

Lemma lookup_result_of_immediate p op r :
  immediate env op = Some r -> lookup_result_of env sur p op = r.
Proof. unfold lookup_result_of. by intros ->. Qed.

Lemma lookup_result_of_later p op :
  immediate env op = None -> lookup_result_of env sur p op = lookup_reply sur p.
Proof. unfold lookup_result_of. by intros ->. Qed.

(** From [FlushAsync] to [AllLookupsDone].  When the keys of all ops are
    usable, [FlushAsync] and the answers of the meta cache record the result
    of the lookup of every op, and the call of [TabletLookupFinished] that
    brings the last result, within [FlushAsync] or from the meta cache,
    goes on into [AllLookupsDone]. *)
Lemma flush_reaches_AllLookupsDone cb retry w :
  gathering w -> ops_ (bat w) <> [] -> Z.of_nat (length (ops_ (bat w))) < 2 ^ 64 ->
  Forall (fun o => ok (key_status o) = true) (ops_ (bat w)) ->
  exists w2,
    state_ (bat w2) = kResolvingTablets /\ flush_callback_ (bat w2) = Some cb /\
    ops_info_groups (bat w2) = [] /\ transaction_ (bat w2) = transaction_ (bat w) /\
    ops_queue_ (bat w2) = lookups_answered env sur (ops_ (bat w)) /\
    callbacks w2 = [] /\ sent_rpcs w2 = [] /\ pool w2 = O /\
    forall (k : M unit) w3,
      then_pool (AllLookupsDone env) w2 = Done tt w3 ->
      Forall (fun op => unresolved op = false) (ops_queue_ (bat w3)) -> pool w3 = O ->
      (then_pool (FlushAsync env cb retry) >> then_pool (answer_lookups env sur) >> k) w =
      k w3.
Proof.
  intros (Hst & Hq & Hg & Hc & Hs & Hl0 & Hp)%gathering_facts Hne Hbound Hkeys.
  destruct (FlushAsync_to_lookups cb retry w Hst Hq Hbound Hkeys)
    as (w1 & Hfa & Hb1 & Hn1 & Hp1 & Hc1 & Hs1 & Hl1).
  set (ops := ops_ (bat w)) in *. set (n := length ops) in *.
  set (q1 := queued_from 0 ops) in *.
  assert (Hq1 : ops_queue_ (bat w1) = q1) by (by rewrite Hb1).
  assert (Hlq1 : length q1 = n) by (unfold q1, queued_from; by rewrite length_imap).
  assert (Hlook : forall p, (p < n)%nat -> exists o, ops !! p = Some o /\
                    q1 !! p = Some (queued o p)).
  { intros p Hlt. destruct (lookup_lt_is_Some_2 ops p Hlt) as [o Ho].
    exists o. split; [done|]. unfold q1. by rewrite queued_from_lookup, Ho. }
  assert (Hlt_ops : forall p o, ops !! p = Some o -> (p < n)%nat).
  { intros p o Ho. by apply lookup_lt_Some in Ho. }
  set (imm := immediate_results env q1 (seq 0 n)).
  set (later := filter (fun p => ~ is_Some (q1 !! p ≫= immediate env)) (seq 0 n)).
  pose proof (length_immediate_results q1 (seq 0 n)) as Hlen.
  fold imm in Hlen. fold later in Hlen. rewrite length_seq in Hlen.
  assert (Hndi : NoDup (map fst imm)) by apply NoDup_immediate_results, NoDup_seq.
  destruct (decide (length imm = n)) as [Hall|Hsome].
  - (* every result is there within FlushAsync *)
    assert (Hnil : later = []) by (apply length_zero_iff_nil; lia).
    destruct n as [|m] eqn:Hn; [by destruct ops|].
    assert (Himm : forall p, (p < S m)%nat ->
              exists o r, ops !! p = Some o /\ q1 !! p = Some (queued o p) /\
                immediate env (queued o p) = Some r).
    { intros p Hlt. destruct (Hlook p Hlt) as (o & Ho & Hqp).
      destruct (immediate env (queued o p)) as [r|] eqn:Hr; [by exists o, r|].
      assert (Hin : p ∈ later).
      { apply list_elem_of_filter. split; [|apply elem_of_seq; lia].
        rewrite Hqp. simpl. rewrite Hr. by intros [? ?]. }
      rewrite Hnil in Hin. by apply elem_of_nil in Hin. }
    destruct (Himm m) as (o & r & Ho & Hqm & Hr); [lia|].
    assert (Hsplit : imm = immediate_results env q1 (seq 0 m) ++ [(m, r)]).
    { unfold imm. rewrite seq_S, immediate_results_app. f_equal.
      rewrite immediate_results_cons. simpl. rewrite Hqm. simpl. by rewrite Hr. }
    set (imm_m := immediate_results env q1 (seq 0 m)) in *.
    assert (Hlm : length imm_m = m).
    { rewrite Hsplit, length_app in Hall. simpl in Hall. lia. }
    destruct (immediate_counted_down env (seq 0 m) w1)
      as (w1' & Hrun & Hp' & Hc' & Hs' & _ & Hb').
    { apply NoDup_seq. }
    { apply Forall_forall. intros p Hin%elem_of_seq. rewrite Hq1.
      destruct (Hlook p) as (o' & _ & ->); [lia|]. by eexists. }
    { rewrite Hq1, Hn1. fold imm_m. lia. }
    rewrite Hq1, Hn1 in Hb'. fold imm_m in Hb'. rewrite Hlm in Hb'.
    assert (Hqm' : ops_queue_ (bat w1') !! m = Some (queued o m)).
    { rewrite Hb'. simpl. rewrite lookups_recorded_elsewhere; [done|].
      intros Hin. apply list_elem_of_fmap in Hin as (r' & Hm & Hin).
      apply elem_of_immediate_results in Hin as [Hin _]. apply elem_of_seq in Hin. lia. }
    destruct (FlushAsync_lookup_immediate env m (queued o m) r w1' Hqm' Hr)
      as (w0' & Hrun0 & Hb0 & Hp0 & Hc0 & Hs0 & _).
    assert (Hfa' : FlushAsync env cb retry w =
              AllLookupsDone env
                (upd (fun b => set_outstanding_lookups (decrement (outstanding_lookups_ b))
                        (set_ops_queue (alter (record_lookup r) m (ops_queue_ b)) b)) w0')).
    { rewrite Hfa, seq_S. simpl "+"%nat. rewrite (for_each_snoc _ _ _ _ _ Hrun), Hrun0.
      rewrite TabletLookupFinished_eq by (rewrite Hb0; by eexists).
      cbv zeta. rewrite Hb0, Hb'. simpl outstanding_lookups_.
      replace (Z.of_nat (S m) - Z.of_nat m) with 1 by lia. reflexivity. }
    match type of Hfa' with _ = AllLookupsDone env ?x => exists x end.
    split_and!; [..|intros k w3 Hdone Hst3 Hp3].
    + simpl. by rewrite Hb0, Hb', Hb1.
    + simpl. by rewrite Hb0, Hb', Hb1.
    + simpl. by rewrite Hb0, Hb', Hb1.
    + simpl. by rewrite Hb0, Hb', Hb1.
    + simpl. rewrite Hb0, Hb'. simpl.
      change (alter (record_lookup r) m (lookups_recorded imm_m q1))
        with (lookups_recorded [(m, r)] (lookups_recorded imm_m q1)).
      rewrite <- lookups_recorded_app, <- Hsplit.
      apply lookups_recorded_answered; [done|].
      intros p o' Ho'. apply elem_of_immediate_results. cbn [fst snd].
      pose proof (Hlt_ops p o' Ho') as Hlt.
      destruct (Himm p) as (o'' & r' & Ho'' & Hqp & Hr'); [done|].
      assert (o'' = o') as -> by congruence.
      split; [apply elem_of_seq; lia|].
      rewrite Hqp. simpl. by rewrite (lookup_result_of_immediate _ _ _ Hr').
    + rewrite callbacks_upd. congruence.
    + rewrite sent_rpcs_upd. congruence.
    + rewrite pool_upd. congruence.
    + rewrite (bind_Done _ _ tt w w3).
      * rewrite (bind_Done _ _ tt w3 w3); [done|].
        apply then_pool_idle; [by apply answer_lookups_idle, no_lookup_under_way|done].
      * rewrite <- Hdone. by apply then_pool_eq.
  - (* some results come from the meta cache *)
    destruct (immediate_counted_down env (seq 0 n) w1)
      as (w1' & Hrun & Hp' & Hc' & Hs' & Hl' & Hb').
    { apply NoDup_seq. }
    { apply Forall_forall. intros p Hin%elem_of_seq. rewrite Hq1.
      destruct (Hlook p) as (o' & _ & ->); [lia|]. by eexists. }
    { rewrite Hq1, Hn1. fold imm. lia. }
    rewrite Hq1, Hn1 in Hb'. fold imm in Hb'.
    assert (Hway : lookups_under_way w1' = later).
    { unfold lookups_under_way. rewrite Hl', Hl1, Hl0, Hq1. simpl app.
      rewrite fst_asked_lookups, list_filter_filter, Hb'. simpl ops_queue_.
      apply filter_ext_elem. intros p Hin%elem_of_seq.
      destruct (Hlook p) as (o & Ho & Hqp); [lia|].
      pose proof (under_way_after_loop env meta_cache_proper ops p o Ho) as Hunder.
      fold q1 in Hunder. fold n in Hunder. fold imm in Hunder. rewrite Hunder.
      split; [by intros [? _]|]. intros Hno. split; [done|].
      unfold asked_lookup. rewrite Hqp in Hno |- *. simpl in Hno |- *.
      unfold immediate in Hno. simpl in Hno.
      destruct (op_tablet o); [|by eexists]. destruct Hno. by eexists. }
    pose proof (lookup_order_proper later) as Hperm.
    set (l := lookup_order sur later) in *.
    assert (Hll : (length l = n - length imm)%nat) by (rewrite Hperm; lia).
    destruct (exists_last (l := l)) as (l' & last & Hl).
    { intros Hnil. rewrite Hnil in Hll. simpl in Hll. lia. }
    assert (Hin_l : forall p, p ∈ l -> (p < n)%nat /\ ~ is_Some (q1 !! p ≫= immediate env)).
    { intros p Hin. rewrite Hperm in Hin. apply list_elem_of_filter in Hin as [Hno Hin].
      apply elem_of_seq in Hin. split; [lia|done]. }
    set (reply := fun p : nat => (p, lookup_reply sur p)).
    destruct (lookups_counted_down env (reply <$> l') w1') as (w1'' & Hrun' & He'' & Hp'' & Hb'').
    { apply Forall_fmap, Forall_forall. intros p Hin. simpl.
      rewrite Hb'. simpl. rewrite length_lookups_recorded, Hlq1.
      apply Hin_l. rewrite Hl. apply elem_of_app. by left. }
    { rewrite length_fmap, Hb'. simpl outstanding_lookups_.
      rewrite Hl, length_app in Hll. simpl in Hll. lia. }
    rewrite for_each_fmap in Hrun'. simpl in Hrun'.
    rewrite length_fmap in Hb''. rewrite Hb' in Hb''. simpl in Hb''.
    assert (Hal : answer_lookups env sur w1' =
              AllLookupsDone env
                (upd (fun b => set_outstanding_lookups (decrement (outstanding_lookups_ b))
                        (set_ops_queue
                           (alter (record_lookup (lookup_reply sur last)) last (ops_queue_ b)) b))
                   w1'')).
    { unfold answer_lookups. rewrite Hway. fold l. rewrite Hl.
      rewrite (for_each_snoc _ _ _ _ _ Hrun').
      rewrite TabletLookupFinished_eq.
      - cbv zeta. rewrite Hb''. simpl outstanding_lookups_.
        replace (Z.of_nat n - Z.of_nat (length imm) - Z.of_nat (length l')) with 1;
          [reflexivity|].
        rewrite Hl, length_app in Hll. simpl in Hll. lia.
      - apply lookup_lt_is_Some. rewrite Hb''. simpl.
        rewrite !length_lookups_recorded, Hlq1. apply Hin_l. rewrite Hl.
        apply elem_of_app. right. apply list_elem_of_here. }
    match type of Hal with _ = AllLookupsDone env ?x => exists x end.
    split_and!; [..|intros k w3 Hdone Hst3 Hp3].
    + simpl. by rewrite Hb'', Hb1.
    + simpl. by rewrite Hb'', Hb1.
    + simpl. by rewrite Hb'', Hb1.
    + simpl. by rewrite Hb'', Hb1.
    + simpl. rewrite Hb''. simpl.
      change (alter (record_lookup (lookup_reply sur last)) last
                (lookups_recorded (reply <$> l') (lookups_recorded imm q1)))
        with (lookups_recorded [reply last]
                (lookups_recorded (reply <$> l') (lookups_recorded imm q1))).
      rewrite <- !lookups_recorded_app.
      replace ((reply <$> l') ++ [reply last]) with (reply <$> l)
        by (by rewrite Hl, fmap_app).
      apply lookups_recorded_answered.
      * rewrite map_app. apply NoDup_app. split; [done|]. split.
        -- intros p Hin1 Hin2. apply list_elem_of_fmap in Hin1 as (r & -> & Hin1).
           apply elem_of_immediate_results in Hin1 as [_ Hin1].
           apply list_elem_of_fmap in Hin2 as (r' & Hp2 & Hin2).
           apply list_elem_of_fmap in Hin2 as (p' & -> & Hin2). simpl in Hp2.
           destruct (Hin_l p' Hin2) as [_ Hno]. apply Hno. rewrite <- Hp2. by eexists.
        -- replace (map fst (reply <$> l)) with l.
           ++ rewrite Hperm. apply NoDup_filter, NoDup_seq.
           ++ rewrite <- list_fmap_compose. symmetry. apply list_fmap_id.
      * intros p o Ho. pose proof (Hlt_ops p o Ho) as Hlt.
        destruct (Hlook p) as (o' & Ho' & Hqp); [done|].
        assert (o' = o) as -> by congruence.
        apply elem_of_app. destruct (immediate env (queued o p)) as [r|] eqn:Hr.
        -- left. apply elem_of_immediate_results. cbn [fst snd].
           split; [apply elem_of_seq; lia|].
           rewrite Hqp. simpl. by rewrite (lookup_result_of_immediate _ _ _ Hr).
        -- right. rewrite (lookup_result_of_later _ _ Hr).
           apply (list_elem_of_fmap_2 reply). rewrite Hperm.
           apply list_elem_of_filter. split.
           ++ rewrite Hqp. simpl. rewrite Hr. by intros [? ?].
           ++ apply elem_of_seq. lia.
    + rewrite callbacks_upd. unfold callbacks. rewrite He''. fold (callbacks w1'). congruence.
    + rewrite sent_rpcs_upd. unfold sent_rpcs. rewrite He''. fold (sent_rpcs w1'). congruence.
    + rewrite pool_upd. congruence.
    + rewrite (bind_Done _ _ tt w w1').
      * rewrite (bind_Done _ _ tt w1' w3); [done|].
        rewrite <- Hdone. by apply then_pool_eq.
      * apply then_pool_idle; [by rewrite Hfa|congruence].
Qed.

End LookupsAnswered.

(** *** Grouping and dispatch *)

Lemma chained_length groups : forall start stop,
  chained start groups stop -> (start + length groups <= stop)%nat.
Proof.
  induction groups as [|g groups IH]; intros start stop Hch; simpl in *; [lia|].
  destruct Hch as (_ & Hlt & Hch). apply IH in Hch. lia.
Qed.

Lemma transaction_prepared b : transaction_ (prepared b) = transaction_ b.
Proof. unfold prepared. by destruct (transaction_ b) eqn:Ht. Qed.

Section GroupedDispatch.

Variable env : Env.

(** [AllLookupsDone] with a partition list version that does not match:
    the flush is aborted and its callback invoked. *)
Lemma AllLookupsDone_aborts cb w :
  state_ (bat w) = kResolvingTablets ->
  flush_callback_ (bat w) = Some cb -> pool w = O ->
  Forall resolved (ops_queue_ (bat w)) ->
  Exists (fun op => version_mismatch op = true)
         (surviving_ops env (ops_queue_ (bat w))) ->
  exists w' s,
    then_pool (AllLookupsDone env) w = Done tt w' /\
    callbacks w' = callbacks w ++ [(cb, s)] /\
    flush_callback_ (bat w') = None /\
    state_ (bat w') = kAborted /\
    sent_rpcs w' = sent_rpcs w /\ pool w' = O.
Proof.
  intros Hst Hcb Hpool Hres Hex.
  set (q := ops_queue_ (bat w)) in *.
  assert (Hne : ops_queue_ (bat (erased env w)) <> []).
  { rewrite bat_erased. simpl. fold q. intros Hnil. rewrite Hnil in Hex. by inv Hex. }
  destruct (AllLookupsDone_dispatch_cons env _ Hne) as (first & rest & Hsort & Hrun).
  rewrite bat_erased in Hsort. simpl in Hsort. fold q in Hsort.
  assert (Hperm : first :: rest ≡ₚ surviving_ops env q)
    by (rewrite <- Hsort; apply sort_ops_Permutation).
  assert (Hchk : Forall version_checkable (first :: rest)).
  { rewrite Hperm. eapply Forall_impl; [by apply surviving_resolved|].
    intros op Ht _. exact Ht. }
  assert (Hex' : Exists (fun op => version_mismatch op = true) (first :: rest))
    by (by rewrite Hperm).
  destruct (grouping_mismatch (first :: rest) 0%nat 0%nat (group (yb_op first))
              (tablet_get first) Hchk Hex')
    as (groups & op & requested & ours & Hgr & Hin & Hm).
  rewrite Hgr in Hrun.
  set (w5 := upd (push_groups groups) (sorted (erased env w))) in *.
  set (status := PartitionListVersionDoesNotMatch op requested ours) in *.
  assert (Hc5 : callbacks w5 = callbacks w).
  { unfold w5, sorted. by rewrite !callbacks_upd, callbacks_erased. }
  assert (Hr5 : sent_rpcs w5 = sent_rpcs w).
  { unfold w5, sorted. by rewrite !sent_rpcs_upd, sent_rpcs_erased. }
  destruct (Abort_ends env cb status w5) as (w' & Hab & Hcbs & Hslot & Hst' & Hs' & Hp');
    [exact Hcb|exact Hpool|].
  exists w', (aggregated (aborted status (bat w5))).
  split; [rewrite <- Hab; apply then_pool_eq; by rewrite AllLookupsDone_erased, Hrun|].
  rewrite Hcbs, Hs', Hc5, Hr5. done.
Qed.

(** [AllLookupsDone] with ops left whose partition list versions match:
    the queue is sorted and cut into groups, one per tablet and kind of
    operation, and [ExecuteOperations] is called. *)
Lemma AllLookupsDone_grouped w :
  state_ (bat w) = kResolvingTablets -> ops_info_groups (bat w) = [] ->
  surviving_ops env (ops_queue_ (bat w)) <> [] ->
  Forall resolved (ops_queue_ (bat w)) ->
  Forall (fun op => version_mismatch op = false) (surviving_ops env (ops_queue_ (bat w))) ->
  exists w6,
    AllLookupsDone env w = ExecuteOperations true w6 /\
    state_ (bat w6) = kTransactionPrepare /\
    ops_queue_ (bat w6) = sort_ops (surviving_ops env (ops_queue_ (bat w))) /\
    chained 0 (ops_info_groups (bat w6)) (length (ops_queue_ (bat w6))) /\
    Forall (fun g => exists t k,
              uniform (ops_queue_ (bat w6)) (group_begin g) (group_end g) t k)
           (ops_info_groups (bat w6)) /\
    transaction_ (bat w6) = transaction_ (bat w) /\
    flush_callback_ (bat w6) = flush_callback_ (bat w) /\
    pool w6 = pool w /\ callbacks w6 = callbacks w /\ sent_rpcs w6 = sent_rpcs w.
Proof.
  intros Hst Hg0 Hne Hres Hver.
  set (q := surviving_ops env (ops_queue_ (bat w))) in *.
  assert (Hne3 : ops_queue_ (bat (erased env w)) <> []) by (by rewrite bat_erased).
  destruct (AllLookupsDone_dispatch_cons env _ Hne3) as (first & rest & Hsort & Hrun).
  rewrite bat_erased in Hsort. simpl in Hsort. fold q in Hsort.
  assert (Hmatch : Forall version_matches (first :: rest)).
  { rewrite <- Hsort, sort_ops_Permutation. by apply version_matches_surviving. }
  destruct (grouping_grouped (first :: rest) [] 0%nat 0%nat (group (yb_op first))
              (tablet_get first) eq_refl (le_n _))
    as (groups & s & Hgr & Hch & Hun); [intros i op; lia|right; by eexists _, _|done|].
  simpl app in Hch, Hun. rewrite Hgr in Hrun. cbv beta iota zeta in Hrun.
  set (last := InFlightOpsGroup_new s (length (first :: rest))) in *.
  remember (upd (push_group last) (upd (push_groups groups) (sorted (erased env w))))
    as w6 eqn:Hw6.
  assert (Hb6q : ops_queue_ (bat w6) = first :: rest).
  { rewrite Hw6. unfold sorted. simpl. fold q. exact Hsort. }
  assert (Hb6g : ops_info_groups (bat w6) = groups ++ [last]).
  { rewrite Hw6. unfold sorted. simpl. by rewrite Hg0. }
  exists w6. split; [by rewrite AllLookupsDone_erased, Hrun by done|].
  split; [by rewrite Hw6|]. split; [by rewrite Hb6q|].
  rewrite Hb6q, Hb6g. split; [exact Hch|]. split; [exact Hun|].
  split; [by rewrite Hw6|]. split; [by rewrite Hw6|]. split; [by rewrite Hw6|].
  rewrite Hw6. unfold sorted.
  by rewrite !callbacks_upd, callbacks_erased, !sent_rpcs_upd, sent_rpcs_erased.
Qed.

(** [ExecuteOperations] over a grouped queue, with a transaction that is
    ready or none: an RPC is sent for every group, and every op of the
    queue is in the range of one of them. *)
Lemma ExecuteOperations_dispatches cb initial w :
  state_ (bat w) = kTransactionPrepare -> flush_callback_ (bat w) = Some cb ->
  callbacks w = [] -> sent_rpcs w = [] -> pool w = O ->
  (forall transaction, transaction_ (bat w) = Some transaction ->
     Prepare_ready transaction initial = true) ->
  ops_queue_ (bat w) <> [] ->
  chained 0 (ops_info_groups (bat w)) (length (ops_queue_ (bat w))) ->
  Forall (fun g => exists t k,
            uniform (ops_queue_ (bat w)) (group_begin g) (group_end g) t k)
         (ops_info_groups (bat w)) ->
  exists w',
    ExecuteOperations initial w = Done tt w' /\
    dispatched cb w' /\
    ops_queue_ (bat w') = ops_queue_ (bat w) /\
    transaction_ (bat w') = transaction_ (bat w) /\
    (forall i, (i < length (ops_queue_ (bat w)))%nat ->
       exists j rpc, sent_rpcs w' !! j = Some rpc /\ rpc_covers rpc i) /\
    (forall j j' rpc rpc', (j < j')%nat ->
       sent_rpcs w' !! j = Some rpc -> sent_rpcs w' !! j' = Some rpc' ->
       (snd (rpc_ops rpc) <= fst (rpc_ops rpc'))%nat).
Proof.
  intros Hst Hcb Hc Hs Hp Hready Hne Hch Hun.
  destruct (chained_bounds _ _ _ Hch) as [_ Hbounds].
  assert (Hok : Forall (group_ok (ops_queue_ (bat w))) (ops_info_groups (bat w))).
  { eapply Forall_impl; [exact Hbounds|].
    simpl. intros g [Hlt Hle]. split; [lia|]. apply lookup_lt_is_Some. lia. }
  destruct (ExecuteOperations_Done w initial Hst Hready Hok)
    as (w7 & Hexec & Hs7 & Hc7 & Hp7 & Hb7).
  destruct (group_ok_prepared _ Hok) as [Hok' Hlen].
  assert (Hq7 : ops_queue_ (bat w7) = ops_queue_ (bat w))
    by (by rewrite Hb7, ops_queue_dispatched).
  rewrite Hs in Hs7. simpl in Hs7.
  set (rpcs := rpcs_of (ops_queue_ (bat w)) (allow_local_calls_in_curr_thread_ (bat w))
                 (force_consistent_read_ (bat w) ||
                  bool_decide (is_Some (transaction_ (bat w))) ||
                  (1 <? length (ops_info_groups (bat w)))%nat)
                 (ops_info_groups (prepared (bat w)))) in *.
  assert (Hlr : length rpcs = length (ops_info_groups (bat w))).
  { unfold rpcs. by rewrite length_rpcs_of, Hlen. }
  pose proof (chained_length _ _ _ Hch) as Hcl. simpl in Hcl.
  assert (Hgroup : forall j rpc, rpcs !! j = Some rpc ->
            exists g, ops_info_groups (bat w) !! j = Some g /\
              rpc_ops rpc = (group_begin g, group_end g)).
  { intros j rpc Hrpc.
    destruct (rpcs_of_lookup _ _ _ _ _ _ Hok' Hrpc) as (g' & first & Hg' & _ & ->).
    destruct (prepared_lookup _ _ _ Hg') as (g0 & Hg0 & Hbeg & Hend).
    exists g0. split; [done|]. simpl. by rewrite Hbeg, Hend. }
  exists w7. split; [exact Hexec|]. split; [|split; [exact Hq7|split; [|split]]].
  - unfold dispatched. rewrite Hs7, Hq7, Hc7, Hp7.
    split; [by rewrite Hb7|].
    split; [by rewrite Hb7, flush_callback_dispatched|].
    split; [done|]. split; [done|]. split.
    { intros Hnil. apply (f_equal length) in Hnil. rewrite Hlr in Hnil. simpl in Hnil.
      destruct (ops_info_groups (bat w)); [|done]. simpl in Hch.
      destruct (ops_queue_ (bat w)); done. }
    split; [rewrite Hb7; simpl; by rewrite Hlr|]. split; [lia|].
    intros rpc (g & fst_op & Hg & Hfirst & Hops & Htab & Hkind & _)%elem_of_rpcs_of.
    apply groups_prepared in Hg as (g0 & Hg0in & Hbeg & Hend).
    rewrite Forall_forall in Hbounds, Hun.
    destruct (Hbounds g0 Hg0in) as [Hlt Hle].
    destruct (Hun g0 Hg0in) as (t & k & Hu).
    unfold rpc_covers. rewrite Hops, Hbeg, Hend. simpl fst. simpl snd.
    split; [lia|].
    intros i op Hi Hop.
    destruct (Hu i op Hi Hop) as [-> ->].
    rewrite Hbeg in Hfirst.
    destruct (Hu (group_begin g0) fst_op ltac:(lia) Hfirst) as [<- <-]. done.
  - by rewrite Hb7; simpl; rewrite transaction_prepared.
  - intros i Hi. rewrite Hs7.
    destruct (chained_covers _ _ _ i Hch) as (j & g & Hj & Hcov); [lia|].
    destruct (lookup_lt_is_Some_2 rpcs j) as [rpc Hrpc].
    { rewrite Hlr. by eapply lookup_lt_Some. }
    exists j, rpc. split; [done|].
    destruct (Hgroup j rpc Hrpc) as (g0 & Hg0 & Hops).
    assert (g0 = g) as -> by congruence.
    unfold rpc_covers. rewrite Hops. simpl. lia.
  - intros j j' rpc rpc' Hjj'. rewrite Hs7. intros Hj Hj'.
    destruct (Hgroup j rpc Hj) as (g & Hg & ->).
    destruct (Hgroup j' rpc' Hj') as (g' & Hg' & ->). simpl.
    destruct (chained_lookup _ _ _ j g Hch Hg) as (_ & _ & _ & Hlater).
    by apply (Hlater j' g').
Qed.

End GroupedDispatch.

(** *** The RPCs *)

Ltac beside_leaf :=
  unfold same, beside_the_ops;
  rewrite ?callbacks_add_effect, ?sent_rpcs_add_effect, ?callbacks_upd, ?sent_rpcs_upd;
  simpl; rewrite ?app_nil_r, ?length_alter; reflexivity.

Section RpcsComplete.

Variable env : Env.
Variable sur : Surroundings.

Lemma beside_ProcessRpcStatus rpc s :
  follows (same beside_the_ops) (ProcessRpcStatus rpc s).
Proof. follows_tac beside_leaf. Qed.

Lemma beside_ProcessWriteResponse rpc resp s :
  follows (same beside_the_ops) (ProcessWriteResponse env rpc resp s).
Proof. follows_tac beside_leaf. Qed.

Lemma ProcessWriteResponse_Done rpc resp s w :
  (snd (rpc_ops rpc) <= length (ops_queue_ (bat w)))%nat ->
  exists w', ProcessWriteResponse env rpc resp s w = Done tt w'.
Proof.
  intros Hr. destruct (ProcessRpcStatus_Done rpc s w Hr) as (w1 & Hrun & Hlen & _).
  unfold ProcessWriteResponse. rewrite (bind_Done _ _ _ _ _ Hrun).
  set (c := ok s && bool_decide (is_Some (propagated_hybrid_time resp))).
  set (w2 := if c then add_effect (UpdateLatestObservedHybridTime
                                     (default 0 (propagated_hybrid_time resp))) w1
             else w1).
  assert (Hwhen : when c (emit (UpdateLatestObservedHybridTime
                                  (default 0 (propagated_hybrid_time resp)))) w1 =
                  Done tt w2) by (unfold w2; by destruct c).
  rewrite (bind_Done _ _ _ _ _ Hwhen).
  rewrite process_row_errors_Done; [by eexists|].
  unfold w2. destruct c; simpl; lia.
Qed.

(** The response of an RPC is processed: the ops of the RPC may get
    errors, and nothing else changes. *)
Lemma response_processed rpc w :
  (snd (rpc_ops rpc) <= length (ops_queue_ (bat w)))%nat ->
  exists w1,
    match rpc_kind rpc with
    | WriteRpc =>
        ProcessWriteResponse env rpc (reply_response (rpc_reply sur rpc))
          (reply_status (rpc_reply sur rpc))
    | ReadRpc _ => ProcessReadResponse rpc (reply_status (rpc_reply sur rpc))
    end w = Done tt w1 /\
    beside_the_ops w1 = beside_the_ops w.
Proof.
  intros Hr. destruct (rpc_kind rpc).
  - destruct (ProcessWriteResponse_Done rpc (reply_response (rpc_reply sur rpc))
                (reply_status (rpc_reply sur rpc)) w Hr) as [w1 Hrun].
    exists w1. split; [exact Hrun|].
    pose proof (beside_ProcessWriteResponse rpc (reply_response (rpc_reply sur rpc))
                  (reply_status (rpc_reply sur rpc)) w) as H.
    by rewrite Hrun in H.
  - destruct (ProcessRpcStatus_Done rpc (reply_status (rpc_reply sur rpc)) w Hr)
      as (w1 & Hrun & _).
    exists w1. split; [exact Hrun|].
    pose proof (beside_ProcessRpcStatus rpc (reply_status (rpc_reply sur rpc)) w) as H.
    unfold ProcessReadResponse in *. by rewrite Hrun in H.
Qed.

(** An RPC that is not the last to complete is counted and nothing more. *)
Lemma rpc_completes_counted rpc w :
  (snd (rpc_ops rpc) <= length (ops_queue_ (bat w)))%nat ->
  1 < outstanding_rpcs_ (bat w) < 2 ^ 64 ->
  exists w1,
    rpc_completes env sur rpc w = Done tt w1 /\
    beside_the_ops w1 =
    (state_ (bat w), outstanding_rpcs_ (bat w) - 1, flush_callback_ (bat w),
     callbacks w, sent_rpcs w, pool w, length (ops_queue_ (bat w))).
Proof.
  intros Hr Hcount. destruct (response_processed rpc w Hr) as (w1 & Hrun & Hobs).
  unfold rpc_completes. cbv zeta. rewrite (bind_Done _ _ _ _ _ Hrun).
  injection Hobs as Hst Hn Hslot Hc Hs Hp Hl.
  rewrite Flushed_eq. cbv zeta.
  assert (Hdec : decrement (outstanding_rpcs_ (bat w1)) = outstanding_rpcs_ (bat w) - 1).
  { rewrite Hn. unfold decrement. apply Z.mod_small. lia. }
  rewrite Hdec. destruct (Z.eqb_spec (outstanding_rpcs_ (bat w) - 1) 0) as [?|_]; [lia|].
  eexists. split; [reflexivity|]. unfold beside_the_ops.
  rewrite callbacks_upd, sent_rpcs_upd, pool_upd, bat_upd.
  rewrite callbacks_flushed_noted, sent_rpcs_flushed_noted, pool_flushed_noted,
    bat_flushed_noted.
  simpl. by rewrite Hst, Hslot, Hc, Hs, Hp, Hl.
Qed.

Lemma rpcs_counted_down rpcs : forall w,
  Forall (fun rpc => (snd (rpc_ops rpc) <= length (ops_queue_ (bat w)))%nat) rpcs ->
  Z.of_nat (length rpcs) < outstanding_rpcs_ (bat w) < 2 ^ 64 ->
  exists w1,
    for_each rpcs (rpc_completes env sur) w = Done tt w1 /\
    beside_the_ops w1 =
    (state_ (bat w), outstanding_rpcs_ (bat w) - Z.of_nat (length rpcs),
     flush_callback_ (bat w), callbacks w, sent_rpcs w, pool w,
     length (ops_queue_ (bat w))).
Proof.
  induction rpcs as [|rpc rpcs IH]; intros w Hall Hcount.
  - exists w. split; [done|]. unfold beside_the_ops. simpl. by rewrite Z.sub_0_r.
  - apply Forall_cons in Hall as [Hr Hall]. simpl length in Hcount.
    destruct (rpc_completes_counted rpc w Hr) as (w1 & Hrun & Hobs); [lia|].
    injection Hobs as Hst Hn Hslot Hc Hs Hp Hl.
    destruct (IH w1) as (w2 & Hrun2 & Hobs2).
    { by rewrite Hl. }
    { rewrite Hn. lia. }
    exists w2. split.
    + simpl. by rewrite (bind_Done _ _ _ _ _ Hrun).
    + rewrite Hobs2, Hst, Hn, Hslot, Hc, Hs, Hp, Hl.
      replace (outstanding_rpcs_ (bat w) - 1 - Z.of_nat (length rpcs))
        with (outstanding_rpcs_ (bat w) - Z.of_nat (length (rpc :: rpcs)))
        by (simpl length; lia).
      reflexivity.
Qed.

(** The RPC that completes last finishes the flush. *)
Lemma rpc_completes_last cb rpc w :
  (snd (rpc_ops rpc) <= length (ops_queue_ (bat w)))%nat ->
  flush_callback_ (bat w) = Some cb -> pool w = O -> outstanding_rpcs_ (bat w) = 1 ->
  exists w' s,
    then_pool (rpc_completes env sur rpc) w = Done tt w' /\
    callbacks w' = callbacks w ++ [(cb, s)] /\
    flush_callback_ (bat w') = None /\
    terminal (state_ (bat w')) = true /\ pool w' = O.
Proof.
  intros Hr Hslot Hp Hone. destruct (response_processed rpc w Hr) as (w1 & Hrun & Hobs).
  injection Hobs as Hst Hn Hslot1 Hc Hs Hp1 Hl.
  destruct (Flushed_last env cb (rpc_ops rpc) (reply_status (rpc_reply sur rpc))
              (reply_used_read_time (rpc_reply sur rpc))
              (reply_propagated_hybrid_time (rpc_reply sur rpc)) w1)
    as (w' & s & Hrun' & Hcbs & Hslot' & Hterm & _ & Hp' & _); [congruence..|].
  exists w', s. split.
  { unfold rpc_completes. cbv zeta. by rewrite (then_pool_bind _ _ _ _ Hrun). }
  rewrite Hcbs, Hc. done.
Qed.

Hypothesis rpc_order_proper : forall l, rpc_order sur l ≡ₚ l.

Lemma answer_rpcs_idle w : sent_rpcs w = [] -> answer_rpcs env sur w = Done tt w.
Proof.
  intros Hs. unfold answer_rpcs. rewrite Hs.
  by rewrite (proj1 (Permutation_nil_r _) (rpc_order_proper [])).
Qed.

(** When every RPC that was sent completes, the flush is over and its
    callback was invoked once. *)
Lemma answer_rpcs_ends cb w :
  dispatched cb w -> Z.of_nat (length (ops_queue_ (bat w))) < 2 ^ 64 ->
  exists w', then_pool (answer_rpcs env sur) w = Done tt w' /\ flush_over cb w'.
Proof.
  intros (Hst & Hslot & Hc & Hp & Hne & Hn & Hle & Hrpcs) Hbound.
  pose proof (rpc_order_proper (sent_rpcs w)) as Hperm.
  set (l := rpc_order sur (sent_rpcs w)) in *.
  assert (Hll : length l = length (sent_rpcs w)) by (by rewrite Hperm).
  destruct (exists_last (l := l)) as (l' & last & Hl).
  { intros Hnil. rewrite Hnil in Hll. destruct (sent_rpcs w); done. }
  assert (Hin : forall rpc, rpc ∈ l ->
            (snd (rpc_ops rpc) <= length (ops_queue_ (bat w)))%nat).
  { intros rpc Hin. rewrite Hperm in Hin. destruct (Hrpcs rpc Hin) as [? _]. lia. }
  rewrite Hl, length_app in Hll. simpl in Hll.
  destruct (rpcs_counted_down l' w) as (w1 & Hrun & Hobs).
  { apply Forall_forall. intros rpc Hin'. apply Hin. rewrite Hl. apply elem_of_app. by left. }
  { rewrite Hn. lia. }
  injection Hobs as Hst1 Hn1 Hslot1 Hc1 Hs1 Hp1 Hl1.
  destruct (rpc_completes_last cb last w1) as (w' & s & Hrun' & Hcbs & Hslot' & Hterm & Hp').
  { rewrite Hl1. apply Hin. rewrite Hl. apply elem_of_app. right. apply list_elem_of_here. }
  { congruence. }
  { congruence. }
  { rewrite Hn1, Hn. lia. }
  exists w'. split.
  - rewrite <- Hrun'. apply then_pool_eq. unfold answer_rpcs. fold l. rewrite Hl.
    by apply for_each_snoc.
  - exists s. rewrite Hcbs, Hc1, Hc. done.
Qed.

End RpcsComplete.

(** *** From FlushAsync to the callback *)

Lemma waits_for_transaction_same initial b b' :
  transaction_ b' = transaction_ b ->
  waits_for_transaction initial b' = waits_for_transaction initial b.
Proof. unfold waits_for_transaction. by intros ->. Qed.

Lemma ready_when_not_waiting initial b :
  waits_for_transaction initial b = false ->
  forall transaction, transaction_ b = Some transaction ->
    Prepare_ready transaction initial = true.
Proof.
  unfold waits_for_transaction. intros Hw transaction Ht. rewrite Ht in Hw.
  by destruct (Prepare_ready transaction initial).
Qed.

Lemma flush_over_not_gathering cb w :
  flush_over cb w ->
  state_ (bat w) <> kResolvingTablets /\ state_ (bat w) <> kTransactionPrepare /\
  state_ (bat w) <> kTransactionReady /\ pool w = O.
Proof. intros (s & _ & _ & Hterm & Hp). by destruct (state_ (bat w)). Qed.

Section FlushOutcome.

Variable env : Env.
Variable sur : Surroundings.

Lemma answer_transaction_idle w :
  state_ (bat w) <> kTransactionPrepare -> answer_transaction env sur w = Done tt w.
Proof. intros Hst. unfold answer_transaction. by rewrite bool_decide_false. Qed.

Lemma sequence_number_lookups_answered ops :
  sequence_number <$> lookups_answered env sur ops = seq 0 (length ops).
Proof.
  apply list_eq. intros p. rewrite list_lookup_fmap. unfold lookups_answered.
  rewrite list_lookup_imap. destruct (ops !! p) as [o|] eqn:Ho; simpl.
  - rewrite lookup_seq_lt by (by eapply lookup_lt_Some).
    unfold record_lookup. by destruct (lookup_result_of env sur p (queued o p)).
  - symmetry. apply lookup_seq_ge. by apply lookup_ge_None.
Qed.

(** The sequence number of an op that is left in the queue is the place
    of its operation among the ops that were added. *)
Lemma surviving_submitted ops a :
  a ∈ surviving_ops env (lookups_answered env sur ops) ->
  ops !! sequence_number a = Some (yb_op a).
Proof.
  intros Hin. apply list_elem_of_filter in Hin as [_ Hin].
  apply elem_of_spread_checked in Hin as (op & Hin & ->).
  rewrite sequence_number_spread, yb_op_spread, sequence_number_check_partition,
    yb_op_check_partition.
  apply list_elem_of_lookup_1 in Hin as [p Hp].
  apply lookups_answered_lookup in Hp as [Hp <-]. exact Hp.
Qed.

Lemma NoDup_surviving ops :
  NoDup (sequence_number <$> surviving_ops env (lookups_answered env sur ops)).
Proof.
  unfold surviving_ops. apply NoDup_fmap_filter.
  rewrite sequence_number_checked, sequence_number_lookups_answered. apply NoDup_seq.
Qed.

(** The ops [AllLookupsDone] leaves in the queue have their tablets. *)
Lemma AllLookupsDone_leaves_resolved w w3 :
  state_ (bat w) = kResolvingTablets -> Forall resolved (ops_queue_ (bat w)) ->
  then_pool (AllLookupsDone env) w = Done tt w3 ->
  Forall (fun op => unresolved op = false) (ops_queue_ (bat w3)).
Proof.
  intros Hst Hres. unfold then_pool, bind.
  destruct (AllLookupsDone env w) as [[] w'|f w'] eqn:Hrun; [|done]. intros Hpool.
  assert (Hq3 : ops_queue_ (bat w3) = ops_queue_ (bat w')).
  { assert (Hstable : stable (fun w => ops_queue_ (bat w)) PoolRun) by stable_tac.
    specialize (Hstable w'). by rewrite Hpool in Hstable. }
  assert (Hq' : ops_queue_ (bat w') = sort_ops (surviving_ops env (ops_queue_ (bat w)))).
  { pose proof (queue_after_dispatch env (erased env w)) as Hq.
    rewrite <- AllLookupsDone_erased, Hrun, bat_erased in Hq by done. exact Hq. }
  rewrite Hq3, Hq', sort_ops_Permutation.
  eapply Forall_impl; [by apply surviving_resolved|].
  intros op [t Ht]. unfold unresolved. by rewrite Ht.
Qed.

Hypothesis lookup_order_proper : forall l, lookup_order sur l ≡ₚ l.
Hypothesis rpc_order_proper : forall l, rpc_order sur l ≡ₚ l.
Hypothesis lookup_reply_proper : forall p s, lookup_reply sur p = inl s -> ok s = false.
Hypothesis meta_cache_proper : forall op s, meta_cache env op = Some (inl s) -> ok s = false.

(** A flush of ops whose keys are usable, up to the dispatch.  When no op
    is left in the queue, when a partition list version does not match, or
    when the transaction the Batcher waited for failed, the flush is over
    and nothing was sent.  Otherwise the RPCs are sent, over the ops that
    are left, sorted. *)
Lemma flush_to_dispatch_outcome cb retry w :
  gathering w -> ops_ (bat w) <> [] -> Z.of_nat (length (ops_ (bat w))) < 2 ^ 64 ->
  Forall (fun o => ok (key_status o) = true) (ops_ (bat w)) ->
  (forall transaction, transaction_ (bat w) = Some transaction ->
     ok (transaction_reply sur) = true -> Prepare_ready transaction false = true) ->
  let q := surviving_ops env (lookups_answered env sur (ops_ (bat w))) in
  exists w',
    flush_to_dispatch env sur cb retry w = Done tt w' /\
    (((q = [] \/ Exists (fun op => version_mismatch op = true) q \/
       (waits_for_transaction true (bat w) = true /\ ok (transaction_reply sur) = false)) /\
      flush_over cb w' /\ sent_rpcs w' = []) \/
     (dispatched cb w' /\ ops_queue_ (bat w') = sort_ops q /\
      (forall i, (i < length (ops_queue_ (bat w')))%nat ->
         exists j rpc, sent_rpcs w' !! j = Some rpc /\ rpc_covers rpc i) /\
      (forall j j' rpc rpc', (j < j')%nat ->
         sent_rpcs w' !! j = Some rpc -> sent_rpcs w' !! j' = Some rpc' ->
         (snd (rpc_ops rpc) <= fst (rpc_ops rpc'))%nat))).
Proof.
  intros Hg Hne Hbound Hkeys Hready q.
  destruct (gathering_facts w Hg) as (_ & _ & _ & _ & Hs0 & _).
  destruct (flush_reaches_AllLookupsDone env sur lookup_order_proper meta_cache_proper
              cb retry w Hg Hne Hbound Hkeys)
    as (w2 & Hst2 & Hslot2 & Hg2 & Ht2 & Hq2 & Hc2 & Hs2 & Hp2 & Hgo).
  pose proof (lookups_answered_resolved env sur lookup_reply_proper meta_cache_proper
                (ops_ (bat w))) as Hres.
  rewrite <- Hq2 in Hres. unfold flush_to_dispatch.
  assert (Hres3 : forall w3, then_pool (AllLookupsDone env) w2 = Done tt w3 ->
            Forall (fun op => unresolved op = false) (ops_queue_ (bat w3))).
  { intros w3. by apply AllLookupsDone_leaves_resolved. }
  assert (Hover : forall w3,
            then_pool (AllLookupsDone env) w2 = Done tt w3 -> flush_over cb w3 ->
            (then_pool (FlushAsync env cb retry) >> then_pool (answer_lookups env sur) >>
             then_pool (answer_transaction env sur)) w = Done tt w3).
  { intros w3 Hrun Hov. destruct (flush_over_not_gathering cb w3 Hov) as (H1 & H2 & _ & H4).
    rewrite (Hgo _ w3 Hrun (Hres3 w3 Hrun) H4).
    apply then_pool_idle; [by apply answer_transaction_idle|done]. }
  destruct q as [|a0 q0] eqn:Hq.
  { (* no op is left *)
    destruct (AllLookupsDone_no_op_left env cb w2 Hst2 Hslot2 Hp2)
      as (w3 & Hrun & Hcbs & Hslot & Hst3 & Hs3 & Hp3); [by rewrite Hq2|].
    assert (Hov : flush_over cb w3).
    { eexists. rewrite Hcbs, Hc2, Hslot, Hst3. done. }
    exists w3. split; [by apply Hover|]. left. split; [by left|].
    split; [done|]. by rewrite Hs3. }
  rewrite <- Hq. assert (Hqne : q <> []) by (by rewrite Hq). clear Hq.
  assert (Hdec : forall op, {version_mismatch op = false} + {version_mismatch op = true})
    by (intros op; destruct (version_mismatch op); auto).
  destruct (Forall_Exists_dec (fun op => version_mismatch op = false)
              (fun op => version_mismatch op = true) Hdec q) as [Hver|Hmis].
  2:{ (* a partition list version does not match *)
    destruct (AllLookupsDone_aborts env cb w2 Hst2 Hslot2 Hp2 Hres)
      as (w3 & s & Hrun & Hcbs & Hslot & Hst3 & Hs3 & Hp3); [by rewrite Hq2|].
    assert (Hov : flush_over cb w3).
    { exists s. rewrite Hcbs, Hc2, Hslot, Hst3. done. }
    exists w3. split; [by apply Hover|]. left. split; [right; by left|].
    split; [done|]. by rewrite Hs3. }
  destruct (AllLookupsDone_grouped env w2 Hst2 Hg2)
    as (w6 & Hrun6 & Hst6 & Hq6 & Hch6 & Hun6 & Ht6 & Hslot6 & Hp6 & Hc6 & Hs6);
    [by rewrite Hq2|done|by rewrite Hq2|].
  rewrite Hq2 in Hq6. fold q in Hq6.
  assert (Hne6 : ops_queue_ (bat w6) <> []).
  { rewrite Hq6. intros Hnil. by apply sort_ops_nil in Hnil. }
  destruct (waits_for_transaction true (bat w)) eqn:Hwait.
  - (* the transaction is not ready *)
    assert (Hwait6 : waits_for_transaction true (bat w6) = true).
    { rewrite (waits_for_transaction_same true (bat w)) by congruence. exact Hwait. }
    assert (Hrun : then_pool (AllLookupsDone env) w2 = Done tt w6).
    { apply then_pool_idle; [|congruence].
      rewrite Hrun6. by apply ExecuteOperations_waits. }
    rewrite (Hgo _ w6 Hrun (Hres3 w6 Hrun)) by congruence.
    destruct (ok (transaction_reply sur)) eqn:Hok.
    + destruct (ExecuteOperations_dispatches cb false w6)
        as (w7 & Hrun7 & Hd7 & Hq7 & _ & Hcov7 & Hord7); try congruence.
      { intros transaction Htr. apply Hready; [congruence|done]. }
      exists w7. split.
      { apply then_pool_idle; [|by destruct Hd7 as (_ & _ & _ & ? & _)].
        unfold answer_transaction, TransactionReady.
        by rewrite bool_decide_true, Hok by done. }
      right. split; [done|]. split; [congruence|]. split; [|exact Hord7].
      intros i Hi. apply Hcov7. by rewrite <- Hq7.
    + destruct (Abort_ends env cb (transaction_reply sur) w6)
        as (w7 & Hrun7 & Hcbs & Hslot & Hst7 & Hs7 & Hp7); [congruence..|].
      exists w7. split.
      { rewrite <- Hrun7. apply then_pool_eq.
        unfold answer_transaction, TransactionReady.
        by rewrite bool_decide_true, Hok by done. }
      left. split; [right; by right|]. split; [|congruence].
      eexists. rewrite Hcbs, Hc6, Hc2, Hslot, Hst7. done.
  - (* the transaction is ready, or there is none *)
    destruct (ExecuteOperations_dispatches cb true w6)
      as (w7 & Hrun7 & Hd7 & Hq7 & _ & Hcov7 & Hord7); try congruence.
    { apply ready_when_not_waiting.
      rewrite (waits_for_transaction_same true (bat w)) by congruence. exact Hwait. }
    assert (Hp7 : pool w7 = O) by (by destruct Hd7 as (_ & _ & _ & ? & _)).
    assert (Hst7 : state_ (bat w7) = kTransactionReady) by (by destruct Hd7 as (? & _)).
    assert (Hrun : then_pool (AllLookupsDone env) w2 = Done tt w7).
    { apply then_pool_idle; [|done]. by rewrite Hrun6. }
    rewrite (Hgo _ w7 Hrun (Hres3 w7 Hrun)) by congruence.
    exists w7. split.
    { apply then_pool_idle; [|done]. apply answer_transaction_idle. by rewrite Hst7. }
    right. split; [done|]. split; [congruence|]. split; [|exact Hord7].
    intros i Hi. apply Hcov7. by rewrite <- Hq7.
Qed.

End FlushOutcome.

Lemma length_surviving_ops env queue :
  (length (surviving_ops env queue) <= length queue)%nat.
Proof.
  unfold surviving_ops. etransitivity; [apply length_filter|].
  unfold checked_queue. by rewrite !length_map.
Qed.

Lemma length_lookups_answered env sur ops :
  length (lookups_answered env sur ops) = length ops.
Proof. unfold lookups_answered. apply length_imap. Qed.

Section WholeFlush.

Variable env : Env.

(** A [FlushAsync] that stops at a key that is not usable asks for no
    lookup. *)
Lemma FlushAsync_key_failure_asks_nothing cb retry w :
  state_ (bat w) = kGatheringOps ->
  Exists (fun o => ok (key_status o) = false) (ops_ (bat w)) ->
  lookups_started (res_world (then_pool (FlushAsync env cb retry) w)) = lookups_started w.
Proof.
  intros Hst Hex. unfold then_pool. unfold bind at 1.
  rewrite FlushAsync_resolve_eq by done.
  destruct (flush_started_facts env cb retry w) as (_ & _ & _ & _ & Hl0).
  set (w0 := flush_started env cb retry w) in *.
  destruct (FlushAsync_fill_queue_failure env (ops_ (bat w)) w0 Hex)
    as (w1 & o & Hrun & _).
  assert (Hfill : follows (same lookups_started) (FlushAsync_fill_queue env (ops_ (bat w))))
    by (follows_tac lookups_leaf).
  specialize (Hfill w0). unfold same in Hfill. rewrite Hl0 in Hfill.
  assert (Hpool : follows (same lookups_started) PoolRun) by (follows_tac lookups_leaf).
  unfold bind at 1. rewrite Hrun in *.
  assert (Hfalse : forall b w', (FlushFinished env >> ret false) w1 = Done b w' -> b = false).
  { intros b w'. unfold bind, ret. destruct (FlushFinished env w1); [|done]. by intros [= <- _]. }
  destruct ((FlushFinished env >> ret false) w1) as [b w'|f w'] eqn:Hff; [|done].
  rewrite (Hfalse b w' eq_refl). simpl. unfold ret.
  specialize (Hpool w'). unfold same in Hpool. by rewrite Hpool.
Qed.

(** C3.  One flush, from [FlushAsync] on a Batcher that gathered at least
    one op to the end, with the callback pool running what it is given:
    when the meta cache answers every lookup it was asked, the transaction
    that was not ready calls [TransactionReady], and every RPC that was
    sent reports to [Flushed], each once and in any order, the callback
    given to [FlushAsync] is invoked exactly once and its slot is empty
    afterwards.  This holds whichever way the flush ends: a partition key
    that is not usable, no op left after the removal of the failed ones, an
    abort because of a partition list version or of the transaction, or the
    last RPC reporting.  Whatever is called on the Batcher afterwards, the
    callback is not invoked again and the slot stays empty. *)
Theorem callback_once_per_flush (sur : Surroundings) (cb : Z) (retry : bool)
    (w : World) :
  gathering w -> ops_ (bat w) <> [] -> Z.of_nat (length (ops_ (bat w))) < 2 ^ 64 ->
  proper env sur w ->
  exists w' s,
    whole_flush env sur cb retry w = Done tt w' /\
    callbacks w' = [(cb, s)] /\
    flush_callback_ (bat w') = None /\
    terminal (state_ (bat w')) = true /\
    pool w' = O /\
    forall l, callbacks (res_world (calls env l w')) = [(cb, s)] /\
              flush_callback_ (bat (res_world (calls env l w'))) = None.
Proof.
  intros Hg Hne Hbound (Hlo & Hro & Hlr & Hmc & Htr).
  assert (Hend : exists w', whole_flush env sur cb retry w = Done tt w' /\ flush_over cb w').
  { assert (Hidle : forall w1, flush_to_dispatch env sur cb retry w = Done tt w1 ->
              flush_over cb w1 -> sent_rpcs w1 = [] ->
              exists w', whole_flush env sur cb retry w = Done tt w' /\ flush_over cb w').
    { intros w1 Hrun Hov Hs1. exists w1. split; [|done].
      destruct (flush_over_not_gathering cb w1 Hov) as (_ & _ & _ & H4).
      unfold whole_flush. rewrite (bind_Done _ _ _ _ _ Hrun).
      apply then_pool_idle; [by apply answer_rpcs_idle|done]. }
    assert (Hdec : forall o, {ok (key_status o) = true} + {ok (key_status o) = false})
      by (intros o; destruct (ok (key_status o)); auto).
    destruct (Forall_Exists_dec _ _ Hdec (ops_ (bat w))) as [Hkeys|Hkey].
    - destruct (flush_to_dispatch_outcome env sur Hlo Hlr Hmc cb retry w Hg Hne Hbound
                  Hkeys Htr) as (w1 & Hrun & [(_ & Hov & Hs1)|(Hd & Hq & _)]);
        [by apply (Hidle w1)|].
      destruct (answer_rpcs_ends env sur Hro cb w1 Hd) as (w' & Hrun' & Hov).
      { rewrite Hq, sort_ops_Permutation.
        pose proof (length_surviving_ops env (lookups_answered env sur (ops_ (bat w)))) as Hl.
        rewrite length_lookups_answered in Hl. lia. }
      exists w'. split; [|done]. unfold whole_flush. by rewrite (bind_Done _ _ _ _ _ Hrun).
    - destruct (gathering_facts w Hg) as (Hst & _ & _ & Hc & Hs & Hl & Hp).
      destruct (FlushAsync_key_failure env cb retry w Hst Hp Hkey)
        as (w1 & o & Hrun & _ & _ & Hcbs & Hslot & Hst1 & Hs1 & Hp1).
      pose proof (FlushAsync_key_failure_asks_nothing cb retry w Hst Hkey) as Hl1.
      rewrite Hrun, Hl in Hl1. simpl in Hl1.
      apply (Hidle w1); [| |congruence].
      + unfold flush_to_dispatch. rewrite (bind_Done _ _ _ _ _ Hrun).
        rewrite (bind_Done _ _ tt w1 w1).
        * apply then_pool_idle; [|done]. apply answer_transaction_idle. by rewrite Hst1.
        * apply then_pool_idle; [|done]. by apply answer_lookups_idle, no_lookup_started.
      + eexists. rewrite Hcbs, Hc, Hst1. done. }
  destruct Hend as (w' & Hrun & s & Hcbs & Hslot & Hterm & Hp).
  exists w', s. split_and!; try done.
  intros l. apply callback_stays; [|done].
  unfold callback_inv. rewrite Hcbs. split; [done|].
  intros Hgath. by rewrite Hgath in Hterm.
Qed.

(** C5.  From [FlushAsync] to the dispatch.  The sequence number of an
    in-flight op is the place of its operation among the ops that were added
    to the Batcher: the order of the sequence numbers is the order of
    submission.  When the keys are usable, an op is left after the lookups,
    the partition list versions match and the transaction does not fail,
    the queue at the dispatch is the ops that are left, sorted by tablet,
    kind of operation and sequence number.  The RPCs are sent in the order
    of their ranges of the queue, each range being for one tablet and one
    kind, and every op of the queue is in one of the ranges.  Hence of two
    ops for the same tablet and of the same kind, the one submitted first
    comes first in the queue and precedes the other in the RPCs that are
    sent: it is in an RPC sent earlier, or earlier in the same RPC. *)
Theorem dispatch_in_submission_order (sur : Surroundings) (cb : Z) (retry : bool)
    (w : World) :
  gathering w -> Z.of_nat (length (ops_ (bat w))) < 2 ^ 64 -> proper env sur w ->
  Forall (fun o => ok (key_status o) = true) (ops_ (bat w)) ->
  surviving_ops env (lookups_answered env sur (ops_ (bat w))) <> [] ->
  Forall (fun op => version_mismatch op = false)
         (surviving_ops env (lookups_answered env sur (ops_ (bat w)))) ->
  (waits_for_transaction true (bat w) = true -> ok (transaction_reply sur) = true) ->
  exists w',
    flush_to_dispatch env sur cb retry w = Done tt w' /\
    let q' := ops_queue_ (bat w') in
    q' = sort_ops (surviving_ops env (lookups_answered env sur (ops_ (bat w)))) /\
    (forall i a, q' !! i = Some a ->
       ops_ (bat w) !! sequence_number a = Some (yb_op a)) /\
    NoDup (sequence_number <$> q') /\
    StronglySorted op_le q' /\
    (forall i j a b, (i < j)%nat -> q' !! i = Some a -> q' !! j = Some b ->
       tablet_get a < tablet_get b \/
       (tablet_get a = tablet_get b /\
        (OpGroup_to_Z (group (yb_op a)) < OpGroup_to_Z (group (yb_op b)) \/
         (group (yb_op a) = group (yb_op b) /\
          (sequence_number a <= sequence_number b)%nat)))) /\
    state_ (bat w') = kTransactionReady /\
    sent_rpcs w' <> [] /\
    (forall rpc, rpc ∈ sent_rpcs w' ->
       (fst (rpc_ops rpc) < snd (rpc_ops rpc) <= length q')%nat /\
       (forall i op, rpc_covers rpc i -> q' !! i = Some op ->
          tablet_get op = rpc_tablet rpc /\
          rpc_kind_of (group (yb_op op)) = rpc_kind rpc) /\
       (forall i j a b, rpc_covers rpc i -> rpc_covers rpc j ->
          q' !! i = Some a -> q' !! j = Some b ->
          (sequence_number a < sequence_number b)%nat -> (i < j)%nat)) /\
    (forall j j' rpc rpc', (j < j')%nat ->
       sent_rpcs w' !! j = Some rpc -> sent_rpcs w' !! j' = Some rpc' ->
       (snd (rpc_ops rpc) <= fst (rpc_ops rpc'))%nat) /\
    forall i i' a b, q' !! i = Some a -> q' !! i' = Some b ->
      tablet_get a = tablet_get b -> group (yb_op a) = group (yb_op b) ->
      (sequence_number a < sequence_number b)%nat ->
      (i < i')%nat /\
      exists j j' rpc rpc',
        sent_rpcs w' !! j = Some rpc /\ rpc_covers rpc i /\
        sent_rpcs w' !! j' = Some rpc' /\ rpc_covers rpc' i' /\
        (j < j' \/ j = j')%nat.
Proof.
  intros Hg Hbound (Hlo & Hro & Hlr & Hmc & Htr) Hkeys Hne Hver Hwait.
  set (q := surviving_ops env (lookups_answered env sur (ops_ (bat w)))) in *.
  assert (Hops : ops_ (bat w) <> []).
  { intros Hnil. apply Hne. unfold q. by rewrite Hnil. }
  destruct (flush_to_dispatch_outcome env sur Hlo Hlr Hmc cb retry w Hg Hops Hbound
              Hkeys Htr)
    as (w' & Hrun & [([Hnil|[Hmis|[Hw Hbad]]] & _)|(Hd & Hq & Hcov & Hord)]).
  { done. }
  { exfalso. apply Exists_exists in Hmis as (op & Hin & Hm).
    rewrite Forall_forall in Hver. specialize (Hver op Hin). congruence. }
  { rewrite (Hwait Hw) in Hbad. discriminate. }
  fold q in Hq. exists w'. split; [exact Hrun|]. cbv zeta.
  destruct Hd as (Hst & _ & _ & _ & Hsent & _ & _ & Hrpcs).
  assert (Hsorted : StronglySorted op_le (ops_queue_ (bat w')))
    by (rewrite Hq; apply sort_ops_sorted).
  assert (Hseq : forall i j a b,
            ops_queue_ (bat w') !! i = Some a -> ops_queue_ (bat w') !! j = Some b ->
            tablet_get a = tablet_get b -> group (yb_op a) = group (yb_op b) ->
            (sequence_number a < sequence_number b)%nat -> (i < j)%nat).
  { intros i j a b. by apply sorted_by_sequence_number. }
  split; [exact Hq|]. split.
  { intros i a Ha. apply (surviving_submitted env sur).
    apply list_elem_of_lookup_2 in Ha. rewrite Hq in Ha.
    by rewrite sort_ops_Permutation in Ha. }
  split.
  { rewrite Hq, sort_ops_Permutation. apply NoDup_surviving. }
  split; [exact Hsorted|]. split.
  { intros i j a b Hij Hi Hj. apply op_le_spec.
    by apply (StronglySorted_lookup_lt op_le (ops_queue_ (bat w')) i j). }
  split; [exact Hst|]. split; [exact Hsent|]. split.
  { intros rpc Hin. destruct (Hrpcs rpc Hin) as [Hrange Huni].
    split; [exact Hrange|]. split; [exact Huni|].
    intros i j a b Hi Hj Ha Hb Hlt.
    destruct (Huni i a Hi Ha) as [Hta Hka], (Huni j b Hj Hb) as [Htb Hkb].
    apply (Hseq i j a b Ha Hb); [congruence| |done].
    rewrite <- Hkb in Hka. by apply rpc_kind_of_inj. }
  split; [exact Hord|].
  intros i i' a b Ha Hb Ht Hk Hlt.
  pose proof (Hseq i i' a b Ha Hb Ht Hk Hlt) as Hii'. split; [exact Hii'|].
  destruct (Hcov i) as (j & rpc & Hj & Hi); [by eapply lookup_lt_Some|].
  destruct (Hcov i') as (j' & rpc' & Hj' & Hi'); [by eapply lookup_lt_Some|].
  exists j, j', rpc, rpc'. split_and!; try done.
  destruct (Nat.lt_trichotomy j j') as [?|[?|Hgt]]; [by left|by right|].
  pose proof (Hord j' j rpc' rpc Hgt Hj' Hj) as Hle.
  unfold rpc_covers in Hi, Hi'. lia.
Qed.

End WholeFlush.

Lemma surroundings0_proper w :
  (forall transaction, transaction_ (bat w) = Some transaction ->
     Prepare_ready transaction false = true) ->
  proper env0 surroundings0 w.
Proof.
  intros Htr. split; [intros l; apply reverse_Permutation|].
  split; [intros l; apply reverse_Permutation|].
  split; [intros p s; simpl; by destruct (p =? 1)%nat|].
  split; [done|]. intros transaction Ht _. by apply Htr.
Qed.

(** The theorem at a flush within a transaction that is not ready at once:
    the callback is invoked after [TransactionReady] dispatched three RPCs
    and the three RPCs reported. *)
Lemma callback_once_per_flush_example :
  waits_for_transaction true (bat three_ops_in_transaction) = true /\
  exists w' s,
    whole_flush env0 surroundings0 7 false three_ops_in_transaction = Done tt w' /\
    length (sent_rpcs w') = 3%nat /\
    callbacks w' = [(7, s)] /\ flush_callback_ (bat w') = None /\
    forall l, callbacks (res_world (calls env0 l w')) = [(7, s)].
Proof.
  split; [reflexivity|].
  destruct (callback_once_per_flush env0 surroundings0 7 false three_ops_in_transaction)
    as (w' & s & Hrun & Hcbs & Hslot & _ & _ & Hafter).
  - repeat split; reflexivity.
  - discriminate.
  - reflexivity.
  - apply surroundings0_proper. intros transaction [= <-]. reflexivity.
  - exists w', s. split; [exact Hrun|]. split.
    + assert (Hw : w' = res_world (whole_flush env0 surroundings0 7 false
                                     three_ops_in_transaction)) by (by rewrite Hrun).
      rewrite Hw. reflexivity.
    + split; [exact Hcbs|]. split; [exact Hslot|]. intros l. exact (proj1 (Hafter l)).
Defined.

(** A flush of a Batcher without ops, with surroundings that answer
    everything: [FlushAsync] returns, nothing is under way, and the
    callback is stored and is not invoked. *)
Lemma whole_flush_without_ops_no_callback :
  let w := World_new None false false in
  let w' := res_world (whole_flush env0 surroundings0 7 false w) in
  gathering w /\ proper env0 surroundings0 w /\ ops_ (bat w) = [] /\
  whole_flush env0 surroundings0 7 false w = Done tt w' /\
  callbacks w' = [] /\
  flush_callback_ (bat w') = Some 7 /\
  state_ (bat w') = kResolvingTablets.
Proof.
  cbv zeta. split; [repeat split; reflexivity|].
  split; [apply surroundings0_proper; intros transaction Ht; discriminate Ht|].
  repeat split; reflexivity.
Qed.

(** The theorem at three writes, the third with a tablet known in advance
    and for the tablet of the first: the queue at the dispatch has the
    first op and the third, in this order, and then the second, and two
    RPCs are sent. *)
Lemma dispatch_in_submission_order_example :
  exists w',
    flush_to_dispatch env0 surroundings0 7 false known_tablet_last = Done tt w' /\
    map (fun op => (op_addr (yb_op op), sequence_number op)) (ops_queue_ (bat w')) =
      [(2, 0%nat); (5, 2%nat); (3, 1%nat)] /\
    map rpc_ops (sent_rpcs w') = [(0, 2)%nat; (2, 3)%nat] /\
    (forall i a, ops_queue_ (bat w') !! i = Some a ->
       ops_ (bat known_tablet_last) !! sequence_number a = Some (yb_op a)) /\
    (forall rpc, rpc ∈ sent_rpcs w' ->
       forall i j a b, rpc_covers rpc i -> rpc_covers rpc j ->
         ops_queue_ (bat w') !! i = Some a -> ops_queue_ (bat w') !! j = Some b ->
         (sequence_number a < sequence_number b)%nat -> (i < j)%nat) /\
    forall i i' a b,
      ops_queue_ (bat w') !! i = Some a -> ops_queue_ (bat w') !! i' = Some b ->
      tablet_get a = tablet_get b -> group (yb_op a) = group (yb_op b) ->
      (sequence_number a < sequence_number b)%nat -> (i < i')%nat.
Proof.
  destruct (dispatch_in_submission_order env0 surroundings0 7 false known_tablet_last)
    as (w' & Hrun & Hq & Hsub & _ & _ & _ & _ & _ & Hrpcs & _ & Hprec).
  - repeat split; reflexivity.
  - reflexivity.
  - apply surroundings0_proper. intros transaction Ht. discriminate Ht.
  - repeat constructor.
  - discriminate.
  - repeat constructor.
  - discriminate.
  - exists w'.
    assert (Hw : w' = res_world (flush_to_dispatch env0 surroundings0 7 false
                                   known_tablet_last)) by (by rewrite Hrun).
    split; [exact Hrun|]. split; [rewrite Hw; reflexivity|].
    split; [rewrite Hw; reflexivity|]. split; [exact Hsub|]. split.
    + intros rpc Hin. by destruct (Hrpcs rpc Hin) as (_ & _ & Hord).
    + intros i i' a b Ha Hb Ht Hk Hlt. by destruct (Hprec i i' a b Ha Hb Ht Hk Hlt).
Defined.

(** ** PgSession: applying, buffering and flushing (src/yb/yql/pggate/pg_session.cc) *)

(** ** What PostgreSQL sees of a flush *)

Lemma CombineErrorsToStatus_general (T : StatusText) (e : Z * Status)
    (rest : list (Z * Status)) :
  CombineErrorsToStatus T (e :: rest) kGeneralErrorStatus =
  match rest with
  | [] => AsIs (snd e)
  | _ => CloneAndAppend kGeneralErrorStatus
           (". Errors from tablet servers: " ++ GetStatusStringSet T (e :: rest))
  end.
Proof. by destruct rest. Qed.

(** The status PgSession's flush callback passes on when the Batcher itself
    had nothing to report ([combined_error_] ok when the flush finishes),
    computed from the status [FlushFinished] hands to the callback and the
    errors left in the collector: ok when no op failed; the failed op's own
    status, not the general IO error, when exactly one op failed; the
    general IO error with the tablet servers' statuses appended
    otherwise. *)
Theorem CombineErrorsToStatus_after_flush (env : Env) (T : StatusText)
    (w : World) (cb : Z) :
  flush_callback_ (bat w) = Some cb -> pool w = O ->
  ok (combined_error_ (bat w)) = true ->
  exists w' st,
    then_pool (FlushFinished env) w = Done tt w' /\
    callbacks w' = callbacks w ++ [(cb, st)] /\
    error_collector_ (bat w') = error_collector_ (bat w) /\
    CombineErrorsToStatus T (error_collector_ (bat w')) st =
      match error_collector_ (bat w) with
      | [] => AsIs (combined_error_ (bat w))
      | [e] => AsIs (snd e)
      | errors => CloneAndAppend kGeneralErrorStatus
                    (". Errors from tablet servers: " ++ GetStatusStringSet T errors)
      end.
Proof.
  intros Hcb Hpool Hok.
  destruct (FlushFinished_then_pool env w cb Hcb Hpool) as (w' & Hrun & Hcbs & _ & Hbat & _).
  exists w', (aggregated (bat w)). split; [exact Hrun|]. split; [exact Hcbs|].
  assert (Hcol : error_collector_ (bat w') = error_collector_ (bat w)).
  { rewrite Hbat. unfold finished. simpl. by case_bool_decide. }
  split; [exact Hcol|]. rewrite Hcol. unfold aggregated. rewrite Hok.
  destruct (error_collector_ (bat w)) as [|e rest]; [done|].
  change (length (e :: rest) =? 0)%nat with false. cbv [andb negb].
  rewrite CombineErrorsToStatus_general. by destruct rest.
Qed.

Lemma status_strings_perm (T : StatusText) (errors errors' : list (Z * Status)) :
  errors ≡ₚ errors' -> GetStatusStringSet T errors = GetStatusStringSet T errors'.
Proof.
  intros Hperm. unfold GetStatusStringSet. f_equal. apply set_eq. intros t.
  rewrite !elem_of_list_to_set. by rewrite Hperm.
Qed.

(** The combined status does not depend on the order in which the errors
    were collected. *)
Theorem CombineErrorsToStatus_order (T : StatusText)
    (errors errors' : list (Z * Status)) (status : Status) :
  errors ≡ₚ errors' ->
  CombineErrorsToStatus T errors status = CombineErrorsToStatus T errors' status.
Proof.
  intros Hperm. pose proof (Permutation_length Hperm) as Hlen.
  destruct errors as [|e rest], errors' as [|e' rest']; try done.
  destruct rest as [|e2 rest].
  - destruct rest' as [|? ?]; [|done].
    apply Permutation_singleton_l in Hperm. by injection Hperm as <-.
  - destruct rest' as [|e2' rest']; [done|].
    unfold CombineErrorsToStatus.
    change (length (e :: e2 :: rest) =? 1)%nat with false.
    change (length (e' :: e2' :: rest') =? 1)%nat with false.
    rewrite !andb_false_r. by rewrite (status_strings_perm T _ _ Hperm).
Qed.

(** ** Applying, buffering and flushing *)

Lemma pg_GetSession E transactional read_only_op w :
  pg (snd (GetSession E transactional read_only_op w)) = pg w.
Proof. unfold GetSession. by repeat case_match. Qed.

Lemma flushes_started_GetSession E transactional read_only_op w :
  flushes_started (snd (GetSession E transactional read_only_op w)) = flushes_started w.
Proof.
  unfold GetSession, flushes_started. repeat case_match; try done.
  simpl. rewrite omap_app. simpl. by rewrite app_nil_r.
Qed.

Lemma GetSession_plain E read_only_op w :
  GetSession E false read_only_op w = (inr false, w).
Proof. reflexivity. Qed.

Lemma flushes_started_effect e w :
  flushes_started (pg_effect e w) =
  flushes_started w ++ match e with SessionFlushAsync t => [t] | _ => [] end.
Proof. unfold flushes_started. simpl. rewrite omap_app. by destruct e. Qed.

Lemma ops_applied_effect e w :
  ops_applied (pg_effect e w) =
  ops_applied w ++ match e with SessionApply t op => [(t, op)] | _ => [] end.
Proof. unfold ops_applied. simpl. rewrite omap_app. by destruct e. Qed.

Lemma apply_buffered_pg E session ops : forall w,
  pg (snd (apply_buffered E session ops w)) = pg w /\
  flushes_started (snd (apply_buffered E session ops w)) = flushes_started w.
Proof.
  induction ops as [|op ops IH]; intros w; [done|]. simpl.
  destruct (ok _); [|simpl; by rewrite flushes_started_effect, app_nil_r].
  destruct (IH (pg_effect (SessionApply session op) w)) as [-> ->].
  by rewrite flushes_started_effect, app_nil_r.
Qed.

(** All applies go well: every op is applied, in order. *)
Lemma apply_buffered_ok E session ops : forall w,
  (forall h op, op ∈ ops -> ok (session_Apply E h session op) = true) ->
  apply_buffered E session ops w =
  (None, {| pg := pg w; pg_effects := pg_effects w ++ map (SessionApply session) ops |}).
Proof.
  induction ops as [|op ops IH]; intros w Hok; simpl.
  - rewrite app_nil_r. by destruct w.
  - rewrite Hok by apply list_elem_of_here.
    rewrite IH by (intros; apply Hok; by apply list_elem_of_further).
    simpl. by rewrite <- app_assoc.
Qed.

(** The first apply that fails ends the loop. *)
Lemma apply_buffered_fails E session before op after w :
  (forall h o, o ∈ before -> ok (session_Apply E h session o) = true) ->
  (forall h, ok (session_Apply E h session op) = false) ->
  apply_buffered E session (before ++ op :: after) w =
  (Some (session_Apply E (pg_effects w ++ map (SessionApply session) before) session op),
   {| pg := pg w;
      pg_effects := pg_effects w ++ map (SessionApply session) (before ++ [op]) |}).
Proof.
  revert w. induction before as [|o before IH]; intros w Hok Hfail; simpl.
  - rewrite Hfail, app_nil_r. reflexivity.
  - rewrite Hok by apply list_elem_of_here.
    rewrite IH by (try done; intros; apply Hok; by apply list_elem_of_further).
    simpl. by rewrite <- !app_assoc.
Qed.

Section Calls.

Variable E : PgEnv.
Variable T : StatusText.

Lemma mixed_call w c :
  has_txn_ops_ (pg w) = true -> has_non_txn_ops_ (pg w) = true ->
  has_txn_ops_ (pg (pg_call E T w c)) = true /\
  has_non_txn_ops_ (pg (pg_call E T w c)) = true /\
  exists n, flushes_started (pg_call E T w c) = flushes_started w ++ replicate n false.
Proof.
  intros Ht Hn. destruct c; simpl.
  - unfold StartBufferingWriteOperations. destruct (buffer_write_ops_ (pg w)); simpl;
      (split; [done|]; split; [done|]; exists O; by rewrite app_nil_r).
  - unfold FlushBufferedWriteOperations.
    destruct (buffer_write_ops_ (pg w)); simpl;
      [|split; [done|]; split; [done|]; exists O; by rewrite app_nil_r].
    destruct (buffered_write_ops_ (pg w)) as [|op ops] eqn:Hb; simpl;
      [split; [done|]; split; [done|]; exists O; by rewrite app_nil_r|].
    destruct (apply_buffered_pg E false ops (pg_effect (SessionApply false op) w))
      as [Hpg Hfl].
    destruct (ok (session_Apply E (pg_effects w) false op)); simpl;
      [|split; [done|]; split; [done|]; exists O;
        by rewrite flushes_started_effect].
    destruct (apply_buffered E false ops (pg_effect (SessionApply false op) w))
      as [[s|] w2]; simpl in *.
    + rewrite Hpg, Hfl, flushes_started_effect. simpl.
      split; [done|]. split; [done|]. by exists O.
    + rewrite Hpg. simpl. split; [done|]. split; [done|]. exists 1%nat.
      change (flushes_started (pg_effect (SessionFlushAsync false) w2) =
              flushes_started w ++ [false]).
      by rewrite flushes_started_effect, Hfl, flushes_started_effect, app_nil_r.
  - unfold PgApplyAsync.
    destruct (buffer_write_ops_ (pg w) && _).
    { destruct (IsTransactional op); simpl;
        (split; [done|]; split; [done|]; exists O; by rewrite app_nil_r). }
    unfold GetSessionForOp, GetSession.
    destruct (IsTransactional op); simpl.
    + destruct (ok (GetTransactionalSession E (pg_effects w))); simpl;
        [|split; [done|]; split; [done|]; exists O; by rewrite app_nil_r].
      rewrite ?Ht. destruct read_time as [t|]; simpl.
      * destruct (ok _); simpl; (split; [done|]; split; [done|]; exists O;
          by rewrite !flushes_started_effect, !app_nil_r).
      * destruct (ok _); simpl; (split; [done|]; split; [done|]; exists O;
          by rewrite !flushes_started_effect, !app_nil_r).
    + rewrite ?Ht. destruct read_time as [t|]; simpl.
      * destruct (ok _); simpl; (split; [done|]; split; [done|]; exists O;
          by rewrite !flushes_started_effect, !app_nil_r).
      * destruct (ok _); simpl; (split; [done|]; split; [done|]; exists O;
          by rewrite !flushes_started_effect, !app_nil_r).
  - unfold PgFlushAsync. rewrite Ht, Hn. simpl.
    split; [done|]. split; [done|]. exists O. by rewrite app_nil_r.
Qed.

(** Once transactional and non-transactional ops were both applied, no
    sequence of calls gets PgSession out of it: both marks stay,
    [PgFlushAsync] returns the illegal-state error without touching
    anything, and the transactional session is never flushed again (only
    [FlushBufferedWriteOperations] flushes, and only the plain session). *)
Theorem mixed_ops_block_PgFlushAsync (w : PgWorld) (calls : list PgCall) :
  has_txn_ops_ (pg w) = true -> has_non_txn_ops_ (pg w) = true ->
  let w' := pg_calls E T calls w in
  has_txn_ops_ (pg w') = true /\ has_non_txn_ops_ (pg w') = true /\
  PgFlushAsync E w' =
    (STATUS Code.IllegalState kNone
       (Text "Cannot flush transactional and non-transactional operations together"),
     w') /\
  exists n, flushes_started w' = flushes_started w ++ replicate n false.
Proof.
  revert w. induction calls as [|c calls IH]; intros w Ht Hn; cbv zeta in *; simpl.
  - split; [done|]. split; [done|]. split.
    + unfold PgFlushAsync. by rewrite Ht, Hn.
    + exists O. by rewrite app_nil_r.
  - change (pg_calls E T (c :: calls) w) with (pg_calls E T calls (pg_call E T w c)).
    destruct (mixed_call w c Ht Hn) as (Ht1 & Hn1 & n1 & Hf1).
    destruct (IH (pg_call E T w c) Ht1 Hn1) as (Ht2 & Hn2 & Hflush & n2 & Hf2).
    split; [exact Ht2|]. split; [exact Hn2|]. split; [exact Hflush|].
    exists (n1 + n2)%nat. rewrite Hf2, Hf1, <- app_assoc.
    by rewrite replicate_add.
Qed.

End Calls.

Section Buffer.

Variable E : PgEnv.
Variable T : StatusText.

Lemma PgApplyAsync_buffers op read_time w :
  buffer_write_ops_ (pg w) = true -> bufferable op ->
  PgApplyAsync E op read_time w =
  (inr true, read_time,
   upd_pg (fun s => set_buffered_write_ops (buffered_write_ops_ s ++ [op]) s) w).
Proof.
  intros Hb [Hw Ht]. unfold PgApplyAsync. by rewrite Hb, Hw, Ht.
Qed.

Lemma buffer_inv_call w c :
  buffer_inv (pg w) -> buffer_inv (pg (pg_call E T w c)).
Proof.
  intros Hinv. pose proof Hinv as [Hall Hoff]. destruct c; simpl.
  - unfold StartBufferingWriteOperations.
    destruct (buffer_write_ops_ (pg w)) eqn:Hb; simpl; [exact Hinv|].
    split; [done|]. simpl. discriminate.
  - unfold FlushBufferedWriteOperations.
    destruct (buffer_write_ops_ (pg w)) eqn:Hb; simpl; [|exact Hinv].
    destruct (buffered_write_ops_ (pg w)) as [|op ops] eqn:Hq; simpl.
    { split; simpl; by rewrite Hq. }
    destruct (apply_buffered_pg E false ops (pg_effect (SessionApply false op) w))
      as [Hpg _].
    destruct (ok (session_Apply E (pg_effects w) false op)); simpl; [|exact Hinv].
    destruct (apply_buffered E false ops (pg_effect (SessionApply false op) w))
      as [[s|] w2]; simpl in *.
    + by rewrite Hpg.
    + split; simpl; [constructor|done].
  - assert (Hrest : buffer_inv (pg (snd (
        let w1 := upd_pg (if IsTransactional op then set_has_txn_ops true
                          else set_has_non_txn_ops true) w in
        match GetSessionForOp E op w1 with
        | (inl s, w2) => (inl s, read_time, w2)
        | (inr session, w2) =>
            let '(read_time', w3) :=
              match read_time with
              | Some t =>
                  if has_txn_ops_ (pg w2) then
                    let t' := if t =? 0 then clock_Now E (pg_effects w2) else t in
                    (Some t', pg_effect (SessionSetInTxnLimit session t') w2)
                  else (read_time, w2)
              | None => (None, w2)
              end in
            let s := session_Apply E (pg_effects w3) session op in
            let w4 := pg_effect (SessionApply session op) w3 in
            if ok s then (inr false, read_time', w4) else (@inl Status bool s, read_time', w4)
        end)))).
    { cbv zeta. unfold GetSessionForOp.
      pose proof (pg_GetSession E (IsTransactional op) (pgsql_read_only op)
        (upd_pg (if IsTransactional op then set_has_txn_ops true
                 else set_has_non_txn_ops true) w)) as Hpg.
      destruct (GetSession E (IsTransactional op) (pgsql_read_only op) _)
        as [[s|session] w2]; simpl in Hpg; simpl.
      - rewrite Hpg. by destruct (IsTransactional op).
      - destruct read_time as [t|]; [destruct (has_txn_ops_ (pg w2))|];
          destruct (ok _); simpl; rewrite Hpg; by destruct (IsTransactional op). }
    unfold PgApplyAsync.
    destruct (buffer_write_ops_ (pg w)) eqn:Hb; [|exact Hrest].
    destruct (pgsql_type op) eqn:Hty; try exact Hrest.
    simpl. destruct (IsTransactional op) eqn:Ht; simpl; [exact Hinv|].
    split; simpl; [|by rewrite Hb].
    apply Forall_app. split; [done|]. by apply Forall_singleton.
  - unfold PgFlushAsync.
    destruct (has_txn_ops_ (pg w) && has_non_txn_ops_ (pg w)); simpl; [exact Hinv|].
    pose proof (pg_GetSession E (has_txn_ops_ (pg w)) true
      (upd_pg (fun s => set_has_non_txn_ops false (set_has_txn_ops false s)) w)) as Hpg.
    destruct (GetSession E (has_txn_ops_ (pg w)) true _) as [[s|session] w2];
      simpl in Hpg; simpl; by rewrite Hpg.
Qed.

(** The buffer holds only writes that are not transactional, and holds
    nothing when PgSession is not buffering, whatever is called: reads and
    transactional ops are never buffered, the [DCHECK] in the loop of
    [FlushBufferedWriteOperations] holds, and a new round of buffering
    starts empty. *)
Theorem buffer_holds_plain_writes (w : PgWorld) (calls : list PgCall) :
  buffer_inv (pg w) ->
  let w' := pg_calls E T calls w in
  Forall (fun op => pgsql_type op = PGSQL_WRITE /\ IsTransactional op = false)
         (buffered_write_ops_ (pg w')) /\
  (buffer_write_ops_ (pg w') = false -> buffered_write_ops_ (pg w') = []).
Proof.
  revert w. induction calls as [|c calls IH]; intros w Hinv; cbv zeta in *; [done|].
  change (pg_calls E T (c :: calls) w) with (pg_calls E T calls (pg_call E T w c)).
  apply IH. by apply buffer_inv_call.
Qed.

Lemma buffer_all ops : forall w,
  buffer_write_ops_ (pg w) = true -> Forall (fun c => bufferable (fst c)) ops ->
  pg_calls E T (map (fun c => CallPgApplyAsync (fst c) (snd c)) ops) w =
  upd_pg (fun s => set_buffered_write_ops (buffered_write_ops_ s ++ map fst ops) s) w.
Proof.
  induction ops as [|[op rt] ops IH]; intros w Hb Hall.
  - destruct w as [[] ?]. unfold pg_calls, upd_pg, set_buffered_write_ops. simpl.
    by rewrite app_nil_r.
  - inv Hall. simpl map.
    change (pg_calls E T (?c :: ?l) w) with (pg_calls E T l (pg_call E T w c)).
    simpl pg_call. rewrite PgApplyAsync_buffers by done. simpl snd.
    rewrite IH by done. unfold upd_pg. simpl. by rewrite <- app_assoc.
Qed.

Lemma FlushBufferedWriteOperations_ok w :
  buffer_write_ops_ (pg w) = true -> buffered_write_ops_ (pg w) <> [] ->
  (forall h op, ok (session_Apply E h false op) = true) ->
  let h := pg_effects w ++ map (SessionApply false) (buffered_write_ops_ (pg w)) ++
           [SessionFlushAsync false] in
  FlushBufferedWriteOperations E T w =
  (CombineErrorsToStatus T (fst (flush_outcome E h)) (snd (flush_outcome E h)),
   {| pg := set_buffer_write_ops false (set_buffered_write_ops [] (pg w));
      pg_effects := h |}).
Proof.
  intros Hb Hne Hok. cbv zeta. unfold FlushBufferedWriteOperations.
  rewrite Hb. simpl negb. cbv iota.
  destruct (buffered_write_ops_ (pg w)) as [|o l] eqn:Hq; [done|].
  rewrite GetSession_plain. cbv iota beta.
  rewrite apply_buffered_ok by (intros; apply Hok). cbv iota beta zeta.
  unfold pg_effect, upd_pg. simpl pg. simpl pg_effects.
  by rewrite <- !app_assoc.
Qed.

(** A round of buffering.  After [StartBufferingWriteOperations] on a
    PgSession that is not buffering, writes that are not transactional are
    only put aside by [PgApplyAsync]: no session sees them.
    [FlushBufferedWriteOperations] then applies them to the plain session
    in the order they came, starts one flush, and returns what the callback
    of that flush combined; PgSession is as it was before the round. *)
Theorem buffered_writes_go_out_together (w : PgWorld)
    (ops : list (YBPgsqlOp * option Z)) :
  buffer_write_ops_ (pg w) = false -> buffered_write_ops_ (pg w) = [] ->
  ops <> [] -> Forall (fun c => bufferable (fst c)) ops ->
  (forall h op, ok (session_Apply E h false op) = true) ->
  let w1 := snd (StartBufferingWriteOperations w) in
  let w2 := pg_calls E T (map (fun c => CallPgApplyAsync (fst c) (snd c)) ops) w1 in
  let h := pg_effects w ++ map (SessionApply false) (map fst ops) ++
           [SessionFlushAsync false] in
  fst (StartBufferingWriteOperations w) = Status_OK /\
  pg_effects w2 = pg_effects w /\
  buffered_write_ops_ (pg w2) = map fst ops /\
  FlushBufferedWriteOperations E T w2 =
    (CombineErrorsToStatus T (fst (flush_outcome E h)) (snd (flush_outcome E h)),
     {| pg := pg w; pg_effects := h |}).
Proof.
  intros Hb Hq Hne Hall Hok. cbv zeta.
  unfold StartBufferingWriteOperations. rewrite Hb. simpl fst. simpl snd.
  rewrite buffer_all by done.
  split; [done|]. split; [done|]. split; [simpl; by rewrite Hq|].
  rewrite FlushBufferedWriteOperations_ok;
    [| done | simpl; rewrite Hq; by destruct ops | done].
  simpl. rewrite Hq. simpl. do 2 f_equal.
  destruct w as [[] ?]. simpl in *. by subst.
Qed.

(** An apply that fails in [FlushBufferedWriteOperations] leaves the round
    open.  The status of the apply is returned, no flush is started, and
    PgSession still buffers the same ops, so that
    [StartBufferingWriteOperations] is refused and a second
    [FlushBufferedWriteOperations] applies the ops before the failing one
    once more. *)
Theorem failed_apply_keeps_the_buffer (w : PgWorld) (before after : list YBPgsqlOp)
    (op : YBPgsqlOp) :
  buffer_write_ops_ (pg w) = true ->
  buffered_write_ops_ (pg w) = before ++ op :: after ->
  (forall h o, o ∈ before -> ok (session_Apply E h false o) = true) ->
  (forall h, ok (session_Apply E h false op) = false) ->
  let h := pg_effects w ++ map (SessionApply false) before in
  let w' := {| pg := pg w; pg_effects := h ++ [SessionApply false op] |} in
  FlushBufferedWriteOperations E T w = (AsIs (session_Apply E h false op), w') /\
  flushes_started w' = flushes_started w /\
  StartBufferingWriteOperations w' =
    (STATUS Code.IllegalState kNone (Text "Buffering write operations already"), w') /\
  ops_applied (snd (FlushBufferedWriteOperations E T w')) =
    ops_applied w ++ map (pair false) (before ++ [op]) ++ map (pair false) (before ++ [op]).
Proof.
  intros Hb Hq Hok Hfail. cbv zeta.
  assert (Hrun : forall w0 : PgWorld, pg w0 = pg w ->
            FlushBufferedWriteOperations E T w0 =
            (AsIs (session_Apply E (pg_effects w0 ++ map (SessionApply false) before)
                     false op),
             {| pg := pg w;
                pg_effects := pg_effects w0 ++ map (SessionApply false) (before ++ [op]) |})).
  { intros w0 Hpg. unfold FlushBufferedWriteOperations. rewrite Hpg, Hb, Hq. simpl negb.
    cbv iota. destruct (before ++ op :: after) as [|o l] eqn:Hl;
      [by destruct before|].
    rewrite GetSession_plain. cbv iota beta. rewrite <- Hl.
    rewrite apply_buffered_fails by done. by rewrite Hpg. }
  assert (Hflushes : forall l p h,
            flushes_started {| pg := p;
              pg_effects := h ++ map (SessionApply false) l |} =
            flushes_started {| pg := p; pg_effects := h |}).
  { intros l p h. unfold flushes_started. simpl. rewrite omap_app.
    replace (omap _ (map (SessionApply false) l)) with (@nil bool);
      [by rewrite app_nil_r|].
    induction l; by simpl. }
  assert (Happlied : forall l p h,
            ops_applied {| pg := p;
              pg_effects := h ++ map (SessionApply false) l |} =
            ops_applied {| pg := p; pg_effects := h |} ++ map (pair false) l).
  { intros l p h. unfold ops_applied. simpl. rewrite omap_app. f_equal.
    induction l; simpl; [done|]. by f_equal. }
  change [SessionApply false op] with (map (SessionApply false) [op]).
  split; [rewrite Hrun by done; by rewrite map_app, app_assoc|].
  split; [by rewrite !Hflushes|].
  split; [unfold StartBufferingWriteOperations; simpl; by rewrite Hb|].
  rewrite Hrun by done. cbn [snd pg_effects].
  rewrite !Happlied. rewrite !map_app, <- !app_assoc. done.
Qed.

End Buffer.

(** The theorem at a flush with one collected error and an ok status. *)
Lemma CombineErrorsToStatus_after_flush_example :
  exists w',
    then_pool (FlushFinished env0) failed_world = Done tt w' /\
    callbacks w' = [(7, kGeneralErrorStatus)] /\
    CombineErrorsToStatus code_only (error_collector_ (bat w')) kGeneralErrorStatus =
      AsIs not_found.
Proof.
  destruct (CombineErrorsToStatus_after_flush env0 code_only failed_world 7)
    as (w' & st & Hrun & Hcb & Hcol & Hres); [reflexivity..|].
  exists w'. split; [exact Hrun|].
  assert (Hst : st = kGeneralErrorStatus).
  { simpl in Hcb. assert (Hlast : last (callbacks w') = Some (7, st))
      by (by rewrite Hcb).
    pose proof Hrun as Hrun'. vm_compute in Hrun'. injection Hrun' as <-.
    vm_compute in Hlast. by injection Hlast as <-. }
  subst st. split; [exact Hcb|]. exact Hres.
Defined.

(** The theorem at two errors collected in either order. *)
Lemma CombineErrorsToStatus_order_example :
  CombineErrorsToStatus code_only [(1, not_found); (2, timed_out)] kGeneralErrorStatus =
  CombineErrorsToStatus code_only [(2, timed_out); (1, not_found)] kGeneralErrorStatus.
Proof.
  apply CombineErrorsToStatus_order. apply perm_swap.
Defined.

(** The theorem at a PgSession that applied ops of both kinds, for a
    sequence of calls. *)
Lemma mixed_ops_block_PgFlushAsync_example :
  let w' := pg_calls pg_env0 code_only
              [CallPgFlushAsync; CallPgApplyAsync (txn_read 5) (Some 0);
               CallStartBuffering; CallPgFlushAsync] pg_mixed in
  fst (PgFlushAsync pg_env0 w') =
    STATUS Code.IllegalState kNone
      (Text "Cannot flush transactional and non-transactional operations together") /\
  flushes_started w' = [] /\
  ops_applied w' = [(true, txn_read 5)].
Proof.
  destruct (mixed_ops_block_PgFlushAsync pg_env0 code_only pg_mixed
              [CallPgFlushAsync; CallPgApplyAsync (txn_read 5) (Some 0);
               CallStartBuffering; CallPgFlushAsync])
    as (_ & _ & Hflush & _); [reflexivity..|].
  cbv zeta. rewrite Hflush. repeat split; reflexivity.
Defined.

(** The theorem at an idle PgSession, for a round of buffering with a read
    in between and a flush that fails. *)
Lemma buffer_holds_plain_writes_example :
  let w' := pg_calls pg_env_op2_fails code_only
              [CallStartBuffering; CallPgApplyAsync (plain_write 1) None;
               CallPgApplyAsync (txn_read 5) None; CallPgApplyAsync (plain_write 2) None;
               CallFlushBuffered] pg_idle in
  Forall (fun op => pgsql_type op = PGSQL_WRITE /\ IsTransactional op = false)
         (buffered_write_ops_ (pg w')) /\
  (buffer_write_ops_ (pg w') = false -> buffered_write_ops_ (pg w') = []).
Proof.
  apply (buffer_holds_plain_writes pg_env_op2_fails code_only pg_idle).
  split; [constructor|reflexivity].
Defined.

(** The theorem at two writes. *)
Lemma buffered_writes_go_out_together_example :
  exists s,
    FlushBufferedWriteOperations pg_env0 code_only
      (pg_calls pg_env0 code_only
         [CallPgApplyAsync (plain_write 1) None; CallPgApplyAsync (plain_write 2) (Some 9)]
         (snd (StartBufferingWriteOperations pg_idle))) =
    (s, {| pg := pg pg_idle;
           pg_effects := [SessionApply false (plain_write 1);
                          SessionApply false (plain_write 2);
                          SessionFlushAsync false] |}).
Proof.
  destruct (buffered_writes_go_out_together pg_env0 code_only pg_idle
              [(plain_write 1, None); (plain_write 2, Some 9)])
    as (_ & _ & _ & Hflush).
  - reflexivity.
  - reflexivity.
  - discriminate.
  - repeat (constructor; [split; reflexivity|]). constructor.
  - reflexivity.
  - eexists. exact Hflush.
Defined.

(** The theorem at three buffered writes of which the second fails. *)
Lemma failed_apply_keeps_the_buffer_example :
  FlushBufferedWriteOperations pg_env_op2_fails code_only pg_buffering =
    (AsIs timed_out,
     {| pg := pg pg_buffering;
        pg_effects := [SessionApply false (plain_write 1);
                       SessionApply false (plain_write 2)] |}).
Proof.
  destruct (failed_apply_keeps_the_buffer pg_env_op2_fails code_only pg_buffering
              [plain_write 1] [plain_write 3] (plain_write 2))
    as (Hflush & _).
  - reflexivity.
  - reflexivity.
  - intros h o Ho. apply list_elem_of_singleton in Ho. subst o. reflexivity.
  - reflexivity.
  - exact Hflush.
Defined.

(** ** The C interface of Status (src/yb/common/ybc_util.cc) *)

(** ** DupYBStatusMessage *)

Lemma strlen_le (s : list Byte.byte) : (strlen s <= length s)%nat.
Proof. induction s as [|c s IH]; simpl; [lia|]. destruct (Byte.eqb c Byte.x00); simpl; lia. Qed.

Lemma strlen_take (s : list Byte.byte) :
  Forall (fun c => c <> Byte.x00) (take (strlen s) s).
Proof.
  induction s as [|c s IH]; simpl; [constructor|].
  destruct (Byte.eqb c Byte.x00) eqn:Hc; simpl; [constructor|].
  constructor; [|done]. by apply Byte.eqb_false.
Qed.

Lemma strlen_app (s rest : list Byte.byte) :
  Forall (fun c => c <> Byte.x00) s -> strlen (s ++ rest) = (length s + strlen rest)%nat.
Proof.
  induction 1 as [|c s Hc _ IH]; simpl; [done|].
  destruct (Byte.eqb c Byte.x00) eqn:Heq; [|by rewrite IH].
  apply Byte.byte_dec_bl in Heq. done.
Qed.

(** Writing on at the end of what was written. *)
Lemma poke_next (done : list Byte.byte) (r : nat) (c : Byte.byte) :
  poke (map Some done ++ replicate (S r) None) (length done) c =
  Some (map Some (done ++ [c]) ++ replicate r None).
Proof.
  unfold poke. rewrite bool_decide_true
    by (rewrite length_app, length_map, length_replicate; lia).
  f_equal.
  replace (length done) with (length (map Some done) + 0)%nat
    by (rewrite length_map; lia).
  rewrite insert_app_r. simpl. by rewrite map_app, <- app_assoc.
Qed.

Lemma memcpy_next (done src : list Byte.byte) (n r : nat) :
  (n <= length src)%nat ->
  memcpy (map Some done ++ replicate (n + r) None) (length done) src n =
  Some (map Some (done ++ take n src) ++ replicate r None).
Proof.
  intros Hn. unfold memcpy. rewrite bool_decide_true
    by (rewrite length_app, length_map, length_replicate; lia).
  f_equal.
  replace (length done) with (length (map Some done)) by apply length_map.
  rewrite take_app_length, drop_app_add, drop_replicate_add.
  by rewrite map_app, <- app_assoc.
Qed.

(** The buffer [DupYBStatusMessage] returns is exactly filled: every write
    is inside it, every byte of it is written, and it holds the code, a
    colon and a space (unless [message_only]), the message and a final
    NUL.  Read as a C string it ends at the first NUL of the message. *)
Theorem DupYBStatusMessage_fills_the_buffer (code_as_cstring message : list Byte.byte)
    (message_only : bool) :
  Z.of_nat (strlen code_as_cstring) + Z.of_nat (length message) + 3 < 2 ^ 64 ->
  let code := take (strlen code_as_cstring) code_as_cstring in
  let head := if message_only then [] else code ++ [Byte.x3a; Byte.x20] in
  DupYBStatusMessage code_as_cstring message message_only =
    Some (map Some (head ++ message ++ [Byte.x00])) /\
  strlen (head ++ message ++ [Byte.x00]) = (length head + strlen message)%nat /\
  (strlen (head ++ message ++ [Byte.x00]) < length (head ++ message ++ [Byte.x00]))%nat.
Proof.
  intros Hsize. cbv zeta.
  pose proof (strlen_le code_as_cstring) as Hle.
  pose proof (strlen_take code_as_cstring) as Hcode.
  set (sl := strlen code_as_cstring) in *. set (ml := length message) in *.
  assert (Hhead : Forall (fun c => c <> Byte.x00)
            (if message_only then [] else take sl code_as_cstring ++ [Byte.x3a; Byte.x20])).
  { destruct message_only; [constructor|]. apply Forall_app. split; [done|].
    repeat constructor; discriminate. }
  split; [|split].
  - unfold DupYBStatusMessage. fold sl. fold ml.
    assert (Hsz : size_t (size_t (Z.of_nat sl + Z.of_nat ml) + 3) =
                  Z.of_nat sl + Z.of_nat ml + 3).
    { unfold size_t. rewrite (Z.mod_small (Z.of_nat sl + Z.of_nat ml)) by lia.
      apply Z.mod_small. lia. }
    rewrite Hsz. destruct message_only; simpl negb; cbv iota.
    + assert (Hsz1 : size_t (Z.of_nat sl + Z.of_nat ml + 3 - size_t (2 + Z.of_nat sl)) =
                     Z.of_nat (ml + 1)).
      { unfold size_t. rewrite (Z.mod_small (2 + _)) by lia.
        rewrite Z.mod_small by lia. lia. }
      rewrite Hsz1. unfold YBCPAlloc. rewrite Nat2Z.id. simpl mbind. cbv beta. simpl fst.
      simpl snd.
      pose proof (memcpy_next [] message ml 1) as Hcopy. simpl in Hcopy.
      rewrite Hcopy by (unfold ml; lia). simpl.
      unfold ml. rewrite firstn_all.
      pose proof (poke_next message 0 Byte.x00) as Hpoke. simpl in Hpoke.
      rewrite Hpoke. by rewrite app_nil_r.
    + unfold YBCPAlloc.
      replace (Z.to_nat (Z.of_nat sl + Z.of_nat ml + 3)) with (sl + S (S (ml + 1)))%nat by lia.
      change (0 + sl)%nat with sl.
      set (code := take sl code_as_cstring).
      assert (Hlen : length code = sl) by (unfold code; rewrite length_take; lia).
      pose proof (memcpy_next [] code_as_cstring sl (S (S (ml + 1))) Hle) as Hcopy.
      cbn [map app length] in Hcopy. fold code in Hcopy.
      rewrite Hcopy. cbn [mbind option_bind].
      pose proof (poke_next code (S (ml + 1)) Byte.x3a) as Hcolon.
      rewrite Hlen in Hcolon. rewrite Hcolon. cbn [mbind option_bind].
      pose proof (poke_next (code ++ [Byte.x3a]) (ml + 1) Byte.x20) as Hspace.
      rewrite length_app, Hlen in Hspace. cbn [length] in Hspace.
      replace (sl + 1)%nat with (S sl) in Hspace by lia. rewrite Hspace. cbn [mbind option_bind fst snd].
      pose proof (memcpy_next ((code ++ [Byte.x3a]) ++ [Byte.x20]) message ml 1) as Hmsg.
      rewrite !length_app, Hlen in Hmsg. cbn [length] in Hmsg.
      replace (sl + 1 + 1)%nat with (S (S sl)) in Hmsg by lia.
      rewrite Hmsg by (unfold ml; lia). cbn [mbind option_bind].
      unfold ml at 1. rewrite firstn_all.
      pose proof (poke_next (((code ++ [Byte.x3a]) ++ [Byte.x20]) ++ message) 0 Byte.x00)
        as Hnul.
      rewrite !length_app, Hlen in Hnul. cbn [length] in Hnul.
      replace (sl + 1 + 1 + length message)%nat with (S (S sl) + ml)%nat in Hnul
        by (unfold ml; lia).
      rewrite Hnul. cbn [replicate]. by rewrite app_nil_r, <- !app_assoc.
  - rewrite strlen_app by done. f_equal.
    clear. induction message as [|c m IH]; simpl; [done|].
    destruct (Byte.eqb c Byte.x00); [done|]. by rewrite IH.
  - rewrite strlen_app by done. rewrite !length_app. simpl.
    pose proof (strlen_le (message ++ [Byte.x00])) as Hm.
    assert (strlen (message ++ [Byte.x00]) <= length message)%nat; [|lia].
    clear. induction message as [|c m IH]; simpl; [done|].
    destruct (Byte.eqb c Byte.x00); simpl; lia.
Qed.

(** ** YBCEvalHashValueSelectivity *)

Lemma clamped_range (hash : Z) : 0 <= clamped hash <= USHRT_MAX.
Proof. unfold clamped, USHRT_MAX. lia. Qed.

Lemma bucket_range (hash : Z) : 0 <= clamped hash / 1024 <= 63.
Proof.
  pose proof (clamped_range hash) as H. unfold USHRT_MAX in H. split.
  - apply Z.div_pos; lia.
  - apply Z.lt_succ_r. apply Z.div_lt_upper_bound; lia.
Qed.

(** The function on the clamped bounds. *)
Lemma YBCEvalHashValueSelectivity_eq (hash_low hash_high : Z) :
  YBCEvalHashValueSelectivity hash_low hash_high =
  if clamped hash_low <=? clamped hash_high
  then (clamped hash_high / 1024 - clamped hash_low / 1024 + 1) # 64
  else 0 # 1.
Proof.
  unfold YBCEvalHashValueSelectivity, YBCGetHashBucketFromValue, YBCGetNumHashBuckets.
  set (h := if (if hash_high <=? USHRT_MAX then hash_high else USHRT_MAX) >=? 0
            then if hash_high <=? USHRT_MAX then hash_high else USHRT_MAX else 0).
  set (l := if (if hash_low >=? 0 then hash_low else 0) <=? USHRT_MAX
            then if hash_low >=? 0 then hash_low else 0 else USHRT_MAX).
  assert (Hh : h = clamped hash_high).
  { unfold h, clamped, USHRT_MAX. repeat case_match; lia. }
  assert (Hl : l = clamped hash_low).
  { unfold l, clamped, USHRT_MAX. repeat case_match; lia. }
  rewrite Hh, Hl, !Z.shiftr_div_pow2 by lia. change (2 ^ 10) with 1024.
  rewrite Z.geb_leb.
  destruct (Z.leb_spec (clamped hash_low) (clamped hash_high)) as [Hle|_]; [|done].
  pose proof (bucket_range hash_low). pose proof (bucket_range hash_high).
  assert (clamped hash_low / 1024 <= clamped hash_high / 1024)
    by (apply Z.div_le_mono; lia).
  rewrite Z.mod_small by lia. done.
Qed.

(** The selectivity of a range of hash values is zero or a number of
    sixty-fourths between 1/64 and 1: the arithmetic on the buckets does not
    wrap.  It is zero exactly when the upper bound, clamped to
    [0, USHRT_MAX], is below the clamped lower bound, so a range that lies
    entirely above USHRT_MAX or entirely below zero counts for one bucket;
    the full range gives 1, and a wider range never gives less. *)
Theorem YBCEvalHashValueSelectivity_range (hash_low hash_high : Z) :
  let r := YBCEvalHashValueSelectivity hash_low hash_high in
  (exists k, 0 <= k <= 64 /\ (r == k # 64)%Q) /\
  (0 <= r <= 1)%Q /\
  ((r == 0)%Q <-> clamped hash_high < clamped hash_low) /\
  (clamped hash_low <= clamped hash_high -> (1 # 64 <= r)%Q) /\
  (hash_low <= 0 -> USHRT_MAX <= hash_high -> r = 64 # 64) /\
  (USHRT_MAX <= hash_low <= hash_high \/ hash_low <= hash_high <= 0 -> r = 1 # 64) /\
  (forall low' high', low' <= hash_low -> hash_high <= high' ->
     (r <= YBCEvalHashValueSelectivity low' high')%Q).
Proof.
  cbv zeta. rewrite YBCEvalHashValueSelectivity_eq.
  pose proof (bucket_range hash_low) as Hbl. pose proof (bucket_range hash_high) as Hbh.
  pose proof (clamped_range hash_low) as Hcl. pose proof (clamped_range hash_high) as Hch.
  unfold USHRT_MAX in *.
  destruct (Z.leb_spec (clamped hash_low) (clamped hash_high)) as [Hle|Hgt].
  - assert (Hb : clamped hash_low / 1024 <= clamped hash_high / 1024)
      by (apply Z.div_le_mono; lia).
    split_and!.
    + eexists. split; [|reflexivity]. lia.
    + unfold Qle. simpl. lia.
    + unfold Qle. simpl. lia.
    + unfold Qeq. simpl. lia.
    + intros _. unfold Qle. simpl. lia.
    + intros Hl Hh. replace (clamped hash_low) with 0 by (unfold clamped, USHRT_MAX; lia).
      replace (clamped hash_high) with 65535 by (unfold clamped, USHRT_MAX; lia).
      reflexivity.
    + intros Hout.
      assert (clamped hash_low = clamped hash_high) as ->
        by (unfold clamped, USHRT_MAX; lia).
      by rewrite Z.sub_diag.
    + intros low' high' Hl Hh. rewrite YBCEvalHashValueSelectivity_eq.
      assert (clamped low' <= clamped hash_low) by (unfold clamped, USHRT_MAX; lia).
      assert (clamped hash_high <= clamped high') by (unfold clamped, USHRT_MAX; lia).
      destruct (Z.leb_spec (clamped low') (clamped high')) as [_|?]; [|lia].
      assert (clamped low' / 1024 <= clamped hash_low / 1024)
        by (apply Z.div_le_mono; lia).
      assert (clamped hash_high / 1024 <= clamped high' / 1024)
        by (apply Z.div_le_mono; lia).
      unfold Qle. simpl. lia.
  - split_and!.
    + exists 0. split; [lia|]. reflexivity.
    + done.
    + done.
    + unfold Qeq. simpl. lia.
    + lia.
    + intros Hl Hh. exfalso. unfold clamped, USHRT_MAX in *. lia.
    + intros Hout. exfalso. unfold clamped, USHRT_MAX in *. lia.
    + intros low' high' Hl Hh. rewrite YBCEvalHashValueSelectivity_eq.
      destruct (Z.leb_spec (clamped low') (clamped high')) as [?|?]; [|done].
      pose proof (bucket_range low'). pose proof (bucket_range high').
      assert (clamped low' / 1024 <= clamped high' / 1024)
        by (apply Z.div_le_mono; lia).
      unfold Qle. simpl. lia.
Qed.

(** The theorem at the code "OK", with memory going on after its NUL, and
    the message "hi". *)
Lemma DupYBStatusMessage_fills_the_buffer_example :
  DupYBStatusMessage [Byte.x4f; Byte.x4b; Byte.x00; Byte.x21] [Byte.x68; Byte.x69] false =
  Some (map Some [Byte.x4f; Byte.x4b; Byte.x3a; Byte.x20; Byte.x68; Byte.x69; Byte.x00]).
Proof.
  destruct (DupYBStatusMessage_fills_the_buffer
              [Byte.x4f; Byte.x4b; Byte.x00; Byte.x21] [Byte.x68; Byte.x69] false)
    as [Hbuf _].
  - simpl. lia.
  - exact Hbuf.
Defined.

(** ** The order of VertexWithDistance (src/yb/vector/distance.h) *)

Lemma SFcompare_rank (x y : spec_float) :
  isnan x = false -> isnan y = false ->
  exists c, SFcompare x y = Some c /\
    match c with
    | Lt => rank_lt (float_rank x) (float_rank y)
    | Eq => float_rank x = float_rank y
    | Gt => rank_lt (float_rank y) (float_rank x)
    end.
Proof.
  intros Hx Hy.
  destruct x as [sx|sx| |sx mx ex], y as [sy|sy| |sy my ey]; try discriminate;
    try (destruct sx); try (destruct sy); unfold SFcompare;
    try (eexists; split; [reflexivity|]; unfold rank_lt; simpl; (reflexivity || lia));
    change (Pos.compare_cont Eq mx my) with (Pos.compare mx my);
    (destruct (Z.compare_spec ex ey) as [->|?|?];
      [|eexists; split; [reflexivity|]; unfold rank_lt; simpl; lia..]);
    destruct (Pos.compare_spec mx my) as [->|?|?];
      eexists; (split; [reflexivity|]); unfold rank_lt; simpl; (reflexivity || lia).
Qed.

Lemma SFcompare_nan (x y : spec_float) :
  isnan x = true \/ isnan y = true -> SFcompare x y = None.
Proof. destruct x, y; simpl; intros [?|?]; done. Qed.

Lemma SFltb_true (x y : spec_float) :
  SFltb x y = true <->
  isnan x = false /\ isnan y = false /\ rank_lt (float_rank x) (float_rank y).
Proof.
  unfold SFltb. destruct (isnan x) eqn:Hx.
  { rewrite SFcompare_nan by auto. split; [done|]. by intros [? _]. }
  destruct (isnan y) eqn:Hy.
  { rewrite SFcompare_nan by auto. split; [done|]. by intros (_ & ? & _). }
  destruct (SFcompare_rank x y Hx Hy) as (c & -> & Hc).
  destruct (float_rank x) as [[x1 x2] x3], (float_rank y) as [[y1 y2] y3].
  unfold rank_lt in *. simpl in *.
  destruct c; [injection Hc as -> -> ->| |]; split; try done;
    try (intros (_ & _ & ?); lia).
Qed.

Lemma SFeqb_true (x y : spec_float) :
  SFeqb x y = true <->
  isnan x = false /\ isnan y = false /\ float_rank x = float_rank y.
Proof.
  unfold SFeqb. destruct (isnan x) eqn:Hx.
  { rewrite SFcompare_nan by auto. split; [done|]. by intros [? _]. }
  destruct (isnan y) eqn:Hy.
  { rewrite SFcompare_nan by auto. split; [done|]. by intros (_ & ? & _). }
  destruct (SFcompare_rank x y Hx Hy) as (c & -> & Hc).
  destruct (float_rank x) as [[x1 x2] x3], (float_rank y) as [[y1 y2] y3].
  unfold rank_lt in *. simpl in *.
  destruct c; split; try done; intros (_ & _ & Heq); injection Heq as -> -> ->; lia.
Qed.

(** [operator <] in terms of ranks. *)
Lemma VertexWithDistance_lt_true (a b : VertexWithDistance) :
  VertexWithDistance_lt a b = true <->
  isnan (distance a) = false /\ isnan (distance b) = false /\
  (rank_lt (float_rank (distance a)) (float_rank (distance b)) \/
   (float_rank (distance a) = float_rank (distance b) /\ vertex_id a < vertex_id b)).
Proof.
  unfold VertexWithDistance_lt.
  rewrite orb_true_iff, andb_true_iff, SFltb_true, SFeqb_true, Z.ltb_lt. tauto.
Qed.

Lemma VertexWithDistance_eq_true (a b : VertexWithDistance) :
  VertexWithDistance_eq a b = true <->
  isnan (distance a) = false /\ isnan (distance b) = false /\
  float_rank (distance a) = float_rank (distance b) /\ vertex_id a = vertex_id b.
Proof.
  unfold VertexWithDistance_eq. rewrite andb_true_iff, SFeqb_true, Z.eqb_eq. tauto.
Qed.

Lemma rank_lt_cases (x y : Z * Z * Z) : rank_lt x y \/ x = y \/ rank_lt y x.
Proof.
  destruct x as [[x1 x2] x3], y as [[y1 y2] y3]. unfold rank_lt. simpl.
  destruct (Z.lt_trichotomy x1 y1) as [?|[->|?]]; [lia| |lia].
  destruct (Z.lt_trichotomy x2 y2) as [?|[->|?]]; [lia| |lia].
  destruct (Z.lt_trichotomy x3 y3) as [?|[->|?]]; [lia| |lia].
  right. by left.
Qed.

Lemma rank_lt_trans (x y z : Z * Z * Z) : rank_lt x y -> rank_lt y z -> rank_lt x z.
Proof.
  destruct x as [[x1 x2] x3], y as [[y1 y2] y3], z as [[z1 z2] z3].
  unfold rank_lt. simpl. lia.
Qed.

Lemma rank_lt_irrefl (x : Z * Z * Z) : ~ rank_lt x x.
Proof. destruct x as [[x1 x2] x3]. unfold rank_lt. simpl. lia. Qed.

(** The order of [VertexWithDistance].  [operator <] is a strict partial
    order on all values, [operator >] is its converse, and on values whose
    distance is not a NaN it is total up to [operator ==].  A value whose
    distance is a NaN is neither smaller nor greater than any value, and
    equal to none, itself included; being neither smaller nor greater is
    then not transitive, so that with NaN distances [operator <] is not a
    strict weak order. *)
Theorem VertexWithDistance_order :
  (forall a, VertexWithDistance_lt a a = false) /\
  (forall a b c, VertexWithDistance_lt a b = true -> VertexWithDistance_lt b c = true ->
     VertexWithDistance_lt a c = true) /\
  (forall a b, VertexWithDistance_gt a b = VertexWithDistance_lt b a) /\
  (forall a b, isnan (distance a) = false -> isnan (distance b) = false ->
     VertexWithDistance_eq a b =
       negb (VertexWithDistance_lt a b) && negb (VertexWithDistance_lt b a)) /\
  (forall a b, isnan (distance a) = true ->
     VertexWithDistance_lt a b = false /\ VertexWithDistance_lt b a = false /\
     VertexWithDistance_eq a b = false /\ VertexWithDistance_eq a a = false /\
     VertexWithDistance_ne a a = true) /\
  (exists a n b,
     VertexWithDistance_lt a n = false /\ VertexWithDistance_lt n a = false /\
     VertexWithDistance_lt n b = false /\ VertexWithDistance_lt b n = false /\
     VertexWithDistance_lt a b = true).
Proof.
  split_and!.
  - intros a. apply not_true_iff_false. rewrite VertexWithDistance_lt_true.
    intros (_ & _ & [H|[_ H]]); [by apply rank_lt_irrefl in H|lia].
  - intros a b c. rewrite !VertexWithDistance_lt_true.
    intros (Ha & Hb & Hab) (_ & Hc & Hbc). split; [done|]. split; [done|].
    destruct Hab as [Hab|[Hab ?]], Hbc as [Hbc|[Hbc ?]].
    + left. by eapply rank_lt_trans.
    + left. by rewrite <- Hbc.
    + left. by rewrite Hab.
    + right. split; [congruence|lia].
  - intros a b. unfold VertexWithDistance_gt, VertexWithDistance_lt, SFgtb.
    f_equal. rewrite Z.gtb_ltb. f_equal.
    apply eq_true_iff_eq. rewrite !SFeqb_true. intuition congruence.
  - intros a b Ha Hb. apply eq_true_iff_eq.
    rewrite andb_true_iff, !negb_true_iff, <- !not_true_iff_false,
      VertexWithDistance_eq_true, !VertexWithDistance_lt_true.
    destruct (rank_lt_cases (float_rank (distance a)) (float_rank (distance b)))
      as [Hlt|[Heq|Hgt]].
    + split.
      * intros (_ & _ & Heq & _). rewrite Heq in Hlt. by apply rank_lt_irrefl in Hlt.
      * intros [Hn _]. exfalso. apply Hn. auto.
    + split.
      * intros (_ & _ & _ & Hid). split.
        -- intros (_ & _ & [H|[_ H]]); [rewrite Heq in H; by apply rank_lt_irrefl in H|lia].
        -- intros (_ & _ & [H|[_ H]]); [rewrite Heq in H; by apply rank_lt_irrefl in H|lia].
      * intros [Hn1 Hn2]. split; [done|]. split; [done|]. split; [done|].
        destruct (Z.lt_trichotomy (vertex_id a) (vertex_id b)) as [?|[?|?]]; [|done|].
        -- exfalso. apply Hn1. auto.
        -- exfalso. apply Hn2. auto.
    + split.
      * intros (_ & _ & Heq & _). rewrite Heq in Hgt. by apply rank_lt_irrefl in Hgt.
      * intros [_ Hn]. exfalso. apply Hn. auto.
  - intros a b Ha. split_and!.
    + apply not_true_iff_false. rewrite VertexWithDistance_lt_true. intros (? & _). congruence.
    + apply not_true_iff_false. rewrite VertexWithDistance_lt_true. intros (_ & ? & _). congruence.
    + apply not_true_iff_false. rewrite VertexWithDistance_eq_true. intros (? & _). congruence.
    + apply not_true_iff_false. rewrite VertexWithDistance_eq_true. intros (? & _). congruence.
    + unfold VertexWithDistance_ne. apply negb_true_iff.
      apply not_true_iff_false. rewrite VertexWithDistance_eq_true. intros (? & _). congruence.
  - exists {| vertex_id := 1; distance := S754_finite false 1 0 |},
           {| vertex_id := 2; distance := S754_nan |},
           {| vertex_id := 3; distance := S754_finite false 1 1 |}.
    by split_and!.
Qed.
